(** * Communication/compute overlap scheduling (torch/_inductor/comms.py)

    A shallow embedding of the reordering passes of [comms.py] and the
    verification of their documented properties.

    The fx graph is a shared object store in the source: every [fx.Node]
    carries a unique [name], a tuple [args], a dict [users] and a [meta]
    dict.  Nodes are identified here with their names, and the attributes
    are read through a [Graph] record. *)

From Stdlib Require Import QArith.
From stdpp Require Import gmap strings list sorting.

(** ** Outcomes of running a piece of the source *)

Inductive exn : Type :=
| KeyError
| IndexError
| AssertionError.

Inductive outcome (A : Type) : Type :=
| Ok (a : A)
| Raise (e : exn)
| OutOfFuel.

Arguments Ok {A} a.
Arguments Raise {A} e.
Arguments OutOfFuel {A}.

Definition bind {A B : Type} (m : outcome A) (k : A → outcome B) : outcome B :=
  match m with
  | Ok a => k a
  | Raise e => Raise e
  | OutOfFuel => OutOfFuel
  end.

#[global] Instance outcome_ret : MRet outcome := @Ok.
#[global] Instance outcome_bind : MBind outcome := λ A B k m, bind m k.

Definition assert (b : bool) : outcome unit :=
  if b then Ok tt else Raise AssertionError.

(** ** Data model *)

Abbreviation Node := string.

(** Modelled from the spec: the classes of module [ir], which is outside
    the file; the spec's kind tag [Compute | CommStart | Wait] stands for
    the class of [snode.node] ([ir.CollectiveKernel] is [CommStart],
    [ir.Wait] is [Wait]). *)
Inductive Kind : Type :=
| Compute
| CommStart
| Wait.

#[global] Instance Kind_eq_dec : EqDecision Kind.
Proof. solve_decision. Defined.

(** A scheduler node, as far as this file looks into it: [get_name()] and
    the IR node [snode.node] whose class is tested. *)
Record SchedulerNode : Type := {
  get_name : string;
  ir_node : Kind;
}.

(** [meta g n] is [n.meta["fusion_meta"].snode], [None] when the key
    ["fusion_meta"] is absent from [n.meta]. *)
Record Graph : Type := {
  meta : Node → option SchedulerNode;
  args : Node → list Node;
  users : Node → list Node;
}.

Definition has_fusion_meta (g : Graph) (node : Node) : bool :=
  bool_decide (is_Some (meta g node)).

(** [node.meta["fusion_meta"].snode] *)
Definition snode (g : Graph) (node : Node) : outcome SchedulerNode :=
  match meta g node with
  | Some s => Ok s
  | None => Raise KeyError
  end.

(** [isinstance(node.meta["fusion_meta"].snode.node, k)] *)
Definition isinstance (g : Graph) (node : Node) (k : Kind) : outcome bool :=
  s ← snode g node; Ok (bool_decide (ir_node s = k)).

(** ** [sorted] and [tuple_sorted] *)

(** Python's [sorted(l, key=key)] is a stable sort; insertion from the
    right, placing an element before the first one whose key is not
    smaller, is one. *)
Section sorted.
Context {A K : Type} (le : relation K) `{!RelDecision le} (key : A → K).

Fixpoint insert_sorted (x : A) (l : list A) : list A :=
  match l with
  | [] => [x]
  | y :: l' =>
    if decide (le (key x) (key y)) then x :: l else y :: insert_sorted x l'
  end.

Definition sorted (l : list A) : list A := foldr insert_sorted [] l.
End sorted.

(** [sorted(tuple(x), key=lambda x: x.name)] *)
Definition tuple_sorted (x : list Node) : list Node :=
  sorted String.le (λ n : Node, n) x.

(** ** [sink_waits] *)

(** The inner loop [for wait in tuple_sorted(cur_waits)] at one [node]. *)
Fixpoint sink_waits_release (g : Graph) (node : Node) (waits : list Node)
    (new_result : list Node) (cur_waits : gset Node)
    : list Node * gset Node :=
  match waits with
  | [] => (new_result, cur_waits)
  | wait :: waits' =>
    if bool_decide (node ∈ users g wait)
    then sink_waits_release g node waits' (new_result ++ [wait])
           (cur_waits ∖ {[wait]})
    else sink_waits_release g node waits' new_result cur_waits
  end.

(** The loop [for node in result]. *)
Fixpoint sink_waits_loop (g : Graph) (result : list Node)
    (new_result : list Node) (cur_waits : gset Node)
    : outcome (list Node * gset Node) :=
  match result with
  | [] => Ok (new_result, cur_waits)
  | node :: result' =>
    is_wait ← isinstance g node Wait;
    if is_wait : bool
    then sink_waits_loop g result' new_result ({[node]} ∪ cur_waits)
    else
      let '(new_result, cur_waits) :=
        sink_waits_release g node (tuple_sorted (elements cur_waits))
          new_result cur_waits in
      sink_waits_loop g result' (new_result ++ [node]) cur_waits
  end.

Definition sink_waits (g : Graph) (result : list Node) : outcome (list Node) :=
  '(new_result, cur_waits) ← sink_waits_loop g result [] ∅;
  Ok (new_result ++ tuple_sorted (elements cur_waits)).

(** ** [raise_comms] *)

(** [any([node in comm.args for comm in cur_comms])] *)
Definition any_comm_uses (g : Graph) (node : Node) (cur_comms : list Node)
    : bool :=
  existsb (λ comm, bool_decide (node ∈ args g comm)) cur_comms.

(** The loop [while len(cur_comms) > 0 and any(...)]: the head of the queue
    is popped, whichever pending comm it is that takes [node]. *)
Fixpoint raise_comms_pop (g : Graph) (node : Node) (cur_comms : list Node)
    (new_result : list Node) : list Node * list Node :=
  match cur_comms with
  | [] => (new_result, [])
  | comm :: cur_comms' =>
    if any_comm_uses g node cur_comms
    then raise_comms_pop g node cur_comms' (new_result ++ [comm])
    else (new_result, cur_comms)
  end.

(** The loop [for node in reversed(result)]; [rev_result] is the reversed
    list. *)
Fixpoint raise_comms_loop (g : Graph) (rev_result : list Node)
    (new_result : list Node) (cur_comms : list Node)
    : outcome (list Node * list Node) :=
  match rev_result with
  | [] => Ok (new_result, cur_comms)
  | node :: rev_result' =>
    is_comm ← isinstance g node CommStart;
    if is_comm : bool
    then raise_comms_loop g rev_result' new_result (cur_comms ++ [node])
    else
      let '(new_result, cur_comms) :=
        raise_comms_pop g node cur_comms new_result in
      raise_comms_loop g rev_result' (new_result ++ [node]) cur_comms
  end.

Definition raise_comms (g : Graph) (result : list Node) : outcome (list Node) :=
  '(new_result, cur_comms) ← raise_comms_loop g (reverse result) [] [];
  _ ← assert (bool_decide (length cur_comms ≤ 1));
  Ok (reverse (new_result ++ tuple_sorted cur_comms)).

(** ** [get_ancestors] and [get_descendants] *)

(** The body of the innermost loop: [if inp not in seen: seen.add(inp);
    new_nodes.append(inp)]. *)
Definition visit (acc : gset Node * list Node) (inp : Node)
    : gset Node * list Node :=
  if bool_decide (inp ∈ acc.1) then acc
  else ({[inp]} ∪ acc.1, acc.2 ++ [inp]).

(** The two nested [for] loops over one frontier [cur_nodes]. *)
Definition visit_frontier (next : Node → list Node)
    (seen : gset Node) (cur_nodes : list Node) : gset Node * list Node :=
  foldl (λ acc node, foldl visit acc (next node)) (seen, []) cur_nodes.

(** The loop [while len(cur_nodes) > 0], one unit of fuel per round. *)
Fixpoint traverse (fuel : nat) (next : Node → list Node)
    (seen : gset Node) (cur_nodes : list Node) : outcome (gset Node) :=
  match cur_nodes with
  | [] => Ok seen
  | _ :: _ =>
    match fuel with
    | O => OutOfFuel
    | S fuel' =>
      let '(seen', new_nodes) := visit_frontier next seen cur_nodes in
      traverse fuel' next seen' new_nodes
    end
  end.

Definition get_ancestors (fuel : nat) (g : Graph) (node : Node)
    : outcome (gset Node) :=
  traverse fuel (args g) ∅ [node].

Definition get_descendants (fuel : nat) (g : Graph) (node : Node)
    : outcome (gset Node) :=
  traverse fuel (users g) ∅ [node].

(** ** [decide_global_ordering_comms] *)

Inductive Dep : Type :=
| WeakDep (name : string).

#[global] Instance Dep_eq_dec : EqDecision Dep.
Proof. solve_decision. Defined.

(** Modelled from the spec: [add_mutation_dep] of the scheduler module,
    which is outside the file; it adds an ordering-only dependency to the
    node, and doing so twice changes nothing.  The dependencies are kept
    per node name, in the order they were added. *)
Definition add_mutation_dep (n : SchedulerNode) (dep : Dep)
    (deps : gmap string (list Dep)) : gmap string (list Dep) :=
  let old := default [] (deps !! get_name n) in
  if bool_decide (dep ∈ old) then deps
  else <[get_name n := old ++ [dep]]> deps.

Definition decide_global_ordering_comms (nodes : list SchedulerNode)
    (deps : gmap string (list Dep)) : gmap string (list Dep) :=
  let comm_nodes := filter (λ n, ir_node n = CommStart) nodes in
  foldl (λ deps i,
           match comm_nodes !! i, comm_nodes !! (i - 1) with
           | Some later, Some earlier =>
             add_mutation_dep later (WeakDep (get_name earlier)) deps
           | _, _ => deps
           end)
        deps (seq 1 (length comm_nodes - 1)).

(** ** [dumb_reordering] *)

Definition dumb_reordering (g : Graph) (nodes : list Node)
    : outcome (list SchedulerNode) :=
  let nodes := filter (λ node, has_fusion_meta g node = true) nodes in
  nodes ← sink_waits g nodes;
  nodes ← raise_comms g nodes;
  mapM (snode g) nodes.

(** ** [smart_reordering] *)

(** The state shared by the closures [add_node] and [add_all_nodes]. *)
Record State : Type := {
  indeg : gmap Node Z;
  free_nodes : gset Node;
  unused_nodes : gset Node;
  result : list Node;
}.

(** [for node in nodes: if isinstance(...): comm_nodes.append(node)] *)
Fixpoint collect_comm_nodes (g : Graph) (nodes : list Node)
    : outcome (list Node) :=
  match nodes with
  | [] => Ok []
  | node :: nodes' =>
    is_comm ← isinstance g node CommStart;
    comm_nodes ← collect_comm_nodes g nodes';
    Ok (if is_comm : bool then node :: comm_nodes else comm_nodes)
  end.

(** A dict comprehension [{node: f(node) for node in keys}]. *)
Fixpoint dict_of {V : Type} (f : Node → outcome V) (keys : list Node)
    (d : gmap Node V) : outcome (gmap Node V) :=
  match keys with
  | [] => Ok d
  | k :: keys' => v ← f k; dict_of f keys' (<[k := v]> d)
  end.

(** [if user in indeg: indeg[user] += 1] *)
Definition count_user (indeg : gmap Node Z) (user : Node) : gmap Node Z :=
  match indeg !! user with
  | Some d => <[user := (d + 1)%Z]> indeg
  | None => indeg
  end.

(** [indeg] after the loop over [nodes] (the [buf_uses] bookkeeping of
    that loop is never read and is left out). *)
Definition initial_indeg (g : Graph) (nodes : list Node) : gmap Node Z :=
  foldl (λ indeg node, foldl count_user indeg (users g node))
        (foldl (λ indeg k, <[k := 0%Z]> indeg) ∅ nodes) nodes.

Definition initial_state (g : Graph) (nodes : list Node) : State :=
  let indeg := initial_indeg g nodes in
  {| indeg := indeg;
     free_nodes :=
       list_to_set (filter (λ node, indeg !! node = Some 0%Z) nodes);
     unused_nodes :=
       list_to_set (filter (λ node, has_fusion_meta g node = true) nodes);
     result := [] |}.

(** The loop body of [add_node]: [if user in indeg: indeg[user] -= 1; if
    indeg[user] == 0: free_nodes.add(user)]. *)
Definition release_user (st : State) (user : Node) : State :=
  match indeg st !! user with
  | Some d =>
    {| indeg := <[user := (d - 1)%Z]> (indeg st);
       free_nodes :=
         if bool_decide ((d - 1)%Z = 0%Z) then {[user]} ∪ free_nodes st
         else free_nodes st;
       unused_nodes := unused_nodes st;
       result := result st |}
  | None => st
  end.

Definition add_node (g : Graph) (node : Node) (st : State) : outcome State :=
  _ ← assert (bool_decide (node ∈ unused_nodes st));
  _ ← assert (bool_decide (node ∈ free_nodes st));
  Ok (foldl release_user
        {| indeg := indeg st;
           free_nodes := free_nodes st ∖ {[node]};
           unused_nodes := unused_nodes st ∖ {[node]};
           result := result st ++ [node] |}
        (users g node)).

(** One round of [for node in tuple_sorted(all_nodes)]. *)
Fixpoint add_all_nodes_pass (g : Graph) (sorted_nodes : list Node)
    (all_nodes : gset Node) (st : State) : outcome (gset Node * State) :=
  match sorted_nodes with
  | [] => Ok (all_nodes, st)
  | node :: sorted_nodes' =>
    if bool_decide (node ∈ free_nodes st)
    then st' ← add_node g node st;
         add_all_nodes_pass g sorted_nodes' (all_nodes ∖ {[node]}) st'
    else add_all_nodes_pass g sorted_nodes' all_nodes st
  end.

(** The loop [while len(all_nodes) > 0], one unit of fuel per round. *)
Fixpoint add_all_nodes_loop (fuel : nat) (g : Graph) (all_nodes : gset Node)
    (st : State) : outcome State :=
  if bool_decide (0 < size all_nodes) then
    match fuel with
    | O => OutOfFuel
    | S fuel' =>
      '(all_nodes', st') ←
        add_all_nodes_pass g (tuple_sorted (elements all_nodes)) all_nodes st;
      add_all_nodes_loop fuel' g all_nodes' st'
    end
  else Ok st.

Definition add_all_nodes (fuel : nat) (g : Graph) (nodes : list Node)
    (st : State) : outcome State :=
  let all_nodes : gset Node := list_to_set nodes in
  _ ← assert (forallb (λ node, bool_decide (node ∈ unused_nodes st))
                (elements all_nodes));
  add_all_nodes_loop fuel g all_nodes st.

(** [get_runtime_snode] of the analysis module is the cost oracle [cost];
    it is outside the file and opaque to it. *)
Definition get_runtime_fx (g : Graph) (cost : SchedulerNode → Q)
    (node : Node) : outcome Q :=
  s ← snode g node; Ok (cost s).

(** [comm_nodes] with the two dicts computed from it. *)
Record Comms : Type := {
  comm_nodes : list Node;
  comm_ancestors : gmap Node (gset Node);
  comm_descendants : gmap Node (gset Node);
}.

(** [comm_nodes[idx]] *)
Definition comm_at (cs : Comms) (idx : nat) : outcome Node :=
  match comm_nodes cs !! idx with
  | Some c => Ok c
  | None => Raise IndexError
  end.

(** [d[k]] *)
Definition getitem {V : Type} (d : gmap Node V) (k : Node) : outcome V :=
  match d !! k with
  | Some v => Ok v
  | None => Raise KeyError
  end.

(** [earliest_comm_descendant]: the loop over [range(len(comm_nodes))],
    started at index [idx]. *)
Fixpoint earliest_from (cs : Comms) (node : Node) (idx : nat)
    (comms : list Node) : outcome nat :=
  match comms with
  | [] => Ok (length (comm_nodes cs))
  | c :: comms' =>
    anc ← getitem (comm_ancestors cs) c;
    if bool_decide (node ∈ anc) then Ok idx
    else earliest_from cs node (S idx) comms'
  end.

Definition earliest_comm_descendant (cs : Comms) (node : Node) : outcome nat :=
  earliest_from cs node 0 (comm_nodes cs).

(** [sorted(overlappable_nodes, key=earliest_comm_descendant)]: the keys
    are computed first, one call per element, then the list is sorted. *)
Definition sorted_by_earliest (cs : Comms) (overlappable_nodes : list Node)
    : outcome (list Node) :=
  keyed ← mapM (λ node, k ← earliest_comm_descendant cs node; Ok (k, node))
               overlappable_nodes;
  Ok ((sorted le fst keyed).*2).

(** The loop [for node in overlappable_nodes] of Priority 2. *)
Fixpoint priority2_loop (g : Graph) (cost : SchedulerNode → Q)
    (comm_cost : Q) (overlappable_nodes : list Node)
    (st : State) (total_cost : Q) : outcome (State * Q) :=
  match overlappable_nodes with
  | [] => Ok (st, total_cost)
  | node :: overlappable_nodes' =>
    if Qle_bool comm_cost total_cost then Ok (st, total_cost)
    else
      is_comm ← isinstance g node CommStart;
      if is_comm : bool
      then priority2_loop g cost comm_cost overlappable_nodes' st total_cost
      else
        runtime_cost ← get_runtime_fx g cost node;
        if Qle_bool (comm_cost - total_cost) (runtime_cost / 2)
        then priority2_loop g cost comm_cost overlappable_nodes' st total_cost
        else
          st' ← add_node g node st;
          c ← get_runtime_fx g cost node;
          priority2_loop g cost comm_cost overlappable_nodes' st'
            (total_cost + c)%Q
  end.

(** Priority 1 of one round: the batch is scheduled; the result carries
    [total_cost] and [comm_cost]. *)
Definition priority1_step (fuel : nat) (g : Graph) (cost : SchedulerNode → Q)
    (cs : Comms) (idx : nat) (st : State) (rolled_over_compute : Q)
    : outcome (State * Q * Q) :=
  prev ← comm_at cs (idx - 1);
  next ← comm_at cs idx;
  anc_next ← getitem (comm_ancestors cs) next;
  desc_prev ← getitem (comm_descendants cs) prev;
  let priority1 := unused_nodes st ∩ (anc_next ∖ desc_prev) in
  costs ← mapM (get_runtime_fx g cost) (elements priority1);
  let total_cost := (rolled_over_compute + foldl Qplus 0 costs)%Q in
  comm_cost ← get_runtime_fx g cost prev;
  st' ← add_all_nodes fuel g (tuple_sorted (elements priority1)) st;
  Ok (st', total_cost, comm_cost).

(** Priority 2 of one round. *)
Definition priority2_step (g : Graph) (cost : SchedulerNode → Q)
    (cs : Comms) (idx : nat) (st : State) (total_cost comm_cost : Q)
    : outcome (State * Q) :=
  if Qle_bool comm_cost total_cost then Ok (st, total_cost)
  else
    prev ← comm_at cs (idx - 1);
    desc_prev ← getitem (comm_descendants cs) prev;
    let overlappable_nodes :=
      tuple_sorted (elements (free_nodes st ∖ desc_prev)) in
    overlappable_nodes ← sorted_by_earliest cs overlappable_nodes;
    priority2_loop g cost comm_cost overlappable_nodes st total_cost.

(** Priority 3 of one round. *)
Definition priority3_step (fuel : nat) (g : Graph) (cs : Comms) (idx : nat)
    (st : State) : outcome State :=
  next ← comm_at cs idx;
  anc_next ← getitem (comm_ancestors cs) next;
  let priority3 := unused_nodes st ∩ anc_next in
  add_all_nodes fuel g (elements priority3 ++ [next]) st.

(** [is_comm_blocking] *)
Definition is_comm_blocking (cs : Comms) (idx : nat) : outcome bool :=
  prev ← comm_at cs (idx - 1);
  next ← comm_at cs idx;
  desc_prev ← getitem (comm_descendants cs) prev;
  anc_next ← getitem (comm_ancestors cs) next;
  Ok (bool_decide (0 < size (desc_prev ∩ anc_next))).

(** The body of the main loop, for the pair [(comm_nodes[idx - 1],
    comm_nodes[idx])]. *)
Definition round (fuel : nat) (g : Graph) (cost : SchedulerNode → Q)
    (cs : Comms) (idx : nat) (st : State) (rolled_over_compute : Q)
    : outcome (State * Q) :=
  blocking ← is_comm_blocking cs idx;
  '(st1, total_cost, comm_cost) ←
    priority1_step fuel g cost cs idx st rolled_over_compute;
  let group1_cost := total_cost in
  '(st2, total_cost) ← priority2_step g cost cs idx st1 total_cost comm_cost;
  let rollable_compute := (total_cost - group1_cost)%Q in
  let rolled_over_compute := if blocking : bool then 0%Q else rollable_compute in
  st3 ← priority3_step fuel g cs idx st2;
  Ok (st3, rolled_over_compute).

(** The loop [for idx in range(1, len(comm_ancestors))]. *)
Fixpoint rounds (fuel : nat) (g : Graph) (cost : SchedulerNode → Q)
    (cs : Comms) (idxs : list nat) (st : State) (rolled_over_compute : Q)
    : outcome (State * Q) :=
  match idxs with
  | [] => Ok (st, rolled_over_compute)
  | idx :: idxs' =>
    '(st', rolled_over_compute') ← round fuel g cost cs idx st rolled_over_compute;
    rounds fuel g cost cs idxs' st' rolled_over_compute'
  end.

(** The state once every comm is scheduled: the ancestors of the first
    comm and that comm, then one round per later comm. *)
Definition schedule_comms (fuel : nat) (g : Graph) (cost : SchedulerNode → Q)
    (nodes : list Node) (comms : list Node) : outcome State :=
  comm_ancestors ← dict_of (get_ancestors fuel g) comms ∅;
  comm_descendants ← dict_of (get_descendants fuel g) comms ∅;
  let cs := {| comm_nodes := comms;
               comm_ancestors := comm_ancestors;
               comm_descendants := comm_descendants |} in
  let st := initial_state g nodes in
  first ← comm_at cs 0;
  anc_first ← getitem comm_ancestors first;
  st ← add_all_nodes fuel g (elements anc_first ++ [first]) st;
  '(st, _) ← rounds fuel g cost cs (seq 1 (size comm_ancestors - 1)) st 0%Q;
  Ok st.

(** The schedule before the two cleanup passes. *)
Definition schedule (fuel : nat) (g : Graph) (cost : SchedulerNode → Q)
    (nodes : list Node) (comms : list Node) : outcome (list Node) :=
  st ← schedule_comms fuel g cost nodes comms;
  st ← add_all_nodes fuel g (elements (unused_nodes st)) st;
  Ok (result st).

Definition smart_reordering (fuel : nat) (g : Graph)
    (cost : SchedulerNode → Q) (nodes : list Node) : outcome (list Node) :=
  let nodes := filter (λ node, has_fusion_meta g node = true) nodes in
  comm_nodes ← collect_comm_nodes g nodes;
  if bool_decide (length comm_nodes = 0) then Ok nodes
  else
    result ← schedule fuel g cost nodes comm_nodes;
    result ← sink_waits g result;
    raise_comms g result.

(** ** Vocabulary of the properties *)

(** The class test as a plain boolean: [false] on a node without
    ["fusion_meta"], where [isinstance] raises. *)
Definition is_kind (g : Graph) (k : Kind) (node : Node) : bool :=
  bool_decide (ir_node <$> meta g node = Some k).

(** [a] stands somewhere before [b] in [l]. *)
Definition before {A : Type} (l : list A) (a b : A) : Prop :=
  ∃ l1 l2 l3, l = l1 ++ a :: l2 ++ b :: l3.

(** [l] is a topological order: whenever [u] is an argument of [v] and
    both stand in [l], every place of [u] is before every place of [v]. *)
Definition topological (g : Graph) (l : list Node) : Prop :=
  ∀ i j u v, l !! i = Some u → l !! j = Some v → u ∈ args g v → i < j.

(** The waits released at [node] out of the pending ones, in name order. *)
Definition released (g : Graph) (node : Node) (cur_waits : gset Node)
    : list Node :=
  filter (λ wait, node ∈ users g wait) (tuple_sorted (elements cur_waits)).

(** What [sink_waits] emits from [result] on, with [cur_waits] pending. *)
Fixpoint sunk (g : Graph) (result : list Node) (cur_waits : gset Node)
    : list Node :=
  match result with
  | [] => tuple_sorted (elements cur_waits)
  | node :: result' =>
    if is_kind g Wait node then sunk g result' ({[node]} ∪ cur_waits)
    else released g node cur_waits ++
         node :: sunk g result' (cur_waits ∖ list_to_set (released g node cur_waits))
  end.

(** The shape of a sunk sequence: runs of waits in name order, each run
    closed by a node that uses every wait of the run; a last run of waits
    closes the sequence. *)
Inductive sunk_form (g : Graph) : list Node → Prop :=
| sunk_form_end (waits : list Node) :
    Forall (λ w, is_kind g Wait w = true) waits →
    StronglySorted String.le waits → NoDup waits →
    sunk_form g waits
| sunk_form_run (waits : list Node) (node : Node) (rest : list Node) :
    Forall (λ w, is_kind g Wait w = true) waits →
    StronglySorted String.le waits → NoDup waits →
    Forall (λ w, node ∈ users g w) waits →
    is_kind g Wait node = false →
    sunk_form g rest →
    sunk_form g (waits ++ node :: rest).

(** What [raise_comms] emits, and the queue it is left with, scanning
    [rev_result] with [cur_comms] pending. *)
Fixpoint raised (g : Graph) (rev_result : list Node) (cur_comms : list Node)
    : list Node * list Node :=
  match rev_result with
  | [] => ([], cur_comms)
  | node :: rev_result' =>
    if is_kind g CommStart node
    then raised g rev_result' (cur_comms ++ [node])
    else
      let p := raise_comms_pop g node cur_comms [] in
      let r := raised g rev_result' p.2 in
      (p.1 ++ node :: r.1, r.2)
  end.

(** The shape of [new_result] once the queue is flushed: runs of comms,
    each closed by a node that is an argument of the last comm of the run;
    at most one comm closes the sequence. *)
Inductive raised_form (g : Graph) : list Node → Prop :=
| raised_form_end (comms : list Node) :
    Forall (λ c, is_kind g CommStart c = true) comms →
    length comms ≤ 1 →
    raised_form g comms
| raised_form_run (comms : list Node) (node : Node) (rest : list Node) :
    Forall (λ c, is_kind g CommStart c = true) comms →
    (∀ comms' c, comms = comms' ++ [c] → node ∈ args g c) →
    is_kind g CommStart node = false →
    raised_form g rest →
    raised_form g (comms ++ node :: rest).

(** [w] is followed by waits only, up to a node that uses [w] or up to
    the end. *)
Definition wait_placed (g : Graph) (w : Node) (post : list Node) : Prop :=
  ∃ waits rest,
    post = waits ++ rest ∧
    Forall (λ x, is_kind g Wait x = true) waits ∧
    (rest = [] ∨
     ∃ node rest', rest = node :: rest' ∧ is_kind g Wait node = false ∧
                   node ∈ users g w).


(** Every pending node is a wait. *)
Definition all_waits (g : Graph) (cur_waits : gset Node) : Prop :=
  ∀ w, w ∈ cur_waits → is_kind g Wait w = true.


Definition is_comm (g : Graph) (n : Node) : Prop :=
  is_kind g CommStart n = true.

#[global] Instance is_comm_dec (g : Graph) (n : Node) : Decision (is_comm g n).
Proof. unfold is_comm. apply _. Defined.

(** ** The claims as the specification words them *)

(** "[w] immediately precedes the earliest node of the sequence that has
    [w] as an input, or, if no node of the sequence uses [w], [w] is the
    last element", for the wait at place [i] of [out]. *)
Definition wait_before_first_user (g : Graph) (out : list Node) (i : nat)
    (w : Node) : Prop :=
  match list_find (λ u, u ∈ users g w) out with
  | Some (j, _) => j = S i
  | None => S i = length out
  end.

(** The place of the last argument of [c] in [out]. *)
Definition last_arg_index (g : Graph) (out : list Node) (c : Node)
    : option nat :=
  (λ p : nat * Node, length out - 1 - p.1) <$>
    list_find (λ u, u ∈ args g c) (reverse out).

(** "[c] appears immediately after the last of its own predecessors, or
    as the first element if it has no predecessor in the sequence", for
    the comm at place [i] of [out]. *)
Definition comm_after_last_arg (g : Graph) (out : list Node) (i : nat)
    (c : Node) : Prop :=
  match last_arg_index g out c with
  | Some j => i = S j
  | None => i = 0
  end.

(** ** Concrete graphs *)

(** A graph given by rows [(name, kind, args)]; [users] is the inverse of
    [args], in row order; a node outside the rows has no ["fusion_meta"]. *)
Definition row_of (rows : list (Node * Kind * list Node)) (n : Node)
    : option (Node * Kind * list Node) :=
  snd <$> list_find (λ r, r.1.1 = n) rows.

Definition graph_of (rows : list (Node * Kind * list Node)) : Graph :=
  {| meta := λ n,
       (λ r, {| get_name := n; ir_node := r.1.2 |}) <$> row_of rows n;
     args := λ n, from_option (λ r, r.2) [] (row_of rows n);
     users := λ n, (λ r, r.1.1) <$> filter (λ r, n ∈ r.2) rows |}.

(** The scenario of the specification: [A -> C1 -> W1 -> B -> C2 -> W2 -> D];
    with [direct], [B] also takes [C1] itself, and with [ordered] the
    ordering edge [C1 -> C2] is present. *)
Definition scenario (direct ordered : bool) : Graph :=
  graph_of
    [("A", Compute, []);
     ("C1", CommStart, ["A"]);
     ("W1", Wait, ["C1"]);
     ("B", Compute, (if direct then ["C1"] else []) ++ ["W1"]);
     ("C2", CommStart, ["B"] ++ (if ordered then ["C1"] else []));
     ("W2", Wait, ["C2"]);
     ("D", Compute, ["W2"])].

Definition scenario_nodes : list Node :=
  ["A"; "C1"; "W1"; "B"; "C2"; "W2"; "D"].

Definition scenario_cost (s : SchedulerNode) : Q :=
  if decide (get_name s = "A") then 1
  else if decide (get_name s = "C1") then 5
  else if decide (get_name s = "B") then 2
  else if decide (get_name s = "C2") then 5
  else if decide (get_name s = "D") then 1
  else 0.

(** Two waits on one comm, both taken by [N]. *)
Definition two_waits : Graph :=
  graph_of
    [("C", CommStart, []);
     ("W1", Wait, ["C"]);
     ("W2", Wait, ["C"]);
     ("N", Compute, ["W1"; "W2"])].

(** Two comms that take the same node. *)
Definition two_comms : Graph :=
  graph_of
    [("A", Compute, []);
     ("C1", CommStart, ["A"]);
     ("C2", CommStart, ["A"])].

(** A graph none of whose nodes carries ["fusion_meta"]. *)
Definition no_meta : Graph :=
  {| meta := λ _, None; args := λ _, []; users := λ _, [] |}.

(** Two nodes that take each other. *)
Definition two_cycle : Graph :=
  graph_of
    [("a", Compute, ["b"]);
     ("b", Compute, ["a"])].

(** A comm followed by two nodes that take each other. *)
Definition comm_and_cycle : Graph :=
  graph_of
    [("c", CommStart, []);
     ("a", Compute, ["b"]);
     ("b", Compute, ["a"])].

(** [B] is needed by [C2] and does not wait on [C1]; it costs more than
    [C1]. *)
Definition filled : Graph :=
  graph_of
    [("A", Compute, []);
     ("C1", CommStart, ["A"]);
     ("B", Compute, []);
     ("C2", CommStart, ["B"])].

Definition filled_cost (s : SchedulerNode) : Q :=
  if decide (get_name s = "B") then 7
  else if decide (get_name s = "C1") then 5
  else 1.

(** The value of an outcome that is known to be [Ok]. *)
Definition value {A : Type} (d : A) (m : outcome A) : A :=
  match m with
  | Ok a => a
  | _ => d
  end.

Definition filled_nodes : list Node := ["A"; "C1"; "B"; "C2"].

(** The dicts and the state of [smart_reordering] on [filled] when its
    main loop starts. *)
Definition filled_comms : Comms :=
  {| comm_nodes := ["C1"; "C2"];
     comm_ancestors :=
       value ∅ (dict_of (get_ancestors 5 filled) ["C1"; "C2"] ∅);
     comm_descendants :=
       value ∅ (dict_of (get_descendants 5 filled) ["C1"; "C2"] ∅) |}.

Definition filled_state : State :=
  value (initial_state filled filled_nodes)
    (add_all_nodes 5 filled ["A"; "C1"] (initial_state filled filled_nodes)).

(** ** Vocabulary of the scheduler's state *)

(** From [st] to [st'] the nodes [ext] were scheduled: appended to
    [result] and taken out of [unused_nodes], where each of them was. *)
Definition advances_by (ext : list Node) (st st' : State) : Prop :=
  result st' = result st ++ ext ∧
  unused_nodes st' = unused_nodes st ∖ list_to_set ext ∧
  NoDup ext ∧
  ∀ x, x ∈ ext → x ∈ unused_nodes st.

Definition advances (st st' : State) : Prop :=
  ∃ ext, advances_by ext st st'.

(** The first [k] comms are scheduled, in their order. *)
Definition comms_in_order (comms : list Node) (k : nat) (st : State) : Prop :=
  (∀ a b, before (take k comms) a b → before (result st) a b) ∧
  (∀ a, a ∈ take k comms → a ∈ result st).

(** ** Well-formed graphs *)

(** [users] is a dict, so no user is listed twice, and it is the inverse
    of [args]. *)
Record well_formed (g : Graph) : Prop := {
  users_NoDup : ∀ u, NoDup (users g u);
  users_args : ∀ u v, (v ∈ users g u ↔ u ∈ args g v);
}.

(** No wait of [l] is an argument of a wait of [l]. *)
Definition no_wait_on_wait (g : Graph) (l : list Node) : Prop :=
  ∀ u v, u ∈ l → v ∈ l → u ∈ args g v →
         is_kind g Wait u = true → is_kind g Wait v = true → False.

(** The nodes of [nodes] that are not in [res] and have [v] as a user. *)
Definition pending (g : Graph) (nodes res : list Node) (v : Node)
    : list Node :=
  filter (λ u, (u ∉ res) ∧ v ∈ users g u) nodes.

(** The invariant of the scheduler's state, for the node list [nodes]. *)
Record Inv (g : Graph) (nodes : list Node) (st : State) : Prop := {
  inv_NoDup : NoDup (result st);
  inv_result : ∀ x, x ∈ result st → x ∈ nodes;
  inv_unused : ∀ x, (x ∈ unused_nodes st ↔ x ∈ nodes ∧ x ∉ result st);
  inv_indeg : ∀ v, v ∈ nodes →
    indeg st !! v = Some (Z.of_nat (length (pending g nodes (result st) v)));
  inv_indeg_dom : ∀ v, v ∉ nodes → indeg st !! v = None;
  inv_free : ∀ v, (v ∈ free_nodes st ↔
    v ∈ nodes ∧ (v ∉ result st) ∧ pending g nodes (result st) v = []);
  inv_closed : ∀ l1 v l2, result st = l1 ++ v :: l2 →
    ∀ u, u ∈ nodes → v ∈ users g u → u ∈ l1;
}.

(** [new_result] of [raise_comms] with the queue flushed, before the
    final reversal. *)
Definition flushed (g : Graph) (rev_result cur_comms : list Node)
    : list Node :=
  (raised g rev_result cur_comms).1 ++ (raised g rev_result cur_comms).2.

(** Every node of [nodes] that is not scheduled yet and has a user in
    [S] is in [S] itself. *)
Definition pred_closed (g : Graph) (nodes : list Node) (st : State)
    (S : gset Node) : Prop :=
  ∀ x y, x ∈ S → y ∈ nodes → x ∈ users g y → y ∉ result st → y ∈ S.

(** [A] holds what [next] gives on [c] and on its own members. *)
Definition closed_under (next : Node → list Node) (c : Node) (A : gset Node)
    : Prop :=
  (∀ y, y ∈ next c → y ∈ A) ∧ (∀ x y, x ∈ A → y ∈ next x → y ∈ A).

(** The dicts hold closed sets. *)
Definition comms_closed (g : Graph) (cs : Comms) : Prop :=
  (∀ c A, comm_ancestors cs !! c = Some A → closed_under (args g) c A) ∧
  (∀ c D, comm_descendants cs !! c = Some D → closed_under (users g) c D).

(** A computation that does not run out of fuel. *)
Definition terminates {A : Type} (m : outcome A) : Prop := m ≠ OutOfFuel.

(** [m'] is what [m] becomes with more fuel: the same outcome, unless [m]
    ran out. *)
Definition refines {A : Type} (m m' : outcome A) : Prop :=
  m = OutOfFuel ∨ m = m'.

(** An edge between two nodes of [nodes], and a cycle of such edges. *)
Definition edge (g : Graph) (nodes : list Node) (u v : Node) : Prop :=
  u ∈ nodes ∧ v ∈ nodes ∧ v ∈ users g u.

Definition cyclic (g : Graph) (nodes : list Node) : Prop :=
  ∃ x, tc (edge g nodes) x x.

(** A check for [topological]: no argument of a node stands at the place
    of the node or later. *)
Fixpoint args_not_later (g : Graph) (l : list Node) : bool :=
  match l with
  | [] => true
  | v :: rest =>
    forallb (λ u, bool_decide (u ∉ l)) (args g v) && args_not_later g rest
  end.

(** A check for [no_wait_on_wait]. *)
Definition no_wait_on_wait_check (g : Graph) (l : list Node) : bool :=
  forallb (λ v, forallb (λ u, negb (bool_decide (u ∈ args g v)
                                    && is_kind g Wait u && is_kind g Wait v)) l) l.

(** A wait [a] on a wait [z] on a comm [c]; the names put [a] first. *)
Definition wait_on_wait : Graph :=
  graph_of
    [("c", CommStart, []);
     ("z", Wait, ["c"]);
     ("a", Wait, ["z"])].

(** The state of [smart_reordering] on [comm_and_cycle] once the comm is
    scheduled. *)
Definition comm_and_cycle_state : State :=
  value (initial_state comm_and_cycle ["c"; "a"; "b"])
    (schedule_comms 2 comm_and_cycle scenario_cost ["c"; "a"; "b"] ["c"]).

(** ** Vocabulary of the further properties *)

(** [y] is reached from [x] by one or more steps of [next]. *)
Definition reaches (next : Node → list Node) (x y : Node) : Prop :=
  tc (λ a b, b ∈ next a) x y.

(** The only exception [m] can raise is [AssertionError]. *)
Definition raises_only_assertion {A : Type} (m : outcome A) : Prop :=
  ∀ e, m = Raise e → e = AssertionError.

(** No comm of [l] takes a node of [l] that is not a comm. *)
Definition comms_unanchored (g : Graph) (l : list Node) : Prop :=
  ∀ c n, c ∈ l → n ∈ l → is_kind g CommStart c = true →
         is_kind g CommStart n = false → n ∉ args g c.

(** A check for [comms_unanchored]. *)
Definition comms_unanchored_check (g : Graph) (l : list Node) : bool :=
  forallb (λ c, forallb (λ n, negb (is_kind g CommStart c
                                    && negb (is_kind g CommStart n)
                                    && bool_decide (n ∈ args g c))) l) l.

(** Everything the state holds is a node of [nodes]. *)
Definition state_within (nodes : list Node) (st : State) : Prop :=
  (∀ x, x ∈ free_nodes st → x ∈ nodes) ∧
  (∀ x, x ∈ unused_nodes st → x ∈ nodes) ∧
  (∀ x, is_Some (indeg st !! x) → x ∈ nodes) ∧
  (∀ x, x ∈ result st → x ∈ nodes).

(** Every comm of [comm_nodes] is a key of the two dicts. *)
Definition comms_indexed (cs : Comms) : Prop :=
  ∀ c, c ∈ comm_nodes cs →
       is_Some (comm_ancestors cs !! c) ∧ is_Some (comm_descendants cs !! c).

(** [add_node] called on the nodes of [l], one after the other. *)
Fixpoint add_nodes (g : Graph) (l : list Node) (st : State) : outcome State :=
  match l with
  | [] => Ok st
  | node :: l' => st' ← add_node g node st; add_nodes g l' st'
  end.

(** Every node of [l] stands after its arguments that are nodes of
    [nodes]. *)
Definition args_first (g : Graph) (nodes l : list Node) : Prop :=
  ∀ l1 v l2 u, l = l1 ++ v :: l2 → u ∈ nodes → u ∈ args g v → u ∈ l1.

(** The runtime of [node]; [0] where [get_runtime_fx] raises. *)
Definition runtime (g : Graph) (cost : SchedulerNode → Q) (node : Node) : Q :=
  default 0%Q (cost <$> meta g node).

#[global] Instance exn_eq_dec : EqDecision exn.
Proof. solve_decision. Defined.

#[global] Instance outcome_eq_dec {A : Type} `{!EqDecision A} :
  EqDecision (outcome A).
Proof. solve_decision. Defined.

(** The body of the loop of [decide_global_ordering_comms], for the index
    [i]. *)
Definition ordering_step (comm_nodes : list SchedulerNode)
    (deps : gmap string (list Dep)) (i : nat) : gmap string (list Dep) :=
  match comm_nodes !! i, comm_nodes !! (i - 1) with
  | Some later, Some earlier =>
    add_mutation_dep later (WeakDep (get_name earlier)) deps
  | _, _ => deps
  end.

(** No comm of [pre] takes a node that is not a comm and stands before it
    in [pre]. *)
Definition unanchored_prefix (g : Graph) (pre : list Node) : Prop :=
  ∀ p1 c p2 n, pre = p1 ++ c :: p2 → is_kind g CommStart c = true →
               n ∈ p1 → is_kind g CommStart n = false → n ∉ args g c.

(** A computation that returns a value. *)
Definition returns {A : Type} (m : outcome A) : Prop := ∃ a, m = Ok a.

(** The comms from place [k] on are not scheduled yet. *)
Definition comms_pending (comms : list Node) (k : nat) (st : State) : Prop :=
  ∀ j c, k ≤ j → comms !! j = Some c → c ∉ result st.

(** A check that what [next] gives on a node of [l] is a node of [l]. *)
Definition closed_check (next : Node → list Node) (l : list Node) : bool :=
  forallb (λ x, forallb (λ y, bool_decide (y ∈ l)) (next x)) l.

(** The nodes of [out] after place [i] and before place [j]. *)
Definition between {A : Type} (out : list A) (i j : nat) : list A :=
  take (j - S i) (drop (S i) out).

(** The wording of [wait_before_first_user] with a run of waits where it
    has "immediately": the wait [w] at place [i] of [out] stands before
    the earliest node of [out] that uses [w], and between them stand only
    waits that this node uses too, in name order; or, if no node of [out]
    uses [w], only waits follow [w] up to the end, in name order. *)
Definition wait_before_first_user_run (g : Graph) (out : list Node) (i : nat)
    (w : Node) : Prop :=
  match list_find (λ u, u ∈ users g w) out with
  | Some (j, u) =>
    i < j ∧
    Forall (λ x, is_kind g Wait x = true ∧ u ∈ users g x) (between out i j) ∧
    StronglySorted String.le (w :: between out i j)
  | None =>
    Forall (λ x, is_kind g Wait x = true) (drop (S i) out) ∧
    StronglySorted String.le (w :: drop (S i) out)
  end.

(** The ordering edges of [decide_global_ordering_comms] are among
    [args]: every comm of [l] but the first has the comm that stands
    before it among the comms of [l] as an argument. *)
Definition ordering_edges (g : Graph) (l : list Node) : Prop :=
  ∀ cs1 a b cs2, filter (is_comm g) l = cs1 ++ a :: b :: cs2 → a ∈ args g b.

(** ** Further concrete graphs *)

(** Two comms that take nothing, both taken by [x]. *)
Definition free_comms : Graph :=
  graph_of
    [("c1", CommStart, []);
     ("c2", CommStart, []);
     ("x", Compute, ["c1"; "c2"])].

(** A comm between two compute nodes, taking neither. *)
Definition lone_comm : Graph :=
  graph_of
    [("x", Compute, []);
     ("c", CommStart, []);
     ("y", Compute, ["x"])].

(** A comm on a graph input [p], which is no row and so carries no
    ["fusion_meta"]. *)
Definition comm_on_input : Graph :=
  graph_of
    [("c", CommStart, ["p"]);
     ("w", Wait, ["c"])].


(** [E] is free while [C1] runs and is needed by no comm. *)
Definition overlap : Graph :=
  graph_of
    [("A", Compute, []);
     ("C1", CommStart, ["A"]);
     ("E", Compute, []);
     ("W1", Wait, ["C1"]);
     ("B", Compute, ["W1"]);
     ("C2", CommStart, ["B"])].

Definition overlap_nodes : list Node := ["A"; "C1"; "E"; "W1"; "B"; "C2"].

Definition overlap_cost (s : SchedulerNode) : Q :=
  if decide (get_name s = "C1") then 5
  else if decide (get_name s = "E") then 2
  else 1.

(** The dicts and the state of [smart_reordering] on [overlap] when its
    main loop starts. *)
Definition overlap_comms : Comms :=
  {| comm_nodes := ["C1"; "C2"];
     comm_ancestors :=
       value ∅ (dict_of (get_ancestors 7 overlap) ["C1"; "C2"] ∅);
     comm_descendants :=
       value ∅ (dict_of (get_descendants 7 overlap) ["C1"; "C2"] ∅) |}.

Definition overlap_state : State :=
  value (initial_state overlap overlap_nodes)
    (add_all_nodes 7 overlap ["A"; "C1"] (initial_state overlap overlap_nodes)).

(** * Verification *)

(** ** The result monad *)

Lemma bind_Ok {A B : Type} (m : outcome A) (k : A → outcome B) (b : B) :
  m ≫= k = Ok b ↔ ∃ a, m = Ok a ∧ k a = Ok b.
Proof.
  unfold mbind, outcome_bind, bind. destruct m as [a|e|]; split.
  - intros H. by exists a.
  - by intros (a' & [= <-] & H).
  - discriminate.
  - by intros (a' & [=] & _).
  - discriminate.
  - by intros (a' & [=] & _).
Qed.

Lemma assert_Ok (b : bool) (u : unit) : assert b = Ok u ↔ b = true.
Proof. destruct b, u; simpl; split; congruence. Qed.

(** ** Sorting *)

Section sorted_facts.
Context {A K : Type} (le : relation K) `{!RelDecision le} (key : A → K).
Context `{!Total le, !Transitive le}.

Let R : relation A := λ x y, le (key x) (key y).

Lemma insert_sorted_Permutation (x : A) (l : list A) :
  insert_sorted le key x l ≡ₚ x :: l.
Proof.
  induction l as [|y l IH]; simpl; [done|].
  case_decide; [done|]. rewrite IH. apply Permutation_swap.
Qed.

Lemma sorted_Permutation (l : list A) : sorted le key l ≡ₚ l.
Proof.
  induction l as [|x l IH]; simpl; [done|].
  by rewrite insert_sorted_Permutation, IH.
Qed.

Lemma insert_sorted_StronglySorted (x : A) (l : list A) :
  StronglySorted R l → StronglySorted R (insert_sorted le key x l).
Proof.
  induction 1 as [|y l Hl IH Hy]; simpl.
  - repeat constructor.
  - case_decide as Hxy.
    + constructor; [by constructor|]. constructor; [done|].
      eapply Forall_impl; [exact Hy|]. intros z Hz. unfold R in *. by etrans.
    + constructor; [done|].
      rewrite insert_sorted_Permutation. constructor; [|done].
      unfold R. by destruct (total le (key x) (key y)).
Qed.

Lemma sorted_StronglySorted (l : list A) : StronglySorted R (sorted le key l).
Proof.
  induction l; simpl; [constructor|by apply insert_sorted_StronglySorted].
Qed.
End sorted_facts.

Lemma tuple_sorted_Permutation (l : list Node) : tuple_sorted l ≡ₚ l.
Proof. apply sorted_Permutation. Qed.

Lemma tuple_sorted_StronglySorted (l : list Node) :
  StronglySorted String.le (tuple_sorted l).
Proof. apply (sorted_StronglySorted String.le (λ n : Node, n)). Qed.

Lemma elem_of_tuple_sorted (l : list Node) (x : Node) :
  x ∈ tuple_sorted l ↔ x ∈ l.
Proof. by rewrite tuple_sorted_Permutation. Qed.

(** A list that is already in name order, without repetition, is what
    [tuple_sorted] returns for its set of elements. *)
Lemma tuple_sorted_elements_sorted (l : list Node) :
  StronglySorted String.le l → NoDup l →
  tuple_sorted (elements (list_to_set l : gset Node)) = l.
Proof.
  intros Hs Hn. apply (StronglySorted_unique String.le).
  - apply tuple_sorted_StronglySorted.
  - done.
  - rewrite tuple_sorted_Permutation. by apply elements_list_to_set.
Qed.

Lemma tuple_sorted_short (l : list Node) : length l ≤ 1 → tuple_sorted l = l.
Proof. destruct l as [|x [|y l]]; simpl; [done|done|lia]. Qed.

(** ** Class tests *)

Lemma snode_Ok (g : Graph) (node : Node) (s : SchedulerNode) :
  snode g node = Ok s ↔ meta g node = Some s.
Proof. unfold snode. destruct (meta g node); split; congruence. Qed.

Lemma isinstance_Ok (g : Graph) (node : Node) (k : Kind) (b : bool) :
  isinstance g node k = Ok b ↔
  has_fusion_meta g node = true ∧ b = is_kind g k node.
Proof.
  unfold isinstance, has_fusion_meta, is_kind, snode.
  destruct (meta g node) as [s|]; simpl; split.
  - intros [= <-]. split; [done|].
    apply bool_decide_ext. split; congruence.
  - intros [_ ->]. f_equal. apply bool_decide_ext. split; congruence.
  - discriminate.
  - intros [H _]. discriminate H.
Qed.

Lemma isinstance_has_meta (g : Graph) (node : Node) (k : Kind) :
  has_fusion_meta g node = true →
  isinstance g node k = Ok (is_kind g k node).
Proof. intros H. by apply isinstance_Ok. Qed.

Lemma is_kind_has_meta (g : Graph) (k : Kind) (node : Node) :
  is_kind g k node = true → has_fusion_meta g node = true.
Proof.
  unfold is_kind, has_fusion_meta. intros H%bool_decide_eq_true.
  apply bool_decide_eq_true. destruct (meta g node); [by eexists|done].
Qed.

Lemma is_kind_excl (g : Graph) (k1 k2 : Kind) (node : Node) :
  is_kind g k1 node = true → k1 ≠ k2 → is_kind g k2 node = false.
Proof.
  unfold is_kind. intros H1%bool_decide_eq_true Hne.
  apply bool_decide_eq_false. congruence.
Qed.

(** ** [sink_waits] against [sunk] *)

Lemma sink_waits_release_spec (g : Graph) (node : Node) (waits : list Node)
    (new_result : list Node) (cur_waits : gset Node) :
  sink_waits_release g node waits new_result cur_waits =
  (new_result ++ filter (λ wait, node ∈ users g wait) waits,
   cur_waits ∖ list_to_set (filter (λ wait, node ∈ users g wait) waits)).
Proof.
  revert new_result cur_waits.
  induction waits as [|w waits IH]; intros new_result cur_waits; simpl.
  - rewrite app_nil_r. f_equal. set_solver.
  - rewrite filter_cons. case_bool_decide as Hw.
    + rewrite decide_True by done. rewrite IH, <- app_assoc. simpl.
      f_equal. set_solver.
    + rewrite decide_False by done. apply IH.
Qed.

(** The loop returns exactly when every node carries ["fusion_meta"]; what
    it has emitted, followed by the pending waits in name order, is
    [sunk]. *)
Lemma sink_waits_loop_Ok (g : Graph) (result : list Node)
    (new_result : list Node) (cur_waits : gset Node) :
  Forall (λ n, has_fusion_meta g n = true) result →
  ∃ new_result' cur_waits',
    sink_waits_loop g result new_result cur_waits
      = Ok (new_result', cur_waits') ∧
    new_result' ++ tuple_sorted (elements cur_waits')
      = new_result ++ sunk g result cur_waits.
Proof.
  revert new_result cur_waits.
  induction result as [|node result IH]; intros new_result cur_waits Hm.
  - simpl. eauto.
  - apply Forall_cons in Hm as [Hnode Hm]. simpl.
    rewrite (isinstance_has_meta _ _ _ Hnode). simpl.
    unfold mbind, outcome_bind, bind.
    destruct (is_kind g Wait node) eqn:Hk.
    + apply IH, Hm.
    + rewrite sink_waits_release_spec.
      destruct (IH ((new_result ++ released g node cur_waits) ++ [node])
                  (cur_waits ∖ list_to_set (released g node cur_waits)) Hm)
        as (nr & cw & Hloop & Heq).
      exists nr, cw. split; [exact Hloop|].
      rewrite Heq, <- !app_assoc. done.
Qed.

Lemma sink_waits_loop_meta (g : Graph) (result : list Node)
    (new_result : list Node) (cur_waits : gset Node) r :
  sink_waits_loop g result new_result cur_waits = Ok r →
  Forall (λ n, has_fusion_meta g n = true) result.
Proof.
  revert new_result cur_waits.
  induction result as [|node result IH]; intros new_result cur_waits H.
  - constructor.
  - simpl in H. apply bind_Ok in H as (b & Hb & H).
    apply isinstance_Ok in Hb as [Hm _]. constructor; [done|].
    destruct b; [by eapply IH|].
    destruct (sink_waits_release _ _ _ _ _). by eapply IH.
Qed.

Lemma sink_waits_Ok (g : Graph) (result out : list Node) :
  sink_waits g result = Ok out ↔
  Forall (λ n, has_fusion_meta g n = true) result ∧ out = sunk g result ∅.
Proof.
  unfold sink_waits. split.
  - intros H. apply bind_Ok in H as ([nr cw] & Hloop & [= <-]).
    pose proof (sink_waits_loop_meta _ _ _ _ _ Hloop) as Hm. split; [done|].
    destruct (sink_waits_loop_Ok g result [] ∅ Hm) as (nr' & cw' & H' & Heq).
    rewrite Hloop in H'. injection H' as <- <-. done.
  - intros [Hm ->].
    destruct (sink_waits_loop_Ok g result [] ∅ Hm) as (nr' & cw' & H' & Heq).
    rewrite H'. simpl. by rewrite Heq.
Qed.

(** ** What is pending is a set of waits *)

Lemma all_waits_empty (g : Graph) : all_waits g ∅.
Proof. intros w Hw. set_solver. Qed.

Lemma all_waits_add (g : Graph) (w : Node) (cur_waits : gset Node) :
  is_kind g Wait w = true → all_waits g cur_waits →
  all_waits g ({[w]} ∪ cur_waits).
Proof. intros Hw Hc x [->%elem_of_singleton|Hx]%elem_of_union; auto. Qed.

Lemma all_waits_difference (g : Graph) (cur_waits X : gset Node) :
  all_waits g cur_waits → all_waits g (cur_waits ∖ X).
Proof. intros Hc x [Hx _]%elem_of_difference. auto. Qed.

Lemma all_waits_sorted (g : Graph) (cur_waits : gset Node) :
  all_waits g cur_waits →
  Forall (λ w, is_kind g Wait w = true) (tuple_sorted (elements cur_waits)).
Proof.
  intros Hc. apply Forall_forall. intros w Hw.
  apply elem_of_tuple_sorted, elem_of_elements in Hw. auto.
Qed.

Lemma released_waits (g : Graph) (node : Node) (cur_waits : gset Node) :
  all_waits g cur_waits →
  Forall (λ w, is_kind g Wait w = true) (released g node cur_waits).
Proof.
  intros Hc. apply Forall_forall. intros w Hw.
  apply list_elem_of_filter in Hw as [_ Hw].
  apply elem_of_tuple_sorted, elem_of_elements in Hw. auto.
Qed.

Lemma released_users (g : Graph) (node : Node) (cur_waits : gset Node) :
  Forall (λ w, node ∈ users g w) (released g node cur_waits).
Proof.
  apply Forall_forall. intros w Hw. by apply list_elem_of_filter in Hw as [? _].
Qed.

Lemma StronglySorted_filter {A : Type} (R : relation A) (P : A → Prop)
    `{!∀ x, Decision (P x)} (l : list A) :
  StronglySorted R l → StronglySorted R (filter P l).
Proof.
  induction 1 as [|x l Hl IH Hx]; [constructor|].
  rewrite filter_cons. case_decide; [|done].
  constructor; [done|]. apply Forall_forall. intros y Hy.
  apply list_elem_of_filter in Hy as [_ Hy].
  by eapply Forall_forall in Hx.
Qed.

Lemma released_sorted (g : Graph) (node : Node) (cur_waits : gset Node) :
  StronglySorted String.le (released g node cur_waits).
Proof. apply StronglySorted_filter, tuple_sorted_StronglySorted. Qed.

Lemma tuple_sorted_elements_NoDup (X : gset Node) :
  NoDup (tuple_sorted (elements X)).
Proof. rewrite tuple_sorted_Permutation. apply NoDup_elements. Qed.

Lemma released_NoDup (g : Graph) (node : Node) (cur_waits : gset Node) :
  NoDup (released g node cur_waits).
Proof. apply NoDup_filter, tuple_sorted_elements_NoDup. Qed.

(** ** The nodes that are not waits keep their order *)

Lemma filter_all_false {A : Type} (P Q : A → Prop) `{!∀ x, Decision (P x)}
    (l : list A) :
  Forall Q l → (∀ x, Q x → ¬ P x) → filter P l = [].
Proof.
  induction 1 as [|x l Hx Hl IH]; intros HQ; [done|].
  rewrite filter_cons, decide_False by auto. auto.
Qed.

Lemma filter_all_true {A : Type} (P : A → Prop) `{!∀ x, Decision (P x)}
    (l : list A) :
  Forall P l → filter P l = l.
Proof.
  induction 1 as [|x l Hx Hl IH]; [done|].
  rewrite filter_cons, decide_True by done. by f_equal.
Qed.

Lemma sunk_filter_not_wait (g : Graph) (result : list Node)
    (cur_waits : gset Node) :
  all_waits g cur_waits →
  filter (λ n, is_kind g Wait n = false) (sunk g result cur_waits)
  = filter (λ n, is_kind g Wait n = false) result.
Proof.
  revert cur_waits. induction result as [|node result IH]; intros cw Hcw.
  - simpl. apply (filter_all_false _ (λ w, is_kind g Wait w = true)).
    + by apply all_waits_sorted.
    + intros x ->. done.
  - simpl. destruct (is_kind g Wait node) eqn:Hk.
    + rewrite filter_cons, decide_False by congruence.
      apply IH. by apply all_waits_add.
    + rewrite filter_app, !filter_cons, !decide_True by done.
      rewrite (filter_all_false _ (λ w, is_kind g Wait w = true));
        [|by apply released_waits|by intros x ->].
      simpl. f_equal. apply IH. by apply all_waits_difference.
Qed.

(** ** Where a wait ends up *)

(** Two ways of cutting one list at an element. *)
Lemma app_cons_eq_app_cons {A : Type} (l1 l2 pre post : list A) (x w : A) :
  l1 ++ x :: l2 = pre ++ w :: post →
  (∃ k, l1 = pre ++ w :: k ∧ post = k ++ x :: l2) ∨
  (x = w ∧ l1 = pre ∧ l2 = post) ∨
  (∃ k, pre = l1 ++ x :: k ∧ l2 = k ++ w :: post).
Proof.
  revert pre. induction l1 as [|y l1 IH]; intros [|z pre] H; simpl in H.
  - injection H as ? ?; subst. right. left. done.
  - injection H as ? ?; subst. right. right. by exists pre.
  - injection H as ? ?; subst. left. by exists l1.
  - injection H as ? H; subst. destruct (IH _ H) as [(k & -> & ->)|[(-> & -> & ->)|(k & -> & ->)]].
    + left. by exists k.
    + right. by left.
    + right. right. by exists k.
Qed.

Lemma wait_placed_in_run (g : Graph) (node : Node) (run rest pre post : list Node)
    (w : Node) :
  Forall (λ x, is_kind g Wait x = true) run →
  Forall (λ x, node ∈ users g x) run →
  is_kind g Wait node = false →
  run = pre ++ w :: post →
  wait_placed g w (post ++ node :: rest).
Proof.
  intros Hrun Huse Hnode ->. exists post, (node :: rest). split; [done|].
  apply Forall_app in Hrun as [_ Hrun]. apply Forall_cons in Hrun as [_ Hrun].
  split; [done|]. right. exists node, rest. split; [done|]. split; [done|].
  apply Forall_app in Huse as [_ Huse]. by apply Forall_cons in Huse as [? _].
Qed.

Lemma sunk_wait_placed (g : Graph) (result : list Node) (cur_waits : gset Node)
    (pre post : list Node) (w : Node) :
  all_waits g cur_waits →
  sunk g result cur_waits = pre ++ w :: post →
  is_kind g Wait w = true →
  wait_placed g w post.
Proof.
  revert cur_waits pre. induction result as [|node result IH];
    intros cw pre Hcw Heq Hw.
  - simpl in Heq. exists post, []. split; [by rewrite app_nil_r|].
    split; [|by left].
    pose proof (all_waits_sorted _ _ Hcw) as Hall. rewrite Heq in Hall.
    apply Forall_app in Hall as [_ Hall]. by apply Forall_cons in Hall as [_ ?].
  - simpl in Heq. destruct (is_kind g Wait node) eqn:Hk.
    + eapply IH; [|exact Heq|done]. by apply all_waits_add.
    + apply app_cons_eq_app_cons in Heq
        as [(k & Hrel & ->)|[(-> & _)|(k & -> & Hrest)]].
      * eapply wait_placed_in_run;
          [by apply released_waits|apply released_users|done|exact Hrel].
      * congruence.
      * eapply IH; [|exact Hrest|done]. by apply all_waits_difference.
Qed.

(** ** The nodes of a sunk sequence *)

Lemma elem_of_released (g : Graph) (node : Node) (cur_waits : gset Node)
    (x : Node) :
  x ∈ released g node cur_waits ↔ node ∈ users g x ∧ x ∈ cur_waits.
Proof.
  unfold released.
  by rewrite list_elem_of_filter, elem_of_tuple_sorted, elem_of_elements.
Qed.

Lemma elem_of_sunk (g : Graph) (result : list Node) (cur_waits : gset Node)
    (x : Node) :
  x ∈ sunk g result cur_waits ↔ x ∈ result ∨ x ∈ cur_waits.
Proof.
  revert cur_waits. induction result as [|node result IH]; intros cw; simpl.
  - rewrite elem_of_tuple_sorted, elem_of_elements, elem_of_nil. tauto.
  - destruct (is_kind g Wait node).
    + rewrite IH, elem_of_cons, elem_of_union, elem_of_singleton. tauto.
    + rewrite elem_of_app, !elem_of_cons, IH, elem_of_difference,
        elem_of_list_to_set, elem_of_released.
      destruct (decide (node ∈ users g x)); tauto.
Qed.

(** ** A sunk sequence has the shape [sunk_form], and [sunk] leaves
    sequences of that shape alone *)

Lemma sunk_sunk_form (g : Graph) (result : list Node) (cur_waits : gset Node) :
  all_waits g cur_waits → sunk_form g (sunk g result cur_waits).
Proof.
  revert cur_waits. induction result as [|node result IH]; intros cw Hcw.
  - simpl. apply sunk_form_end.
    + by apply all_waits_sorted.
    + apply tuple_sorted_StronglySorted.
    + apply tuple_sorted_elements_NoDup.
  - simpl. destruct (is_kind g Wait node) eqn:Hk.
    + apply IH. by apply all_waits_add.
    + apply sunk_form_run.
      * by apply released_waits.
      * apply released_sorted.
      * apply released_NoDup.
      * apply released_users.
      * done.
      * apply IH. by apply all_waits_difference.
Qed.

Lemma sunk_app_waits (g : Graph) (waits l : list Node) (cur_waits : gset Node) :
  Forall (λ w, is_kind g Wait w = true) waits →
  sunk g (waits ++ l) cur_waits = sunk g l (list_to_set waits ∪ cur_waits).
Proof.
  intros H. revert cur_waits.
  induction H as [|w waits Hw Hws IH]; intros cw; simpl.
  - by rewrite (left_id_L ∅ (∪)).
  - rewrite Hw, IH. f_equal. set_solver.
Qed.

Lemma sunk_form_fixed (g : Graph) (l : list Node) :
  sunk_form g l → sunk g l ∅ = l.
Proof.
  induction 1 as [waits Hw Hs Hn|waits node rest Hw Hs Hn Hu Hnode Hrest IH].
  - rewrite <- (app_nil_r waits) at 1. rewrite sunk_app_waits by done.
    simpl. rewrite (right_id_L ∅ (∪)). by apply tuple_sorted_elements_sorted.
  - rewrite sunk_app_waits by done. simpl. rewrite Hnode.
    rewrite (right_id_L ∅ (∪)). unfold released.
    rewrite tuple_sorted_elements_sorted by done.
    rewrite filter_all_true by done. rewrite difference_diag_L, IH. done.
Qed.

Lemma sunk_has_meta (g : Graph) (result : list Node) :
  Forall (λ n, has_fusion_meta g n = true) result →
  Forall (λ n, has_fusion_meta g n = true) (sunk g result ∅).
Proof.
  rewrite !Forall_forall. intros H x Hx.
  apply elem_of_sunk in Hx as [Hx|Hx]; [auto|set_solver].
Qed.

(** ** [raise_comms] against [raised] *)

Lemma raise_comms_pop_acc (g : Graph) (node : Node) (cur_comms : list Node)
    (new_result : list Node) :
  raise_comms_pop g node cur_comms new_result =
  (new_result ++ (raise_comms_pop g node cur_comms []).1,
   (raise_comms_pop g node cur_comms []).2).
Proof.
  revert new_result. induction cur_comms as [|c cc IH]; intros nr.
  - simpl. by rewrite app_nil_r.
  - cbn [raise_comms_pop]. destruct (any_comm_uses g node (c :: cc)).
    + rewrite (IH (nr ++ [c])), (IH ([] ++ [c])). simpl.
      by rewrite <- app_assoc.
    + simpl. by rewrite app_nil_r.
Qed.

Lemma any_comm_uses_true (g : Graph) (node : Node) (cur_comms : list Node) :
  any_comm_uses g node cur_comms = true ↔
  ∃ c, c ∈ cur_comms ∧ node ∈ args g c.
Proof.
  unfold any_comm_uses. rewrite existsb_exists. split.
  - intros (c & Hc%list_elem_of_In & Hn%bool_decide_eq_true). eauto.
  - intros (c & Hc%list_elem_of_In & Hn). exists c.
    split; [done|]. by apply bool_decide_eq_true.
Qed.

(** What is popped and what is left make up the queue; nothing left takes
    [node]; the last comm popped does. *)
Lemma raise_comms_pop_split (g : Graph) (node : Node) (cur_comms : list Node) :
  let p := raise_comms_pop g node cur_comms [] in
  cur_comms = p.1 ++ p.2 ∧
  any_comm_uses g node p.2 = false ∧
  (∀ comms' c, p.1 = comms' ++ [c] → node ∈ args g c).
Proof.
  induction cur_comms as [|c cc IH].
  - simpl. split; [done|]. split; [done|]. by intros [|??] ? ?.
  - cbn [raise_comms_pop]. destruct (any_comm_uses g node (c :: cc)) eqn:Hany.
    + rewrite raise_comms_pop_acc. cbn [fst snd].
      destruct IH as (Hsplit & Hleft & Hlast).
      split; [simpl; by f_equal|]. split; [done|].
      intros comms' c' Heq.
      destruct (raise_comms_pop g node cc []).1 as [|x p1] eqn:Hp1.
      * (* only [c] was popped: nothing in [cc] takes [node] *)
        apply any_comm_uses_true in Hany as (c0 & Hc0 & Hn).
        simpl in Hsplit. rewrite <- Hsplit in Hleft.
        assert (c' = c) as -> by (destruct comms' as [|? [|??]]; by simplify_eq).
        apply elem_of_cons in Hc0 as [->|Hc0]; [done|].
        assert (any_comm_uses g node cc = true) as Hcc
          by (apply any_comm_uses_true; eauto).
        congruence.
      * destruct comms' as [|y comms']; [by destruct p1; simplify_eq/=|].
        simpl in Heq. injection Heq as <- Heq. by eapply Hlast.
    + simpl. split; [done|]. split; [done|]. by intros [|??] ? ?.
Qed.

Lemma raise_comms_pop_all (g : Graph) (node : Node) (comms : list Node)
    (c : Node) :
  node ∈ args g c →
  raise_comms_pop g node (comms ++ [c]) [] = (comms ++ [c], []).
Proof.
  intros Hn. induction comms as [|x comms IH].
  - simpl. unfold any_comm_uses. simpl. rewrite bool_decide_eq_true_2 by done.
    done.
  - cbn [app raise_comms_pop].
    assert (any_comm_uses g node (x :: comms ++ [c]) = true) as ->.
    { apply any_comm_uses_true. exists c. split; [|done].
      apply elem_of_cons. right. apply elem_of_app. right.
      by apply list_elem_of_singleton. }
    rewrite raise_comms_pop_acc, IH. done.
Qed.

Lemma raise_comms_loop_Ok (g : Graph) (rev_result : list Node)
    (new_result cur_comms : list Node) :
  Forall (λ n, has_fusion_meta g n = true) rev_result →
  raise_comms_loop g rev_result new_result cur_comms =
  Ok (new_result ++ (raised g rev_result cur_comms).1,
      (raised g rev_result cur_comms).2).
Proof.
  revert new_result cur_comms.
  induction rev_result as [|node r IH]; intros nr cc Hm.
  - simpl. by rewrite app_nil_r.
  - apply Forall_cons in Hm as [Hnode Hm]. simpl.
    rewrite (isinstance_has_meta _ _ _ Hnode). simpl.
    unfold mbind, outcome_bind, bind.
    destruct (is_kind g CommStart node) eqn:Hk.
    + exact (IH _ _ Hm).
    + rewrite raise_comms_pop_acc, IH by done. cbn [fst snd].
      by rewrite <- !app_assoc.
Qed.

Lemma raise_comms_loop_meta (g : Graph) (rev_result : list Node)
    (new_result cur_comms : list Node) r :
  raise_comms_loop g rev_result new_result cur_comms = Ok r →
  Forall (λ n, has_fusion_meta g n = true) rev_result.
Proof.
  revert new_result cur_comms.
  induction rev_result as [|node rr IH]; intros nr cc H.
  - constructor.
  - simpl in H. apply bind_Ok in H as (b & Hb & H).
    apply isinstance_Ok in Hb as [Hm _]. constructor; [done|].
    destruct b; [by eapply IH|].
    destruct (raise_comms_pop _ _ _ _). by eapply IH.
Qed.

Lemma raise_comms_Ok (g : Graph) (result out : list Node) :
  raise_comms g result = Ok out ↔
  Forall (λ n, has_fusion_meta g n = true) result ∧
  length (raised g (reverse result) []).2 ≤ 1 ∧
  out = reverse ((raised g (reverse result) []).1 ++
                 (raised g (reverse result) []).2).
Proof.
  unfold raise_comms. split.
  - intros H. apply bind_Ok in H as ([nr cc] & Hloop & H).
    apply bind_Ok in H as (u & Hlen & [= <-]).
    apply assert_Ok, bool_decide_eq_true in Hlen.
    pose proof (raise_comms_loop_meta _ _ _ _ _ Hloop) as Hm.
    rewrite raise_comms_loop_Ok in Hloop by done.
    injection Hloop as <- <-. rewrite Forall_reverse in Hm. simpl in *.
    split; [done|]. split; [done|]. by rewrite tuple_sorted_short.
  - intros (Hm & Hlen & ->).
    rewrite raise_comms_loop_Ok by (by rewrite Forall_reverse).
    simpl. rewrite bool_decide_eq_true_2 by done. simpl.
    by rewrite tuple_sorted_short.
Qed.

(** ** The queue holds comms only *)

Lemma snoc_cases {A : Type} (l : list A) : l = [] ∨ ∃ l' x, l = l' ++ [x].
Proof. induction l using rev_ind; [by left|right; eauto]. Qed.

Lemma raise_comms_pop_comms (g : Graph) (node : Node) (cur_comms : list Node) :
  Forall (is_comm g) cur_comms →
  Forall (is_comm g) (raise_comms_pop g node cur_comms []).1 ∧
  Forall (is_comm g) (raise_comms_pop g node cur_comms []).2.
Proof.
  intros H. destruct (raise_comms_pop_split g node cur_comms) as (Hs & _).
  simpl in Hs. rewrite Hs in H. by apply Forall_app in H.
Qed.

Lemma raised_queue_comms (g : Graph) (rev_result cur_comms : list Node) :
  Forall (is_comm g) cur_comms →
  Forall (is_comm g) (raised g rev_result cur_comms).2.
Proof.
  revert cur_comms. induction rev_result as [|node r IH]; intros cc Hcc.
  - done.
  - simpl. destruct (is_kind g CommStart node) eqn:Hk.
    + apply IH. apply Forall_app. split; [done|]. by repeat constructor.
    + simpl. apply IH. by apply raise_comms_pop_comms.
Qed.

(** ** The nodes that are not comms keep their order, and so do the comms *)

Lemma raised_filter_not_comm (g : Graph) (rev_result cur_comms : list Node) :
  Forall (is_comm g) cur_comms →
  filter (λ n, is_kind g CommStart n = false) (raised g rev_result cur_comms).1
  = filter (λ n, is_kind g CommStart n = false) rev_result.
Proof.
  revert cur_comms. induction rev_result as [|node r IH]; intros cc Hcc.
  - done.
  - simpl. destruct (is_kind g CommStart node) eqn:Hk.
    + rewrite filter_cons, decide_False by congruence.
      apply IH. apply Forall_app. split; [done|]. by repeat constructor.
    + simpl. destruct (raise_comms_pop_comms g node cc Hcc) as [Hp Hq].
      rewrite filter_app, !filter_cons, !decide_True by done.
      rewrite (filter_all_false _ (is_comm g)); [|done|by intros x ->].
      simpl. f_equal. by apply IH.
Qed.

Lemma raised_filter_comm (g : Graph) (rev_result cur_comms : list Node) :
  Forall (is_comm g) cur_comms →
  filter (is_comm g) (raised g rev_result cur_comms).1
    ++ (raised g rev_result cur_comms).2
  = cur_comms ++ filter (is_comm g) rev_result.
Proof.
  revert cur_comms. induction rev_result as [|node r IH]; intros cc Hcc.
  - simpl. by rewrite app_nil_r.
  - simpl. destruct (is_kind g CommStart node) eqn:Hk.
    + rewrite filter_cons, decide_True by done.
      rewrite IH, <- app_assoc; [done|].
      apply Forall_app. split; [done|]. by repeat constructor.
    + simpl. destruct (raise_comms_pop_comms g node cc Hcc) as [Hp Hq].
      destruct (raise_comms_pop_split g node cc) as (Hs & _). simpl in Hs.
      rewrite filter_app, !filter_cons, !decide_False by (unfold is_comm; congruence).
      rewrite filter_all_true by done.
      rewrite <- app_assoc, IH by done. rewrite app_assoc. by rewrite <- Hs.
Qed.

Lemma elem_of_raised (g : Graph) (rev_result cur_comms : list Node) (x : Node) :
  x ∈ (raised g rev_result cur_comms).1 ++ (raised g rev_result cur_comms).2
  ↔ x ∈ cur_comms ∨ x ∈ rev_result.
Proof.
  revert cur_comms. induction rev_result as [|node r IH]; intros cc.
  - simpl. rewrite elem_of_nil. tauto.
  - simpl. destruct (is_kind g CommStart node) eqn:Hk.
    + rewrite IH, elem_of_app, list_elem_of_singleton, elem_of_cons. tauto.
    + simpl. destruct (raise_comms_pop_split g node cc) as (Hs & _).
      simpl in Hs.
      pose proof (IH (raise_comms_pop g node cc []).2) as IH'.
      rewrite elem_of_app in IH'.
      assert (x ∈ cc ↔ x ∈ (raise_comms_pop g node cc []).1
                       ∨ x ∈ (raise_comms_pop g node cc []).2) as Hcc.
      { rewrite Hs at 1. apply elem_of_app. }
      rewrite !elem_of_app, !elem_of_cons. tauto.
Qed.

(** ** The shape of a raised sequence *)

Lemma raised_raised_form (g : Graph) (rev_result cur_comms : list Node) :
  Forall (is_comm g) cur_comms →
  length (raised g rev_result cur_comms).2 ≤ 1 →
  raised_form g ((raised g rev_result cur_comms).1 ++
                 (raised g rev_result cur_comms).2).
Proof.
  revert cur_comms. induction rev_result as [|node r IH]; intros cc Hcc Hlen.
  - simpl in *. by apply raised_form_end.
  - simpl in *. destruct (is_kind g CommStart node) eqn:Hk.
    + apply IH; [|done]. apply Forall_app. split; [done|]. by repeat constructor.
    + simpl in *. destruct (raise_comms_pop_comms g node cc Hcc) as [Hp Hq].
      destruct (raise_comms_pop_split g node cc) as (_ & _ & Hlast).
      rewrite <- app_assoc. simpl. apply raised_form_run; auto.
Qed.

Lemma raised_app_comms (g : Graph) (comms l cur_comms : list Node) :
  Forall (is_comm g) comms →
  raised g (comms ++ l) cur_comms = raised g l (cur_comms ++ comms).
Proof.
  intros H. revert cur_comms.
  induction H as [|c comms Hc Hcs IH]; intros cc; simpl.
  - by rewrite app_nil_r.
  - unfold is_comm in Hc. rewrite Hc, IH, <- app_assoc. done.
Qed.

Lemma raised_form_fixed (g : Graph) (l : list Node) :
  raised_form g l →
  (raised g l []).1 ++ (raised g l []).2 = l ∧ length (raised g l []).2 ≤ 1.
Proof.
  induction 1 as [comms Hc Hlen|comms node rest Hc Hlast Hnode Hrest IH].
  - assert (raised g comms [] = ([], comms)) as ->; [|done].
    by rewrite <- (app_nil_r comms) at 1; rewrite raised_app_comms.
  - rewrite raised_app_comms by done. simpl. rewrite Hnode.
    assert (raise_comms_pop g node comms [] = (comms, [])) as ->.
    { destruct (snoc_cases comms) as [->|(comms' & c & ->)]; [done|].
      apply raise_comms_pop_all. by eapply Hlast. }
    simpl. destruct IH as [IH1 IH2]. split; [|done].
    rewrite <- app_assoc. simpl. by rewrite IH1.
Qed.

(** ** Where a comm ends up *)


(** ** The scheduler on a list without comms *)

Lemma collect_comm_nodes_Ok (g : Graph) (nodes : list Node) :
  Forall (λ n, has_fusion_meta g n = true) nodes →
  collect_comm_nodes g nodes = Ok (filter (is_comm g) nodes).
Proof.
  induction 1 as [|node nodes Hm Hms IH]; [done|].
  simpl. rewrite (isinstance_has_meta _ _ _ Hm), IH. simpl.
  rewrite filter_cons. unfold mbind, outcome_bind, bind.
  destruct (decide (is_comm g node)) as [Hc|Hc]; unfold is_comm in Hc.
  - by rewrite Hc.
  - by apply not_true_is_false in Hc as ->.
Qed.

Lemma filter_has_meta (g : Graph) (nodes : list Node) :
  Forall (λ n, has_fusion_meta g n = true)
         (filter (λ node, has_fusion_meta g node = true) nodes).
Proof.
  apply Forall_forall. intros x Hx. by apply list_elem_of_filter in Hx as [? _].
Qed.

Lemma smart_reordering_no_comms (fuel : nat) (g : Graph)
    (cost : SchedulerNode → Q) (nodes : list Node) :
  Forall (λ n, is_kind g CommStart n = false) nodes →
  smart_reordering fuel g cost nodes
  = Ok (filter (λ node, has_fusion_meta g node = true) nodes).
Proof.
  intros Hnc. unfold smart_reordering.
  rewrite collect_comm_nodes_Ok by apply filter_has_meta. simpl.
  rewrite (filter_all_false (is_comm g) (λ n, is_kind g CommStart n = false)).
  - done.
  - apply Forall_forall. intros x Hx. apply list_elem_of_filter in Hx as [_ Hx].
    by eapply Forall_forall in Hnc.
  - intros x Hx. unfold is_comm. congruence.
Qed.

(** ** A round of [add_all_nodes] that finds no free node *)

Lemma add_all_nodes_pass_stuck (g : Graph) (sorted_nodes : list Node)
    (all_nodes : gset Node) (st : State) :
  (∀ n, n ∈ sorted_nodes → n ∉ free_nodes st) →
  add_all_nodes_pass g sorted_nodes all_nodes st = Ok (all_nodes, st).
Proof.
  induction sorted_nodes as [|n l IH]; intros H; [done|].
  simpl. rewrite bool_decide_eq_false_2.
  - apply IH. intros x Hx. apply H. by right.
  - apply H. by left.
Qed.

Lemma gset_size_pos (X : gset Node) : X ≠ ∅ ↔ 0 < size X.
Proof.
  split.
  - intros H. assert (size X ≠ 0); [|lia].
    apply size_non_empty_iff. by intros ?%leibniz_equiv.
  - intros H ->. rewrite size_empty in H. lia.
Qed.

Lemma gset_size_zero (X : gset Node) : ¬ 0 < size X → X = ∅.
Proof.
  intros H. destruct (decide (X = ∅)) as [->|Hne]; [done|].
  apply gset_size_pos in Hne. lia.
Qed.

Lemma add_all_nodes_loop_stuck (fuel : nat) (g : Graph) (all_nodes : gset Node)
    (st : State) :
  all_nodes ≠ ∅ → all_nodes ## free_nodes st →
  add_all_nodes_loop fuel g all_nodes st = OutOfFuel.
Proof.
  intros Hne Hdisj. induction fuel as [|fuel IH]; simpl.
  - by rewrite bool_decide_eq_true_2 by (by apply gset_size_pos).
  - rewrite bool_decide_eq_true_2 by (by apply gset_size_pos).
    rewrite add_all_nodes_pass_stuck; [exact IH|].
    intros n Hn%elem_of_tuple_sorted%elem_of_elements. set_solver.
Qed.

(** ** [decide_global_ordering_comms] *)

Lemma add_mutation_dep_keeps (n : SchedulerNode) (dep dep' : Dep)
    (deps : gmap string (list Dep)) (k : string) :
  dep' ∈ default [] (deps !! k) →
  dep' ∈ default [] (add_mutation_dep n dep deps !! k).
Proof.
  intros H. unfold add_mutation_dep. case_bool_decide; [done|].
  destruct (decide (k = get_name n)) as [->|Hne].
  - rewrite lookup_insert_eq. simpl. apply elem_of_app. by left.
  - by rewrite lookup_insert_ne.
Qed.

Lemma add_mutation_dep_adds (n : SchedulerNode) (dep : Dep)
    (deps : gmap string (list Dep)) :
  dep ∈ default [] (add_mutation_dep n dep deps !! get_name n).
Proof.
  unfold add_mutation_dep. case_bool_decide; [done|].
  rewrite lookup_insert_eq. simpl. apply elem_of_app. right. by left.
Qed.

(** Every comm but the first gets an ordering dependency on the comm
    before it. *)
Lemma decide_global_ordering_comms_adds (nodes : list SchedulerNode)
    (deps : gmap string (list Dep)) (i : nat) (earlier later : SchedulerNode) :
  filter (λ n, ir_node n = CommStart) nodes !! i = Some earlier →
  filter (λ n, ir_node n = CommStart) nodes !! S i = Some later →
  WeakDep (get_name earlier)
  ∈ default [] (decide_global_ordering_comms nodes deps !! get_name later).
Proof.
  unfold decide_global_ordering_comms.
  set (comm_nodes := filter (λ n, ir_node n = CommStart) nodes).
  intros Hi Hsi.
  set (step := λ (deps : gmap string (list Dep)) (i : nat),
         match comm_nodes !! i, comm_nodes !! (i - 1) with
         | Some later, Some earlier =>
           add_mutation_dep later (WeakDep (get_name earlier)) deps
         | _, _ => deps
         end).
  assert (∀ l d, WeakDep (get_name earlier) ∈ default [] (d !! get_name later) →
            WeakDep (get_name earlier)
            ∈ default [] (foldl step d l !! get_name later)) as Hkeep.
  { induction l as [|j l IH]; intros d Hd; [done|]. simpl. apply IH.
    unfold step. destruct (comm_nodes !! j), (comm_nodes !! (j - 1)); try done.
    by apply add_mutation_dep_keeps. }
  assert (S i ∈ seq 1 (length comm_nodes - 1)) as Hin.
  { apply elem_of_seq. apply lookup_lt_Some in Hsi. lia. }
  apply list_elem_of_split in Hin as (l1 & l2 & ->).
  assert (∀ d, step d (S i)
               = add_mutation_dep later (WeakDep (get_name earlier)) d)
    as Hstep.
  { intros d. unfold step. rewrite Hsi. simpl. by rewrite Nat.sub_0_r, Hi. }
  rewrite foldl_app. simpl. apply Hkeep. rewrite Hstep.
  apply add_mutation_dep_adds.
Qed.

(** ** Scheduling one node *)

Ltac inv_bind H :=
  repeat first
  [ progress (cbv zeta in H)
  | match type of H with
    | _ ≫= _ = Ok _ =>
      let a := fresh "a" in
      let Ha := fresh "H" a in
      apply bind_Ok in H as (a & Ha & H)
    | (let '(_, _) := ?p in _) = Ok _ => destruct p
    end ].

Lemma release_users_result (st : State) (us : list Node) :
  result (foldl release_user st us) = result st ∧
  unused_nodes (foldl release_user st us) = unused_nodes st.
Proof.
  revert st. induction us as [|u us IH]; intros st; [done|].
  simpl. destruct (IH (release_user st u)) as [-> ->].
  unfold release_user. by destruct (indeg st !! u).
Qed.

Lemma add_node_Ok (g : Graph) (node : Node) (st st' : State) :
  add_node g node st = Ok st' ↔
  node ∈ unused_nodes st ∧ node ∈ free_nodes st ∧
  st' = foldl release_user
          {| indeg := indeg st;
             free_nodes := free_nodes st ∖ {[node]};
             unused_nodes := unused_nodes st ∖ {[node]};
             result := result st ++ [node] |}
          (users g node).
Proof.
  unfold add_node. split.
  - intros H. inv_bind H.
    apply assert_Ok, bool_decide_eq_true in Ha, Ha0. by injection H as <-.
  - intros (Hu & Hf & ->).
    rewrite !bool_decide_eq_true_2 by done. done.
Qed.

Lemma advances_by_refl (st : State) : advances_by [] st st.
Proof.
  split; [by rewrite app_nil_r|]. split; [set_solver|].
  split; [constructor|]. by intros x ?%elem_of_nil.
Qed.

Lemma advances_by_trans (e1 e2 : list Node) (st1 st2 st3 : State) :
  advances_by e1 st1 st2 → advances_by e2 st2 st3 →
  advances_by (e1 ++ e2) st1 st3.
Proof.
  intros (Hr1 & Hu1 & Hn1 & Hin1) (Hr2 & Hu2 & Hn2 & Hin2).
  split; [by rewrite Hr2, Hr1, app_assoc|].
  split; [rewrite Hu2, Hu1; set_solver|].
  split.
  - apply NoDup_app. split; [done|]. split; [|done].
    intros x Hx1 Hx2. apply Hin2 in Hx2. rewrite Hu1 in Hx2. set_solver.
  - intros x [Hx|Hx]%elem_of_app; [auto|].
    apply Hin2 in Hx. rewrite Hu1 in Hx. set_solver.
Qed.

Lemma advances_refl (st : State) : advances st st.
Proof. exists []. apply advances_by_refl. Qed.

Lemma advances_trans (st1 st2 st3 : State) :
  advances st1 st2 → advances st2 st3 → advances st1 st3.
Proof.
  intros [e1 H1] [e2 H2]. exists (e1 ++ e2). by eapply advances_by_trans.
Qed.

Lemma add_node_advances_by (g : Graph) (node : Node) (st st' : State) :
  add_node g node st = Ok st' → advances_by [node] st st'.
Proof.
  intros (Hu & Hf & ->)%add_node_Ok. unfold advances_by.
  destruct (release_users_result
              {| indeg := indeg st;
                 free_nodes := free_nodes st ∖ {[node]};
                 unused_nodes := unused_nodes st ∖ {[node]};
                 result := result st ++ [node] |} (users g node)) as [-> ->].
  simpl. split; [done|]. split; [set_solver|].
  split; [apply NoDup_singleton|]. by intros x ->%list_elem_of_singleton.
Qed.

(** ** What [add_node] keeps, every step of the scheduler keeps *)

Section preserved.
Context (g : Graph) (P : State → Prop).
Context (add_node_P : ∀ node st st',
           P st → add_node g node st = Ok st' → P st').

Lemma add_all_nodes_pass_preserved (sorted_nodes : list Node)
    (all_nodes all_nodes' : gset Node) (st st' : State) :
  P st →
  add_all_nodes_pass g sorted_nodes all_nodes st = Ok (all_nodes', st') →
  P st'.
Proof.
  revert all_nodes st. induction sorted_nodes as [|n l IH];
    intros S st HP H; simpl in H.
  - by simplify_eq.
  - destruct (bool_decide (n ∈ free_nodes st)); [|by eapply IH].
    inv_bind H. eapply IH; [|exact H]. by eapply add_node_P.
Qed.

Lemma add_all_nodes_loop_preserved (fuel : nat) (all_nodes : gset Node)
    (st st' : State) :
  P st → add_all_nodes_loop fuel g all_nodes st = Ok st' → P st'.
Proof.
  revert all_nodes st. induction fuel as [|fuel IH]; intros S st HP H;
    simpl in H; destruct (bool_decide (0 < size S)); try done.
  - by simplify_eq.
  - inv_bind H. eapply IH; [|exact H].
    by eapply add_all_nodes_pass_preserved.
  - by simplify_eq.
Qed.

Lemma add_all_nodes_preserved (fuel : nat) (nodes : list Node)
    (st st' : State) :
  P st → add_all_nodes fuel g nodes st = Ok st' → P st'.
Proof.
  unfold add_all_nodes. intros HP H. inv_bind H.
  by eapply add_all_nodes_loop_preserved.
Qed.

Lemma priority2_loop_preserved (cost : SchedulerNode → Q) (comm_cost : Q)
    (overlappable_nodes : list Node) (st st' : State) (total_cost total_cost' : Q) :
  P st →
  priority2_loop g cost comm_cost overlappable_nodes st total_cost
    = Ok (st', total_cost') →
  P st'.
Proof.
  revert st total_cost. induction overlappable_nodes as [|n l IH];
    intros st tc HP H; simpl in H.
  - by simplify_eq.
  - destruct (Qle_bool comm_cost tc); [by simplify_eq|].
    inv_bind H. destruct a; [by eapply IH|].
    inv_bind H. destruct (Qle_bool _ _); [by eapply IH|].
    inv_bind H. eapply IH; [|exact H]. by eapply add_node_P.
Qed.

Lemma priority1_step_preserved (fuel : nat) (cost : SchedulerNode → Q)
    (cs : Comms) (idx : nat) (st st' : State) (rolled total_cost comm_cost : Q) :
  P st →
  priority1_step fuel g cost cs idx st rolled = Ok (st', total_cost, comm_cost) →
  P st'.
Proof.
  unfold priority1_step. intros HP H. inv_bind H. simplify_eq.
  by eapply add_all_nodes_preserved.
Qed.

Lemma priority2_step_preserved (cost : SchedulerNode → Q)
    (cs : Comms) (idx : nat) (st st' : State) (total_cost comm_cost total_cost' : Q) :
  P st →
  priority2_step g cost cs idx st total_cost comm_cost = Ok (st', total_cost') →
  P st'.
Proof.
  unfold priority2_step. intros HP H.
  destruct (Qle_bool comm_cost total_cost); [by simplify_eq|].
  inv_bind H. by eapply priority2_loop_preserved.
Qed.

Lemma priority3_step_preserved (fuel : nat) (cs : Comms) (idx : nat)
    (st st' : State) :
  P st → priority3_step fuel g cs idx st = Ok st' → P st'.
Proof.
  unfold priority3_step. intros HP H. inv_bind H.
  by eapply add_all_nodes_preserved.
Qed.

Lemma round_preserved (fuel : nat) (cost : SchedulerNode → Q)
    (cs : Comms) (idx : nat) (st st' : State) (rolled rolled' : Q) :
  P st → round fuel g cost cs idx st rolled = Ok (st', rolled') → P st'.
Proof.
  unfold round. intros HP H. inv_bind H. simplify_eq.
  eauto using priority3_step_preserved, priority2_step_preserved,
    priority1_step_preserved.
Qed.

Lemma rounds_preserved (fuel : nat) (cost : SchedulerNode → Q)
    (cs : Comms) (idxs : list nat) (st st' : State) (rolled rolled' : Q) :
  P st → rounds fuel g cost cs idxs st rolled = Ok (st', rolled') → P st'.
Proof.
  revert st rolled. induction idxs as [|idx idxs IH]; intros st r HP H;
    simpl in H.
  - by simplify_eq.
  - inv_bind H. eauto using round_preserved.
Qed.
End preserved.

(** ** Every step of the scheduler only appends to [result] *)

Lemma add_node_advances (g : Graph) (st0 : State) (node : Node)
    (st st' : State) :
  advances st0 st → add_node g node st = Ok st' → advances st0 st'.
Proof.
  intros H0 H. eapply advances_trans; [exact H0|].
  exists [node]. by eapply add_node_advances_by.
Qed.

Lemma advances_result (st st' : State) (x : Node) :
  advances st st' → x ∈ result st → x ∈ result st'.
Proof. intros (ext & -> & _) Hx. apply elem_of_app. by left. Qed.

Lemma add_all_nodes_pass_removed (g : Graph) (sorted_nodes : list Node)
    (all_nodes all_nodes' : gset Node) (st st' : State) :
  add_all_nodes_pass g sorted_nodes all_nodes st = Ok (all_nodes', st') →
  ∃ ext, advances_by ext st st' ∧ all_nodes' = all_nodes ∖ list_to_set ext.
Proof.
  revert all_nodes st. induction sorted_nodes as [|n l IH];
    intros S st H; simpl in H.
  - simplify_eq. exists []. split; [apply advances_by_refl|set_solver].
  - destruct (bool_decide (n ∈ free_nodes st)); [|by eapply IH].
    inv_bind H. apply add_node_advances_by in Ha.
    destruct (IH _ _ H) as (ext & Hadv & ->).
    exists ([n] ++ ext). split; [by eapply advances_by_trans|set_solver].
Qed.

Lemma add_all_nodes_loop_scheduled (fuel : nat) (g : Graph)
    (all_nodes : gset Node) (st st' : State) :
  add_all_nodes_loop fuel g all_nodes st = Ok st' →
  ∃ ext, advances_by ext st st' ∧ all_nodes ⊆ list_to_set ext.
Proof.
  revert all_nodes st. induction fuel as [|fuel IH]; intros S st H;
    simpl in H; case_bool_decide as Hsize; try done.
  - simplify_eq. exists []. split; [apply advances_by_refl|].
    assert (S = ∅) as -> by (by apply gset_size_zero). set_solver.
  - inv_bind H.
    apply add_all_nodes_pass_removed in Ha as (e1 & Hadv1 & ->).
    apply IH in H as (e2 & Hadv2 & Hsub).
    exists (e1 ++ e2). split; [by eapply advances_by_trans|].
    rewrite list_to_set_app_L. intros x Hx.
    destruct (decide (x ∈ (list_to_set e1 : gset Node))); set_solver.
  - simplify_eq. exists []. split; [apply advances_by_refl|].
    assert (S = ∅) as -> by (by apply gset_size_zero). set_solver.
Qed.

Lemma add_all_nodes_scheduled (fuel : nat) (g : Graph) (nodes : list Node)
    (st st' : State) :
  add_all_nodes fuel g nodes st = Ok st' →
  (∀ x, x ∈ nodes → x ∈ unused_nodes st) ∧
  ∃ ext, advances_by ext st st' ∧ ∀ x, x ∈ nodes → x ∈ ext.
Proof.
  unfold add_all_nodes. intros H. inv_bind H.
  apply assert_Ok in Ha. rewrite forallb_forall in Ha. split.
  - intros x Hx. eapply bool_decide_eq_true_1, Ha, list_elem_of_In.
    apply elem_of_elements, elem_of_list_to_set. done.
  - apply add_all_nodes_loop_scheduled in H as (ext & Hadv & Hsub).
    exists ext. split; [done|]. intros x Hx.
    assert (x ∈ (list_to_set ext : gset Node)) as Hin
      by (apply Hsub; by apply elem_of_list_to_set).
    by apply elem_of_list_to_set in Hin.
Qed.

(** ** [before] *)

Ltac solve_app :=
  repeat first [progress simpl | rewrite <- app_assoc]; try done.

Lemma before_app_l {A : Type} (l e : list A) (a b : A) :
  before l a b → before (l ++ e) a b.
Proof.
  intros (l1 & l2 & l3 & ->). exists l1, l2, (l3 ++ e). solve_app.
Qed.

Lemma before_app_cross {A : Type} (l e : list A) (a b : A) :
  a ∈ l → b ∈ e → before (l ++ e) a b.
Proof.
  intros (l1 & l2 & ->)%list_elem_of_split (e1 & e2 & ->)%list_elem_of_split.
  exists l1, (l2 ++ e1), e2. solve_app.
Qed.

Lemma before_snoc_inv {A : Type} (l : list A) (x a b : A) :
  before (l ++ [x]) a b → before l a b ∨ (a ∈ l ∧ b = x).
Proof.
  intros (l1 & l2 & l3 & Heq).
  destruct (snoc_cases l3) as [->|(l3' & y & ->)].
  - right.
    assert (l1 ++ a :: l2 ++ [b] = (l1 ++ a :: l2) ++ [b]) as Hre
      by solve_app.
    rewrite Hre in Heq. apply app_inj_tail in Heq as [-> ->].
    split; [|done]. apply elem_of_app. right. by left.
  - left.
    assert (l1 ++ a :: l2 ++ b :: l3' ++ [y]
            = (l1 ++ a :: l2 ++ b :: l3') ++ [y]) as Hre by solve_app.
    rewrite Hre in Heq. apply app_inj_tail in Heq as [-> _].
    by exists l1, l2, l3'.
Qed.

Lemma before_filter {A : Type} (P : A → Prop) `{!∀ x, Decision (P x)}
    (l : list A) (a b : A) :
  before l a b → P a → P b → before (filter P l) a b.
Proof.
  intros (l1 & l2 & l3 & ->) Ha Hb.
  exists (filter P l1), (filter P l2), (filter P l3).
  rewrite filter_app, filter_cons, decide_True by done.
  by rewrite filter_app, filter_cons, decide_True by done.
Qed.

Lemma filter_eq_app_cons {A : Type} (P : A → Prop) `{!∀ x, Decision (P x)}
    (l : list A) (k1 : list A) (a : A) (k2 : list A) :
  filter P l = k1 ++ a :: k2 →
  ∃ l1 l2, l = l1 ++ a :: l2 ∧ filter P l1 = k1 ∧ filter P l2 = k2.
Proof.
  revert k1. induction l as [|x l IH]; intros k1 Heq.
  - by destruct k1.
  - rewrite filter_cons in Heq. case_decide as HP.
    + destruct k1 as [|y k1]; simpl in Heq.
      * injection Heq as -> Heq. by exists [], l.
      * injection Heq as -> Heq.
        destruct (IH _ Heq) as (l1 & l2 & -> & <- & <-).
        exists (y :: l1), l2. by rewrite filter_cons, decide_True.
    + destruct (IH _ Heq) as (l1 & l2 & -> & <- & <-).
      exists (x :: l1), l2. by rewrite filter_cons, decide_False.
Qed.

Lemma filter_before {A : Type} (P : A → Prop) `{!∀ x, Decision (P x)}
    (l : list A) (a b : A) :
  before (filter P l) a b → before l a b.
Proof.
  intros (k1 & k2 & k3 & Heq).
  apply filter_eq_app_cons in Heq as (l1 & l2 & -> & _ & Heq).
  apply filter_eq_app_cons in Heq as (l3 & l4 & -> & _ & _).
  by exists l1, l3, l4.
Qed.

(** ** The comms are scheduled in the order of [comm_nodes] *)

Lemma comm_at_Ok (cs : Comms) (idx : nat) (c : Node) :
  comm_at cs idx = Ok c ↔ comm_nodes cs !! idx = Some c.
Proof. unfold comm_at. destruct (_ !! _); split; congruence. Qed.

Lemma getitem_Ok {V : Type} (d : gmap Node V) (k : Node) (v : V) :
  getitem d k = Ok v ↔ d !! k = Some v.
Proof. unfold getitem. destruct (_ !! _); split; congruence. Qed.

Lemma priority3_step_Ok (fuel : nat) (g : Graph) (cs : Comms) (idx : nat)
    (st st' : State) :
  priority3_step fuel g cs idx st = Ok st' →
  ∃ next ext,
    comm_nodes cs !! idx = Some next ∧ next ∈ unused_nodes st ∧
    advances_by ext st st' ∧ next ∈ ext.
Proof.
  unfold priority3_step. intros H. inv_bind H.
  apply comm_at_Ok in Ha.
  apply add_all_nodes_scheduled in H as (Hun & ext & Hadv & Hin).
  exists a, ext. split; [done|].
  assert (a ∈ elements (unused_nodes st ∩ a0) ++ [a]) as Ha'.
  { apply elem_of_app. right. by left. }
  auto.
Qed.

Lemma round_schedules_next (fuel : nat) (g : Graph) (cost : SchedulerNode → Q)
    (cs : Comms) (idx : nat) (st st' : State) (rolled rolled' : Q) :
  round fuel g cost cs idx st rolled = Ok (st', rolled') →
  ∃ next ext,
    comm_nodes cs !! idx = Some next ∧
    result st' = result st ++ ext ∧ next ∈ ext.
Proof.
  unfold round. intros H. inv_bind H. simplify_eq.
  assert (advances st s) as (e1 & Hr1 & _).
  { eapply (priority1_step_preserved g (advances st)); [|apply advances_refl|done].
    intros. by eapply add_node_advances. }
  assert (advances s s0) as (e2 & Hr2 & _).
  { eapply (priority2_step_preserved g (advances s)); [|apply advances_refl|done].
    intros. by eapply add_node_advances. }
  apply priority3_step_Ok in Ha2 as (next & e3 & Hnext & _ & (Hr3 & _) & Hin).
  exists next, (e1 ++ e2 ++ e3). split; [done|]. split.
  - rewrite Hr3, Hr2, Hr1. solve_app.
  - rewrite !elem_of_app. auto.
Qed.

Lemma comms_in_order_step (comms : list Node) (k : nat) (st st' : State)
    (next : Node) (ext : list Node) :
  comms_in_order comms k st →
  comms !! k = Some next →
  result st' = result st ++ ext → next ∈ ext →
  comms_in_order comms (S k) st'.
Proof.
  intros [Hord Hin] Hk Hr Hnext. unfold comms_in_order.
  rewrite (take_S_r _ _ _ Hk), Hr. split.
  - intros a b [Hab|[Ha ->]]%before_snoc_inv.
    + apply before_app_l. auto.
    + apply before_app_cross; auto.
  - intros a [Ha|Ha]%elem_of_app; apply elem_of_app; [auto|].
    apply list_elem_of_singleton in Ha as ->. auto.
Qed.

Lemma comms_in_order_advances (comms : list Node) (k : nat) (st st' : State) :
  comms_in_order comms k st → advances st st' → comms_in_order comms k st'.
Proof.
  intros [Hord Hin] (ext & Hr & _). unfold comms_in_order. rewrite Hr. split.
  - intros a b Hab. apply before_app_l. auto.
  - intros a Ha. apply elem_of_app. auto.
Qed.

Lemma rounds_comms_in_order (fuel : nat) (g : Graph) (cost : SchedulerNode → Q)
    (cs : Comms) (k m : nat) (st st' : State) (rolled rolled' : Q) :
  rounds fuel g cost cs (seq k m) st rolled = Ok (st', rolled') →
  comms_in_order (comm_nodes cs) k st →
  comms_in_order (comm_nodes cs) (k + m) st'.
Proof.
  revert k st rolled. induction m as [|m IH]; intros k st r H Hord;
    simpl in H.
  - simplify_eq. by rewrite Nat.add_0_r.
  - inv_bind H.
    apply round_schedules_next in Ha as (next & ext & Hk & Hr & Hin).
    rewrite Nat.add_succ_r. apply (IH (S k) _ _ H).
    by eapply comms_in_order_step.
Qed.

Lemma dict_of_dom {V : Type} (f : Node → outcome V) (keys : list Node)
    (d d' : gmap Node V) :
  dict_of f keys d = Ok d' → dom d' = dom d ∪ list_to_set keys.
Proof.
  revert d. induction keys as [|k keys IH]; intros d H; simpl in H.
  - simplify_eq. set_solver.
  - inv_bind H. apply IH in H. rewrite H, dom_insert_L. set_solver.
Qed.

Lemma dict_of_size {V : Type} (f : Node → outcome V) (keys : list Node)
    (d' : gmap Node V) :
  NoDup keys → dict_of f keys ∅ = Ok d' → size d' = length keys.
Proof.
  intros Hn H%dict_of_dom.
  rewrite <- size_dom, H, dom_empty_L, (left_id_L ∅ (∪)).
  by apply size_list_to_set.
Qed.

Lemma schedule_comms_in_order (fuel : nat) (g : Graph)
    (cost : SchedulerNode → Q) (nodes comms : list Node) (st : State) :
  NoDup comms →
  schedule_comms fuel g cost nodes comms = Ok st →
  comms_in_order comms (length comms) st.
Proof.
  unfold schedule_comms. intros Hn H. inv_bind H. simplify_eq.
  apply comm_at_Ok in Ha1. simpl in Ha1.
  apply dict_of_size in Ha; [|done]. rewrite Ha in Ha4.
  apply add_all_nodes_scheduled in Ha3 as (_ & ext & (Hr & _) & Hin).
  apply rounds_comms_in_order in Ha4.
  - simpl in Ha4. destruct comms; [done|].
    simpl in Ha4. by rewrite Nat.sub_0_r in Ha4.
  - simpl. destruct comms as [|c comms]; [done|]. simpl in Ha1.
    injection Ha1 as ->. unfold comms_in_order. simpl. rewrite take_0. split.
    + intros x y (l1 & l2 & l3 & Heq).
      apply (f_equal length) in Heq. rewrite !length_app in Heq.
      simpl in Heq. rewrite length_app in Heq. simpl in Heq. lia.
    + intros x Hx. apply list_elem_of_singleton in Hx as ->.
      rewrite Hr. simpl. apply Hin. apply elem_of_app. right. by left.
Qed.

Lemma schedule_comm_order (fuel : nat) (g : Graph)
    (cost : SchedulerNode → Q) (nodes comms res : list Node) (x y : Node) :
  NoDup comms →
  schedule fuel g cost nodes comms = Ok res →
  before comms x y → before res x y.
Proof.
  unfold schedule. intros Hn H Hxy.
  apply bind_Ok in H as (st & Hst & H).
  apply bind_Ok in H as (st' & Hst' & H). simplify_eq.
  pose proof (schedule_comms_in_order _ _ _ _ _ _ Hn Hst) as Hord.
  assert (advances st st') as Hadv.
  { eapply (add_all_nodes_preserved g (advances st)); [|apply advances_refl|done].
    intros. by eapply add_node_advances. }
  apply (comms_in_order_advances _ _ _ _ Hord) in Hadv as [Hord' _].
  apply Hord'. by rewrite firstn_all.
Qed.

(** ** The cleanup passes keep the order of the comms *)

Lemma is_comm_not_wait (g : Graph) (n : Node) :
  is_comm g n → is_kind g Wait n = false.
Proof. intros H. by apply (is_kind_excl g CommStart Wait). Qed.

Lemma is_comm_has_meta (g : Graph) (n : Node) :
  is_comm g n → has_fusion_meta g n = true.
Proof. apply is_kind_has_meta. Qed.

Lemma sink_waits_filter_not_wait (g : Graph) (l out : list Node) :
  sink_waits g l = Ok out →
  filter (λ n, is_kind g Wait n = false) out
  = filter (λ n, is_kind g Wait n = false) l.
Proof.
  intros [_ ->]%sink_waits_Ok. apply sunk_filter_not_wait, all_waits_empty.
Qed.

Lemma raise_comms_filter_comm (g : Graph) (l out : list Node) :
  raise_comms g l = Ok out →
  filter (is_comm g) out = filter (is_comm g) l.
Proof.
  intros (_ & Hlen & ->)%raise_comms_Ok.
  pose proof (raised_filter_comm g (reverse l) [] (Forall_nil_2 _)) as H.
  pose proof (raised_queue_comms g (reverse l) [] (Forall_nil_2 _)) as Hq.
  simpl in H. rewrite filter_reverse, filter_app.
  rewrite (filter_all_true (is_comm g) (raised g (reverse l) []).2) by done.
  by rewrite H, filter_reverse, reverse_involutive.
Qed.

Lemma sink_waits_before (g : Graph) (l out : list Node) (a b : Node) :
  sink_waits g l = Ok out →
  is_kind g Wait a = false → is_kind g Wait b = false →
  before l a b → before out a b.
Proof.
  intros Hs Ha Hb Hab.
  apply (filter_before (λ n, is_kind g Wait n = false)).
  rewrite (sink_waits_filter_not_wait _ _ _ Hs). by apply before_filter.
Qed.

Lemma raise_comms_before (g : Graph) (l out : list Node) (a b : Node) :
  raise_comms g l = Ok out →
  is_comm g a → is_comm g b →
  before l a b → before out a b.
Proof.
  intros Hr Ha Hb Hab. apply (filter_before (is_comm g)).
  rewrite (raise_comms_filter_comm _ _ _ Hr). by apply before_filter.
Qed.

Lemma before_NoDup_ne {A : Type} (l : list A) (a b : A) :
  NoDup l → before l a b → a ≠ b.
Proof.
  intros Hn (l1 & l2 & l3 & ->) ->.
  apply NoDup_app in Hn as (_ & _ & Hn). apply NoDup_cons in Hn as [Hn _].
  apply Hn. apply elem_of_app. right. by left.
Qed.

Lemma mapM_snode_Ok (g : Graph) (nodes : list Node) (out : list SchedulerNode) :
  mapM (snode g) nodes = Ok out →
  Forall2 (λ n s, meta g n = Some s) nodes out.
Proof.
  revert out. induction nodes as [|n nodes IH]; intros out H; simpl in H.
  - injection H as <-. constructor.
  - inv_bind H. injection H as <-. constructor; [by apply snode_Ok|auto].
Qed.

Lemma before_Forall2 {A B : Type} (R : A → B → Prop) (l : list A)
    (k : list B) (a b : A) :
  Forall2 R l k → before l a b →
  ∃ a' b', R a a' ∧ R b b' ∧ before k a' b'.
Proof.
  intros HF (l1 & l2 & l3 & ->).
  apply Forall2_app_inv_l in HF as (k1 & k' & _ & HF & ->).
  apply Forall2_cons_inv_l in HF as (a' & k'' & Ha & HF & ->).
  apply Forall2_app_inv_l in HF as (k2 & k''' & _ & HF & ->).
  apply Forall2_cons_inv_l in HF as (b' & k3 & Hb & _ & ->).
  exists a', b'. split; [done|]. split; [done|]. by exists k1, k2, k3.
Qed.

Lemma smart_reordering_comm_order (fuel : nat) (g : Graph)
    (cost : SchedulerNode → Q) (nodes out : list Node) (a b : Node) :
  NoDup nodes → before nodes a b → is_comm g a → is_comm g b →
  smart_reordering fuel g cost nodes = Ok out →
  before out a b.
Proof.
  intros Hn Hab Ha Hb. unfold smart_reordering. intros H.
  apply bind_Ok in H as (comms & Hcomms & H).
  rewrite collect_comm_nodes_Ok in Hcomms by apply filter_has_meta.
  injection Hcomms as <-.
  set (nodes' := filter (λ node, has_fusion_meta g node = true) nodes) in *.
  assert (before nodes' a b) as Hab'.
  { apply before_filter; [done|by apply is_comm_has_meta..]. }
  assert (before (filter (is_comm g) nodes') a b) as Hc
    by by apply before_filter.
  case_bool_decide as Hlen.
  { destruct Hc as (l1 & l2 & l3 & Heq). rewrite Heq in Hlen.
    rewrite length_app in Hlen. simpl in Hlen. lia. }
  apply bind_Ok in H as (res & Hres & H).
  apply bind_Ok in H as (sunk & Hsunk & H).
  eapply raise_comms_before; [exact H|done..|].
  eapply sink_waits_before;
    [exact Hsunk|by apply is_comm_not_wait..|].
  eapply schedule_comm_order; [|exact Hres|exact Hc].
  by apply NoDup_filter, NoDup_filter.
Qed.

Lemma dumb_reordering_comm_order (g : Graph)
    (nodes : list Node) (out : list SchedulerNode) (a b : Node) :
  before nodes a b → is_comm g a → is_comm g b →
  dumb_reordering g nodes = Ok out →
  ∃ sa sb, meta g a = Some sa ∧ meta g b = Some sb ∧ before out sa sb.
Proof.
  intros Hab Ha Hb. unfold dumb_reordering. intros H.
  apply bind_Ok in H as (sunk & Hsunk & H).
  apply bind_Ok in H as (raised & Hraised & H).
  apply mapM_snode_Ok in H.
  apply (before_Forall2 (λ n s, meta g n = Some s) raised out a b H).
  eapply raise_comms_before; [exact Hraised|done..|].
  eapply sink_waits_before;
    [exact Hsunk|by apply is_comm_not_wait..|].
  apply before_filter; [done|by apply is_comm_has_meta..].
Qed.

(** ** Topological orders and [before] *)

Lemma before_lookup {A : Type} (l : list A) (a b : A) :
  before l a b ↔ ∃ i j, l !! i = Some a ∧ l !! j = Some b ∧ i < j.
Proof.
  split.
  - intros (l1 & l2 & l3 & ->).
    exists (length l1), (length l1 + S (length l2)). split; [|split; [|lia]].
    + by rewrite list_lookup_middle.
    + rewrite lookup_app_r by lia.
      replace (length l1 + S (length l2) - length l1) with (S (length l2)) by lia.
      simpl. by rewrite list_lookup_middle.
  - intros (i & j & Hi & Hj & Hij).
    apply list_elem_of_split_length in Hi as (l1 & l2 & -> & ->).
    rewrite lookup_app_r in Hj by lia.
    destruct (j - length l1) as [|k] eqn:Hk; [lia|]. simpl in Hj.
    apply list_elem_of_split_length in Hj as (l3 & l4 & -> & _).
    by exists l1, l3, l4.
Qed.

Lemma topological_before (g : Graph) (l : list Node) :
  NoDup l →
  topological g l ↔
  ∀ u v, u ∈ l → v ∈ l → u ∈ args g v → before l u v.
Proof.
  intros Hn. split.
  - intros Ht u v [i Hi]%list_elem_of_lookup [j Hj]%list_elem_of_lookup Huv.
    apply before_lookup. exists i, j. eauto.
  - intros Hb i j u v Hi Hj Huv.
    assert (before l u v) as (i' & j' & Hi' & Hj' & Hlt)%before_lookup
      by eauto using list_elem_of_lookup_2.
    assert (i = i') as -> by by eapply NoDup_lookup.
    assert (j = j') as -> by by eapply NoDup_lookup.
    done.
Qed.

Lemma topological_filter (g : Graph) (P : Node → Prop)
    `{!∀ x, Decision (P x)} (l : list Node) :
  NoDup l → topological g l → topological g (filter P l).
Proof.
  intros Hn Ht. apply topological_before; [by apply NoDup_filter|].
  intros u v [Pu Hu]%list_elem_of_filter [Pv Hv]%list_elem_of_filter Huv.
  apply before_filter; [|done..].
  by apply (topological_before g l Hn).
Qed.

Lemma before_app_r {A : Type} (pre l : list A) (a b : A) :
  before l a b → before (pre ++ l) a b.
Proof.
  intros (l1 & l2 & l3 & ->). exists (pre ++ l1), l2, l3. solve_app.
Qed.

Lemma before_cons_head {A : Type} (l : list A) (a b : A) :
  b ∈ l → before (a :: l) a b.
Proof. intros (l1 & l2 & ->)%list_elem_of_split. by exists [], l1, l2. Qed.

Lemma before_reverse {A : Type} (l : list A) (a b : A) :
  before (reverse l) a b ↔ before l b a.
Proof.
  assert (∀ (l : list A) a b, before l b a → before (reverse l) a b) as Hrev.
  { intros k x y (l1 & l2 & l3 & ->).
    exists (reverse l3), (reverse l2), (reverse l1).
    rewrite reverse_app, reverse_cons, reverse_app, reverse_cons. solve_app. }
  split; [|apply Hrev].
  intros H%Hrev. by rewrite reverse_involutive in H.
Qed.

(** ** [sink_waits] keeps a topological order *)

Lemma sunk_app_exists (g : Graph) (l1 l : list Node) (cur_waits : gset Node) :
  ∃ pre cur_waits',
    sunk g (l1 ++ l) cur_waits = pre ++ sunk g l cur_waits'.
Proof.
  revert cur_waits. induction l1 as [|n l1 IH]; intros cw.
  - by exists [], cw.
  - simpl. destruct (is_kind g Wait n).
    + apply IH.
    + destruct (IH (cw ∖ list_to_set (released g n cw))) as (pre & cw' & ->).
      exists (released g n cw ++ n :: pre), cw'. solve_app.
Qed.

Lemma sunk_before_not_wait (g : Graph) (u v : Node) (l : list Node)
    (cur_waits : gset Node) :
  is_kind g Wait u = false → v ∈ l →
  before (sunk g (u :: l) cur_waits) u v.
Proof.
  intros Hu Hv. simpl. rewrite Hu. apply before_app_r, before_cons_head.
  apply elem_of_sunk. by left.
Qed.

Lemma sunk_before_user (g : Graph) (u v : Node) (l1 l2 : list Node)
    (cur_waits : gset Node) :
  u ∈ cur_waits → is_kind g Wait v = false → v ∈ users g u →
  before (sunk g (l1 ++ v :: l2) cur_waits) u v.
Proof.
  intros Hu Hv Huv. revert cur_waits Hu.
  induction l1 as [|n l1 IH]; intros cw Hu; simpl.
  - rewrite Hv. apply before_app_cross; [|by left].
    by apply elem_of_released.
  - destruct (is_kind g Wait n).
    + apply IH. set_solver.
    + destruct (decide (n ∈ users g u)) as [Hn|Hn].
      * apply before_app_cross; [by apply elem_of_released|].
        right. apply elem_of_sunk. left. apply elem_of_app. right. by left.
      * apply before_app_r. apply (before_app_r [n]). apply IH.
        apply elem_of_difference. split; [done|].
        rewrite elem_of_list_to_set, elem_of_released. tauto.
Qed.

Lemma sunk_before (g : Graph) (l : list Node) (u v : Node) :
  before l u v →
  is_kind g Wait u = false ∨ (is_kind g Wait v = false ∧ v ∈ users g u) →
  before (sunk g l ∅) u v.
Proof.
  intros (l1 & l2 & l3 & ->) Hcase.
  destruct (sunk_app_exists g l1 (u :: l2 ++ v :: l3) ∅) as (pre & cw & ->).
  apply before_app_r.
  destruct (is_kind g Wait u) eqn:Hu.
  - destruct Hcase as [?|[Hv Huv]]; [done|].
    simpl. rewrite Hu. apply sunk_before_user; [set_solver|done..].
  - apply sunk_before_not_wait; [done|].
    apply elem_of_app. right. by left.
Qed.

Lemma sunk_NoDup (g : Graph) (l : list Node) (cur_waits : gset Node) :
  NoDup l → (∀ x, x ∈ l → x ∉ cur_waits) →
  NoDup (sunk g l cur_waits).
Proof.
  revert cur_waits. induction l as [|n l IH]; intros cw Hn Hd; simpl.
  - apply tuple_sorted_elements_NoDup.
  - apply NoDup_cons in Hn as [Hnl Hn].
    assert (n ∉ cw) as Hncw by (apply Hd; by left).
    assert (∀ x, x ∈ l → x ∉ cw) as Hd' by (intros x Hx; apply Hd; by right).
    destruct (is_kind g Wait n).
    + apply IH; [done|]. intros x Hx. specialize (Hd' x Hx). set_solver.
    + apply NoDup_app. split; [apply released_NoDup|]. split.
      * intros x Hrel. pose proof Hrel as [_ Hx]%elem_of_released.
        rewrite elem_of_cons, elem_of_sunk, elem_of_difference,
          elem_of_list_to_set.
        intros [->|[Hxl|[_ Hnot]]]; [done|by apply Hd' in Hxl|done].
      * apply NoDup_cons. split.
        -- rewrite elem_of_sunk, elem_of_difference. tauto.
        -- apply IH; [done|]. intros x Hx. specialize (Hd' x Hx). set_solver.
Qed.

Lemma sink_waits_topological (g : Graph) (l out : list Node) :
  well_formed g → NoDup l → no_wait_on_wait g l → topological g l →
  sink_waits g l = Ok out →
  NoDup out ∧ (∀ x, x ∈ out ↔ x ∈ l) ∧ topological g out.
Proof.
  intros Hwf Hn Hww Ht [_ ->]%sink_waits_Ok.
  assert (NoDup (sunk g l ∅)) as Hn' by (apply sunk_NoDup; set_solver).
  assert (∀ x, x ∈ sunk g l ∅ ↔ x ∈ l) as Hin.
  { intros x. rewrite elem_of_sunk. set_solver. }
  split; [done|]. split; [done|].
  apply topological_before; [done|].
  intros u v Hu%Hin Hv%Hin Huv. apply sunk_before.
  - by apply (topological_before g l Hn).
  - destruct (is_kind g Wait u) eqn:Hku; [|by left]. right.
    split; [|by apply Hwf].
    destruct (is_kind g Wait v) eqn:Hkv; [|done].
    by destruct (Hww u v).
Qed.

(** ** [raise_comms] keeps a topological order *)

Lemma flushed_nil (g : Graph) (cur_comms : list Node) :
  flushed g [] cur_comms = cur_comms.
Proof. done. Qed.

Lemma flushed_comm (g : Graph) (n : Node) (r cur_comms : list Node) :
  is_kind g CommStart n = true →
  flushed g (n :: r) cur_comms = flushed g r (cur_comms ++ [n]).
Proof. intros Hn. unfold flushed. simpl. by rewrite Hn. Qed.

Lemma flushed_not_comm (g : Graph) (n : Node) (r cur_comms : list Node) :
  is_kind g CommStart n = false →
  flushed g (n :: r) cur_comms =
  (raise_comms_pop g n cur_comms []).1 ++
  n :: flushed g r (raise_comms_pop g n cur_comms []).2.
Proof. intros Hn. unfold flushed. simpl. rewrite Hn. simpl. solve_app. Qed.

Lemma elem_of_flushed (g : Graph) (r cur_comms : list Node) (x : Node) :
  x ∈ flushed g r cur_comms ↔ x ∈ cur_comms ∨ x ∈ r.
Proof. apply elem_of_raised. Qed.

Lemma flushed_app_exists (g : Graph) (r1 r cur_comms : list Node) :
  ∃ pre cur_comms',
    flushed g (r1 ++ r) cur_comms = pre ++ flushed g r cur_comms'.
Proof.
  revert cur_comms. induction r1 as [|n r1 IH]; intros cc.
  - by exists [], cc.
  - simpl. destruct (is_kind g CommStart n) eqn:Hn.
    + rewrite flushed_comm by done. apply IH.
    + rewrite flushed_not_comm by done.
      destruct (IH (raise_comms_pop g n cc []).2) as (pre & cc' & ->).
      exists ((raise_comms_pop g n cc []).1 ++ n :: pre), cc'. solve_app.
Qed.

Lemma flushed_before_not_comm (g : Graph) (p q : Node) (r cur_comms : list Node) :
  is_kind g CommStart p = false → q ∈ r →
  before (flushed g (p :: r) cur_comms) p q.
Proof.
  intros Hp Hq. rewrite flushed_not_comm by done.
  apply before_app_r, before_cons_head. apply elem_of_flushed. by right.
Qed.

Lemma raise_comms_pop_takes (g : Graph) (q p : Node) (cur_comms : list Node) :
  p ∈ cur_comms → q ∈ args g p →
  p ∈ (raise_comms_pop g q cur_comms []).1.
Proof.
  intros Hp Hq.
  destruct (raise_comms_pop_split g q cur_comms) as (Hs & Hleft & _).
  simpl in Hs, Hleft. rewrite Hs in Hp.
  apply elem_of_app in Hp as [Hp|Hp]; [done|].
  assert (any_comm_uses g q (raise_comms_pop g q cur_comms []).2 = true)
    by (apply any_comm_uses_true; eauto).
  congruence.
Qed.

Lemma flushed_before_arg (g : Graph) (p q : Node) (r1 r2 cur_comms : list Node) :
  p ∈ cur_comms → is_kind g CommStart q = false → q ∈ args g p →
  before (flushed g (r1 ++ q :: r2) cur_comms) p q.
Proof.
  intros Hp Hq Hqp. revert cur_comms Hp.
  induction r1 as [|n r1 IH]; intros cc Hp; simpl.
  - rewrite flushed_not_comm by done.
    apply before_app_cross; [|by left]. by apply raise_comms_pop_takes.
  - destruct (is_kind g CommStart n) eqn:Hn.
    + rewrite flushed_comm by done. apply IH. apply elem_of_app. by left.
    + rewrite flushed_not_comm by done.
      destruct (raise_comms_pop_split g n cc) as (Hs & _). simpl in Hs.
      rewrite Hs in Hp. apply elem_of_app in Hp as [Hp|Hp].
      * apply before_app_cross; [done|]. right.
        apply elem_of_flushed. right. apply elem_of_app. right. by left.
      * apply before_app_r. apply (before_app_r [n]). by apply IH.
Qed.

Lemma flushed_before (g : Graph) (r : list Node) (p q : Node) :
  before r p q →
  is_kind g CommStart p = false ∨
  (is_kind g CommStart q = false ∧ q ∈ args g p) →
  before (flushed g r []) p q.
Proof.
  intros (r1 & r2 & r3 & ->) Hcase.
  destruct (flushed_app_exists g r1 (p :: r2 ++ q :: r3) []) as (pre & cc & ->).
  apply before_app_r.
  destruct (is_kind g CommStart p) eqn:Hp.
  - destruct Hcase as [?|[Hq Hqp]]; [done|].
    rewrite flushed_comm by done. apply flushed_before_arg; [|done..].
    apply elem_of_app. right. by left.
  - apply flushed_before_not_comm; [done|].
    apply elem_of_app. right. by left.
Qed.

Lemma flushed_Permutation (g : Graph) (r cur_comms : list Node) :
  flushed g r cur_comms ≡ₚ cur_comms ++ r.
Proof.
  revert cur_comms. induction r as [|n r IH]; intros cc.
  - by rewrite flushed_nil, app_nil_r.
  - destruct (is_kind g CommStart n) eqn:Hn.
    + rewrite flushed_comm, IH by done. by rewrite <- app_assoc.
    + rewrite flushed_not_comm, IH by done.
      destruct (raise_comms_pop_split g n cc) as (Hs & _). simpl in Hs.
      rewrite Hs at 3. rewrite <- app_assoc.
      apply Permutation_app_head. apply Permutation_middle.
Qed.

Lemma raise_comms_flushed (g : Graph) (l out : list Node) :
  raise_comms g l = Ok out → out = reverse (flushed g (reverse l) []).
Proof. by intros (_ & _ & ->)%raise_comms_Ok. Qed.

Lemma raise_comms_Permutation (g : Graph) (l out : list Node) :
  raise_comms g l = Ok out → out ≡ₚ l.
Proof.
  intros ->%raise_comms_flushed.
  by rewrite reverse_Permutation, flushed_Permutation, reverse_Permutation.
Qed.

Lemma raise_comms_topological (g : Graph) (l out : list Node) :
  NoDup l → topological g l →
  raise_comms g l = Ok out →
  NoDup out ∧ (∀ x, x ∈ out ↔ x ∈ l) ∧ topological g out.
Proof.
  intros Hn Ht Hr. pose proof (raise_comms_Permutation _ _ _ Hr) as Hp.
  assert (NoDup out) as Hn' by by rewrite Hp.
  assert (∀ x, x ∈ out ↔ x ∈ l) as Hin by (intros x; by rewrite Hp).
  split; [done|]. split; [done|].
  apply topological_before; [done|].
  intros u v Hu%Hin Hv%Hin Huv.
  assert (before l u v) as Hb by by apply (topological_before g l Hn).
  destruct (is_kind g CommStart v) eqn:Hv'.
  - destruct (is_kind g CommStart u) eqn:Hu'.
    + by eapply raise_comms_before.
    + rewrite (raise_comms_flushed _ _ _ Hr). apply before_reverse.
      apply flushed_before; [by apply before_reverse|]. right. done.
  - rewrite (raise_comms_flushed _ _ _ Hr). apply before_reverse.
    apply flushed_before; [by apply before_reverse|]. by left.
Qed.

(** ** The loop of [add_node] over the users *)

Lemma release_users_indeg (st : State) (us : list Node) (v : Node) :
  NoDup us →
  indeg (foldl release_user st us) !! v =
  if decide (v ∈ us) then (λ d, (d - 1)%Z) <$> indeg st !! v
  else indeg st !! v.
Proof.
  revert st. induction us as [|u us IH]; intros st Hn; simpl.
  - destruct (decide (v ∈ [])) as [H|]; [by apply elem_of_nil in H|done].
  - apply NoDup_cons in Hn as [Hu Hn]. rewrite IH by done.
    assert (indeg (release_user st u) !! v =
            if decide (v = u) then (λ d, (d - 1)%Z) <$> indeg st !! v
            else indeg st !! v) as ->.
    { unfold release_user. destruct (indeg st !! u) eqn:Hd; simpl.
      - destruct (decide (v = u)) as [->|Hne].
        + by rewrite lookup_insert_eq, Hd.
        + by rewrite lookup_insert_ne.
      - destruct (decide (v = u)) as [->|Hne]; [by rewrite Hd|done]. }
    destruct (decide (v = u)) as [->|Hne].
    + rewrite decide_False by done. rewrite decide_True; [done|by left].
    + destruct (decide (v ∈ us)).
      * rewrite decide_True; [done|by right].
      * rewrite decide_False; [done|]. by intros [?|?]%elem_of_cons.
Qed.

Lemma release_users_free (st : State) (us : list Node) (x : Node) :
  NoDup us →
  x ∈ free_nodes (foldl release_user st us) ↔
  x ∈ free_nodes st ∨ (x ∈ us ∧ indeg st !! x = Some 1%Z).
Proof.
  revert st. induction us as [|u us IH]; intros st Hn; simpl.
  - rewrite elem_of_nil. tauto.
  - apply NoDup_cons in Hn as [Hu Hn]. rewrite IH by done.
    rewrite elem_of_cons.
    assert (x ∈ free_nodes (release_user st u) ↔
            x ∈ free_nodes st ∨ (x = u ∧ indeg st !! x = Some 1%Z)) as ->.
    { unfold release_user. destruct (indeg st !! u) as [d|] eqn:Hd; simpl.
      - case_bool_decide as Hz.
        + rewrite elem_of_union, elem_of_singleton.
          assert (d = 1%Z) as -> by lia.
          split; [intros [->|?]; auto|intros [?|[-> _]]; auto].
        + split; [auto|]. intros [?|[-> Hx]]; [done|].
          rewrite Hd in Hx. injection Hx as ->. done.
      - split; [auto|]. intros [?|[-> Hx]]; [done|]. congruence. }
    assert (x ∈ us → indeg (release_user st u) !! x = indeg st !! x) as Hsame.
    { intros Hx. unfold release_user. destruct (indeg st !! u); [|done].
      simpl. apply lookup_insert_ne. by intros ->. }
    split.
    + intros [[?|[-> ?]]|[Hx Hd]]; auto.
      rewrite Hsame in Hd by done. auto.
    + intros [?|[[->|Hx] Hd]]; auto.
      right. rewrite Hsame by done. auto.
Qed.

(** ** The pending arguments of a node *)

Lemma elem_of_pending (g : Graph) (nodes res : list Node) (v u : Node) :
  u ∈ pending g nodes res v ↔ u ∈ nodes ∧ (u ∉ res) ∧ v ∈ users g u.
Proof. unfold pending. rewrite list_elem_of_filter. tauto. Qed.

Lemma pending_nil (g : Graph) (nodes res : list Node) (v : Node) :
  pending g nodes res v = [] ↔
  ∀ u, u ∈ nodes → v ∈ users g u → u ∈ res.
Proof.
  split.
  - intros H u Hu Hv. destruct (decide (u ∈ res)) as [|Hn]; [done|].
    assert (u ∈ pending g nodes res v) as Hin by by apply elem_of_pending.
    rewrite H in Hin. by apply elem_of_nil in Hin.
  - intros H. apply elem_of_nil_inv. intros u (Hu & Hn & Hv)%elem_of_pending.
    auto.
Qed.

Lemma filter_ext_in {A : Type} (P1 P2 : A → Prop)
    `{!∀ x, Decision (P1 x), !∀ x, Decision (P2 x)} (l : list A) :
  (∀ x, x ∈ l → P1 x ↔ P2 x) → filter P1 l = filter P2 l.
Proof.
  induction l as [|y l IH]; intros Heq; [done|].
  rewrite !filter_cons.
  assert (filter P1 l = filter P2 l) as ->
    by (apply IH; intros z Hz; apply Heq; by right).
  assert (P1 y ↔ P2 y) as Hy by (apply Heq; by left).
  destruct (decide (P1 y)), (decide (P2 y)); tauto.
Qed.

Lemma filter_length_remove {A : Type} `{!EqDecision A} (P : A → Prop)
    `{!∀ x, Decision (P x)} (l : list A) (x : A) :
  NoDup l → x ∈ l → P x →
  length (filter P l) = S (length (filter (λ y, P y ∧ y ≠ x) l)).
Proof.
  intros Hn Hx HP. induction l as [|y l IH]; [by apply elem_of_nil in Hx|].
  apply NoDup_cons in Hn as [Hy Hn].
  rewrite !filter_cons. destruct (decide (y = x)) as [->|Hne].
  - rewrite decide_True by done. rewrite decide_False by tauto. simpl.
    f_equal. f_equal. apply filter_ext_in. intros z Hz.
    split; [|tauto]. intros Hpz. split; [done|]. by intros ->.
  - apply elem_of_cons in Hx as [->|Hx]; [done|].
    destruct (decide (P y)).
    + rewrite decide_True by done. simpl. f_equal. by apply IH.
    + rewrite decide_False by tauto. by apply IH.
Qed.

Lemma pending_snoc_user (g : Graph) (nodes res : list Node) (node v : Node) :
  NoDup nodes → node ∈ nodes → node ∉ res → v ∈ users g node →
  length (pending g nodes res v)
  = S (length (pending g nodes (res ++ [node]) v)).
Proof.
  intros Hn Hin Hres Hv. unfold pending.
  rewrite (filter_length_remove _ nodes node) by done.
  f_equal. f_equal. apply list_filter_iff. intros u.
  rewrite elem_of_app, list_elem_of_singleton. tauto.
Qed.

Lemma pending_snoc_other (g : Graph) (nodes res : list Node) (node v : Node) :
  v ∉ users g node →
  pending g nodes (res ++ [node]) v = pending g nodes res v.
Proof.
  intros Hv. unfold pending. apply list_filter_iff. intros u.
  rewrite elem_of_app, list_elem_of_singleton.
  split; [tauto|]. intros [Hu Hvu]. split; [|done].
  intros [?|Heq]; [done|]. by subst.
Qed.

(** ** The invariant *)

Lemma add_node_Inv (g : Graph) (nodes : list Node) (node : Node)
    (st st' : State) :
  well_formed g → NoDup nodes →
  Inv g nodes st → add_node g node st = Ok st' → Inv g nodes st'.
Proof.
  intros Hwf Hnd HI (Hun & Hfree & ->)%add_node_Ok.
  pose proof (users_NoDup g Hwf node) as Hus.
  apply (inv_unused _ _ _ HI) in Hun as [Hin Hres].
  apply (inv_free _ _ _ HI) in Hfree as (_ & _ & Hpend).
  set (st1 := {| indeg := indeg st;
                 free_nodes := free_nodes st ∖ {[node]};
                 unused_nodes := unused_nodes st ∖ {[node]};
                 result := result st ++ [node] |}).
  destruct (release_users_result st1 (users g node)) as [Hr Hu].
  assert (node ∉ users g node) as Hself.
  { intros Hs. assert (node ∈ result st); [|done].
    eapply pending_nil; eauto. }
  split.
  - rewrite Hr. simpl. apply NoDup_app. split; [apply HI|].
    split; [|apply NoDup_singleton].
    intros x Hx ->%list_elem_of_singleton. done.
  - intros x. rewrite Hr. simpl. intros [Hx|Hx]%elem_of_app.
    + by apply (inv_result _ _ _ HI).
    + by apply list_elem_of_singleton in Hx as ->.
  - intros x. rewrite Hu, Hr. simpl.
    rewrite elem_of_difference, elem_of_singleton, (inv_unused _ _ _ HI),
      elem_of_app, list_elem_of_singleton. tauto.
  - intros v Hv. rewrite Hr, release_users_indeg by done. simpl.
    rewrite (inv_indeg _ _ _ HI) by done.
    destruct (decide (v ∈ users g node)) as [Hvu|Hvu].
    + rewrite (pending_snoc_user g nodes (result st) node v) by done.
      simpl. f_equal. lia.
    + by rewrite pending_snoc_other.
  - intros v Hv. rewrite release_users_indeg by done. simpl.
    rewrite (inv_indeg_dom _ _ _ HI) by done. by destruct (decide _).
  - intros v. rewrite Hr, release_users_free by done. simpl.
    rewrite elem_of_difference, elem_of_singleton, (inv_free _ _ _ HI),
      elem_of_app, list_elem_of_singleton.
    destruct (decide (v ∈ users g node)) as [Hvu|Hvu].
    + split.
      * intros [[(Hv & Hvr & Hvp) Hne]|[_ Hd]].
        { assert (node ∈ result st); [|done]. eapply pending_nil; eauto. }
        assert (v ∈ nodes) as Hv.
        { destruct (decide (v ∈ nodes)) as [|Hn]; [done|].
          by rewrite (inv_indeg_dom _ _ _ HI) in Hd. }
        rewrite (inv_indeg _ _ _ HI) in Hd by done.
        rewrite (pending_snoc_user g nodes (result st) node v) in Hd by done.
        split; [done|]. split.
        -- intros [Hvr| ->]; [|done].
           apply list_elem_of_split in Hvr as (l1 & l2 & Hsplit).
           assert (node ∈ l1) as Hl1
             by (eapply (inv_closed _ _ _ HI); eauto).
           apply Hres. rewrite Hsplit. apply elem_of_app. by left.
        -- apply length_zero_iff_nil. injection Hd as Hd. lia.
      * intros (Hv & Hvr & Hvp). right. split; [done|].
        rewrite (inv_indeg _ _ _ HI) by done.
        rewrite (pending_snoc_user g nodes (result st) node v) by done.
        by rewrite Hvp.
    + rewrite pending_snoc_other by done. split.
      * intros [[(Hv & Hvr & Hvp) Hne]|[? _]]; [|done]. tauto.
      * intros (Hv & Hvr & Hvp). left. split; [tauto|]. by intros ->; tauto.
  - intros l1 v l2. rewrite Hr. simpl. intros Hsplit u Hu' Hvu.
    destruct (snoc_cases l2) as [->|(l2' & y & ->)].
    + apply app_inj_tail in Hsplit as [<- <-].
      eapply pending_nil; eauto.
    + assert (l1 ++ v :: l2' ++ [y] = (l1 ++ v :: l2') ++ [y]) as Hre
        by solve_app.
      rewrite Hre in Hsplit. apply app_inj_tail in Hsplit as [Hsplit _].
      eapply (inv_closed _ _ _ HI); eauto.
Qed.

Lemma zero_indeg_lookup (nodes : list Node) (m : gmap Node Z) (v : Node) :
  foldl (λ indeg k, <[k := 0%Z]> indeg) m nodes !! v =
  if decide (v ∈ nodes) then Some 0%Z else m !! v.
Proof.
  revert m. induction nodes as [|n nodes IH]; intros m; simpl.
  - destruct (decide (v ∈ [])) as [H|]; [by apply elem_of_nil in H|done].
  - rewrite IH. destruct (decide (v ∈ nodes)) as [Hv|Hv].
    + rewrite decide_True; [done|by right].
    + destruct (decide (v = n)) as [->|Hne].
      * rewrite lookup_insert_eq. rewrite decide_True; [done|by left].
      * rewrite lookup_insert_ne by done. rewrite decide_False; [done|].
        by intros [?|?]%elem_of_cons.
Qed.

Lemma count_users_lookup (us : list Node) (m : gmap Node Z) (v : Node) :
  NoDup us →
  foldl count_user m us !! v =
  if decide (v ∈ us) then (λ d, (d + 1)%Z) <$> m !! v else m !! v.
Proof.
  revert m. induction us as [|u us IH]; intros m Hn; simpl.
  - destruct (decide (v ∈ [])) as [H|]; [by apply elem_of_nil in H|done].
  - apply NoDup_cons in Hn as [Hu Hn]. rewrite IH by done.
    assert (count_user m u !! v =
            if decide (v = u) then (λ d, (d + 1)%Z) <$> m !! v else m !! v)
      as ->.
    { unfold count_user. destruct (m !! u) eqn:Hd.
      - destruct (decide (v = u)) as [->|Hne].
        + by rewrite lookup_insert_eq, Hd.
        + by rewrite lookup_insert_ne.
      - destruct (decide (v = u)) as [->|Hne]; [by rewrite Hd|done]. }
    destruct (decide (v = u)) as [->|Hne].
    + rewrite decide_False by done. rewrite decide_True; [done|by left].
    + destruct (decide (v ∈ us)).
      * rewrite decide_True; [done|by right].
      * rewrite decide_False; [done|]. by intros [?|?]%elem_of_cons.
Qed.

Lemma count_all_users_lookup (g : Graph) (l : list Node) (m : gmap Node Z)
    (v : Node) :
  (∀ u, NoDup (users g u)) →
  foldl (λ indeg node, foldl count_user indeg (users g node)) m l !! v =
  (λ d, (d + Z.of_nat (length (filter (λ u, v ∈ users g u) l)))%Z) <$> m !! v.
Proof.
  intros Hus. revert m. induction l as [|n l IH]; intros m; simpl.
  - destruct (m !! v); simpl; [f_equal; lia|done].
  - rewrite IH, count_users_lookup by done. rewrite filter_cons.
    destruct (decide (v ∈ users g n)); destruct (m !! v); simpl;
      try done; f_equal; lia.
Qed.

Lemma pending_start (g : Graph) (nodes : list Node) (v : Node) :
  pending g nodes [] v = filter (λ u, v ∈ users g u) nodes.
Proof.
  unfold pending. apply list_filter_iff. intros u.
  rewrite elem_of_nil. tauto.
Qed.

Lemma initial_state_Inv (g : Graph) (nodes : list Node) :
  well_formed g →
  Forall (λ n, has_fusion_meta g n = true) nodes →
  Inv g nodes (initial_state g nodes).
Proof.
  intros Hwf Hm.
  assert (∀ v, initial_indeg g nodes !! v =
               if decide (v ∈ nodes)
               then Some (Z.of_nat (length (pending g nodes [] v)))
               else None) as Hindeg.
  { intros v. unfold initial_indeg.
    rewrite count_all_users_lookup by apply Hwf.
    rewrite zero_indeg_lookup, pending_start.
    destruct (decide (v ∈ nodes)); simpl; [f_equal|by rewrite lookup_empty]. }
  split; simpl.
  - constructor.
  - by intros x ?%elem_of_nil.
  - intros x. rewrite elem_of_list_to_set, list_elem_of_filter, elem_of_nil.
    rewrite Forall_forall in Hm. split; [tauto|]. intros [Hx _]. auto.
  - intros v Hv. by rewrite Hindeg, decide_True.
  - intros v Hv. by rewrite Hindeg, decide_False.
  - intros v. rewrite elem_of_list_to_set, list_elem_of_filter, elem_of_nil.
    rewrite Hindeg. split.
    + intros [Hz Hv]. rewrite decide_True in Hz by done.
      split; [done|]. split; [tauto|].
      apply length_zero_iff_nil. injection Hz as Hz. lia.
    + intros (Hv & _ & Hp). split; [|done].
      by rewrite decide_True, Hp.
  - intros l1 v l2 Hsplit. by destruct l1.
Qed.

(** ** The schedule is a topological order of the nodes *)

Lemma Inv_topological (g : Graph) (nodes : list Node) (st : State) :
  well_formed g → Inv g nodes st → topological g (result st).
Proof.
  intros Hwf HI. apply topological_before; [apply (inv_NoDup _ _ _ HI)|].
  intros u v Hu Hv Huv.
  apply list_elem_of_split in Hv as (l1 & l2 & Hsplit).
  assert (u ∈ l1) as (k1 & k2 & ->)%list_elem_of_split.
  { eapply (inv_closed _ _ _ HI);
      [exact Hsplit|by apply (inv_result _ _ _ HI)|by apply Hwf]. }
  rewrite Hsplit. exists k1, k2, l2. solve_app.
Qed.

Lemma schedule_comms_Inv (fuel : nat) (g : Graph) (cost : SchedulerNode → Q)
    (nodes comms : list Node) (st : State) :
  well_formed g → NoDup nodes →
  Forall (λ n, has_fusion_meta g n = true) nodes →
  schedule_comms fuel g cost nodes comms = Ok st →
  Inv g nodes st.
Proof.
  intros Hwf Hn Hm H. unfold schedule_comms in H. inv_bind H. simplify_eq.
  assert (∀ node st st', Inv g nodes st → add_node g node st = Ok st' →
                          Inv g nodes st') as Hadd
    by (intros; by eapply add_node_Inv).
  eapply rounds_preserved; [exact Hadd| |eassumption].
  eapply add_all_nodes_preserved; [exact Hadd| |eassumption].
  by apply initial_state_Inv.
Qed.

Lemma schedule_topological (fuel : nat) (g : Graph) (cost : SchedulerNode → Q)
    (nodes comms res : list Node) :
  well_formed g → NoDup nodes →
  Forall (λ n, has_fusion_meta g n = true) nodes →
  schedule fuel g cost nodes comms = Ok res →
  NoDup res ∧ (∀ x, x ∈ res ↔ x ∈ nodes) ∧ topological g res.
Proof.
  intros Hwf Hn Hm H. unfold schedule in H.
  apply bind_Ok in H as (st & Hst & H).
  apply bind_Ok in H as (st' & Hst' & H). injection H as <-.
  pose proof (schedule_comms_Inv _ _ _ _ _ _ Hwf Hn Hm Hst) as HI.
  assert (Inv g nodes st') as HI'.
  { eapply add_all_nodes_preserved; [|exact HI|exact Hst'].
    intros. by eapply add_node_Inv. }
  split; [apply (inv_NoDup _ _ _ HI')|].
  split; [|by eapply Inv_topological].
  intros x. split; [apply (inv_result _ _ _ HI')|]. intros Hx.
  apply add_all_nodes_scheduled in Hst' as (_ & ext & (Hr & _) & Hin).
  rewrite Hr. apply elem_of_app.
  destruct (decide (x ∈ result st)) as [|Hnot]; [by left|right].
  apply Hin, elem_of_elements, (inv_unused _ _ _ HI). done.
Qed.

(** ** Both schedulers return topological orders *)

Lemma no_wait_on_wait_subset (g : Graph) (l k : list Node) :
  (∀ x, x ∈ k → x ∈ l) → no_wait_on_wait g l → no_wait_on_wait g k.
Proof. intros Hsub H u v Hu Hv. apply H; auto. Qed.

Lemma cleanup_topological (g : Graph) (l sunk out : list Node) :
  well_formed g → NoDup l → no_wait_on_wait g l → topological g l →
  sink_waits g l = Ok sunk → raise_comms g sunk = Ok out →
  NoDup out ∧ (∀ x, x ∈ out ↔ x ∈ l) ∧ topological g out.
Proof.
  intros Hwf Hn Hww Ht Hs Hr.
  destruct (sink_waits_topological g l sunk Hwf Hn Hww Ht Hs)
    as (Hn1 & Hin1 & Ht1).
  destruct (raise_comms_topological g sunk out Hn1 Ht1 Hr)
    as (Hn2 & Hin2 & Ht2).
  split; [done|]. split; [|done]. intros x. by rewrite Hin2, Hin1.
Qed.

Lemma smart_reordering_topological (fuel : nat) (g : Graph)
    (cost : SchedulerNode → Q) (nodes out : list Node) :
  well_formed g → NoDup nodes → no_wait_on_wait g nodes →
  topological g nodes →
  smart_reordering fuel g cost nodes = Ok out →
  NoDup out ∧
  (∀ x, x ∈ out ↔ x ∈ nodes ∧ has_fusion_meta g x = true) ∧
  topological g out.
Proof.
  intros Hwf Hn Hww Ht H. unfold smart_reordering in H.
  set (nodes' := filter (λ node, has_fusion_meta g node = true) nodes) in *.
  assert (NoDup nodes') as Hn' by by apply NoDup_filter.
  assert (∀ x, x ∈ nodes' ↔ x ∈ nodes ∧ has_fusion_meta g x = true) as Hin'.
  { intros x. unfold nodes'. rewrite list_elem_of_filter. tauto. }
  assert (topological g nodes') as Ht' by by apply topological_filter.
  apply bind_Ok in H as (comms & Hcomms & H).
  case_bool_decide; [by injection H as <-|].
  apply bind_Ok in H as (res & Hres & H).
  apply bind_Ok in H as (sunk & Hsunk & H).
  apply schedule_topological in Hres as (Hn1 & Hin1 & Ht1);
    [|done|done|apply filter_has_meta].
  destruct (cleanup_topological g res sunk out) as (Hn2 & Hin2 & Ht2);
    try done.
  - eapply no_wait_on_wait_subset; [|exact Hww].
    intros x Hx%Hin1%Hin'. tauto.
  - split; [done|]. split; [|done]. intros x. by rewrite Hin2, Hin1.
Qed.

Lemma dumb_reordering_topological (g : Graph) (nodes : list Node)
    (out : list SchedulerNode) :
  well_formed g → NoDup nodes → no_wait_on_wait g nodes →
  topological g nodes →
  dumb_reordering g nodes = Ok out →
  ∃ order,
    Forall2 (λ n s, meta g n = Some s) order out ∧
    NoDup order ∧
    (∀ x, x ∈ order ↔ x ∈ nodes ∧ has_fusion_meta g x = true) ∧
    topological g order.
Proof.
  intros Hwf Hn Hww Ht H. unfold dumb_reordering in H.
  set (nodes' := filter (λ node, has_fusion_meta g node = true) nodes) in *.
  assert (∀ x, x ∈ nodes' ↔ x ∈ nodes ∧ has_fusion_meta g x = true) as Hin'.
  { intros x. unfold nodes'. rewrite list_elem_of_filter. tauto. }
  apply bind_Ok in H as (sunk & Hsunk & H).
  apply bind_Ok in H as (order & Horder & H).
  apply mapM_snode_Ok in H. exists order. split; [done|].
  destruct (cleanup_topological g nodes' sunk order) as (Hn2 & Hin2 & Ht2);
    try done.
  - by apply NoDup_filter.
  - eapply no_wait_on_wait_subset; [|exact Hww]. intros x Hx%Hin'. tauto.
  - by apply topological_filter.
  - split; [done|]. split; [|done]. intros x. by rewrite Hin2.
Qed.

(** * Termination *)

Lemma bind_terminates {A B : Type} (m : outcome A) (k : A → outcome B) :
  terminates m → (∀ a, m = Ok a → terminates (k a)) →
  terminates (m ≫= k).
Proof.
  unfold terminates, mbind, outcome_bind, bind.
  destruct m; intros Hm Hk; [by apply Hk|done|done].
Qed.

Lemma Ok_terminates {A : Type} (a : A) : terminates (Ok a).
Proof. done. Qed.

Lemma Raise_terminates {A : Type} (e : exn) : terminates (@Raise A e).
Proof. done. Qed.

Lemma assert_terminates (b : bool) : terminates (assert b).
Proof. by destruct b. Qed.

Lemma snode_terminates (g : Graph) (n : Node) : terminates (snode g n).
Proof. unfold snode. by destruct (meta g n). Qed.

Lemma isinstance_terminates (g : Graph) (n : Node) (k : Kind) :
  terminates (isinstance g n k).
Proof.
  unfold isinstance. apply bind_terminates; [apply snode_terminates|done].
Qed.

Lemma get_runtime_fx_terminates (g : Graph) (cost : SchedulerNode → Q)
    (n : Node) :
  terminates (get_runtime_fx g cost n).
Proof.
  unfold get_runtime_fx. apply bind_terminates; [apply snode_terminates|done].
Qed.

Lemma comm_at_terminates (cs : Comms) (idx : nat) : terminates (comm_at cs idx).
Proof. unfold comm_at. by destruct (_ !! _). Qed.

Lemma getitem_terminates {V : Type} (d : gmap Node V) (k : Node) :
  terminates (getitem d k).
Proof. unfold getitem. by destruct (_ !! _). Qed.

Lemma mapM_terminates {A B : Type} (f : A → outcome B) (l : list A) :
  (∀ x, terminates (f x)) → terminates (mapM f l).
Proof.
  intros Hf. induction l as [|x l IH]; simpl; [done|].
  apply bind_terminates; [apply Hf|]. intros y _.
  apply bind_terminates; [apply IH|]. done.
Qed.

Lemma add_node_terminates (g : Graph) (node : Node) (st : State) :
  terminates (add_node g node st).
Proof.
  unfold add_node.
  apply bind_terminates; [apply assert_terminates|]. intros _ _.
  apply bind_terminates; [apply assert_terminates|]. done.
Qed.

Lemma collect_comm_nodes_terminates (g : Graph) (nodes : list Node) :
  terminates (collect_comm_nodes g nodes).
Proof.
  induction nodes as [|n nodes IH]; simpl; [done|].
  apply bind_terminates; [apply isinstance_terminates|]. intros b _.
  apply bind_terminates; [apply IH|]. done.
Qed.

Lemma sink_waits_terminates (g : Graph) (l : list Node) :
  terminates (sink_waits g l).
Proof.
  unfold sink_waits. apply bind_terminates; [|by intros [??] _].
  generalize (@nil Node) (∅ : gset Node).
  induction l as [|n l IH]; intros nr cw; simpl; [done|].
  apply bind_terminates; [apply isinstance_terminates|]. intros b _.
  destruct b; [apply IH|]. destruct (sink_waits_release _ _ _ _ _). apply IH.
Qed.

Lemma raise_comms_terminates (g : Graph) (l : list Node) :
  terminates (raise_comms g l).
Proof.
  unfold raise_comms. apply bind_terminates.
  - generalize (@nil Node) at 1. generalize (@nil Node).
    induction (reverse l) as [|n r IH]; intros cc nr; simpl; [done|].
    apply bind_terminates; [apply isinstance_terminates|]. intros b _.
    destruct b; [apply IH|]. destruct (raise_comms_pop _ _ _ _). apply IH.
  - intros [??] _. apply bind_terminates; [apply assert_terminates|done].
Qed.

Lemma priority2_loop_terminates (g : Graph) (cost : SchedulerNode → Q)
    (comm_cost : Q) (l : list Node) (st : State) (total_cost : Q) :
  terminates (priority2_loop g cost comm_cost l st total_cost).
Proof.
  revert st total_cost. induction l as [|n l IH]; intros st tc; simpl; [done|].
  destruct (Qle_bool comm_cost tc); [done|].
  apply bind_terminates; [apply isinstance_terminates|]. intros b _.
  destruct b; [apply IH|].
  apply bind_terminates; [apply get_runtime_fx_terminates|]. intros rc _.
  destruct (Qle_bool _ _); [apply IH|].
  apply bind_terminates; [apply add_node_terminates|]. intros st' _.
  apply bind_terminates; [apply get_runtime_fx_terminates|]. intros c _.
  apply IH.
Qed.

Lemma earliest_from_terminates (cs : Comms) (node : Node) (idx : nat)
    (comms : list Node) :
  terminates (earliest_from cs node idx comms).
Proof.
  revert idx. induction comms as [|c comms IH]; intros idx; simpl; [done|].
  apply bind_terminates; [apply getitem_terminates|]. intros anc _.
  by destruct (bool_decide _).
Qed.

Lemma priority2_step_terminates (g : Graph) (cost : SchedulerNode → Q)
    (cs : Comms) (idx : nat) (st : State) (total_cost comm_cost : Q) :
  terminates (priority2_step g cost cs idx st total_cost comm_cost).
Proof.
  unfold priority2_step. destruct (Qle_bool _ _); [done|].
  apply bind_terminates; [apply comm_at_terminates|]. intros prev _.
  apply bind_terminates; [apply getitem_terminates|]. intros desc _.
  apply bind_terminates; [|intros; apply priority2_loop_terminates].
  unfold sorted_by_earliest. apply bind_terminates; [|done].
  apply mapM_terminates. intros x.
  apply bind_terminates; [apply earliest_from_terminates|done].
Qed.

(** ** [get_ancestors] and [get_descendants] *)

(** One frontier: what is seen afterwards is what was seen and the new
    nodes; the new nodes were not seen, and come from [next]. *)
Lemma visit_fold_spec (R : Node → Prop) (seen0 : gset Node)
    (acc : gset Node * list Node) (ys : list Node) :
  (∀ x, x ∈ acc.1 ↔ x ∈ seen0 ∨ x ∈ acc.2) →
  (∀ x, x ∈ acc.2 → (x ∉ seen0) ∧ R x) →
  (∀ y, y ∈ ys → R y) →
  let acc' := foldl visit acc ys in
  (∀ x, x ∈ acc'.1 ↔ x ∈ seen0 ∨ x ∈ acc'.2) ∧
  (∀ x, x ∈ acc'.2 → (x ∉ seen0) ∧ R x) ∧
  (∀ x, x ∈ acc.1 → x ∈ acc'.1) ∧
  (∀ y, y ∈ ys → y ∈ acc'.1).
Proof.
  revert acc. induction ys as [|y ys IH]; intros acc H1 H2 HR; simpl.
  - split; [done|]. split; [done|]. split; [done|]. by intros y ?%elem_of_nil.
  - assert (∀ z, z ∈ ys → R z) as HR' by (intros z Hz; apply HR; by right).
    assert (R y) as HRy by (apply HR; by left).
    destruct (IH (visit acc y)) as (I1 & I2 & I3 & I4); [| |done|].
    + intros x. unfold visit. case_bool_decide; [done|]. simpl.
      rewrite elem_of_union, elem_of_singleton, elem_of_app,
        list_elem_of_singleton, H1. tauto.
    + intros x. unfold visit. case_bool_decide as Hy; [apply H2|]. simpl.
      intros [Hx| ->%list_elem_of_singleton]%elem_of_app; [by apply H2|].
      split; [|done]. intros Hs. apply Hy, H1. by left.
    + assert (∀ x, x ∈ acc.1 → x ∈ (visit acc y).1) as Hmono.
      { intros x Hx. unfold visit. case_bool_decide; [done|]. simpl.
        set_solver. }
      assert (y ∈ (visit acc y).1) as Hy.
      { unfold visit. case_bool_decide; [done|]. simpl. set_solver. }
      split; [done|]. split; [done|]. split; [by auto|].
      intros z [->|Hz]%elem_of_cons; auto.
Qed.

Lemma visit_frontier_spec (R : Node → Prop) (next : Node → list Node)
    (seen : gset Node) (cur_nodes : list Node) :
  (∀ n y, n ∈ cur_nodes → y ∈ next n → R y) →
  let r := visit_frontier next seen cur_nodes in
  (∀ x, x ∈ r.1 ↔ x ∈ seen ∨ x ∈ r.2) ∧
  (∀ x, x ∈ r.2 → (x ∉ seen) ∧ R x) ∧
  (∀ n y, n ∈ cur_nodes → y ∈ next n → y ∈ r.1).
Proof.
  unfold visit_frontier. intros HR.
  assert (∀ acc : gset Node * list Node,
    (∀ x, x ∈ acc.1 ↔ x ∈ seen ∨ x ∈ acc.2) →
    (∀ x, x ∈ acc.2 → (x ∉ seen) ∧ R x) →
    let r := foldl (λ acc node, foldl visit acc (next node)) acc cur_nodes in
    (∀ x, x ∈ r.1 ↔ x ∈ seen ∨ x ∈ r.2) ∧
    (∀ x, x ∈ r.2 → (x ∉ seen) ∧ R x) ∧
    (∀ x, x ∈ acc.1 → x ∈ r.1) ∧
    (∀ n y, n ∈ cur_nodes → y ∈ next n → y ∈ r.1)) as Hgen.
  { induction cur_nodes as [|n l IH]; intros acc H1 H2; simpl.
    - split; [done|]. split; [done|]. split; [done|].
      by intros n y ?%elem_of_nil.
    - destruct (visit_fold_spec R seen acc (next n) H1 H2)
        as (I1 & I2 & I3 & I4).
      { intros y Hy. apply (HR n); [by left|done]. }
      assert (∀ m y, m ∈ l → y ∈ next m → R y) as HR'
        by (intros m y Hm; apply HR; by right).
      destruct (IH HR' _ I1 I2) as (J1 & J2 & J3 & J4).
      split; [done|]. split; [done|]. split; [by auto|].
      intros m y [->|Hm]%elem_of_cons Hy; [by auto|by eauto]. }
  destruct (Hgen (seen, [])) as (G1 & G2 & _ & G4); simpl.
  - intros x. rewrite elem_of_nil. tauto.
  - by intros x ?%elem_of_nil.
  - done.
Qed.

Lemma traverse_closed (fuel : nat) (next : Node → list Node)
    (seen : gset Node) (cur_nodes : list Node) (R D : gset Node) :
  traverse fuel next seen cur_nodes = Ok R →
  (∀ x y, x ∈ D → y ∈ next x → y ∈ seen) →
  (∀ x, x ∈ seen → x ∈ D ∨ x ∈ cur_nodes) →
  (∀ x y, x ∈ D ∨ x ∈ cur_nodes → y ∈ next x → y ∈ R) ∧
  (∀ x y, x ∈ R → y ∈ next x → y ∈ R).
Proof.
  revert seen cur_nodes D. induction fuel as [|fuel IH];
    intros seen cur D H HD Hseen.
  - destruct cur; [|done]. simpl in H. injection H as <-.
    split.
    + intros x y [Hx|Hx%elem_of_nil]; [|done]. by apply HD.
    + intros x y Hx. destruct (Hseen x Hx) as [?|?%elem_of_nil]; [|done].
      by apply HD.
  - destruct cur as [|c cur].
    { simpl in H. injection H as <-. split.
      + intros x y [Hx|Hx%elem_of_nil]; [|done]. by apply HD.
      + intros x y Hx. destruct (Hseen x Hx) as [?|?%elem_of_nil]; [|done].
        by apply HD. }
    cbn [traverse] in H.
    destruct (visit_frontier_spec (λ _, True) next seen (c :: cur))
      as (F1 & F2 & F3); [done|].
    destruct (visit_frontier next seen (c :: cur)) as [seen' new] eqn:Hvf.
    simpl in F1, F2, F3.
    destruct (IH seen' new (D ∪ list_to_set (c :: cur)) H) as [C1 C2].
    + intros x y [Hx|Hx%elem_of_list_to_set]%elem_of_union Hy.
      * apply F1. left. by eapply HD.
      * by eapply F3.
    + intros x [Hx|Hx]%F1; [|by right].
      left. apply elem_of_union.
      destruct (Hseen x Hx) as [?|?]; [by left|right].
      by apply elem_of_list_to_set.
    + split; [|done]. intros x y Hx. apply C1. left. apply elem_of_union.
      destruct Hx as [?|?]; [by left|right]. by apply elem_of_list_to_set.
Qed.

Lemma traverse_start_closed (fuel : nat) (next : Node → list Node)
    (start : Node) (R : gset Node) :
  traverse fuel next ∅ [start] = Ok R → closed_under next start R.
Proof.
  intros H. destruct (traverse_closed _ _ _ _ _ ∅ H) as [C1 C2].
  - intros x y Hx. set_solver.
  - intros x Hx. set_solver.
  - split; [|done]. intros y Hy. apply (C1 start); [right; by left|done].
Qed.

Lemma traverse_terminates (fuel : nat) (next : Node → list Node)
    (seen : gset Node) (cur_nodes : list Node) (U : gset Node) :
  (∀ x, x ∈ cur_nodes → x ∈ U) →
  (∀ x y, x ∈ U → y ∈ next x → y ∈ U) →
  size (U ∖ seen) < fuel →
  terminates (traverse fuel next seen cur_nodes).
Proof.
  intros Hcur HU. revert seen cur_nodes Hcur.
  induction fuel as [|fuel IH]; intros seen cur Hcur Hsize; [lia|].
  destruct cur as [|c cur]; [done|]. cbn [traverse].
  destruct (visit_frontier_spec (λ x, x ∈ U) next seen (c :: cur))
    as (F1 & F2 & F3); [by eauto|].
  destruct (visit_frontier next seen (c :: cur)) as [seen' new] eqn:Hvf.
  simpl in F1, F2, F3.
  destruct new as [|x new]; [by destruct fuel|].
  apply IH; [intros y Hy; by apply F2|].
  assert (U ∖ seen' ⊂ U ∖ seen) as Hsub%subset_size; [|lia].
  destruct (F2 x) as [Hxs HxU]; [by left|].
  split.
  - intros y [Hy Hys]%elem_of_difference. apply elem_of_difference.
    split; [done|]. intros Hs. apply Hys, F1. by left.
  - intros Hsub. assert (x ∈ U ∖ seen') as [_ Hx]%elem_of_difference.
    { apply Hsub. by apply elem_of_difference. }
    apply Hx, F1. right. by left.
Qed.

Lemma dict_of_lookup {V : Type} (f : Node → outcome V) (keys : list Node)
    (d0 d : gmap Node V) (k : Node) (v : V) :
  dict_of f keys d0 = Ok d → d !! k = Some v →
  d0 !! k = Some v ∨ (k ∈ keys ∧ f k = Ok v).
Proof.
  revert d0. induction keys as [|k' keys IH]; intros d0 H Hk; simpl in H.
  - injection H as <-. by left.
  - inv_bind H. destruct (IH _ H Hk) as [H0|[Hin Hf]].
    + destruct (decide (k = k')) as [->|Hne].
      * rewrite lookup_insert_eq in H0. injection H0 as <-.
        right. split; [by left|done].
      * rewrite lookup_insert_ne in H0 by done. by left.
    + right. split; [by right|done].
Qed.

Lemma dict_of_terminates {V : Type} (f : Node → outcome V) (keys : list Node)
    (d0 : gmap Node V) :
  (∀ k, k ∈ keys → terminates (f k)) → terminates (dict_of f keys d0).
Proof.
  revert d0. induction keys as [|k keys IH]; intros d0 Hf; simpl; [done|].
  apply bind_terminates; [apply Hf; by left|]. intros v _.
  apply IH. intros k' Hk'. apply Hf. by right.
Qed.

(** ** [add_all_nodes] *)

Lemma topological_preds_before (g : Graph) (nodes l1 l2 : list Node)
    (m y : Node) :
  well_formed g → NoDup nodes → topological g nodes →
  nodes = l1 ++ m :: l2 → y ∈ nodes → m ∈ users g y → y ∈ l1.
Proof.
  intros Hwf Hn Ht Hsplit Hy Hm.
  apply list_elem_of_lookup in Hy as [i Hi].
  assert (nodes !! length l1 = Some m) as Hj
    by (rewrite Hsplit; apply list_lookup_middle; done).
  assert (i < length l1) as Hlt.
  { eapply Ht; [exact Hi|exact Hj|]. by apply Hwf. }
  rewrite Hsplit, lookup_app_l in Hi by done.
  by eapply list_elem_of_lookup_2.
Qed.

Lemma first_in_set (l : list Node) (S : gset Node) (x : Node) :
  x ∈ l → x ∈ S →
  ∃ l1 m l2, l = l1 ++ m :: l2 ∧ m ∈ S ∧ ∀ y, y ∈ l1 → y ∉ S.
Proof.
  induction l as [|n l IH]; intros Hx HS; [by apply elem_of_nil in Hx|].
  destruct (decide (n ∈ S)) as [Hn|Hn].
  - exists [], n, l. split; [done|]. split; [done|]. by intros y ?%elem_of_nil.
  - apply elem_of_cons in Hx as [->|Hx]; [done|].
    destruct (IH Hx HS) as (l1 & m & l2 & -> & Hm & Hl1).
    exists (n :: l1), m, l2. split; [done|]. split; [done|].
    intros y [->|Hy]%elem_of_cons; auto.
Qed.

(** Some node of a non-empty closed set of unused nodes is free. *)
Lemma exists_free (g : Graph) (nodes : list Node) (st : State)
    (S : gset Node) (x : Node) :
  well_formed g → NoDup nodes → topological g nodes →
  Inv g nodes st →
  (∀ x, x ∈ S → x ∈ unused_nodes st) →
  pred_closed g nodes st S →
  x ∈ S →
  ∃ m, m ∈ S ∧ m ∈ free_nodes st.
Proof.
  intros Hwf Hn Ht HI Hun Hpc Hx.
  assert (x ∈ nodes) as Hxn by (by apply (inv_unused _ _ _ HI), Hun).
  destruct (first_in_set nodes S x Hxn Hx) as (l1 & m & l2 & Hsplit & Hm & Hl1).
  exists m. split; [done|].
  apply (inv_free _ _ _ HI).
  pose proof (Hun _ Hm) as [Hmn Hmr]%(inv_unused _ _ _ HI).
  split; [done|]. split; [done|].
  apply pending_nil. intros u Hu Hmu.
  destruct (decide (u ∈ result st)) as [|Hur]; [done|].
  assert (u ∈ S) as HuS by (by apply (Hpc m u)).
  assert (u ∈ l1) as Hul by (by eapply topological_preds_before).
  by apply Hl1 in Hul.
Qed.

Lemma add_all_nodes_pass_terminates (g : Graph) (l : list Node)
    (S : gset Node) (st : State) :
  terminates (add_all_nodes_pass g l S st).
Proof.
  revert S st. induction l as [|n l IH]; intros S st; simpl; [done|].
  destruct (bool_decide _); [|apply IH].
  apply bind_terminates; [apply add_node_terminates|]. intros; apply IH.
Qed.

(** A round that meets a free node schedules a node. *)
Lemma add_all_nodes_pass_progress (g : Graph) (l : list Node)
    (S S' : gset Node) (st st' : State) :
  add_all_nodes_pass g l S st = Ok (S', st') →
  ∃ ext,
    advances_by ext st st' ∧ S' = S ∖ list_to_set ext ∧
    (∀ x, x ∈ ext → x ∈ l) ∧
    ((∃ m, m ∈ l ∧ m ∈ free_nodes st) → ext ≠ []).
Proof.
  revert S st. induction l as [|n l IH]; intros S st H; simpl in H.
  - simplify_eq. exists []. split; [apply advances_by_refl|].
    split; [set_solver|]. split; [done|].
    by intros (m & ?%elem_of_nil & _).
  - case_bool_decide as Hfree.
    + inv_bind H. apply add_node_advances_by in Ha.
      destruct (IH _ _ H) as (ext & Hadv & -> & Hin & _).
      exists ([n] ++ ext). split; [by eapply advances_by_trans|].
      split; [set_solver|]. split; [|done].
      intros x [->%list_elem_of_singleton|Hx]%elem_of_app; [by left|].
      right. auto.
    + destruct (IH _ _ H) as (ext & Hadv & -> & Hin & Hne).
      exists ext. split; [done|]. split; [done|].
      split; [intros x Hx; right; auto|].
      intros (m & [->|Hm]%elem_of_cons & Hmf); [done|]. apply Hne. eauto.
Qed.

Lemma add_all_nodes_loop_terminates (fuel : nat) (g : Graph)
    (nodes : list Node) (S : gset Node) (st : State) :
  well_formed g → NoDup nodes → topological g nodes →
  Inv g nodes st →
  (∀ x, x ∈ S → x ∈ unused_nodes st) →
  pred_closed g nodes st S →
  size S ≤ fuel →
  terminates (add_all_nodes_loop fuel g S st).
Proof.
  intros Hwf Hn Ht. revert S st.
  induction fuel as [|fuel IH]; intros S st HI Hun Hpc Hsize; simpl.
  - rewrite bool_decide_eq_false_2 by lia. done.
  - case_bool_decide as Hpos; [|done].
    apply bind_terminates; [apply add_all_nodes_pass_terminates|].
    intros [S' st'] Hpass.
    assert (Inv g nodes st') as HI'.
    { eapply add_all_nodes_pass_preserved; [|exact HI|exact Hpass].
      intros. by eapply add_node_Inv. }
    apply add_all_nodes_pass_progress in Hpass
      as (ext & (Hr & Hu & _ & _) & -> & Hin & Hne).
    apply size_pos_elem_of in Hpos as [x Hx].
    destruct (exists_free g nodes st S x) as (m & HmS & Hmf); try done.
    assert (ext ≠ []) as Hext.
    { apply Hne. exists m. split; [|done].
      by apply elem_of_tuple_sorted, elem_of_elements. }
    apply IH; [done| | |].
    + intros y [Hy Hye]%elem_of_difference. rewrite Hu.
      apply elem_of_difference. auto.
    + intros y z [Hy Hye]%elem_of_difference Hz Hyz Hzr.
      apply elem_of_difference. split.
      * eapply Hpc; eauto. intros Hzr'. apply Hzr. rewrite Hr.
        apply elem_of_app. by left.
      * intros Hze%elem_of_list_to_set. apply Hzr. rewrite Hr.
        apply elem_of_app. by right.
    + destruct ext as [|e ext]; [done|].
      assert (S ∖ list_to_set (e :: ext) ⊂ S) as Hsub%subset_size; [|lia].
      assert (e ∈ S) as He.
      { apply elem_of_elements, elem_of_tuple_sorted, Hin. by left. }
      split; [set_solver|]. intros Hsub.
      apply Hsub in He. set_solver.
Qed.

Lemma add_all_nodes_terminates (fuel : nat) (g : Graph)
    (nodes l : list Node) (st : State) :
  well_formed g → NoDup nodes → topological g nodes →
  Inv g nodes st →
  pred_closed g nodes st (list_to_set l) →
  length nodes ≤ fuel →
  terminates (add_all_nodes fuel g l st).
Proof.
  intros Hwf Hn Ht HI Hpc Hfuel. unfold add_all_nodes.
  apply bind_terminates; [apply assert_terminates|]. intros [] Hassert.
  apply assert_Ok in Hassert. rewrite forallb_forall in Hassert.
  assert (∀ x, x ∈ (list_to_set l : gset Node) → x ∈ unused_nodes st) as Hun.
  { intros x Hx. eapply bool_decide_eq_true_1, Hassert, list_elem_of_In.
    by apply elem_of_elements. }
  eapply add_all_nodes_loop_terminates; try done.
  etrans; [|exact Hfuel].
  rewrite <- (size_list_to_set (C := gset Node) nodes) by done.
  apply subseteq_size. intros x Hx%Hun.
  apply elem_of_list_to_set. by apply (inv_unused _ _ _ HI) in Hx as [? _].
Qed.

(** ** The rounds of the main loop *)

Section rounds_terminate.
Context (fuel : nat) (g : Graph) (cost : SchedulerNode → Q)
        (nodes : list Node) (cs : Comms).
Context (Hwf : well_formed g) (Hn : NoDup nodes)
        (Ht : topological g nodes) (Hcs : comms_closed g cs)
        (Hfuel : length nodes ≤ fuel).

Lemma add_node_keeps_Inv (node : Node) (st st' : State) :
  Inv g nodes st → add_node g node st = Ok st' → Inv g nodes st'.
Proof. by apply add_node_Inv. Qed.

Lemma ancestors_pred_closed (c : Node) (A : gset Node) (x y : Node) :
  comm_ancestors cs !! c = Some A →
  x ∈ A ∨ x = c → x ∈ users g y → y ∈ A.
Proof.
  intros HA Hx Hxy. destruct Hcs as [Hanc _].
  destruct (Hanc c A HA) as [H1 H2].
  apply (users_args g Hwf) in Hxy.
  destruct Hx as [Hx| ->]; eauto.
Qed.

Lemma priority1_step_terminates (idx : nat) (st : State) (rolled : Q) :
  Inv g nodes st →
  terminates (priority1_step fuel g cost cs idx st rolled).
Proof.
  intros HI. unfold priority1_step.
  apply bind_terminates; [apply comm_at_terminates|]. intros prev _.
  apply bind_terminates; [apply comm_at_terminates|]. intros next _.
  apply bind_terminates; [apply getitem_terminates|].
  intros A HA%getitem_Ok.
  apply bind_terminates; [apply getitem_terminates|].
  intros D HD%getitem_Ok.
  apply bind_terminates.
  { apply mapM_terminates. intros; apply get_runtime_fx_terminates. }
  intros costs _. cbv zeta.
  apply bind_terminates; [apply get_runtime_fx_terminates|]. intros cc _.
  apply bind_terminates; [|done].
  eapply add_all_nodes_terminates; try done.
  intros x y Hx Hy Hxy Hyr.
  rewrite elem_of_list_to_set, elem_of_tuple_sorted, elem_of_elements in Hx.
  rewrite elem_of_list_to_set, elem_of_tuple_sorted, elem_of_elements.
  apply elem_of_intersection in Hx as [Hxu [HxA HxD]%elem_of_difference].
  apply elem_of_intersection. split; [by apply (inv_unused _ _ _ HI)|].
  apply elem_of_difference. split.
  - apply (ancestors_pred_closed next A x y HA); [by left|done].
  - intros HyD. apply HxD. destruct Hcs as [_ Hdesc].
    destruct (Hdesc prev D HD) as [_ H2]. eauto.
Qed.

Lemma priority3_step_terminates (idx : nat) (st : State) :
  Inv g nodes st →
  terminates (priority3_step fuel g cs idx st).
Proof.
  intros HI. unfold priority3_step.
  apply bind_terminates; [apply comm_at_terminates|]. intros next _.
  apply bind_terminates; [apply getitem_terminates|].
  intros A HA%getitem_Ok. cbv zeta.
  eapply add_all_nodes_terminates; try done.
  intros x y Hx Hy Hxy Hyr.
  rewrite elem_of_list_to_set, elem_of_app, elem_of_elements,
    list_elem_of_singleton in Hx.
  rewrite elem_of_list_to_set, elem_of_app, elem_of_elements.
  left. apply elem_of_intersection. split; [by apply (inv_unused _ _ _ HI)|].
  apply (ancestors_pred_closed next A x y HA); [|done].
  destruct Hx as [[_ ?]%elem_of_intersection|?]; auto.
Qed.

Lemma round_terminates (idx : nat) (st : State) (rolled : Q) :
  Inv g nodes st →
  terminates (round fuel g cost cs idx st rolled).
Proof.
  intros HI. unfold round.
  apply bind_terminates.
  { unfold is_comm_blocking.
    apply bind_terminates; [apply comm_at_terminates|]. intros ? _.
    apply bind_terminates; [apply comm_at_terminates|]. intros ? _.
    apply bind_terminates; [apply getitem_terminates|]. intros ? _.
    apply bind_terminates; [apply getitem_terminates|]. done. }
  intros blocking _.
  apply bind_terminates; [by apply priority1_step_terminates|].
  intros [[st1 tc] cc] H1.
  assert (Inv g nodes st1) as HI1
    by (eapply priority1_step_preserved; eauto using add_node_keeps_Inv).
  cbv zeta.
  apply bind_terminates; [apply priority2_step_terminates|].
  intros [st2 tc2] H2.
  assert (Inv g nodes st2) as HI2
    by (eapply priority2_step_preserved; eauto using add_node_keeps_Inv).
  cbv zeta.
  apply bind_terminates; [by apply priority3_step_terminates|]. done.
Qed.

Lemma rounds_terminates (idxs : list nat) (st : State) (rolled : Q) :
  Inv g nodes st →
  terminates (rounds fuel g cost cs idxs st rolled).
Proof.
  revert st rolled. induction idxs as [|idx idxs IH]; intros st r HI; simpl;
    [done|].
  apply bind_terminates; [by apply round_terminates|].
  intros [st1 r1] H1. apply IH.
  eapply round_preserved; eauto using add_node_keeps_Inv.
Qed.
End rounds_terminate.

(** ** The whole scheduler *)

Lemma get_ancestors_dict_closed (fuel : nat) (g : Graph) (comms : list Node)
    (d : gmap Node (gset Node)) (c : Node) (A : gset Node) :
  dict_of (get_ancestors fuel g) comms ∅ = Ok d →
  d !! c = Some A → closed_under (args g) c A.
Proof.
  intros Hd Hc. destruct (dict_of_lookup _ _ _ _ _ _ Hd Hc) as [H0|[_ Hf]].
  - by rewrite lookup_empty in H0.
  - by apply traverse_start_closed in Hf.
Qed.

Lemma get_descendants_dict_closed (fuel : nat) (g : Graph) (comms : list Node)
    (d : gmap Node (gset Node)) (c : Node) (D : gset Node) :
  dict_of (get_descendants fuel g) comms ∅ = Ok d →
  d !! c = Some D → closed_under (users g) c D.
Proof.
  intros Hd Hc. destruct (dict_of_lookup _ _ _ _ _ _ Hd Hc) as [H0|[_ Hf]].
  - by rewrite lookup_empty in H0.
  - by apply traverse_start_closed in Hf.
Qed.

Section scheduler_terminates.
Context (fuel : nat) (g : Graph) (cost : SchedulerNode → Q)
        (nodes : list Node) (U : gset Node).
Context (Hwf : well_formed g) (Hn : NoDup nodes)
        (Ht : topological g nodes)
        (Hm : Forall (λ n, has_fusion_meta g n = true) nodes)
        (HU : ∀ x, x ∈ nodes → x ∈ U)
        (Hargs : ∀ x y, x ∈ U → y ∈ args g x → y ∈ U)
        (Husers : ∀ x y, x ∈ U → y ∈ users g x → y ∈ U)
        (Hfuel : size U < fuel).

Lemma fuel_covers_nodes : length nodes ≤ fuel.
Proof.
  rewrite <- (size_list_to_set (C := gset Node) nodes) by done.
  assert (size (list_to_set nodes : gset Node) ≤ size U); [|lia].
  apply subseteq_size. intros x Hx%elem_of_list_to_set. auto.
Qed.

Lemma schedule_comms_terminates (comms : list Node) :
  (∀ c, c ∈ comms → c ∈ nodes) →
  terminates (schedule_comms fuel g cost nodes comms).
Proof.
  intros Hcomms. unfold schedule_comms.
  pose proof fuel_covers_nodes as Hlen.
  apply bind_terminates.
  { apply dict_of_terminates. intros c Hc. unfold get_ancestors.
    apply (traverse_terminates _ _ _ _ U); [|done|].
    - intros x ->%list_elem_of_singleton. auto.
    - by rewrite difference_empty_L. }
  intros anc Hanc.
  apply bind_terminates.
  { apply dict_of_terminates. intros c Hc. unfold get_descendants.
    apply (traverse_terminates _ _ _ _ U); [|done|].
    - intros x ->%list_elem_of_singleton. auto.
    - by rewrite difference_empty_L. }
  intros desc Hdesc. cbv zeta.
  set (cs := {| comm_nodes := comms; comm_ancestors := anc;
                comm_descendants := desc |}).
  assert (comms_closed g cs) as Hcs.
  { split; simpl.
    - intros c A. by eapply get_ancestors_dict_closed.
    - intros c D. by eapply get_descendants_dict_closed. }
  pose proof (initial_state_Inv g nodes Hwf Hm) as HI0.
  apply bind_terminates; [apply comm_at_terminates|]. intros first _.
  apply bind_terminates; [apply getitem_terminates|].
  intros A HA%getitem_Ok.
  apply bind_terminates.
  { eapply add_all_nodes_terminates; try done.
    intros x y Hx Hy Hxy Hyr.
    rewrite elem_of_list_to_set, elem_of_app, elem_of_elements,
      list_elem_of_singleton in Hx.
    rewrite elem_of_list_to_set, elem_of_app, elem_of_elements. left.
    by apply (ancestors_pred_closed g cs Hwf Hcs first A x y). }
  intros st1 H1.
  assert (Inv g nodes st1) as HI1.
  { eapply add_all_nodes_preserved; [|exact HI0|exact H1].
    intros. by eapply add_node_Inv. }
  apply bind_terminates; [|by intros [??] _].
  by eapply rounds_terminates.
Qed.

Lemma schedule_terminates (comms : list Node) :
  (∀ c, c ∈ comms → c ∈ nodes) →
  terminates (schedule fuel g cost nodes comms).
Proof.
  intros Hcomms. unfold schedule.
  apply bind_terminates; [by apply schedule_comms_terminates|].
  intros st Hst.
  pose proof (schedule_comms_Inv _ _ _ _ _ _ Hwf Hn Hm Hst) as HI.
  apply bind_terminates; [|done].
  eapply add_all_nodes_terminates; try done; [|apply fuel_covers_nodes].
  intros x y Hx Hy Hxy Hyr.
  rewrite elem_of_list_to_set, elem_of_elements.
  by apply (inv_unused _ _ _ HI).
Qed.
End scheduler_terminates.

Lemma smart_reordering_terminates (fuel : nat) (g : Graph)
    (cost : SchedulerNode → Q) (nodes : list Node) (U : gset Node) :
  well_formed g → NoDup nodes → topological g nodes →
  (∀ x, x ∈ nodes → x ∈ U) →
  (∀ x y, x ∈ U → y ∈ args g x → y ∈ U) →
  (∀ x y, x ∈ U → y ∈ users g x → y ∈ U) →
  size U < fuel →
  terminates (smart_reordering fuel g cost nodes).
Proof.
  intros Hwf Hn Ht HU Hargs Husers Hfuel. unfold smart_reordering.
  apply bind_terminates; [apply collect_comm_nodes_terminates|].
  intros comms Hcomms.
  rewrite collect_comm_nodes_Ok in Hcomms by apply filter_has_meta.
  injection Hcomms as <-.
  case_bool_decide; [done|].
  apply bind_terminates.
  { apply (schedule_terminates fuel g cost _ U); try done.
    - by apply NoDup_filter.
    - by apply topological_filter.
    - apply filter_has_meta.
    - intros x [_ Hx]%list_elem_of_filter. auto.
    - by intros c [_ Hc]%list_elem_of_filter. }
  intros res _.
  apply bind_terminates; [apply sink_waits_terminates|]. intros sunk _.
  apply raise_comms_terminates.
Qed.

(** * More fuel does not change an outcome *)

Lemma refines_refl {A : Type} (m : outcome A) : refines m m.
Proof. by right. Qed.

Lemma refines_bind {A B : Type} (m m' : outcome A) (k k' : A → outcome B) :
  refines m m' → (∀ a, refines (k a) (k' a)) →
  refines (m ≫= k) (m' ≫= k').
Proof.
  intros [Hm|Hm] Hk; subst; [by left|].
  unfold mbind, outcome_bind, bind. destruct m'; [apply Hk|by right..].
Qed.

Lemma refines_bind_l {A B : Type} (m : outcome A) (k k' : A → outcome B) :
  (∀ a, refines (k a) (k' a)) → refines (m ≫= k) (m ≫= k').
Proof. apply refines_bind, refines_refl. Qed.

Lemma traverse_mono (fuel fuel' : nat) (next : Node → list Node)
    (seen : gset Node) (cur_nodes : list Node) :
  fuel ≤ fuel' →
  refines (traverse fuel next seen cur_nodes)
          (traverse fuel' next seen cur_nodes).
Proof.
  revert fuel' seen cur_nodes. induction fuel as [|fuel IH];
    intros fuel' seen cur Hle.
  - destruct cur; [|by left]. right. by destruct fuel'.
  - destruct fuel' as [|fuel']; [lia|].
    destruct cur as [|c cur]; [by right|]. cbn [traverse].
    destruct (visit_frontier next seen (c :: cur)). apply IH. lia.
Qed.

Lemma dict_of_mono {V : Type} (f f' : Node → outcome V) (keys : list Node)
    (d : gmap Node V) :
  (∀ k, refines (f k) (f' k)) →
  refines (dict_of f keys d) (dict_of f' keys d).
Proof.
  intros Hf. revert d. induction keys as [|k keys IH]; intros d; simpl.
  - apply refines_refl.
  - apply refines_bind; [apply Hf|]. intros v. apply IH.
Qed.

Lemma add_all_nodes_loop_mono (fuel fuel' : nat) (g : Graph)
    (all_nodes : gset Node) (st : State) :
  fuel ≤ fuel' →
  refines (add_all_nodes_loop fuel g all_nodes st)
          (add_all_nodes_loop fuel' g all_nodes st).
Proof.
  revert fuel' all_nodes st. induction fuel as [|fuel IH];
    intros fuel' S st Hle.
  - simpl. destruct (bool_decide (0 < size S)) eqn:Hs; [by left|].
    right. destruct fuel'; simpl; by rewrite Hs.
  - destruct fuel' as [|fuel']; [lia|]. simpl.
    destruct (bool_decide (0 < size S)); [|apply refines_refl].
    apply refines_bind_l. intros [S' st']. apply IH. lia.
Qed.

Lemma add_all_nodes_mono (fuel fuel' : nat) (g : Graph) (nodes : list Node)
    (st : State) :
  fuel ≤ fuel' →
  refines (add_all_nodes fuel g nodes st) (add_all_nodes fuel' g nodes st).
Proof.
  intros Hle. unfold add_all_nodes. apply refines_bind_l. intros _.
  by apply add_all_nodes_loop_mono.
Qed.

Lemma round_mono (fuel fuel' : nat) (g : Graph) (cost : SchedulerNode → Q)
    (cs : Comms) (idx : nat) (st : State) (rolled : Q) :
  fuel ≤ fuel' →
  refines (round fuel g cost cs idx st rolled)
          (round fuel' g cost cs idx st rolled).
Proof.
  intros Hle. unfold round. apply refines_bind_l. intros blocking.
  apply refines_bind.
  - unfold priority1_step. do 6 (apply refines_bind_l; intros ?).
    apply refines_bind; [by apply add_all_nodes_mono|].
    intros ?. apply refines_refl.
  - intros [[st1 tc] cc]. apply refines_bind_l. intros [st2 tc2].
    apply refines_bind; [|intros ?; apply refines_refl].
    unfold priority3_step. do 2 (apply refines_bind_l; intros ?).
    by apply add_all_nodes_mono.
Qed.

Lemma rounds_mono (fuel fuel' : nat) (g : Graph) (cost : SchedulerNode → Q)
    (cs : Comms) (idxs : list nat) (st : State) (rolled : Q) :
  fuel ≤ fuel' →
  refines (rounds fuel g cost cs idxs st rolled)
          (rounds fuel' g cost cs idxs st rolled).
Proof.
  intros Hle. revert st rolled.
  induction idxs as [|idx idxs IH]; intros st r; simpl.
  - apply refines_refl.
  - apply refines_bind; [by apply round_mono|]. intros [st1 r1]. apply IH.
Qed.

Lemma schedule_comms_mono (fuel fuel' : nat) (g : Graph)
    (cost : SchedulerNode → Q) (nodes comms : list Node) :
  fuel ≤ fuel' →
  refines (schedule_comms fuel g cost nodes comms)
          (schedule_comms fuel' g cost nodes comms).
Proof.
  intros Hle. unfold schedule_comms.
  apply refines_bind.
  { apply dict_of_mono. intros k. by apply traverse_mono. }
  intros anc. apply refines_bind.
  { apply dict_of_mono. intros k. by apply traverse_mono. }
  intros desc. cbv zeta.
  do 2 (apply refines_bind_l; intros ?).
  apply refines_bind; [by apply add_all_nodes_mono|]. intros st.
  apply refines_bind; [by apply rounds_mono|]. intros ?. apply refines_refl.
Qed.

Lemma schedule_mono (fuel fuel' : nat) (g : Graph)
    (cost : SchedulerNode → Q) (nodes comms : list Node) :
  fuel ≤ fuel' →
  refines (schedule fuel g cost nodes comms)
          (schedule fuel' g cost nodes comms).
Proof.
  intros Hle. unfold schedule.
  apply refines_bind; [by apply schedule_comms_mono|]. intros st.
  apply refines_bind; [by apply add_all_nodes_mono|]. intros ?.
  apply refines_refl.
Qed.

Lemma smart_reordering_mono (fuel fuel' : nat) (g : Graph)
    (cost : SchedulerNode → Q) (nodes : list Node) :
  fuel ≤ fuel' →
  refines (smart_reordering fuel g cost nodes)
          (smart_reordering fuel' g cost nodes).
Proof.
  intros Hle. unfold smart_reordering. apply refines_bind_l. intros comms.
  destruct (bool_decide _); [apply refines_refl|].
  apply refines_bind; [by apply schedule_mono|]. intros ?. apply refines_refl.
Qed.

Lemma smart_reordering_more_fuel (fuel fuel' : nat) (g : Graph)
    (cost : SchedulerNode → Q) (nodes out : list Node) :
  fuel ≤ fuel' →
  smart_reordering fuel g cost nodes = Ok out →
  smart_reordering fuel' g cost nodes = Ok out.
Proof.
  intros Hle H. destruct (smart_reordering_mono fuel fuel' g cost nodes Hle)
    as [Hout|Heq]; congruence.
Qed.

(** * Graphs given by rows *)

Lemma NoDup_fmap_inj_on {A B : Type} (f : A → B) (l : list A) (x y : A) :
  NoDup (f <$> l) → x ∈ l → y ∈ l → f x = f y → x = y.
Proof.
  induction l as [|z l IH]; intros Hn Hx Hy Hxy; [by apply elem_of_nil in Hx|].
  rewrite fmap_cons in Hn. apply NoDup_cons in Hn as [Hz Hn].
  apply elem_of_cons in Hx as [->|Hx]; apply elem_of_cons in Hy as [->|Hy].
  - done.
  - destruct Hz. rewrite Hxy. by apply list_elem_of_fmap_2.
  - destruct Hz. rewrite <- Hxy. by apply list_elem_of_fmap_2.
  - by apply IH.
Qed.

Lemma row_of_Some (rows : list (Node * Kind * list Node)) (n : Node)
    (r : Node * Kind * list Node) :
  row_of rows n = Some r → r ∈ rows ∧ r.1.1 = n.
Proof.
  unfold row_of. destruct (list_find _ rows) as [[i r']|] eqn:Hf; [|done].
  intros [= <-]. apply list_find_Some in Hf as (Hi & Hn & _).
  split; [by eapply list_elem_of_lookup_2|done].
Qed.

Lemma row_of_elem (rows : list (Node * Kind * list Node))
    (r : Node * Kind * list Node) :
  NoDup (rows.*1.*1) → r ∈ rows → row_of rows r.1.1 = Some r.
Proof.
  intros Hn Hr.
  destruct (list_find_elem_of (λ r', r'.1.1 = r.1.1) rows r Hr eq_refl)
    as [[i r'] Hf].
  unfold row_of. rewrite Hf. simpl. f_equal.
  apply list_find_Some in Hf as (Hi & Hname & _).
  apply (NoDup_fmap_inj_on (λ r, r.1.1) rows); [|by eapply list_elem_of_lookup_2|done..].
  by rewrite <- list_fmap_compose in Hn.
Qed.

Lemma graph_of_well_formed (rows : list (Node * Kind * list Node)) :
  NoDup (rows.*1.*1) → well_formed (graph_of rows).
Proof.
  intros Hn. split; simpl.
  - intros u. apply NoDup_fmap_2_strong.
    + intros x y [_ Hx]%list_elem_of_filter [_ Hy]%list_elem_of_filter.
      apply (NoDup_fmap_inj_on (λ r, r.1.1) rows); [|done..].
      by rewrite <- list_fmap_compose in Hn.
    + apply NoDup_filter. eapply NoDup_fmap_1, NoDup_fmap_1, Hn.
  - intros u v. rewrite list_elem_of_fmap. split.
    + intros (r & -> & [Hu Hr]%list_elem_of_filter).
      by rewrite (row_of_elem rows r Hn Hr).
    + destruct (row_of rows v) as [r|] eqn:Hrow; simpl;
        [|by intros ?%elem_of_nil].
      intros Hu. apply row_of_Some in Hrow as [Hr <-].
      exists r. split; [done|]. by apply list_elem_of_filter.
Qed.

Lemma graph_of_closed (rows : list (Node * Kind * list Node)) (U : gset Node) :
  (∀ r x, r ∈ rows → x = r.1.1 ∨ x ∈ r.2 → x ∈ U) →
  (∀ x y, x ∈ U → y ∈ args (graph_of rows) x → y ∈ U) ∧
  (∀ x y, x ∈ U → y ∈ users (graph_of rows) x → y ∈ U).
Proof.
  intros HU. split; simpl.
  - intros x y _. destruct (row_of rows x) as [r|] eqn:Hrow; simpl;
      [|by intros ?%elem_of_nil].
    apply row_of_Some in Hrow as [Hr _]. intros Hy. apply (HU r); auto.
  - intros x y _ (r & -> & [_ Hr]%list_elem_of_filter)%list_elem_of_fmap.
    apply (HU r); auto.
Qed.

(** * Checks on concrete lists *)

Lemma args_not_later_topological (g : Graph) (l : list Node) :
  args_not_later g l = true → topological g l.
Proof.
  induction l as [|w l IH]; intros H i j u v Hi Hj Huv.
  - by rewrite lookup_nil in Hi.
  - simpl in H. apply andb_true_iff in H as [Hw Hl].
    rewrite forallb_forall in Hw.
    destruct j as [|j].
    + simpl in Hj. injection Hj as ->.
      apply list_elem_of_In, Hw, bool_decide_eq_true in Huv.
      destruct Huv. by eapply list_elem_of_lookup_2.
    + destruct i as [|i]; [lia|]. simpl in Hi, Hj.
      specialize (IH Hl i j u v Hi Hj Huv). lia.
Qed.

Lemma no_wait_on_wait_check_sound (g : Graph) (l : list Node) :
  no_wait_on_wait_check g l = true → no_wait_on_wait g l.
Proof.
  unfold no_wait_on_wait_check. rewrite forallb_forall.
  intros H u v Hu Hv Huv Hku Hkv.
  apply list_elem_of_In, H in Hv. rewrite forallb_forall in Hv.
  apply list_elem_of_In, Hv in Hu.
  rewrite Hku, Hkv, bool_decide_eq_true_2 in Hu by done. done.
Qed.

(** * Cycles *)

Lemma before_trans {A : Type} (l : list A) (a b c : A) :
  NoDup l → before l a b → before l b c → before l a c.
Proof.
  intros Hn (i & j & Hi & Hj & Hij)%before_lookup
    (j' & k & Hj' & Hk & Hjk)%before_lookup.
  assert (j = j') as <- by by eapply NoDup_lookup.
  apply before_lookup. exists i, k. split; [done|]. split; [done|lia].
Qed.

Lemma Inv_edge_before (g : Graph) (nodes : list Node) (st : State)
    (u v : Node) :
  Inv g nodes st → (∀ x, x ∈ nodes → x ∈ result st) →
  edge g nodes u v → before (result st) u v.
Proof.
  intros HI Hall (Hu & Hv & Huv).
  apply Hall, list_elem_of_split in Hv as (l1 & l2 & Hsplit).
  assert (u ∈ l1) as (k1 & k2 & ->)%list_elem_of_split
    by by eapply (inv_closed _ _ _ HI).
  rewrite Hsplit. exists k1, k2, l2. solve_app.
Qed.

Lemma Inv_complete_acyclic (g : Graph) (nodes : list Node) (st : State) :
  Inv g nodes st → (∀ x, x ∈ nodes → x ∈ result st) →
  ¬ cyclic g nodes.
Proof.
  intros HI Hall [x Hx].
  assert (∀ a b, tc (edge g nodes) a b → before (result st) a b) as Htc.
  { induction 1 as [a b Hab|a b c Hab _ IH].
    - by eapply Inv_edge_before.
    - eapply before_trans; [apply (inv_NoDup _ _ _ HI)| |exact IH].
      by eapply Inv_edge_before. }
  apply Htc in Hx.
  by apply (before_NoDup_ne _ _ _ (inv_NoDup _ _ _ HI)) in Hx.
Qed.

Lemma schedule_Inv (fuel : nat) (g : Graph) (cost : SchedulerNode → Q)
    (nodes comms res : list Node) :
  well_formed g → NoDup nodes →
  Forall (λ n, has_fusion_meta g n = true) nodes →
  schedule fuel g cost nodes comms = Ok res →
  ∃ st, Inv g nodes st ∧ result st = res ∧ ∀ x, x ∈ nodes → x ∈ res.
Proof.
  intros Hwf Hn Hm H.
  destruct (schedule_topological _ _ _ _ _ _ Hwf Hn Hm H) as (_ & Hin & _).
  unfold schedule in H.
  apply bind_Ok in H as (st & Hst & H).
  apply bind_Ok in H as (st' & Hst' & H). injection H as <-.
  exists st'. split; [|split; [done|by intros x ?%Hin]].
  eapply add_all_nodes_preserved; [| |exact Hst'].
  - intros. by eapply add_node_Inv.
  - by eapply schedule_comms_Inv.
Qed.

(** On a cyclic graph with a comm the scheduler returns no schedule. *)
Lemma smart_reordering_cyclic (fuel : nat) (g : Graph)
    (cost : SchedulerNode → Q) (nodes out : list Node) (c : Node) :
  well_formed g → NoDup nodes →
  cyclic g (filter (λ node, has_fusion_meta g node = true) nodes) →
  c ∈ nodes → is_comm g c →
  smart_reordering fuel g cost nodes ≠ Ok out.
Proof.
  intros Hwf Hn Hcyc Hc Hcomm H. unfold smart_reordering in H.
  apply bind_Ok in H as (comms & Hcomms & H).
  rewrite collect_comm_nodes_Ok in Hcomms by apply filter_has_meta.
  injection Hcomms as <-.
  case_bool_decide as Hlen.
  { apply length_zero_iff_nil in Hlen.
    assert (c ∈ filter (is_comm g)
                  (filter (λ node, has_fusion_meta g node = true) nodes)) as Hin.
    { apply list_elem_of_filter. split; [done|].
      apply list_elem_of_filter. split; [by apply is_comm_has_meta|done]. }
    rewrite Hlen in Hin. by apply elem_of_nil in Hin. }
  apply bind_Ok in H as (res & Hres & _).
  apply schedule_Inv in Hres as (st & HI & <- & Hall);
    [|done|by apply NoDup_filter|apply filter_has_meta].
  by eapply Inv_complete_acyclic.
Qed.

(** * A schedule that cannot be completed *)

Lemma schedule_stuck (fuel : nat) (g : Graph) (cost : SchedulerNode → Q)
    (nodes comms : list Node) (st : State) :
  schedule_comms fuel g cost nodes comms = Ok st →
  unused_nodes st ≠ ∅ →
  unused_nodes st ## free_nodes st →
  schedule fuel g cost nodes comms = OutOfFuel.
Proof.
  intros Hst Hne Hdisj. unfold schedule. rewrite Hst. simpl.
  unfold add_all_nodes. rewrite list_to_set_elements_L.
  assert (forallb (λ node, bool_decide (node ∈ unused_nodes st))
            (elements (unused_nodes st)) = true) as ->.
  { apply forallb_forall. intros x Hx%list_elem_of_In%elem_of_elements.
    by apply bool_decide_eq_true. }
  simpl. by rewrite add_all_nodes_loop_stuck.
Qed.

Lemma smart_reordering_schedule_out_of_fuel (fuel : nat) (g : Graph)
    (cost : SchedulerNode → Q) (nodes : list Node) :
  let nodes' := filter (λ node, has_fusion_meta g node = true) nodes in
  filter (is_comm g) nodes' ≠ [] →
  schedule fuel g cost nodes' (filter (is_comm g) nodes') = OutOfFuel →
  smart_reordering fuel g cost nodes = OutOfFuel.
Proof.
  intros nodes' Hne Hs. unfold smart_reordering. fold nodes'.
  rewrite collect_comm_nodes_Ok by apply filter_has_meta. simpl.
  rewrite bool_decide_eq_false_2.
  - by rewrite Hs.
  - intros Hlen%length_zero_iff_nil. done.
Qed.

Lemma schedule_comms_more_fuel (fuel fuel' : nat) (g : Graph)
    (cost : SchedulerNode → Q) (nodes comms : list Node) (st : State) :
  fuel ≤ fuel' →
  schedule_comms fuel g cost nodes comms = Ok st →
  schedule_comms fuel' g cost nodes comms = Ok st.
Proof.
  intros Hle H.
  destruct (schedule_comms_mono fuel fuel' g cost nodes comms Hle)
    as [Hout|Heq]; congruence.
Qed.

(** * Where the cleanup passes put a wait and a comm *)

Lemma StronglySorted_suffix {A : Type} (R : relation A) (l1 l2 : list A) :
  StronglySorted R (l1 ++ l2) → StronglySorted R l2.
Proof.
  induction l1 as [|x l1 IH]; [done|].
  simpl. intros H. apply IH. by apply StronglySorted_inv in H as [? _].
Qed.

Lemma StronglySorted_prefix {A : Type} (R : relation A) (l1 l2 : list A) :
  StronglySorted R (l1 ++ l2) → StronglySorted R l1.
Proof.
  induction l1 as [|x l1 IH]; [constructor|].
  simpl. intros H. apply StronglySorted_inv in H as [Hs Hx].
  constructor; [by apply IH|]. by apply Forall_app in Hx as [? _].
Qed.

(** In a sequence of sunk form a wait stands in a run of waits in name
    order that a user of all of them closes, or in the run that closes
    the sequence. *)
Lemma sunk_form_wait_run (g : Graph) (out pre post : list Node) (w : Node) :
  sunk_form g out → out = pre ++ w :: post → is_kind g Wait w = true →
  (Forall (λ x, is_kind g Wait x = true) post ∧
   StronglySorted String.le (w :: post)) ∨
  ∃ ws node rest,
    post = ws ++ node :: rest ∧
    Forall (λ x, is_kind g Wait x = true ∧ node ∈ users g x) ws ∧
    StronglySorted String.le (w :: ws) ∧
    is_kind g Wait node = false ∧ node ∈ users g w.
Proof.
  intros Hform. revert pre.
  induction Hform as [waits Hw Hs Hn|waits node rest Hw Hs Hn Hu Hnode Hrest IH];
    intros pre Heq Hwait.
  - left. subst waits. split.
    + apply Forall_app in Hw as [_ Hw]. by apply Forall_cons in Hw as [_ ?].
    + by apply StronglySorted_suffix in Hs.
  - apply app_cons_eq_app_cons in Heq
      as [(k & Hrun & ->)|[(-> & _)|(k & -> & Hrest')]].
    + right. exists k, node, rest. subst waits.
      apply Forall_app in Hw as [_ Hw]. apply Forall_cons in Hw as [_ Hw].
      apply Forall_app in Hu as [_ Hu]. apply Forall_cons in Hu as [Huw Hu].
      split; [done|]. split.
      { rewrite Forall_forall in Hw, Hu. apply Forall_forall. auto. }
      split; [by apply StronglySorted_suffix in Hs|done].
    + congruence.
    + by eapply IH.
Qed.

(** The wording of the specification is the case of an empty run. *)
Lemma wait_before_first_user_run_adjacent (g : Graph) (out : list Node)
    (i : nat) (w : Node) :
  i < length out →
  wait_before_first_user g out i w → wait_before_first_user_run g out i w.
Proof.
  unfold wait_before_first_user, wait_before_first_user_run, between.
  intros Hi. destruct (list_find _ out) as [[j u]|].
  - intros ->. replace (S i - S i) with 0 by lia. rewrite take_0.
    split; [lia|]. split; [done|]. by repeat constructor.
  - intros Hlen. rewrite drop_ge by lia. split; [done|]. by repeat constructor.
Qed.



(** * The claims *)

(** C1 fails on a wait whose argument is a wait.  The graph
    [c -> z -> a] is well formed and acyclic, the list [c, z, a] has no
    repetition and is a topological order of it, and each of the two
    waits has the one comm [c] among its ancestors.  [sink_waits] puts
    every wait among the pending ones without looking at whether it uses
    a pending wait, and emits the pending waits in name order: it returns
    [c, a, z], where [z] stands after its user [a].  Both schedulers
    return that sequence, which is no topological order. *)
Lemma schedulers_break_wait_on_wait :
  well_formed wait_on_wait ∧
  NoDup ["c"; "z"; "a"] ∧
  topological wait_on_wait ["c"; "z"; "a"] ∧
  get_ancestors 3 wait_on_wait "z" = Ok {["c"]} ∧
  get_ancestors 3 wait_on_wait "a" = Ok {["z"; "c"]} ∧
  sink_waits wait_on_wait ["c"; "z"; "a"] = Ok ["c"; "a"; "z"] ∧
  smart_reordering 5 wait_on_wait scenario_cost ["c"; "z"; "a"]
    = Ok ["c"; "a"; "z"] ∧
  dumb_reordering wait_on_wait ["c"; "z"; "a"]
    = Ok [{| get_name := "c"; ir_node := CommStart |};
          {| get_name := "a"; ir_node := Wait |};
          {| get_name := "z"; ir_node := Wait |}] ∧
  ¬ topological wait_on_wait ["c"; "a"; "z"].
Proof.
  split; [by apply graph_of_well_formed, (bool_decide_unpack _)|].
  split; [by apply (bool_decide_unpack _)|].
  split; [by apply args_not_later_topological; vm_compute|].
  split; [by vm_compute|]. split; [by vm_compute|].
  split; [by vm_compute|].
  split; [by vm_compute|]. split; [by vm_compute|].
  intros H.
  assert (2 < 1); [|lia].
  apply (H 2 1 "z" "a"); [done|done|]. vm_compute. by left.
Qed.

Lemma scenario_well_formed (direct ordered : bool) :
  well_formed (scenario direct ordered).
Proof. apply graph_of_well_formed. by apply (bool_decide_unpack _). Qed.

(** C2: when a comm [a] stands before a comm [b] in the node list (a
    list without repetition), [a] stands before [b] in every sequence
    [smart_reordering] returns, and the scheduler node of [a] before that
    of [b] in every sequence [dumb_reordering] returns, whatever the
    edges of the graph are, so also with the ordering edges in place.  On
    an acyclic input (a topological order of a well-formed graph)
    [smart_reordering] does not run out of fuel, given more fuel than a
    finite closed set holding the list. *)
Theorem comm_order_preserved (g : Graph) (cost : SchedulerNode → Q)
    (nodes : list Node) (a b : Node) :
  NoDup nodes → before nodes a b →
  is_kind g CommStart a = true → is_kind g CommStart b = true →
  (∀ fuel out,
     smart_reordering fuel g cost nodes = Ok out → before out a b) ∧
  (∀ out,
     dumb_reordering g nodes = Ok out →
     ∃ sa sb, meta g a = Some sa ∧ meta g b = Some sb ∧ before out sa sb) ∧
  (well_formed g → topological g nodes →
   ∀ (U : gset Node) fuel,
     (∀ x, x ∈ nodes → x ∈ U) →
     (∀ x y, x ∈ U → y ∈ args g x → y ∈ U) →
     (∀ x y, x ∈ U → y ∈ users g x → y ∈ U) →
     size U < fuel →
     smart_reordering fuel g cost nodes ≠ OutOfFuel).
Proof.
  intros Hn Hab Ha Hb. split; [|split].
  - intros fuel out H. by eapply smart_reordering_comm_order.
  - intros out H. by eapply dumb_reordering_comm_order.
  - intros Hwf Ht U fuel HU Hargs Husers Hfuel.
    by apply (smart_reordering_terminates fuel g cost nodes U).
Qed.

Lemma comm_order_preserved_witness :
  before scenario_nodes "C1" "C2" ∧
  smart_reordering 8 (scenario false true) scenario_cost scenario_nodes
    = Ok ["A"; "C1"; "W1"; "B"; "C2"; "W2"; "D"] ∧
  before ["A"; "C1"; "W1"; "B"; "C2"; "W2"; "D"] "C1" "C2".
Proof.
  assert (NoDup scenario_nodes) as Hn by by apply (bool_decide_unpack _).
  assert (before scenario_nodes "C1" "C2") as Hab
    by by exists ["A"], ["W1"; "B"], ["W2"; "D"].
  assert (smart_reordering 8 (scenario false true) scenario_cost scenario_nodes
          = Ok ["A"; "C1"; "W1"; "B"; "C2"; "W2"; "D"]) as Hout
    by by vm_compute.
  split; [done|]. split; [done|].
  destruct (comm_order_preserved (scenario false true) scenario_cost
              scenario_nodes "C1" "C2" Hn Hab) as (Hsmart & _ & _).
  - by vm_compute.
  - by vm_compute.
  - by apply (Hsmart 8).
Defined.

(** C3, as the specification words it, fails: with two waits taken by
    the same node, [sink_waits] emits both before that node, in name
    order, so the first of them does not stand immediately before its
    first user (nor is it the last node). *)
Lemma sink_waits_wait_not_adjacent :
  sink_waits two_waits ["C"; "W1"; "W2"; "N"] = Ok ["C"; "W1"; "W2"; "N"] ∧
  ["C"; "W1"; "W2"; "N"] !! 1 = Some "W1" ∧
  is_kind two_waits Wait "W1" = true ∧
  ¬ wait_before_first_user two_waits ["C"; "W1"; "W2"; "N"] 1 "W1".
Proof.
  split; [by vm_compute|]. split; [done|]. split; [by vm_compute|].
  intros H. vm_compute in H. discriminate H.
Qed.

(** C3 (amended): let the node list be without repetition and a
    topological order of a graph whose [users] are the inverse of its
    [args], and let no wait of the list be an argument of another wait
    of the list.  Then every wait [w] of the sequence [sink_waits]
    returns stands before the earliest node of the sequence that uses
    [w], and between the two stand only waits that this node uses too, in
    name order; or, if no node of the sequence uses [w], only waits follow
    [w] up to the end of the sequence, in name order. *)
Theorem sink_waits_before_first_user (g : Graph) (result out : list Node)
    (i : nat) (w : Node) :
  well_formed g → NoDup result → topological g result →
  no_wait_on_wait g result →
  sink_waits g result = Ok out →
  out !! i = Some w → is_kind g Wait w = true →
  wait_before_first_user_run g out i w.
Proof.
  intros Hwf Hn Ht Hww Hout Hi Hw.
  destruct (sink_waits_topological _ _ _ Hwf Hn Hww Ht Hout)
    as (Hn' & Hin & Ht').
  assert (∀ k y, out !! k = Some y → y ∈ users g w →
                 i < k ∧ is_kind g Wait y = false) as Huser.
  { intros k y Hk Hy. apply (users_args g Hwf) in Hy. split.
    - by apply (Ht' i k w y).
    - destruct (is_kind g Wait y) eqn:Hy'; [|done].
      destruct (Hww w y); [| |done..].
      + apply Hin. by eapply list_elem_of_lookup_2.
      + apply Hin. by eapply list_elem_of_lookup_2. }
  assert (∀ k y, out !! k = Some y → i < k →
                 drop (S i) out !! (k - S i) = Some y) as Hdrop.
  { intros k y Hk Hlt. rewrite lookup_drop.
    by replace (S i + (k - S i)) with k by lia. }
  pose proof (take_drop_middle out i w Hi) as Hsplit. symmetry in Hsplit.
  assert (sunk_form g out) as Hform.
  { apply sink_waits_Ok in Hout as [_ ->].
    apply sunk_sunk_form, all_waits_empty. }
  unfold wait_before_first_user_run.
  destruct (sunk_form_wait_run g out _ _ w Hform Hsplit Hw)
    as [[Hpost Hs]|(ws & node & rest & Hpost & Hws & Hs & Hnode & Hu)].
  - assert (list_find (λ u, u ∈ users g w) out = None) as ->; [|done].
    apply list_find_None, Forall_forall. intros y Hy Hyu.
    apply list_elem_of_lookup in Hy as [k Hk].
    destruct (Huser k y Hk Hyu) as [Hlt Hy'].
    apply Hdrop in Hk; [|done]. apply list_elem_of_lookup_2 in Hk.
    rewrite Forall_forall in Hpost. rewrite (Hpost y Hk) in Hy'. done.
  - assert (out !! (S i + length ws) = Some node) as Hnode_at.
    { rewrite <- lookup_drop, Hpost. by apply list_lookup_middle. }
    assert (list_find (λ u, u ∈ users g w) out = Some (S i + length ws, node))
      as ->.
    { apply list_find_Some. split; [done|]. split; [done|].
      intros k y Hk Hlt Hyu.
      destruct (Huser k y Hk Hyu) as [Hlt' Hy'].
      apply Hdrop in Hk; [|done]. rewrite Hpost in Hk.
      rewrite lookup_app_l in Hk by lia.
      apply list_elem_of_lookup_2 in Hk.
      rewrite Forall_forall in Hws. destruct (Hws y Hk) as [Hk' _].
      rewrite Hk' in Hy'. done. }
    unfold between. replace (S i + length ws - S i) with (length ws) by lia.
    rewrite Hpost, take_app_length. split; [lia|done].
Qed.

Lemma sink_waits_before_first_user_witness :
  sink_waits two_waits ["C"; "W1"; "W2"; "N"] = Ok ["C"; "W1"; "W2"; "N"] ∧
  list_find (λ u, u ∈ users two_waits "W1") ["C"; "W1"; "W2"; "N"]
    = Some (3, "N") ∧
  wait_before_first_user_run two_waits ["C"; "W1"; "W2"; "N"] 1 "W1".
Proof.
  split; [by vm_compute|]. split; [by vm_compute|].
  apply (sink_waits_before_first_user two_waits ["C"; "W1"; "W2"; "N"]
           ["C"; "W1"; "W2"; "N"] 1 "W1").
  - by apply graph_of_well_formed, (bool_decide_unpack _).
  - by apply (bool_decide_unpack _).
  - by apply args_not_later_topological.
  - by apply no_wait_on_wait_check_sound.
  - by vm_compute.
  - reflexivity.
  - by vm_compute.
Defined.



(** The ordering edge is what the second comm follows when both comms
    are released at one node: on [two_comms], where [C2] does not take
    [C1], [C2] stands after [C1] all the same and so not immediately
    after [A], the last node it takes. *)
Lemma raise_comms_comm_not_adjacent :
  raise_comms two_comms ["A"; "C1"; "C2"] = Ok ["A"; "C1"; "C2"] ∧
  ["A"; "C1"; "C2"] !! 2 = Some "C2" ∧
  is_kind two_comms CommStart "C2" = true ∧
  ¬ ordering_edges two_comms ["A"; "C1"; "C2"] ∧
  ¬ comm_after_last_arg two_comms ["A"; "C1"; "C2"] 2 "C2".
Proof.
  split; [by vm_compute|]. split; [done|]. split; [by vm_compute|].
  split.
  - intros H. specialize (H [] "C1" "C2" []).
    assert ("C1" ∈ args two_comms "C2") as Hin by (apply H; by vm_compute).
    change ("C1" ∈ ["A"]) in Hin. by apply list_elem_of_singleton in Hin.
  - intros H. vm_compute in H. discriminate H.
Qed.

(** C5, as the specification words it, fails: [smart_reordering] first
    drops the nodes that carry no ["fusion_meta"], also when there is no
    comm. *)
Lemma smart_reordering_drops_without_meta :
  Forall (λ n, is_kind no_meta CommStart n = false) ["x"] ∧
  smart_reordering 0 no_meta (λ _, 0%Q) ["x"] = Ok [] ∧
  smart_reordering 0 no_meta (λ _, 0%Q) ["x"] ≠ Ok ["x"].
Proof.
  split; [by repeat constructor|]. split; [by vm_compute|].
  by vm_compute.
Qed.

(** C5 (amended): on a list without comms, [smart_reordering] returns
    the nodes that carry ["fusion_meta"], in the order of the input and
    whatever the fuel; the input itself when every node carries it. *)
Theorem smart_reordering_comm_free (fuel : nat) (g : Graph)
    (cost : SchedulerNode → Q) (nodes : list Node) :
  Forall (λ n, is_kind g CommStart n = false) nodes →
  smart_reordering fuel g cost nodes
    = Ok (filter (λ node, has_fusion_meta g node = true) nodes) ∧
  (Forall (λ n, has_fusion_meta g n = true) nodes →
   smart_reordering fuel g cost nodes = Ok nodes).
Proof.
  intros Hnc. split; [by apply smart_reordering_no_comms|].
  intros Hm. rewrite smart_reordering_no_comms by done.
  by rewrite filter_all_true.
Qed.

Lemma smart_reordering_comm_free_witness :
  Forall (λ n, is_kind two_cycle CommStart n = false) ["a"; "b"] ∧
  smart_reordering 0 two_cycle scenario_cost ["a"; "b"] = Ok ["a"; "b"].
Proof.
  assert (Forall (λ n, is_kind two_cycle CommStart n = false) ["a"; "b"])
    as Hnc by (by repeat constructor).
  split; [exact Hnc|].
  apply (smart_reordering_comm_free 0 two_cycle scenario_cost ["a"; "b"] Hnc).
  by repeat constructor.
Defined.

(** C6: in a round of the main loop, when [total_cost] after Priority 1
    (the rolled-over compute plus the cost of the Priority-1 batch) is at
    least the cost of [prev], Priority 2 schedules nothing: it returns the
    state and [total_cost] it was given, and the round goes on to
    Priority 3 from the state Priority 1 left. *)
Theorem priority2_nothing_to_fill (fuel : nat) (g : Graph)
    (cost : SchedulerNode → Q) (cs : Comms) (idx : nat) (st st1 : State)
    (rolled_over_compute total_cost comm_cost : Q) :
  priority1_step fuel g cost cs idx st rolled_over_compute
    = Ok (st1, total_cost, comm_cost) →
  (comm_cost <= total_cost)%Q →
  priority2_step g cost cs idx st1 total_cost comm_cost = Ok (st1, total_cost) ∧
  round fuel g cost cs idx st rolled_over_compute
  = (blocking ← is_comm_blocking cs idx;
     st3 ← priority3_step fuel g cs idx st1;
     Ok (st3, if blocking : bool then 0%Q else (total_cost - total_cost)%Q)).
Proof.
  intros H1 Hle.
  assert (priority2_step g cost cs idx st1 total_cost comm_cost
          = Ok (st1, total_cost)) as H2.
  { unfold priority2_step. apply Qle_bool_iff in Hle. by rewrite Hle. }
  split; [exact H2|].
  unfold round. destruct (is_comm_blocking cs idx) as [blocking| |];
    [|done..].
  simpl. rewrite H1. simpl. rewrite H2. done.
Qed.

Lemma priority2_nothing_to_fill_witness :
  let r := value (filled_state, 0%Q, 0%Q)
             (priority1_step 5 filled filled_cost filled_comms 1
                filled_state 0%Q) in
  (r.2 <= r.1.2)%Q ∧
  result r.1.1 = ["A"; "C1"; "B"] ∧
  priority2_step filled filled_cost filled_comms 1 r.1.1 r.1.2 r.2
  = Ok (r.1.1, r.1.2).
Proof.
  intros r. split; [vm_compute; discriminate|]. split; [by vm_compute|].
  eapply proj1.
  apply (priority2_nothing_to_fill 5 filled filled_cost filled_comms 1
           filled_state r.1.1 0%Q r.1.2 r.2).
  - by vm_compute.
  - vm_compute. discriminate.
Defined.

(** C7, as the specification words it, fails: the output has seven
    nodes, [W1] among them. *)
Lemma scenario_output_has_W1 :
  smart_reordering 7 (scenario false false) scenario_cost scenario_nodes
  ≠ Ok ["A"; "C1"; "B"; "C2"; "W2"; "D"].
Proof. by vm_compute. Qed.

(** C7 (amended): on the scenario graph, with or without the direct edge
    [C1 -> B] and the ordering edge [C1 -> C2], [smart_reordering] returns
    [A, C1, W1, B, C2, W2, D]: the six other nodes in the order the
    specification gives, and [W1] immediately before [B].  Six units of
    fuel are enough, and more change nothing. *)
Theorem scenario_output (direct ordered : bool) (fuel : nat) :
  6 ≤ fuel →
  smart_reordering fuel (scenario direct ordered) scenario_cost scenario_nodes
  = Ok ["A"; "C1"; "W1"; "B"; "C2"; "W2"; "D"].
Proof.
  intros Hfuel. apply (smart_reordering_more_fuel 6); [done|].
  destruct direct, ordered; by vm_compute.
Qed.

Lemma scenario_output_witness :
  smart_reordering 6 (scenario false false) scenario_cost scenario_nodes
  = Ok ["A"; "C1"; "W1"; "B"; "C2"; "W2"; "D"].
Proof. apply (scenario_output false false 6). lia. Defined.

(** C8: [sink_waits] and [raise_comms] are idempotent: run on the
    sequence it has returned, each pass returns that sequence. *)
Theorem cleanup_passes_idempotent (g : Graph) (result out : list Node) :
  (sink_waits g result = Ok out → sink_waits g out = Ok out) ∧
  (raise_comms g result = Ok out → raise_comms g out = Ok out).
Proof.
  split.
  - intros [Hm ->]%sink_waits_Ok. apply sink_waits_Ok.
    split; [by apply sunk_has_meta|].
    symmetry. apply sunk_form_fixed, sunk_sunk_form, all_waits_empty.
  - intros (Hm & Hlen & ->)%raise_comms_Ok.
    pose proof (raised_raised_form g (reverse result) [] (Forall_nil_2 _) Hlen)
      as Hform.
    apply raised_form_fixed in Hform as [Hfix Hlen'].
    apply raise_comms_Ok. rewrite !reverse_involutive.
    split; [|split; [exact Hlen'|by rewrite Hfix]].
    apply Forall_reverse, Forall_forall. intros x Hx.
    apply elem_of_raised in Hx as [Hx|Hx]; [by apply elem_of_nil in Hx|].
    rewrite elem_of_reverse in Hx. rewrite Forall_forall in Hm. by apply Hm.
Qed.

Lemma cleanup_passes_idempotent_witness :
  sink_waits two_waits ["W2"; "C"; "W1"; "N"] = Ok ["C"; "W1"; "W2"; "N"] ∧
  sink_waits two_waits ["C"; "W1"; "W2"; "N"] = Ok ["C"; "W1"; "W2"; "N"] ∧
  raise_comms two_comms ["A"; "C1"; "C2"] = Ok ["A"; "C1"; "C2"] ∧
  raise_comms two_comms ["A"; "C1"; "C2"] = Ok ["A"; "C1"; "C2"].
Proof.
  split; [by vm_compute|]. split.
  - apply (cleanup_passes_idempotent two_waits ["W2"; "C"; "W1"; "N"]).
    by vm_compute.
  - split; [by vm_compute|].
    apply (cleanup_passes_idempotent two_comms ["A"; "C1"; "C2"]).
    by vm_compute.
Defined.

(** C9, as the specification words it, fails: on two nodes that take
    each other, with no comm in the list, [smart_reordering] returns the
    input and no error. *)
Lemma smart_reordering_cycle_undetected :
  "b" ∈ args two_cycle "a" ∧ "a" ∈ args two_cycle "b" ∧
  smart_reordering 7 two_cycle scenario_cost ["a"; "b"] = Ok ["a"; "b"].
Proof.
  split; [by vm_compute; left|]. split; [by vm_compute; left|].
  by vm_compute.
Qed.

Lemma comm_and_cycle_diverges (fuel : nat) :
  smart_reordering fuel comm_and_cycle scenario_cost ["c"; "a"; "b"]
  = OutOfFuel.
Proof.
  destruct (decide (2 ≤ fuel)) as [Hle|Hlt].
  - apply smart_reordering_schedule_out_of_fuel; [by vm_compute|].
    assert (filter (λ node, has_fusion_meta comm_and_cycle node = true)
              ["c"; "a"; "b"] = ["c"; "a"; "b"]) as -> by by vm_compute.
    assert (filter (is_comm comm_and_cycle) ["c"; "a"; "b"] = ["c"]) as ->
      by by vm_compute.
    apply (schedule_stuck _ _ _ _ _ comm_and_cycle_state).
    + apply (schedule_comms_more_fuel 2); [done|]. by vm_compute.
    + intros Hempty.
      assert ("a" ∈ unused_nodes comm_and_cycle_state) as Ha
        by by apply (bool_decide_unpack _).
      rewrite Hempty in Ha. by apply not_elem_of_empty in Ha.
    + by apply (bool_decide_unpack _).
  - destruct fuel as [|[|fuel]]; [by vm_compute..|lia].
Qed.

(** C9 (amended): [smart_reordering] has no check for cycles.  On a
    list without comms, cyclic or not, it returns the nodes that carry
    ["fusion_meta"] in input order; on a cyclic graph with a comm in the
    list it returns no schedule, whatever the fuel; and on a comm
    followed by two nodes that take each other it neither returns nor
    raises: the loop of [add_all_nodes] runs out of any fuel. *)
Theorem cycles_not_detected (g : Graph) (cost : SchedulerNode → Q)
    (nodes : list Node) :
  (Forall (λ n, is_kind g CommStart n = false) nodes →
   ∀ fuel,
     smart_reordering fuel g cost nodes
     = Ok (filter (λ node, has_fusion_meta g node = true) nodes)) ∧
  (well_formed g → NoDup nodes →
   cyclic g (filter (λ node, has_fusion_meta g node = true) nodes) →
   (∃ c, c ∈ nodes ∧ is_kind g CommStart c = true) →
   ∀ fuel out, smart_reordering fuel g cost nodes ≠ Ok out) ∧
  (∀ fuel,
     smart_reordering fuel comm_and_cycle scenario_cost ["c"; "a"; "b"]
     = OutOfFuel).
Proof.
  split; [|split].
  - intros Hnc fuel. by apply smart_reordering_no_comms.
  - intros Hwf Hn Hcyc (c & Hc & Hcomm) fuel out.
    by eapply smart_reordering_cyclic.
  - apply comm_and_cycle_diverges.
Qed.

Lemma comm_and_cycle_cyclic :
  cyclic comm_and_cycle
    (filter (λ node, has_fusion_meta comm_and_cycle node = true)
       ["c"; "a"; "b"]).
Proof.
  assert (filter (λ node, has_fusion_meta comm_and_cycle node = true)
            ["c"; "a"; "b"] = ["c"; "a"; "b"]) as -> by by vm_compute.
  exists "a". apply (tc_l _ "a" "b" "a"); [|apply tc_once].
  - split; [by apply (bool_decide_unpack _)|].
    split; by apply (bool_decide_unpack _).
  - split; [by apply (bool_decide_unpack _)|].
    split; by apply (bool_decide_unpack _).
Qed.

Lemma cycles_not_detected_witness :
  smart_reordering 7 two_cycle scenario_cost ["a"; "b"] = Ok ["a"; "b"] ∧
  smart_reordering 7 comm_and_cycle scenario_cost ["c"; "a"; "b"]
    ≠ Ok ["c"; "a"; "b"].
Proof.
  split.
  - destruct (cycles_not_detected two_cycle scenario_cost ["a"; "b"])
      as (Hfree & _ & _).
    apply (Hfree (ltac:(by repeat constructor)) 7).
  - destruct (cycles_not_detected comm_and_cycle scenario_cost
                ["c"; "a"; "b"]) as (_ & Hcyc & _).
    apply Hcyc.
    + apply graph_of_well_formed. by apply (bool_decide_unpack _).
    + by apply (bool_decide_unpack _).
    + exact comm_and_cycle_cyclic.
    + exists "c". split; [by apply (bool_decide_unpack _)|by vm_compute].
Defined.

(** C10: each cleanup pass moves only the nodes it is about: the nodes
    that are not waits stand in the output of [sink_waits] in the order of
    its input, and the nodes that are not comms stand in the output of
    [raise_comms] in the order of its input. *)
Theorem cleanup_passes_frame (g : Graph) (result out : list Node) :
  (sink_waits g result = Ok out →
   filter (λ n, is_kind g Wait n = false) out
   = filter (λ n, is_kind g Wait n = false) result) ∧
  (raise_comms g result = Ok out →
   filter (λ n, is_kind g CommStart n = false) out
   = filter (λ n, is_kind g CommStart n = false) result).
Proof.
  split.
  - intros [_ ->]%sink_waits_Ok.
    apply sunk_filter_not_wait, all_waits_empty.
  - intros (_ & Hlen & ->)%raise_comms_Ok.
    rewrite filter_reverse, filter_app.
    rewrite (filter_all_false _ (is_comm g) (raised g (reverse result) []).2).
    + rewrite app_nil_r, raised_filter_not_comm by done.
      by rewrite filter_reverse, reverse_involutive.
    + by apply raised_queue_comms.
    + intros x Hx. unfold is_comm in Hx. congruence.
Qed.

Lemma cleanup_passes_frame_witness :
  sink_waits two_waits ["W2"; "C"; "W1"; "N"] = Ok ["C"; "W1"; "W2"; "N"] ∧
  filter (λ n, is_kind two_waits Wait n = false) ["C"; "W1"; "W2"; "N"]
  = filter (λ n, is_kind two_waits Wait n = false) ["W2"; "C"; "W1"; "N"].
Proof.
  split; [by vm_compute|].
  apply (cleanup_passes_frame two_waits ["W2"; "C"; "W1"; "N"]).
  by vm_compute.
Defined.

(** * Further properties: the traversals *)

Lemma reaches_once (next : Node → list Node) (x y : Node) :
  y ∈ next x → reaches next x y.
Proof. intros H. by apply tc_once. Qed.

Lemma reaches_l (next : Node → list Node) (x y z : Node) :
  y ∈ next x → reaches next y z → reaches next x z.
Proof. intros H1 H2. by eapply tc_l. Qed.

Lemma reaches_flip (next prev : Node → list Node) (x y : Node) :
  (∀ a b, b ∈ next a ↔ a ∈ prev b) →
  reaches next x y → reaches prev y x.
Proof.
  intros Hinv H. induction H as [x y H|x y z H _ IH].
  - apply tc_once. by apply Hinv.
  - eapply tc_r; [exact IH|]. by apply Hinv.
Qed.

Lemma traverse_sound (fuel : nat) (next : Node → list Node)
    (seen : gset Node) (cur_nodes : list Node) (R : gset Node) :
  traverse fuel next seen cur_nodes = Ok R →
  ∀ x, x ∈ R → x ∈ seen ∨ ∃ c, c ∈ cur_nodes ∧ reaches next c x.
Proof.
  revert seen cur_nodes. induction fuel as [|fuel IH]; intros seen cur H x Hx.
  - destruct cur; [|done]. simpl in H. injection H as <-. by left.
  - destruct cur as [|c cur].
    { simpl in H. injection H as <-. by left. }
    cbn [traverse] in H.
    destruct (visit_frontier_spec (λ y, ∃ n, n ∈ c :: cur ∧ y ∈ next n)
                next seen (c :: cur)) as (F1 & F2 & _); [by eauto|].
    destruct (visit_frontier next seen (c :: cur)) as [seen' new] eqn:Hvf.
    simpl in F1, F2.
    destruct (IH _ _ H x Hx) as [Hs|(n & Hn & Hr)].
    + apply F1 in Hs as [Hs|Hs]; [by left|right].
      destruct (F2 _ Hs) as (_ & n & Hn & Hy).
      exists n. split; [done|]. by apply reaches_once.
    + right. destruct (F2 _ Hn) as (_ & n0 & Hn0 & Hy).
      exists n0. split; [done|]. by eapply reaches_l.
Qed.

Lemma closed_under_reaches (next : Node → list Node) (start : Node)
    (R : gset Node) (x : Node) :
  closed_under next start R → reaches next start x → x ∈ R.
Proof.
  intros [C1 C2] H.
  assert (∀ a, a = start ∨ a ∈ R → reaches next a x → x ∈ R) as Hgen.
  { clear H. intros a Ha H. induction H as [a x H|a b x H _ IH].
    - destruct Ha as [->|Ha]; [by apply C1|by eapply C2].
    - apply IH. right. destruct Ha as [->|Ha]; [by apply C1|by eapply C2]. }
  apply (Hgen start); [by left|done].
Qed.

Lemma traverse_reaches (fuel : nat) (next : Node → list Node)
    (start : Node) (R : gset Node) :
  traverse fuel next ∅ [start] = Ok R →
  ∀ x, x ∈ R ↔ reaches next start x.
Proof.
  intros H x. split.
  - intros Hx. destruct (traverse_sound _ _ _ _ _ H x Hx) as [Hs|(c & Hc & Hr)].
    + set_solver.
    + apply list_elem_of_singleton in Hc as ->. done.
  - apply closed_under_reaches. by eapply traverse_start_closed.
Qed.

Lemma traverse_not_Raise (fuel : nat) (next : Node → list Node)
    (seen : gset Node) (cur_nodes : list Node) (e : exn) :
  traverse fuel next seen cur_nodes ≠ Raise e.
Proof.
  revert seen cur_nodes. induction fuel as [|fuel IH]; intros seen cur.
  - by destruct cur.
  - destruct cur as [|c cur]; [done|]. cbn [traverse].
    destruct (visit_frontier next seen (c :: cur)) as [seen' new].
    apply IH.
Qed.

Lemma traverse_total (fuel : nat) (next : Node → list Node)
    (start : Node) (U : gset Node) :
  start ∈ U →
  (∀ x y, x ∈ U → y ∈ next x → y ∈ U) →
  size U < fuel →
  ∃ R, traverse fuel next ∅ [start] = Ok R ∧ R ⊆ U.
Proof.
  intros Hs HU Hfuel.
  assert (terminates (traverse fuel next ∅ [start])) as Ht.
  { apply (traverse_terminates _ _ _ _ U); [|done|].
    - by intros x ->%list_elem_of_singleton.
    - by rewrite difference_empty_L. }
  destruct (traverse fuel next ∅ [start]) as [R|e|] eqn:H.
  - exists R. split; [done|]. intros x Hx.
    apply (traverse_reaches _ _ _ _ H) in Hx.
    clear H Ht. revert Hs. induction Hx as [a x Hx|a b x Hab _ IH]; intros Ha.
    + by eapply HU.
    + apply IH. by eapply HU.
  - by destruct (traverse_not_Raise _ _ _ _ _ H).
  - done.
Qed.

(** * Further properties: the two cleanup passes *)

(** ** Which exception, and when *)

Lemma isinstance_no_meta (g : Graph) (node : Node) (k : Kind) :
  has_fusion_meta g node = false → isinstance g node k = Raise KeyError.
Proof.
  unfold has_fusion_meta, isinstance, snode. intros H.
  destruct (meta g node) as [s|]; [|done].
  apply bool_decide_eq_false in H. destruct H. by exists s.
Qed.

Lemma sink_waits_loop_KeyError (g : Graph) (result : list Node)
    (new_result : list Node) (cur_waits : gset Node) :
  ¬ Forall (λ n, has_fusion_meta g n = true) result →
  sink_waits_loop g result new_result cur_waits = Raise KeyError.
Proof.
  revert new_result cur_waits.
  induction result as [|node result IH]; intros nr cw H.
  - destruct H. constructor.
  - cbn [sink_waits_loop]. destruct (has_fusion_meta g node) eqn:Hm.
    + assert (¬ Forall (λ n, has_fusion_meta g n = true) result) as H'.
      { intros HF. apply H. by constructor. }
      rewrite (isinstance_has_meta _ _ _ Hm). simpl.
      unfold mbind, outcome_bind, bind.
      destruct (is_kind g Wait node); [by apply IH|].
      destruct (sink_waits_release _ _ _ _ _). by apply IH.
    + by rewrite isinstance_no_meta.
Qed.

Lemma sink_waits_KeyError (g : Graph) (l : list Node) :
  ¬ Forall (λ n, has_fusion_meta g n = true) l →
  sink_waits g l = Raise KeyError.
Proof.
  intros H. unfold sink_waits. by rewrite sink_waits_loop_KeyError.
Qed.

Lemma raise_comms_loop_KeyError (g : Graph) (rev_result : list Node)
    (new_result cur_comms : list Node) :
  ¬ Forall (λ n, has_fusion_meta g n = true) rev_result →
  raise_comms_loop g rev_result new_result cur_comms = Raise KeyError.
Proof.
  revert new_result cur_comms.
  induction rev_result as [|node r IH]; intros nr cc H.
  - destruct H. constructor.
  - cbn [raise_comms_loop]. destruct (has_fusion_meta g node) eqn:Hm.
    + assert (¬ Forall (λ n, has_fusion_meta g n = true) r) as H'.
      { intros HF. apply H. by constructor. }
      rewrite (isinstance_has_meta _ _ _ Hm). simpl.
      unfold mbind, outcome_bind, bind.
      destruct (is_kind g CommStart node); [by apply IH|].
      destruct (raise_comms_pop _ _ _ _). by apply IH.
    + by rewrite isinstance_no_meta.
Qed.

Lemma raise_comms_KeyError (g : Graph) (l : list Node) :
  ¬ Forall (λ n, has_fusion_meta g n = true) l →
  raise_comms g l = Raise KeyError.
Proof.
  intros H. unfold raise_comms.
  rewrite raise_comms_loop_KeyError; [done|]. by rewrite Forall_reverse.
Qed.

(** With ["fusion_meta"] everywhere, [raise_comms] fails its assertion or
    returns, by the length of the queue it is left with. *)
Lemma raise_comms_cases (g : Graph) (l : list Node) :
  Forall (λ n, has_fusion_meta g n = true) l →
  raise_comms g l =
  if bool_decide (length (raised g (reverse l) []).2 ≤ 1)
  then Ok (reverse ((raised g (reverse l) []).1 ++
                    (raised g (reverse l) []).2))
  else Raise AssertionError.
Proof.
  intros Hm. case_bool_decide as Hlen.
  - by apply raise_comms_Ok.
  - unfold raise_comms.
    rewrite raise_comms_loop_Ok by (by rewrite Forall_reverse).
    simpl. by rewrite bool_decide_eq_false_2.
Qed.

Lemma raised_queue_length (g : Graph) (r q : list Node) :
  Forall (is_comm g) q →
  length (raised g r q).2 ≤ length q + length (filter (is_comm g) r).
Proof.
  intros Hq. pose proof (raised_filter_comm g r q Hq) as H.
  apply (f_equal length) in H. rewrite !length_app in H. lia.
Qed.

(** ** Comms that take no node of the list *)

Lemma any_comm_uses_false (g : Graph) (node : Node) (cur_comms : list Node) :
  any_comm_uses g node cur_comms = false ↔
  ∀ c, c ∈ cur_comms → node ∉ args g c.
Proof.
  rewrite <- not_true_iff_false, any_comm_uses_true. split.
  - intros H c Hc Hn. apply H. by exists c.
  - intros H (c & Hc & Hn). by apply (H c).
Qed.

Lemma raise_comms_pop_none (g : Graph) (node : Node) (cur_comms : list Node) :
  any_comm_uses g node cur_comms = false →
  raise_comms_pop g node cur_comms [] = ([], cur_comms).
Proof.
  intros H. destruct cur_comms as [|c q]; [done|].
  cbn [raise_comms_pop]. by rewrite H.
Qed.

(** The head of the queue is popped; a tail none of whose comms takes
    [node] stays. *)
Lemma raise_comms_pop_suffix (g : Graph) (node : Node) (q1 q2 : list Node) :
  any_comm_uses g node q2 = false →
  ∃ q1', (raise_comms_pop g node (q1 ++ q2) []).2 = q1' ++ q2.
Proof.
  intros H. induction q1 as [|c q1 IH].
  - exists []. by rewrite raise_comms_pop_none.
  - rewrite <- app_comm_cons. cbn [raise_comms_pop].
    destruct (any_comm_uses g node (c :: q1 ++ q2)).
    + rewrite raise_comms_pop_acc. exact IH.
    + by exists (c :: q1).
Qed.

Lemma raised_unanchored_queue (g : Graph) (r q1 q2 : list Node) :
  (∀ c n, c ∈ q2 ++ filter (is_comm g) r → n ∈ r →
          is_kind g CommStart n = false → n ∉ args g c) →
  ∃ q1', (raised g r (q1 ++ q2)).2 = q1' ++ q2 ++ filter (is_comm g) r.
Proof.
  revert q1 q2. induction r as [|n r IH]; intros q1 q2 H.
  - exists q1. simpl. by rewrite app_nil_r.
  - cbn [raised]. destruct (is_kind g CommStart n) eqn:Hk.
    + rewrite filter_cons_True by done. rewrite <- app_assoc.
      destruct (IH q1 (q2 ++ [n])) as [q1' Hq].
      { intros c m Hc Hm. apply H; [|by right].
        rewrite filter_cons_True by done.
        rewrite <- app_assoc in Hc. exact Hc. }
      exists q1'. rewrite Hq. by rewrite <- app_assoc.
    + rewrite filter_cons_False
        by (unfold is_comm; rewrite Hk; done).
      cbn [fst snd].
      destruct (raise_comms_pop_suffix g n q1 q2) as [q1'' Hp].
      { apply any_comm_uses_false. intros c Hc.
        apply H; [|by left|done].
        rewrite filter_cons_False by (unfold is_comm; rewrite Hk; done).
        apply elem_of_app. by left. }
      rewrite Hp. apply IH. intros c m Hc Hm.
      apply H; [|by right].
      by rewrite filter_cons_False by (unfold is_comm; rewrite Hk; done).
Qed.

Lemma raised_unanchored (g : Graph) (r q : list Node) :
  (∀ c n, c ∈ q ++ filter (is_comm g) r → n ∈ r →
          is_kind g CommStart n = false → n ∉ args g c) →
  raised g r q =
  (filter (λ n, is_kind g CommStart n = false) r, q ++ filter (is_comm g) r).
Proof.
  revert q. induction r as [|n r IH]; intros q H.
  - simpl. by rewrite app_nil_r.
  - cbn [raised]. destruct (is_kind g CommStart n) eqn:Hk.
    + rewrite (filter_cons_True (is_comm g)) by done.
      rewrite filter_cons_False by (by rewrite Hk).
      rewrite IH.
      * by rewrite <- app_assoc.
      * intros c m Hc Hm. apply H; [|by right].
        rewrite filter_cons_True by done.
        rewrite <- app_assoc in Hc. exact Hc.
    + rewrite (filter_cons_False (is_comm g))
        by (unfold is_comm; rewrite Hk; done).
      rewrite filter_cons_True by done.
      rewrite raise_comms_pop_none.
      * cbn [fst snd]. rewrite IH; [done|].
        intros c m Hc Hm. apply H; [|by right].
        by rewrite filter_cons_False by (unfold is_comm; rewrite Hk; done).
      * apply any_comm_uses_false. intros c Hc.
        apply H; [|by left|done]. apply elem_of_app. by left.
Qed.

Lemma raised_app_queue (g : Graph) (r1 r2 q : list Node) :
  (raised g (r1 ++ r2) q).2 = (raised g r2 (raised g r1 q).2).2.
Proof.
  revert q. induction r1 as [|n r1 IH]; intros q; [done|].
  rewrite <- app_comm_cons. cbn [raised].
  destruct (is_kind g CommStart n); [apply IH|].
  cbn [fst snd]. apply IH.
Qed.

Lemma comms_unanchored_check_sound (g : Graph) (l : list Node) :
  comms_unanchored_check g l = true → comms_unanchored g l.
Proof.
  unfold comms_unanchored_check. rewrite forallb_forall.
  intros H c n Hc Hn Hkc Hkn Hargs.
  apply list_elem_of_In in Hc. specialize (H c Hc).
  rewrite forallb_forall in H.
  apply list_elem_of_In in Hn. specialize (H n Hn).
  rewrite Hkc, Hkn in H. simpl in H.
  by rewrite bool_decide_eq_true_2 in H.
Qed.

Lemma raise_comms_prefix_fails (g : Graph) (pre rest : list Node) :
  Forall (λ n, has_fusion_meta g n = true) (pre ++ rest) →
  comms_unanchored g pre →
  2 ≤ length (filter (is_comm g) pre) →
  raise_comms g (pre ++ rest) = Raise AssertionError.
Proof.
  intros Hm Hun Hlen. rewrite raise_comms_cases by done.
  rewrite bool_decide_eq_false_2; [done|].
  rewrite reverse_app, raised_app_queue.
  destruct (raised_unanchored_queue g (reverse pre)
              (raised g (reverse rest) []).2 []) as [q1' Hq].
  { intros c n Hc Hn Hk. rewrite app_nil_l in Hc.
    apply list_elem_of_filter in Hc as [Hc Hc'].
    rewrite elem_of_reverse in Hc', Hn. by apply Hun. }
  rewrite app_nil_r in Hq. rewrite Hq, app_nil_l, length_app.
  rewrite filter_reverse, length_reverse. lia.
Qed.

Lemma raise_comms_unanchored_front (g : Graph) (l : list Node) :
  Forall (λ n, has_fusion_meta g n = true) l →
  comms_unanchored g l →
  length (filter (is_comm g) l) ≤ 1 →
  raise_comms g l =
  Ok (filter (is_comm g) l ++ filter (λ n, is_kind g CommStart n = false) l).
Proof.
  intros Hm Hun Hlen. rewrite raise_comms_cases by done.
  rewrite raised_unanchored.
  - cbn [fst snd]. rewrite app_nil_l, !filter_reverse, length_reverse.
    rewrite bool_decide_eq_true_2 by done.
    by rewrite reverse_app, !reverse_involutive.
  - intros c n Hc Hn Hk. rewrite app_nil_l in Hc.
    apply list_elem_of_filter in Hc as [Hc Hc'].
    rewrite elem_of_reverse in Hc', Hn. by apply Hun.
Qed.

(** ** The passes only reorder *)

Lemma released_subseteq (g : Graph) (node : Node) (cur_waits : gset Node) :
  list_to_set (released g node cur_waits) ⊆ cur_waits.
Proof.
  intros x Hx. apply elem_of_list_to_set, elem_of_released in Hx. by destruct Hx.
Qed.

Lemma sunk_length (g : Graph) (l : list Node) (cur_waits : gset Node) :
  length (sunk g l cur_waits) ≤ length l + size cur_waits.
Proof.
  revert cur_waits. induction l as [|n l IH]; intros cw.
  - simpl. rewrite (Permutation_length (tuple_sorted_Permutation _)).
    done.
  - cbn [sunk]. destruct (is_kind g Wait n).
    + etrans; [apply IH|]. simpl.
      pose proof (size_union_alt ({[n]} : gset Node) cw) as Hs.
      rewrite size_singleton in Hs.
      assert (size (cw ∖ {[n]}) ≤ size cw)
        by (apply subseteq_size; set_solver).
      lia.
    + rewrite length_app. simpl.
      specialize (IH (cw ∖ list_to_set (released g n cw))).
      rewrite size_difference in IH by apply released_subseteq.
      rewrite size_list_to_set in IH by apply released_NoDup.
      assert (length (released g n cw) ≤ size cw).
      { rewrite <- (size_list_to_set (C := gset Node))
          by apply released_NoDup.
        apply subseteq_size, released_subseteq. }
      lia.
Qed.

Lemma sink_waits_Permutation (g : Graph) (l out : list Node) :
  NoDup l → sink_waits g l = Ok out → out ≡ₚ l.
Proof.
  intros Hn H. apply sink_waits_Ok in H as [_ ->].
  apply NoDup_Permutation; [|done|].
  - apply sunk_NoDup; [done|]. intros x _. set_solver.
  - intros x. rewrite elem_of_sunk. set_solver.
Qed.

(** ** Lists the passes leave as they are *)

Lemma sunk_form_no_waits (g : Graph) (l : list Node) :
  Forall (λ n, is_kind g Wait n = false) l → sunk_form g l.
Proof.
  induction l as [|n l IH]; intros H.
  - apply sunk_form_end;
      [apply Forall_nil_2|apply SSorted_nil|apply NoDup_nil_2].
  - apply Forall_cons in H as [Hn H].
    apply (sunk_form_run g [] n l);
      [apply Forall_nil_2|apply SSorted_nil|apply NoDup_nil_2
      |apply Forall_nil_2|done|by apply IH].
Qed.

Lemma raised_form_no_comms (g : Graph) (l : list Node) :
  Forall (λ n, is_kind g CommStart n = false) l → raised_form g l.
Proof.
  induction l as [|n l IH]; intros H.
  - apply raised_form_end; [apply Forall_nil_2|simpl; lia].
  - apply Forall_cons in H as [Hn H].
    apply (raised_form_run g [] n l);
      [apply Forall_nil_2| |done|by apply IH].
    intros comms' c Heq. by destruct comms'.
Qed.

Lemma sink_waits_fixed (g : Graph) (l : list Node) :
  sink_waits g l = Ok l ↔
  Forall (λ n, has_fusion_meta g n = true) l ∧ sunk_form g l.
Proof.
  rewrite sink_waits_Ok. split.
  - intros [Hm Heq]. split; [done|]. rewrite Heq.
    apply sunk_sunk_form, all_waits_empty.
  - intros [Hm Hf]. split; [done|]. by rewrite sunk_form_fixed.
Qed.

Lemma raise_comms_fixed (g : Graph) (l : list Node) :
  raise_comms g l = Ok l ↔
  Forall (λ n, has_fusion_meta g n = true) l ∧ raised_form g (reverse l).
Proof.
  rewrite raise_comms_Ok. split.
  - intros (Hm & Hlen & Heq). split; [done|].
    apply (f_equal reverse) in Heq. rewrite reverse_involutive in Heq.
    rewrite Heq. by apply raised_raised_form.
  - intros [Hm Hf]. destruct (raised_form_fixed _ _ Hf) as [Heq Hlen].
    split; [done|]. split; [done|]. by rewrite Heq, reverse_involutive.
Qed.

(** * Further properties: which exceptions the schedulers raise *)

Lemma roa_Ok {A : Type} (a : A) : raises_only_assertion (Ok a).
Proof. by intros e. Qed.

Lemma roa_OutOfFuel {A : Type} : raises_only_assertion (@OutOfFuel A).
Proof. by intros e. Qed.

Lemma roa_assert (b : bool) : raises_only_assertion (assert b).
Proof. intros e. destruct b; simpl; congruence. Qed.

Lemma roa_bind {A B : Type} (m : outcome A) (k : A → outcome B) :
  raises_only_assertion m →
  (∀ a, m = Ok a → raises_only_assertion (k a)) →
  raises_only_assertion (m ≫= k).
Proof.
  intros Hm Hk e. unfold mbind, outcome_bind, bind.
  destruct m as [a|e'|]; [by apply Hk| |done].
  intros [= <-]. by apply Hm.
Qed.

Lemma snode_has_meta (g : Graph) (n : Node) :
  has_fusion_meta g n = true → ∃ s, snode g n = Ok s.
Proof.
  unfold has_fusion_meta, snode. intros [s Hs]%bool_decide_eq_true.
  rewrite Hs. by exists s.
Qed.

Lemma roa_snode (g : Graph) (n : Node) :
  has_fusion_meta g n = true → raises_only_assertion (snode g n).
Proof. intros [s ->]%snode_has_meta. apply roa_Ok. Qed.

Lemma roa_isinstance (g : Graph) (n : Node) (k : Kind) :
  has_fusion_meta g n = true → raises_only_assertion (isinstance g n k).
Proof. intros H. rewrite isinstance_has_meta by done. apply roa_Ok. Qed.

Lemma roa_get_runtime_fx (g : Graph) (cost : SchedulerNode → Q) (n : Node) :
  has_fusion_meta g n = true →
  raises_only_assertion (get_runtime_fx g cost n).
Proof.
  intros H. unfold get_runtime_fx.
  apply roa_bind; [by apply roa_snode|]. intros s _. apply roa_Ok.
Qed.

Lemma roa_mapM {A B : Type} (f : A → outcome B) (l : list A) :
  (∀ x, x ∈ l → raises_only_assertion (f x)) →
  raises_only_assertion (mapM f l).
Proof.
  induction l as [|x l IH]; intros Hf; simpl; [apply roa_Ok|].
  apply roa_bind; [apply Hf; by left|]. intros y _.
  apply roa_bind; [apply IH; intros z Hz; apply Hf; by right|].
  intros k _. apply roa_Ok.
Qed.

Lemma roa_comm_at (cs : Comms) (idx : nat) :
  idx < length (comm_nodes cs) → raises_only_assertion (comm_at cs idx).
Proof.
  intros H. unfold comm_at.
  destruct (lookup_lt_is_Some_2 _ _ H) as [c ->]. apply roa_Ok.
Qed.

Lemma roa_getitem {V : Type} (d : gmap Node V) (k : Node) :
  is_Some (d !! k) → raises_only_assertion (getitem d k).
Proof. intros [v Hv]. unfold getitem. rewrite Hv. apply roa_Ok. Qed.

Lemma roa_traverse (fuel : nat) (next : Node → list Node)
    (seen : gset Node) (cur_nodes : list Node) :
  raises_only_assertion (traverse fuel next seen cur_nodes).
Proof. intros e H. by destruct (traverse_not_Raise _ _ _ _ _ H). Qed.

Lemma roa_dict_of {V : Type} (f : Node → outcome V) (keys : list Node)
    (d : gmap Node V) :
  (∀ k, k ∈ keys → raises_only_assertion (f k)) →
  raises_only_assertion (dict_of f keys d).
Proof.
  revert d. induction keys as [|k keys IH]; intros d Hf; simpl;
    [apply roa_Ok|].
  apply roa_bind; [apply Hf; by left|]. intros v _.
  apply IH. intros k' Hk'. apply Hf. by right.
Qed.

(** ** The scheduling steps *)

Lemma roa_add_node (g : Graph) (node : Node) (st : State) :
  raises_only_assertion (add_node g node st).
Proof.
  unfold add_node.
  apply roa_bind; [apply roa_assert|]. intros _ _.
  apply roa_bind; [apply roa_assert|]. intros _ _. apply roa_Ok.
Qed.

Lemma roa_add_all_nodes_pass (g : Graph) (l : list Node) (S : gset Node)
    (st : State) :
  raises_only_assertion (add_all_nodes_pass g l S st).
Proof.
  revert S st. induction l as [|n l IH]; intros S st; simpl; [apply roa_Ok|].
  destruct (bool_decide (n ∈ free_nodes st)); [|apply IH].
  apply roa_bind; [apply roa_add_node|]. intros st' _. apply IH.
Qed.

Lemma roa_add_all_nodes_loop (fuel : nat) (g : Graph) (S : gset Node)
    (st : State) :
  raises_only_assertion (add_all_nodes_loop fuel g S st).
Proof.
  revert S st. induction fuel as [|fuel IH]; intros S st; simpl;
    destruct (bool_decide (0 < size S));
    try apply roa_Ok; try apply roa_OutOfFuel.
  apply roa_bind; [apply roa_add_all_nodes_pass|].
  intros [S' st'] _. apply IH.
Qed.

Lemma roa_add_all_nodes (fuel : nat) (g : Graph) (l : list Node)
    (st : State) :
  raises_only_assertion (add_all_nodes fuel g l st).
Proof.
  unfold add_all_nodes. cbv zeta.
  apply roa_bind; [apply roa_assert|]. intros _ _.
  apply roa_add_all_nodes_loop.
Qed.

(** ** The state stays within the node list *)

Lemma release_user_within (nodes : list Node) (st : State) (user : Node) :
  state_within nodes st → state_within nodes (release_user st user).
Proof.
  intros (Hf & Hu & Hi & Hr). unfold release_user.
  destruct (indeg st !! user) as [d|] eqn:Hd; [|done].
  split; [|split; [|split]]; simpl; try done.
  - intros x Hx. case_bool_decide; [|by apply Hf].
    apply elem_of_union in Hx as [->%elem_of_singleton|Hx]; [|by apply Hf].
    apply Hi. by rewrite Hd.
  - intros x Hx. destruct (decide (x = user)) as [->|Hne].
    + apply Hi. by rewrite Hd.
    + apply Hi. by rewrite lookup_insert_ne in Hx.
Qed.

Lemma release_users_within (nodes : list Node) (st : State)
    (us : list Node) :
  state_within nodes st → state_within nodes (foldl release_user st us).
Proof.
  revert st. induction us as [|u us IH]; intros st H; [done|].
  simpl. by apply IH, release_user_within.
Qed.

Lemma add_node_within (g : Graph) (nodes : list Node) (node : Node)
    (st st' : State) :
  state_within nodes st → add_node g node st = Ok st' →
  state_within nodes st'.
Proof.
  intros (Hf & Hu & Hi & Hr) H. apply add_node_Ok in H as (Hn & _ & ->).
  apply release_users_within.
  split; [|split; [|split]]; simpl; try done.
  - intros x Hx. apply Hf. set_solver.
  - intros x Hx. apply Hu. set_solver.
  - intros x [Hx| ->%list_elem_of_singleton]%elem_of_app; auto.
Qed.

Lemma count_user_is_Some (m : gmap Node Z) (u x : Node) :
  is_Some (count_user m u !! x) ↔ is_Some (m !! x).
Proof.
  unfold count_user. destruct (m !! u) as [d|] eqn:Hd; [|done].
  destruct (decide (x = u)) as [->|Hne].
  - rewrite lookup_insert_eq, Hd. split; eauto.
  - by rewrite lookup_insert_ne.
Qed.

Lemma count_users_is_Some (m : gmap Node Z) (us : list Node) (x : Node) :
  is_Some (foldl count_user m us !! x) ↔ is_Some (m !! x).
Proof.
  revert m. induction us as [|u us IH]; intros m; [done|].
  simpl. by rewrite IH, count_user_is_Some.
Qed.

Lemma initial_indeg_is_Some (g : Graph) (nodes : list Node) (x : Node) :
  is_Some (initial_indeg g nodes !! x) ↔ x ∈ nodes.
Proof.
  unfold initial_indeg.
  assert (∀ l m, is_Some (foldl (λ indeg node,
                     foldl count_user indeg (users g node)) m l !! x)
                 ↔ is_Some (m !! x)) as Hfold.
  { induction l as [|n l IH]; intros m; [done|].
    simpl. by rewrite IH, count_users_is_Some. }
  rewrite Hfold, zero_indeg_lookup.
  destruct (decide (x ∈ nodes)) as [Hx|Hx].
  - split; eauto.
  - rewrite lookup_empty. split; [by intros [? ?]|done].
Qed.

Lemma initial_state_within (g : Graph) (nodes : list Node) :
  state_within nodes (initial_state g nodes).
Proof.
  split; [|split; [|split]]; simpl.
  - intros x Hx. apply elem_of_list_to_set, list_elem_of_filter in Hx.
    by destruct Hx.
  - intros x Hx. apply elem_of_list_to_set, list_elem_of_filter in Hx.
    by destruct Hx.
  - intros x Hx. by apply initial_indeg_is_Some in Hx.
  - intros x Hx. by apply elem_of_nil in Hx.
Qed.

(** ** [sorted_by_earliest] *)

Lemma mapM_keyed_Ok (cs : Comms) (l : list Node) (keyed : list (nat * Node)) :
  mapM (λ node, k ← earliest_comm_descendant cs node; Ok (k, node)) l
    = Ok keyed →
  Forall2 (λ n kn, earliest_comm_descendant cs n = Ok kn.1 ∧ kn.2 = n)
          l keyed.
Proof.
  revert keyed. induction l as [|n l IH]; intros keyed H; simpl in H.
  - injection H as <-. constructor.
  - apply bind_Ok in H as ([k n'] & Hk & H).
    apply bind_Ok in Hk as (k' & Hk' & [= <- <-]).
    apply bind_Ok in H as (keyed' & Hl & [= <-]).
    constructor; [done|]. by apply IH.
Qed.

Lemma keyed_snd (cs : Comms) (l : list Node) (keyed : list (nat * Node)) :
  Forall2 (λ n kn, earliest_comm_descendant cs n = Ok kn.1 ∧ kn.2 = n)
          l keyed →
  keyed.*2 = l.
Proof.
  induction 1 as [|n kn l keyed [_ Hn] _ IH]; [done|].
  rewrite fmap_cons. by f_equal.
Qed.

Lemma sorted_by_earliest_Ok (cs : Comms) (l out : list Node) :
  sorted_by_earliest cs l = Ok out →
  ∃ keyed,
    Forall2 (λ n kn, earliest_comm_descendant cs n = Ok kn.1 ∧ kn.2 = n)
            l keyed ∧
    out = (sorted le fst keyed).*2.
Proof.
  unfold sorted_by_earliest. intros H.
  apply bind_Ok in H as (keyed & Hk & [= <-]).
  exists keyed. split; [|done]. by apply mapM_keyed_Ok.
Qed.

Lemma sorted_by_earliest_Permutation (cs : Comms) (l out : list Node) :
  sorted_by_earliest cs l = Ok out → out ≡ₚ l.
Proof.
  intros (keyed & Hk & ->)%sorted_by_earliest_Ok.
  rewrite <- (keyed_snd _ _ _ Hk).
  apply fmap_Permutation, sorted_Permutation.
Qed.

(** ** One round *)

Section rounds_raise.
Context (fuel : nat) (g : Graph) (cost : SchedulerNode → Q)
        (nodes : list Node) (cs : Comms).
Context (Hm : Forall (λ n, has_fusion_meta g n = true) nodes)
        (Hix : comms_indexed cs)
        (Hcm : ∀ c, c ∈ comm_nodes cs → has_fusion_meta g c = true).

Lemma within_has_meta (x : Node) :
  x ∈ nodes → has_fusion_meta g x = true.
Proof. intros Hx. by eapply Forall_forall in Hm. Qed.

Lemma comm_at_elem (idx : nat) (c : Node) :
  comm_at cs idx = Ok c → c ∈ comm_nodes cs.
Proof. intros H%comm_at_Ok. by eapply list_elem_of_lookup_2. Qed.

Lemma roa_earliest_from (node : Node) (idx : nat) (comms : list Node) :
  (∀ c, c ∈ comms → c ∈ comm_nodes cs) →
  raises_only_assertion (earliest_from cs node idx comms).
Proof.
  revert idx. induction comms as [|c comms IH]; intros idx Hc; simpl;
    [apply roa_Ok|].
  apply roa_bind.
  { apply roa_getitem. apply Hix, Hc. by left. }
  intros anc _. destruct (bool_decide (node ∈ anc)); [apply roa_Ok|].
  apply IH. intros c' Hc'. apply Hc. by right.
Qed.

Lemma roa_sorted_by_earliest (l : list Node) :
  raises_only_assertion (sorted_by_earliest cs l).
Proof.
  unfold sorted_by_earliest. apply roa_bind; [|intros; apply roa_Ok].
  apply roa_mapM. intros x _.
  apply roa_bind; [|intros; apply roa_Ok].
  by apply roa_earliest_from.
Qed.

Lemma roa_priority2_loop (comm_cost : Q) (l : list Node) (st : State)
    (total_cost : Q) :
  Forall (λ n, has_fusion_meta g n = true) l →
  raises_only_assertion (priority2_loop g cost comm_cost l st total_cost).
Proof.
  revert st total_cost. induction l as [|n l IH]; intros st tc Hl; simpl;
    [apply roa_Ok|].
  apply Forall_cons in Hl as [Hn Hl].
  destruct (Qle_bool comm_cost tc); [apply roa_Ok|].
  apply roa_bind; [by apply roa_isinstance|]. intros [] _; [by apply IH|].
  apply roa_bind; [by apply roa_get_runtime_fx|]. intros rc _.
  destruct (Qle_bool _ _); [by apply IH|].
  apply roa_bind; [apply roa_add_node|]. intros st' _.
  apply roa_bind; [by apply roa_get_runtime_fx|]. intros c _.
  by apply IH.
Qed.

Lemma roa_priority1_step (idx : nat) (st : State) (rolled : Q) :
  1 ≤ idx < length (comm_nodes cs) →
  state_within nodes st →
  raises_only_assertion (priority1_step fuel g cost cs idx st rolled).
Proof.
  intros Hidx (_ & Hu & _ & _). unfold priority1_step.
  apply roa_bind; [apply roa_comm_at; lia|]. intros prev Hprev%comm_at_elem.
  apply roa_bind; [apply roa_comm_at; lia|]. intros next Hnext%comm_at_elem.
  apply roa_bind; [by apply roa_getitem, Hix|]. intros A _.
  apply roa_bind; [by apply roa_getitem, Hix|]. intros D _. cbv zeta.
  apply roa_bind.
  { apply roa_mapM. intros x Hx. apply roa_get_runtime_fx, within_has_meta.
    apply Hu. apply elem_of_elements in Hx. set_solver. }
  intros costs _.
  apply roa_bind; [by apply roa_get_runtime_fx, Hcm|]. intros cc _.
  apply roa_bind; [apply roa_add_all_nodes|]. intros st' _. apply roa_Ok.
Qed.

Lemma roa_priority2_step (idx : nat) (st : State) (total_cost comm_cost : Q) :
  1 ≤ idx < length (comm_nodes cs) →
  state_within nodes st →
  raises_only_assertion
    (priority2_step g cost cs idx st total_cost comm_cost).
Proof.
  intros Hidx (Hf & _ & _ & _). unfold priority2_step.
  destruct (Qle_bool comm_cost total_cost); [apply roa_Ok|].
  apply roa_bind; [apply roa_comm_at; lia|]. intros prev Hprev%comm_at_elem.
  apply roa_bind; [by apply roa_getitem, Hix|]. intros D _. cbv zeta.
  apply roa_bind; [apply roa_sorted_by_earliest|].
  intros l Hl%sorted_by_earliest_Permutation.
  apply roa_priority2_loop. apply Forall_forall. intros x Hx.
  rewrite Hl, elem_of_tuple_sorted, elem_of_elements in Hx.
  apply within_has_meta, Hf. set_solver.
Qed.

Lemma roa_priority3_step (idx : nat) (st : State) :
  1 ≤ idx < length (comm_nodes cs) →
  raises_only_assertion (priority3_step fuel g cs idx st).
Proof.
  intros Hidx. unfold priority3_step.
  apply roa_bind; [apply roa_comm_at; lia|]. intros next Hnext%comm_at_elem.
  apply roa_bind; [by apply roa_getitem, Hix|]. intros A _. cbv zeta.
  apply roa_add_all_nodes.
Qed.

Lemma roa_is_comm_blocking (idx : nat) :
  1 ≤ idx < length (comm_nodes cs) →
  raises_only_assertion (is_comm_blocking cs idx).
Proof.
  intros Hidx. unfold is_comm_blocking.
  apply roa_bind; [apply roa_comm_at; lia|]. intros prev Hprev%comm_at_elem.
  apply roa_bind; [apply roa_comm_at; lia|]. intros next Hnext%comm_at_elem.
  apply roa_bind; [by apply roa_getitem, Hix|]. intros D _.
  apply roa_bind; [by apply roa_getitem, Hix|]. intros A _. apply roa_Ok.
Qed.

Lemma roa_round (idx : nat) (st : State) (rolled : Q) :
  1 ≤ idx < length (comm_nodes cs) →
  state_within nodes st →
  raises_only_assertion (round fuel g cost cs idx st rolled).
Proof.
  intros Hidx Hst. unfold round.
  apply roa_bind; [by apply roa_is_comm_blocking|]. intros blocking _.
  apply roa_bind; [by apply roa_priority1_step|].
  intros [[st1 tc] cc] H1. cbv zeta.
  assert (state_within nodes st1) as Hst1.
  { eapply priority1_step_preserved; [|exact Hst|exact H1].
    intros. by eapply add_node_within. }
  apply roa_bind; [by apply roa_priority2_step|].
  intros [st2 tc2] H2.
  apply roa_bind; [by apply roa_priority3_step|]. intros st3 _. apply roa_Ok.
Qed.

Lemma roa_rounds (idxs : list nat) (st : State) (rolled : Q) :
  Forall (λ idx, 1 ≤ idx < length (comm_nodes cs)) idxs →
  state_within nodes st →
  raises_only_assertion (rounds fuel g cost cs idxs st rolled).
Proof.
  revert st rolled. induction idxs as [|idx idxs IH]; intros st r Hi Hst;
    simpl; [apply roa_Ok|].
  apply Forall_cons in Hi as [Hidx Hi].
  apply roa_bind; [by apply roa_round|]. intros [st' r'] H.
  apply IH; [done|].
  eapply round_preserved; [|exact Hst|exact H].
  intros. by eapply add_node_within.
Qed.
End rounds_raise.

(** ** The schedulers *)

Lemma dict_of_is_Some {V : Type} (f : Node → outcome V) (keys : list Node)
    (d : gmap Node V) (k : Node) :
  dict_of f keys ∅ = Ok d → k ∈ keys → is_Some (d !! k).
Proof.
  intros H Hk. apply dict_of_dom in H.
  apply elem_of_dom. rewrite H. set_solver.
Qed.

Lemma size_list_to_set_le (l : list Node) :
  size (list_to_set l : gset Node) ≤ length l.
Proof.
  induction l as [|x l IH].
  - done.
  - cbn [list_to_set length]. rewrite size_union_alt, size_singleton.
    assert (size ((list_to_set l : gset Node) ∖ {[x]})
            ≤ size (list_to_set l : gset Node))
      by (apply subseteq_size; set_solver).
    lia.
Qed.

Lemma dict_of_size_le {V : Type} (f : Node → outcome V) (keys : list Node)
    (d : gmap Node V) :
  dict_of f keys ∅ = Ok d → size d ≤ length keys.
Proof.
  intros H. apply dict_of_dom in H.
  rewrite <- size_dom, H, dom_empty_L, (left_id_L ∅ (∪)).
  apply size_list_to_set_le.
Qed.

Section schedule_preserved.
Context (g : Graph) (P : State → Prop).
Context (add_node_P : ∀ node st st',
           P st → add_node g node st = Ok st' → P st').

Lemma schedule_comms_preserved (fuel : nat) (cost : SchedulerNode → Q)
    (nodes comms : list Node) (st : State) :
  P (initial_state g nodes) →
  schedule_comms fuel g cost nodes comms = Ok st → P st.
Proof.
  intros H0 H. unfold schedule_comms in H. inv_bind H. simplify_eq.
  eapply rounds_preserved; [exact add_node_P| |eassumption].
  eapply add_all_nodes_preserved; [exact add_node_P|exact H0|eassumption].
Qed.

Lemma schedule_state (fuel : nat) (cost : SchedulerNode → Q)
    (nodes comms res : list Node) :
  P (initial_state g nodes) →
  schedule fuel g cost nodes comms = Ok res →
  ∃ st st',
    schedule_comms fuel g cost nodes comms = Ok st ∧
    add_all_nodes fuel g (elements (unused_nodes st)) st = Ok st' ∧
    res = result st' ∧ P st ∧ P st'.
Proof.
  intros H0 H. unfold schedule in H.
  apply bind_Ok in H as (st & Hst & H).
  apply bind_Ok in H as (st' & Hst' & H). injection H as <-.
  exists st, st'. split; [done|]. split; [done|]. split; [done|].
  assert (P st) as HP by (by eapply schedule_comms_preserved).
  split; [done|].
  eapply add_all_nodes_preserved; [exact add_node_P|exact HP|exact Hst'].
Qed.
End schedule_preserved.

Lemma schedule_within (fuel : nat) (g : Graph) (cost : SchedulerNode → Q)
    (nodes comms res : list Node) :
  schedule fuel g cost nodes comms = Ok res → ∀ x, x ∈ res → x ∈ nodes.
Proof.
  intros H.
  destruct (schedule_state g (state_within nodes)
              (λ n st st', add_node_within g nodes n st st')
              fuel cost nodes comms res (initial_state_within g nodes) H)
    as (st & st' & _ & _ & -> & _ & (_ & _ & _ & Hr)).
  exact Hr.
Qed.

Lemma roa_schedule_comms (fuel : nat) (g : Graph) (cost : SchedulerNode → Q)
    (nodes comms : list Node) :
  Forall (λ n, has_fusion_meta g n = true) nodes →
  (∀ c, c ∈ comms → has_fusion_meta g c = true) →
  comms ≠ [] →
  raises_only_assertion (schedule_comms fuel g cost nodes comms).
Proof.
  intros Hm Hcm Hne. unfold schedule_comms.
  apply roa_bind.
  { apply roa_dict_of. intros; apply roa_traverse. }
  intros anc Hanc.
  apply roa_bind.
  { apply roa_dict_of. intros; apply roa_traverse. }
  intros desc Hdesc. cbv zeta.
  set (cs := {| comm_nodes := comms; comm_ancestors := anc;
                comm_descendants := desc |}).
  assert (comms_indexed cs) as Hix.
  { intros c Hc. split; by eapply dict_of_is_Some. }
  apply roa_bind.
  { apply roa_comm_at. simpl. destruct comms; [done|simpl; lia]. }
  intros first Hfirst%comm_at_elem.
  apply roa_bind; [by apply roa_getitem, Hix|]. intros A _.
  apply roa_bind; [apply roa_add_all_nodes|]. intros st1 H1.
  apply roa_bind; [|intros [? ?] _; apply roa_Ok].
  eapply (roa_rounds fuel g cost nodes cs); try done.
  - apply Forall_forall. intros idx Hidx%elem_of_seq. simpl.
    apply dict_of_size_le in Hanc. lia.
  - eapply add_all_nodes_preserved;
      [|apply (initial_state_within g nodes)|exact H1].
    intros. by eapply add_node_within.
Qed.

Lemma roa_schedule (fuel : nat) (g : Graph) (cost : SchedulerNode → Q)
    (nodes comms : list Node) :
  Forall (λ n, has_fusion_meta g n = true) nodes →
  (∀ c, c ∈ comms → has_fusion_meta g c = true) →
  comms ≠ [] →
  raises_only_assertion (schedule fuel g cost nodes comms).
Proof.
  intros Hm Hcm Hne. unfold schedule.
  apply roa_bind; [by apply roa_schedule_comms|]. intros st _.
  apply roa_bind; [apply roa_add_all_nodes|]. intros st' _. apply roa_Ok.
Qed.

Lemma roa_sink_waits (g : Graph) (l : list Node) :
  Forall (λ n, has_fusion_meta g n = true) l →
  raises_only_assertion (sink_waits g l).
Proof.
  intros Hm.
  assert (sink_waits g l = Ok (sunk g l ∅)) as -> by (by apply sink_waits_Ok).
  apply roa_Ok.
Qed.

Lemma roa_raise_comms (g : Graph) (l : list Node) :
  Forall (λ n, has_fusion_meta g n = true) l →
  raises_only_assertion (raise_comms g l).
Proof.
  intros Hm. rewrite raise_comms_cases by done.
  case_bool_decide; [apply roa_Ok|]. by intros e [= <-].
Qed.

Lemma sink_waits_has_meta (g : Graph) (l out : list Node) :
  sink_waits g l = Ok out →
  Forall (λ n, has_fusion_meta g n = true) out.
Proof. intros [Hm ->]%sink_waits_Ok. by apply sunk_has_meta. Qed.

Lemma raise_comms_has_meta (g : Graph) (l out : list Node) :
  raise_comms g l = Ok out →
  Forall (λ n, has_fusion_meta g n = true) out.
Proof.
  intros H. pose proof (raise_comms_Permutation _ _ _ H) as Hp.
  apply raise_comms_Ok in H as (Hm & _). by rewrite Hp.
Qed.

Lemma roa_smart_reordering (fuel : nat) (g : Graph)
    (cost : SchedulerNode → Q) (nodes : list Node) :
  raises_only_assertion (smart_reordering fuel g cost nodes).
Proof.
  unfold smart_reordering. cbv zeta.
  pose proof (filter_has_meta g nodes) as Hm.
  rewrite (collect_comm_nodes_Ok _ _ Hm). simpl.
  unfold mbind, outcome_bind at 1, bind at 1. 
  case_bool_decide as Hlen; [apply roa_Ok|].
  apply roa_bind.
  { apply roa_schedule; [done| |].
    - intros c [Hc _]%list_elem_of_filter. by apply is_comm_has_meta.
    - intros Heq. by rewrite Heq in Hlen. }
  intros res Hres. apply roa_bind.
  { apply roa_sink_waits, Forall_forall. intros x Hx.
    eapply Forall_forall in Hm; [exact Hm|]. by eapply schedule_within. }
  intros sunk Hs. apply roa_raise_comms. by eapply sink_waits_has_meta.
Qed.

Lemma mapM_snode_has_meta (g : Graph) (l : list Node) :
  Forall (λ n, has_fusion_meta g n = true) l →
  ∃ out, mapM (snode g) l = Ok out.
Proof.
  induction 1 as [|n l Hn _ [out IH]]; [by exists []|].
  destruct (snode_has_meta _ _ Hn) as [s Hs].
  exists (s :: out). cbn [mapM]. rewrite Hs, IH. done.
Qed.

Lemma roa_dumb_reordering (g : Graph) (nodes : list Node) :
  raises_only_assertion (dumb_reordering g nodes).
Proof.
  unfold dumb_reordering. cbv zeta.
  pose proof (filter_has_meta g nodes) as Hm.
  apply roa_bind; [by apply roa_sink_waits|]. intros sunk Hs.
  apply sink_waits_has_meta in Hs.
  apply roa_bind; [by apply roa_raise_comms|]. intros out Ho.
  apply raise_comms_has_meta in Ho.
  destruct (mapM_snode_has_meta _ _ Ho) as [r ->]. apply roa_Ok.
Qed.

(** * Further properties: what the schedulers return *)

Lemma smart_reordering_unfold (fuel : nat) (g : Graph)
    (cost : SchedulerNode → Q) (nodes : list Node) :
  smart_reordering fuel g cost nodes =
  let nodes' := filter (λ node, has_fusion_meta g node = true) nodes in
  let comms := filter (is_comm g) nodes' in
  if bool_decide (length comms = 0) then Ok nodes'
  else
    res ← schedule fuel g cost nodes' comms;
    res ← sink_waits g res;
    raise_comms g res.
Proof.
  unfold smart_reordering. cbv zeta.
  by rewrite (collect_comm_nodes_Ok _ _ (filter_has_meta g nodes)).
Qed.

Lemma smart_reordering_Ok_inv (fuel : nat) (g : Graph)
    (cost : SchedulerNode → Q) (nodes out : list Node) :
  smart_reordering fuel g cost nodes = Ok out →
  let nodes' := filter (λ node, has_fusion_meta g node = true) nodes in
  (filter (is_comm g) nodes' = [] ∧ out = nodes') ∨
  (filter (is_comm g) nodes' ≠ [] ∧
   ∃ res sunk,
     schedule fuel g cost nodes' (filter (is_comm g) nodes') = Ok res ∧
     sink_waits g res = Ok sunk ∧ raise_comms g sunk = Ok out).
Proof.
  rewrite smart_reordering_unfold. cbv zeta. intros H.
  case_bool_decide as Hlen.
  - left. injection H as <-. by apply length_zero_iff_nil in Hlen.
  - right. split; [by intros Heq; rewrite Heq in Hlen|].
    apply bind_Ok in H as (res & Hres & H).
    apply bind_Ok in H as (sunk & Hsunk & H). eauto.
Qed.

Lemma comm_in_filtered (g : Graph) (nodes : list Node) (c : Node) :
  c ∈ nodes → is_kind g CommStart c = true →
  c ∈ filter (is_comm g)
        (filter (λ node, has_fusion_meta g node = true) nodes).
Proof.
  intros Hc Hk. apply list_elem_of_filter. split; [done|].
  apply list_elem_of_filter. split; [by apply is_comm_has_meta|done].
Qed.

(** ** The nodes of the schedule *)

Lemma schedule_elements (fuel : nat) (g : Graph) (cost : SchedulerNode → Q)
    (nodes comms res : list Node) :
  schedule fuel g cost nodes comms = Ok res →
  NoDup res ∧
  ∀ x, x ∈ res ↔ x ∈ nodes ∧ has_fusion_meta g x = true.
Proof.
  intros H.
  destruct (schedule_state g (advances (initial_state g nodes))
              (add_node_advances g (initial_state g nodes))
              fuel cost nodes comms res (advances_refl _) H)
    as (st & st' & _ & Hst' & -> & (e1 & Hr1 & Hu1 & _ & _)
        & (e & Hr & Hu & Hn & Hin)).
  simpl in Hr, Hr1, Hu1, Hin. rewrite Hr. split; [done|].
  intros x. split.
  - intros Hx%Hin. apply elem_of_list_to_set, list_elem_of_filter in Hx.
    tauto.
  - intros [Hx Hm].
    apply add_all_nodes_scheduled in Hst' as (_ & e2 & (Hr2 & _) & Hin2).
    rewrite <- Hr, Hr2, elem_of_app.
    destruct (decide (x ∈ result st)) as [|Hnot]; [by left|right].
    apply Hin2, elem_of_elements. rewrite Hu1.
    apply elem_of_difference. split.
    + apply elem_of_list_to_set, list_elem_of_filter. done.
    + rewrite Hr1 in Hnot. by rewrite elem_of_list_to_set.
Qed.

Lemma sink_waits_elements (g : Graph) (l out : list Node) :
  sink_waits g l = Ok out → ∀ x, x ∈ out ↔ x ∈ l.
Proof.
  intros [_ ->]%sink_waits_Ok x. rewrite elem_of_sunk. set_solver.
Qed.

Lemma sink_waits_NoDup (g : Graph) (l out : list Node) :
  NoDup l → sink_waits g l = Ok out → NoDup out.
Proof.
  intros Hn [_ ->]%sink_waits_Ok. apply sunk_NoDup; [done|].
  intros x _. set_solver.
Qed.

Lemma smart_reordering_elements (fuel : nat) (g : Graph)
    (cost : SchedulerNode → Q) (nodes out : list Node) :
  smart_reordering fuel g cost nodes = Ok out →
  ∀ x, x ∈ out ↔ x ∈ nodes ∧ has_fusion_meta g x = true.
Proof.
  intros [[_ ->]|(_ & res & sunk & Hres & Hsunk & Hout)]%smart_reordering_Ok_inv x.
  - rewrite list_elem_of_filter. tauto.
  - rewrite (raise_comms_Permutation _ _ _ Hout).
    rewrite (sink_waits_elements _ _ _ Hsunk).
    apply schedule_elements in Hres as [_ Hin]. rewrite Hin.
    rewrite list_elem_of_filter. tauto.
Qed.

Lemma smart_reordering_NoDup (fuel : nat) (g : Graph)
    (cost : SchedulerNode → Q) (nodes out : list Node) (c : Node) :
  c ∈ nodes → is_kind g CommStart c = true →
  smart_reordering fuel g cost nodes = Ok out → NoDup out.
Proof.
  intros Hc Hk
    [[Hnil _]|(_ & res & sunk & Hres & Hsunk & Hout)]%smart_reordering_Ok_inv.
  - pose proof (comm_in_filtered g nodes c Hc Hk) as Hin.
    rewrite Hnil in Hin. by apply elem_of_nil in Hin.
  - rewrite (raise_comms_Permutation _ _ _ Hout).
    eapply sink_waits_NoDup; [|exact Hsunk].
    by apply schedule_elements in Hres as [Hn _].
Qed.

(** ** Two comms that take no node of the list *)

Lemma two_in_filter_length {A : Type} (P : A → Prop)
    `{!∀ x, Decision (P x)} (l : list A) (a b : A) :
  a ∈ l → b ∈ l → a ≠ b → P a → P b → 2 ≤ length (filter P l).
Proof.
  intros Ha Hb Hne HPa HPb.
  assert (a ∈ filter P l) as Ha' by (by apply list_elem_of_filter).
  assert (b ∈ filter P l) as Hb' by (by apply list_elem_of_filter).
  apply list_elem_of_split in Ha' as (l1 & l2 & Heq). rewrite Heq in Hb' |- *.
  rewrite length_app. simpl.
  apply elem_of_app in Hb' as [Hb'|Hb'].
  - destruct l1; [by apply elem_of_nil in Hb'|simpl; lia].
  - apply elem_of_cons in Hb' as [->|Hb']; [done|].
    destruct l2; [by apply elem_of_nil in Hb'|simpl; lia].
Qed.

Lemma comms_unanchored_subset (g : Graph) (l k : list Node) :
  (∀ x, x ∈ k → x ∈ l) → comms_unanchored g l → comms_unanchored g k.
Proof. intros Hsub H c n Hc Hn. apply H; auto. Qed.

Lemma raise_comms_two_unanchored (g : Graph) (l : list Node) (c1 c2 : Node) :
  Forall (λ n, has_fusion_meta g n = true) l →
  comms_unanchored g l →
  c1 ∈ l → c2 ∈ l → c1 ≠ c2 →
  is_kind g CommStart c1 = true → is_kind g CommStart c2 = true →
  raise_comms g l = Raise AssertionError.
Proof.
  intros Hm Hun H1 H2 Hne Hk1 Hk2.
  rewrite <- (app_nil_r l). apply raise_comms_prefix_fails.
  - by rewrite app_nil_r.
  - done.
  - by apply (two_in_filter_length _ _ c1 c2).
Qed.

Lemma dumb_reordering_two_unanchored (g : Graph) (nodes : list Node)
    (c1 c2 : Node) :
  comms_unanchored g nodes →
  c1 ∈ nodes → c2 ∈ nodes → c1 ≠ c2 →
  is_kind g CommStart c1 = true → is_kind g CommStart c2 = true →
  dumb_reordering g nodes = Raise AssertionError.
Proof.
  intros Hun H1 H2 Hne Hk1 Hk2. unfold dumb_reordering. cbv zeta.
  set (l := filter (λ node, has_fusion_meta g node = true) nodes).
  pose proof (filter_has_meta g nodes) as Hm.
  assert (sink_waits g l = Ok (sunk g l ∅)) as Hs by (by apply sink_waits_Ok).
  rewrite Hs. simpl.
  assert (∀ x, x ∈ sunk g l ∅ → x ∈ nodes) as Hsub.
  { intros x Hx%(sink_waits_elements _ _ _ Hs).
    apply list_elem_of_filter in Hx. tauto. }
  assert (∀ c, c ∈ nodes → is_kind g CommStart c = true → c ∈ sunk g l ∅)
    as Hin.
  { intros c Hc Hk. apply (sink_waits_elements _ _ _ Hs).
    apply list_elem_of_filter. split; [by apply is_comm_has_meta|done]. }
  rewrite (raise_comms_two_unanchored g _ c1 c2); auto.
  - by eapply sink_waits_has_meta.
  - by eapply comms_unanchored_subset.
Qed.

Lemma smart_reordering_two_unanchored (fuel : nat) (g : Graph)
    (cost : SchedulerNode → Q) (nodes out : list Node) (c1 c2 : Node) :
  comms_unanchored g nodes →
  c1 ∈ nodes → c2 ∈ nodes → c1 ≠ c2 →
  is_kind g CommStart c1 = true → is_kind g CommStart c2 = true →
  smart_reordering fuel g cost nodes ≠ Ok out.
Proof.
  intros Hun H1 H2 Hne Hk1 Hk2
    [[Hnil _]|(_ & res & sunk & Hres & Hsunk & Hout)]%smart_reordering_Ok_inv.
  - pose proof (comm_in_filtered g nodes c1 H1 Hk1) as Hin.
    rewrite Hnil in Hin. by apply elem_of_nil in Hin.
  - apply schedule_elements in Hres as [_ Hin].
    pose proof (sink_waits_elements _ _ _ Hsunk) as Hin'.
    assert (∀ x, x ∈ sunk ↔ x ∈ nodes ∧ has_fusion_meta g x = true) as Hin2.
    { intros x. rewrite Hin', Hin, list_elem_of_filter. tauto. }
    rewrite (raise_comms_two_unanchored g sunk c1 c2) in Hout; try done.
    + by eapply sink_waits_has_meta.
    + eapply comms_unanchored_subset; [|exact Hun]. intros x Hx%Hin2. tauto.
    + apply Hin2. split; [done|by apply is_comm_has_meta].
    + apply Hin2. split; [done|by apply is_comm_has_meta].
Qed.

(** An outcome that is neither a value nor out of fuel, and raises only
    [AssertionError], is that exception. *)
Lemma roa_Raise {A : Type} (m : outcome A) :
  raises_only_assertion m → terminates m → (∀ a, m ≠ Ok a) →
  m = Raise AssertionError.
Proof.
  intros Hr Ht Hok. destruct m as [a|e|].
  - by destruct (Hok a).
  - by rewrite (Hr e).
  - done.
Qed.

(** ** An ancestor of the first comm outside the list *)

Lemma dict_of_get (f : Node → outcome (gset Node)) (keys : list Node)
    (d : gmap Node (gset Node)) (k : Node) (v : gset Node) :
  dict_of f keys ∅ = Ok d → d !! k = Some v → k ∈ keys ∧ f k = Ok v.
Proof.
  intros H Hk. destruct (dict_of_lookup _ _ _ _ _ _ H Hk) as [Hk'|?]; [|done].
  by rewrite lookup_empty in Hk'.
Qed.

Lemma add_all_nodes_not_unused (fuel : nat) (g : Graph) (l : list Node)
    (st : State) (a : Node) :
  a ∈ l → a ∉ unused_nodes st →
  add_all_nodes fuel g l st = Raise AssertionError.
Proof.
  intros Ha Hnot. unfold add_all_nodes. cbv zeta.
  assert (forallb (λ node, bool_decide (node ∈ unused_nodes st))
            (elements (list_to_set l : gset Node)) = false) as ->; [|done].
  apply not_true_iff_false. rewrite forallb_forall. intros H.
  apply Hnot. eapply bool_decide_eq_true_1, H, list_elem_of_In.
  by apply elem_of_elements, elem_of_list_to_set.
Qed.

Lemma schedule_comms_missing_ancestor (fuel : nat) (g : Graph)
    (cost : SchedulerNode → Q) (nodes comms : list Node) (c0 a : Node) :
  head comms = Some c0 →
  reaches (args g) c0 a → a ∉ nodes →
  ∀ st, schedule_comms fuel g cost nodes comms ≠ Ok st.
Proof.
  intros Hhead Hreach Hnot st H. unfold schedule_comms in H.
  apply bind_Ok in H as (anc & Hanc & H).
  apply bind_Ok in H as (desc & Hdesc & H). cbv zeta in H.
  apply bind_Ok in H as (first & Hfirst & H).
  apply comm_at_Ok in Hfirst. simpl in Hfirst.
  destruct comms as [|c comms]; [done|].
  simpl in Hhead, Hfirst. simplify_eq.
  apply bind_Ok in H as (A & HA & H). simpl in HA. apply getitem_Ok in HA.
  destruct (dict_of_get _ _ _ _ _ Hanc HA) as [_ Hget].
  apply bind_Ok in H as (st1 & H1 & _).
  rewrite (add_all_nodes_not_unused _ _ _ _ a) in H1; [done| |].
  - apply elem_of_app. left. apply elem_of_elements.
    by apply (traverse_reaches _ _ _ _ Hget).
  - simpl. rewrite elem_of_list_to_set, list_elem_of_filter. tauto.
Qed.

Lemma smart_reordering_missing_ancestor (fuel : nat) (g : Graph)
    (cost : SchedulerNode → Q) (nodes : list Node) (c0 a : Node) :
  head (filter (is_comm g)
          (filter (λ node, has_fusion_meta g node = true) nodes)) = Some c0 →
  reaches (args g) c0 a →
  a ∉ filter (λ node, has_fusion_meta g node = true) nodes →
  ∀ out, smart_reordering fuel g cost nodes ≠ Ok out.
Proof.
  intros Hhead Hreach Hnot out
    [[Hnil _]|(_ & res & sunk & Hres & _)]%smart_reordering_Ok_inv.
  - by rewrite Hnil in Hhead.
  - unfold schedule in Hres. apply bind_Ok in Hres as (st & Hst & _).
    by eapply schedule_comms_missing_ancestor.
Qed.

Lemma dict_of_total {V : Type} (f : Node → outcome V) (keys : list Node)
    (d0 : gmap Node V) :
  (∀ k, k ∈ keys → ∃ v, f k = Ok v) → ∃ d, dict_of f keys d0 = Ok d.
Proof.
  revert d0. induction keys as [|k keys IH]; intros d0 Hf; simpl.
  - by exists d0.
  - destruct (Hf k) as [v ->]; [by left|]. simpl.
    apply IH. intros k' Hk'. apply Hf. by right.
Qed.

Lemma schedule_comms_missing_ancestor_raises (fuel : nat) (g : Graph)
    (cost : SchedulerNode → Q) (nodes comms : list Node) (c0 a : Node)
    (U : gset Node) :
  head comms = Some c0 →
  reaches (args g) c0 a → a ∉ nodes →
  (∀ c, c ∈ comms → c ∈ U) →
  (∀ x y, x ∈ U → y ∈ args g x → y ∈ U) →
  (∀ x y, x ∈ U → y ∈ users g x → y ∈ U) →
  size U < fuel →
  schedule_comms fuel g cost nodes comms = Raise AssertionError.
Proof.
  intros Hhead Hreach Hnot HU Hargs Husers Hfuel. unfold schedule_comms.
  destruct (dict_of_total (get_ancestors fuel g) comms ∅) as [anc Hanc].
  { intros c Hc.
    destruct (traverse_total fuel (args g) c U) as (A & HA & _); auto.
    by exists A. }
  destruct (dict_of_total (get_descendants fuel g) comms ∅) as [desc Hdesc].
  { intros c Hc.
    destruct (traverse_total fuel (users g) c U) as (D & HD & _); auto.
    by exists D. }
  rewrite Hanc, Hdesc. simpl.
  destruct comms as [|c comms]; [done|]. simpl in Hhead. simplify_eq.
  unfold comm_at. simpl.
  destruct (dict_of_is_Some _ _ _ c0 Hanc) as [A HA]; [by left|].
  unfold getitem. rewrite HA. simpl.
  destruct (dict_of_get _ _ _ _ _ Hanc HA) as [_ Hget].
  rewrite (add_all_nodes_not_unused _ _ _ _ a); [done| |].
  - apply elem_of_app. left. apply elem_of_elements.
    by apply (traverse_reaches _ _ _ _ Hget).
  - simpl. rewrite elem_of_list_to_set, list_elem_of_filter. tauto.
Qed.

Lemma smart_reordering_missing_ancestor_raises (fuel : nat) (g : Graph)
    (cost : SchedulerNode → Q) (nodes : list Node) (c0 a : Node)
    (U : gset Node) :
  head (filter (is_comm g)
          (filter (λ node, has_fusion_meta g node = true) nodes)) = Some c0 →
  reaches (args g) c0 a →
  a ∉ filter (λ node, has_fusion_meta g node = true) nodes →
  (∀ x, x ∈ nodes → x ∈ U) →
  (∀ x y, x ∈ U → y ∈ args g x → y ∈ U) →
  (∀ x y, x ∈ U → y ∈ users g x → y ∈ U) →
  size U < fuel →
  smart_reordering fuel g cost nodes = Raise AssertionError.
Proof.
  intros Hhead Hreach Hnot HU Hargs Husers Hfuel.
  rewrite smart_reordering_unfold. cbv zeta.
  rewrite bool_decide_eq_false_2.
  - unfold schedule.
    rewrite (schedule_comms_missing_ancestor_raises fuel g cost _ _ c0 a U);
      try done.
    intros c [_ [_ Hc]%list_elem_of_filter]%list_elem_of_filter. auto.
  - intros Hlen%length_zero_iff_nil. by rewrite Hlen in Hhead.
Qed.

(** * Further properties: the closures [add_node] and [add_all_nodes] *)

(** ** What [add_all_nodes] schedules *)

Lemma add_all_nodes_loop_exact (fuel : nat) (g : Graph)
    (all_nodes : gset Node) (st st' : State) :
  add_all_nodes_loop fuel g all_nodes st = Ok st' →
  ∃ ext, advances_by ext st st' ∧ ∀ x, x ∈ ext ↔ x ∈ all_nodes.
Proof.
  revert all_nodes st. induction fuel as [|fuel IH]; intros S st H;
    simpl in H; case_bool_decide as Hsize; try done.
  - simplify_eq. exists []. split; [apply advances_by_refl|].
    assert (S = ∅) as -> by (by apply gset_size_zero). set_solver.
  - inv_bind H.
    apply add_all_nodes_pass_progress in Ha as (e1 & Hadv1 & -> & Hin1 & _).
    apply IH in H as (e2 & Hadv2 & Hin2).
    exists (e1 ++ e2). split; [by eapply advances_by_trans|].
    intros x. rewrite elem_of_app, Hin2, elem_of_difference,
      elem_of_list_to_set. split.
    + intros [Hx|[Hx _]]; [|done].
      apply Hin1, elem_of_tuple_sorted, elem_of_elements in Hx. done.
    + intros Hx. destruct (decide (x ∈ e1)); tauto.
  - simplify_eq. exists []. split; [apply advances_by_refl|].
    assert (S = ∅) as -> by (by apply gset_size_zero). set_solver.
Qed.

Lemma add_all_nodes_exact (fuel : nat) (g : Graph) (nodes : list Node)
    (st st' : State) :
  add_all_nodes fuel g nodes st = Ok st' →
  ∃ ext,
    result st' = result st ++ ext ∧ NoDup ext ∧
    (∀ x, x ∈ ext ↔ x ∈ nodes) ∧
    unused_nodes st' = unused_nodes st ∖ list_to_set nodes.
Proof.
  unfold add_all_nodes. intros H. inv_bind H.
  apply add_all_nodes_loop_exact in H as (ext & (Hr & Hu & Hn & _) & Hin).
  exists ext. split; [done|]. split; [done|].
  assert (∀ x, x ∈ ext ↔ x ∈ nodes) as Hin'.
  { intros x. by rewrite Hin, elem_of_list_to_set. }
  split; [done|]. rewrite Hu. apply set_eq. intros x.
  rewrite !elem_of_difference, !elem_of_list_to_set, Hin'. done.
Qed.

(** ** The assertions of [add_node] hold inside [add_all_nodes] *)

Lemma add_node_unused (g : Graph) (node : Node) (st st' : State) :
  add_node g node st = Ok st' →
  unused_nodes st' = unused_nodes st ∖ {[node]}.
Proof.
  intros (_ & _ & ->)%add_node_Ok.
  by destruct (release_users_result
                 {| indeg := indeg st;
                    free_nodes := free_nodes st ∖ {[node]};
                    unused_nodes := unused_nodes st ∖ {[node]};
                    result := result st ++ [node] |} (users g node))
    as [_ ->].
Qed.

Lemma add_node_total (g : Graph) (node : Node) (st : State) :
  node ∈ unused_nodes st → node ∈ free_nodes st →
  ∃ st', add_node g node st = Ok st'.
Proof. intros Hu Hf. eexists. apply add_node_Ok. eauto. Qed.

Lemma add_all_nodes_pass_total (g : Graph) (l : list Node) (S : gset Node)
    (st : State) :
  NoDup l → (∀ x, x ∈ l → x ∈ S) → (∀ x, x ∈ S → x ∈ unused_nodes st) →
  ∃ S' st',
    add_all_nodes_pass g l S st = Ok (S', st') ∧
    ∀ x, x ∈ S' → x ∈ unused_nodes st'.
Proof.
  revert S st. induction l as [|n l IH]; intros S st Hn Hl HS; simpl.
  - eauto.
  - apply NoDup_cons in Hn as [Hnl Hn].
    case_bool_decide as Hfree.
    + destruct (add_node_total g n st) as [st1 H1]; [|done|].
      { apply HS, Hl. by left. }
      rewrite H1. simpl. apply IH; [done| |].
      * intros x Hx. apply elem_of_difference. split; [apply Hl; by right|].
        intros ->%elem_of_singleton. done.
      * intros x [Hx Hne]%elem_of_difference.
        rewrite (add_node_unused _ _ _ _ H1). apply elem_of_difference. auto.
    + apply IH; [done| |done]. intros x Hx. apply Hl. by right.
Qed.

Lemma add_all_nodes_loop_no_raise (fuel : nat) (g : Graph) (S : gset Node)
    (st : State) (e : exn) :
  (∀ x, x ∈ S → x ∈ unused_nodes st) →
  add_all_nodes_loop fuel g S st ≠ Raise e.
Proof.
  revert S st. induction fuel as [|fuel IH]; intros S st HS; simpl;
    case_bool_decide; try done.
  destruct (add_all_nodes_pass_total g (tuple_sorted (elements S)) S st)
    as (S' & st' & -> & HS'); [| |done|].
  - apply tuple_sorted_elements_NoDup.
  - intros x. by rewrite elem_of_tuple_sorted, elem_of_elements.
  - simpl. by apply IH.
Qed.

Lemma add_all_nodes_Raise (fuel : nat) (g : Graph) (nodes : list Node)
    (st : State) (e : exn) :
  add_all_nodes fuel g nodes st = Raise e ↔
  e = AssertionError ∧ ∃ a, a ∈ nodes ∧ a ∉ unused_nodes st.
Proof.
  split.
  - intros H. split; [by apply (roa_add_all_nodes fuel g nodes st)|].
    destruct (decide (Forall (λ a, a ∈ unused_nodes st) nodes))
      as [Hall|Hex].
    + exfalso. rewrite Forall_forall in Hall.
      revert H. unfold add_all_nodes. cbv zeta.
      assert (forallb (λ node, bool_decide (node ∈ unused_nodes st))
                (elements (list_to_set nodes : gset Node)) = true) as ->.
      { apply forallb_forall. intros x Hx.
        apply list_elem_of_In, elem_of_elements, elem_of_list_to_set in Hx.
        apply bool_decide_eq_true. auto. }
      simpl. apply add_all_nodes_loop_no_raise.
      intros x Hx%elem_of_list_to_set. auto.
    + apply not_Forall_Exists in Hex; [|apply _].
      apply Exists_exists in Hex as (a & Ha & Hnot). eauto.
  - intros [-> (a & Ha & Hnot)]. by eapply add_all_nodes_not_unused.
Qed.

Lemma add_all_nodes_nil (fuel : nat) (g : Graph) (st : State) :
  add_all_nodes fuel g [] st = Ok st.
Proof. unfold add_all_nodes. simpl. by destruct fuel. Qed.

(** ** The sequences [add_node] accepts *)

Lemma add_nodes_Inv (g : Graph) (nodes l : list Node) (st st' : State) :
  well_formed g → NoDup nodes →
  Inv g nodes st → add_nodes g l st = Ok st' →
  Inv g nodes st' ∧ result st' = result st ++ l.
Proof.
  intros Hwf Hn. revert st. induction l as [|n l IH]; intros st HI H;
    simpl in H.
  - simplify_eq. by rewrite app_nil_r.
  - apply bind_Ok in H as (st1 & H1 & H).
    pose proof (add_node_Inv _ _ _ _ _ Hwf Hn HI H1) as HI1.
    destruct (IH _ HI1 H) as [HI' Hr]. split; [done|].
    rewrite Hr. apply add_node_advances_by in H1 as (-> & _).
    by rewrite <- app_assoc.
Qed.

Lemma add_nodes_accepts (g : Graph) (nodes l : list Node) (st : State) :
  well_formed g → NoDup nodes →
  Inv g nodes st →
  NoDup (result st ++ l) → (∀ x, x ∈ l → x ∈ nodes) →
  args_first g nodes (result st ++ l) →
  ∃ st', add_nodes g l st = Ok st'.
Proof.
  intros Hwf Hn. revert st. induction l as [|n l IH];
    intros st HI Hnd Hin Hargs; simpl; [eauto|].
  assert (n ∉ result st) as Hnot.
  { apply NoDup_app in Hnd as (_ & Hd & _). intros Hr.
    apply (Hd n Hr). by left. }
  destruct (add_node_total g n st) as [st1 H1].
  - apply (inv_unused _ _ _ HI). split; [apply Hin; by left|done].
  - apply (inv_free _ _ _ HI). split; [apply Hin; by left|].
    split; [done|]. apply pending_nil. intros u Hu Hnu.
    apply (Hargs (result st) n l u); [done|done|].
    by apply (users_args g Hwf).
  - rewrite H1. simpl.
    pose proof (add_node_Inv _ _ _ _ _ Hwf Hn HI H1) as HI1.
    apply add_node_advances_by in H1 as (Hr1 & _).
    apply IH; [done| | |].
    + by rewrite Hr1, <- app_assoc.
    + intros x Hx. apply Hin. by right.
    + by rewrite Hr1, <- app_assoc.
Qed.

Lemma Inv_args_first (g : Graph) (nodes : list Node) (st : State) :
  well_formed g → Inv g nodes st → args_first g nodes (result st).
Proof.
  intros Hwf HI l1 v l2 u Heq Hu Huv.
  apply (inv_closed _ _ _ HI l1 v l2 Heq u Hu).
  by apply (users_args g Hwf).
Qed.

Lemma Inv_free_args (g : Graph) (nodes : list Node) (st : State) (v : Node) :
  well_formed g → Inv g nodes st →
  v ∈ free_nodes st ↔
  v ∈ nodes ∧ (v ∉ result st) ∧
  ∀ u, u ∈ args g v → u ∈ nodes → u ∈ result st.
Proof.
  intros Hwf HI. rewrite (inv_free _ _ _ HI), pending_nil.
  split; intros (H1 & H2 & H3); (split; [done|split; [done|]]).
  - intros u Hu Hn. apply H3; [done|]. by apply (users_args g Hwf).
  - intros u Hn Hu. apply H3; [|done]. by apply (users_args g Hwf).
Qed.

(** * Further properties: Priority 2 *)

(** ** [sorted] is stable *)

Section sorted_stable.
Context {A K : Type} (le : relation K) `{!RelDecision le} (key : A → K).
Context `{!Reflexive le, !EqDecision K}.

Lemma insert_sorted_filter_key (k : K) (x : A) (l : list A) :
  filter (λ a, key a = k) (insert_sorted le key x l)
  = filter (λ a, key a = k) (x :: l).
Proof.
  induction l as [|y l IH]; simpl; [done|].
  case_decide as Hxy; [done|].
  rewrite (filter_cons _ y), IH, !(filter_cons _ x), (filter_cons _ y).
  destruct (decide (key y = k)) as [Hy|Hy]; [|done].
  destruct (decide (key x = k)) as [Hx|Hx]; [|done].
  destruct Hxy. by rewrite Hx, Hy.
Qed.

Lemma sorted_filter_key (k : K) (l : list A) :
  filter (λ a, key a = k) (sorted le key l) = filter (λ a, key a = k) l.
Proof.
  induction l as [|x l IH]; simpl; [done|].
  by rewrite insert_sorted_filter_key, !filter_cons, IH.
Qed.
End sorted_stable.

Lemma StronglySorted_before {A : Type} (R : relation A) (l : list A)
    (a b : A) :
  StronglySorted R l → before l a b → R a b.
Proof.
  intros Hs (l1 & l2 & l3 & ->).
  apply (StronglySorted_app_1_elem_of R (l1 ++ [a]) (l2 ++ b :: l3)).
  - by rewrite <- app_assoc.
  - apply elem_of_app. right. by left.
  - apply elem_of_app. right. by left.
Qed.

(** ** [earliest_comm_descendant] *)

Lemma earliest_from_spec (cs : Comms) (node : Node) (idx : nat)
    (comms : list Node) (k : nat) :
  earliest_from cs node idx comms = Ok k →
  (k = length (comm_nodes cs) ∧
   ∀ j c, comms !! j = Some c →
          ∃ A, comm_ancestors cs !! c = Some A ∧ node ∉ A) ∨
  (∃ j c A,
     k = idx + j ∧ comms !! j = Some c ∧
     comm_ancestors cs !! c = Some A ∧ node ∈ A ∧
     ∀ j' c', j' < j → comms !! j' = Some c' →
              ∃ A', comm_ancestors cs !! c' = Some A' ∧ node ∉ A').
Proof.
  revert idx. induction comms as [|c comms IH]; intros idx H; simpl in H.
  - left. injection H as <-. split; [done|]. by intros j c' ?.
  - apply bind_Ok in H as (A & HA%getitem_Ok & H).
    case_bool_decide as Hin.
    + right. injection H as <-. exists 0, c, A.
      split; [lia|]. split; [done|]. split; [done|]. split; [done|].
      intros j' c' Hj'. lia.
    + destruct (IH _ H) as [[-> Hall]|(j & c' & A' & -> & Hj & HA' & Hin' & Hmin)].
      * left. split; [done|]. intros [|j] c' Hj; simpl in Hj.
        -- injection Hj as <-. eauto.
        -- eauto.
      * right. exists (S j), c', A'. split; [lia|]. split; [done|].
        split; [done|]. split; [done|].
        intros [|j'] c'' Hlt Hj'; simpl in Hj'.
        -- injection Hj' as <-. eauto.
        -- apply (Hmin j'); [lia|done].
Qed.

(** ** The order of [overlappable_nodes] *)

Lemma keyed_filter (cs : Comms) (ks : list (nat * Node)) (k : nat) :
  Forall (λ kn, earliest_comm_descendant cs kn.2 = Ok kn.1) ks →
  filter (λ n, earliest_comm_descendant cs n = Ok k) (ks.*2)
  = (filter (λ kn, kn.1 = k) ks).*2.
Proof.
  induction 1 as [|kn ks Hkn _ IH]; [done|].
  rewrite fmap_cons, !filter_cons, IH.
  destruct (decide (kn.1 = k)) as [Hk|Hk].
  - rewrite decide_True by (by rewrite Hkn, Hk). done.
  - rewrite decide_False; [done|]. rewrite Hkn. by intros [= ?].
Qed.

Lemma keyed_Forall (cs : Comms) (l : list Node) (keyed : list (nat * Node)) :
  Forall2 (λ n kn, earliest_comm_descendant cs n = Ok kn.1 ∧ kn.2 = n)
          l keyed →
  Forall (λ kn, earliest_comm_descendant cs kn.2 = Ok kn.1) keyed.
Proof.
  induction 1 as [|n kn l keyed [Hk Hn] _ IH]; constructor; [|done].
  by rewrite Hn.
Qed.

Lemma sorted_by_earliest_stable (cs : Comms) (l out : list Node) (k : nat) :
  sorted_by_earliest cs l = Ok out →
  filter (λ n, earliest_comm_descendant cs n = Ok k) out
  = filter (λ n, earliest_comm_descendant cs n = Ok k) l.
Proof.
  intros (keyed & Hk & ->)%sorted_by_earliest_Ok.
  pose proof (keyed_Forall _ _ _ Hk) as HF.
  rewrite (keyed_filter cs (sorted le fst keyed) k).
  - rewrite (sorted_filter_key le fst k keyed).
    rewrite <- (keyed_filter cs keyed k HF). by rewrite (keyed_snd _ _ _ Hk).
  - by rewrite sorted_Permutation.
Qed.

Lemma sorted_by_earliest_ordered (cs : Comms) (l out : list Node)
    (a b : Node) (ka kb : nat) :
  sorted_by_earliest cs l = Ok out →
  before out a b →
  earliest_comm_descendant cs a = Ok ka →
  earliest_comm_descendant cs b = Ok kb →
  ka ≤ kb.
Proof.
  intros (keyed & Hk & ->)%sorted_by_earliest_Ok Hb Ha Hkb.
  pose proof (keyed_Forall _ _ _ Hk) as HF.
  rewrite <- (sorted_Permutation le fst keyed) in HF.
  pose proof (sorted_StronglySorted le fst keyed) as Hs.
  assert (Forall2 (λ n kn, kn.2 = n) ((sorted le fst keyed).*2)
            (sorted le fst keyed)) as HF2.
  { apply Forall2_fmap_l, Forall_Forall2_diag, Forall_forall. done. }
  destruct (before_Forall2 _ _ _ _ _ HF2 Hb) as (a' & b' & Ha' & Hb' & Hab).
  pose proof (StronglySorted_before _ _ _ _ Hs Hab) as Hle. simpl in Hle.
  rewrite Forall_forall in HF.
  assert (a' ∈ sorted le fst keyed) as Hina.
  { destruct Hab as (l1 & l2 & l3 & ->). set_solver. }
  assert (b' ∈ sorted le fst keyed) as Hinb.
  { destruct Hab as (l1 & l2 & l3 & ->). set_solver. }
  pose proof (HF _ Hina) as Hea. pose proof (HF _ Hinb) as Heb.
  rewrite Ha' in Hea. rewrite Hb' in Heb. congruence.
Qed.

(** ** What Priority 2 schedules *)

Lemma get_runtime_fx_Ok (g : Graph) (cost : SchedulerNode → Q) (n : Node)
    (c : Q) :
  get_runtime_fx g cost n = Ok c → c = runtime g cost n.
Proof.
  unfold get_runtime_fx, runtime. intros H.
  apply bind_Ok in H as (s & Hs%snode_Ok & [= <-]). by rewrite Hs.
Qed.

Lemma priority2_loop_spec (g : Graph) (cost : SchedulerNode → Q)
    (comm_cost : Q) (l : list Node) (st st' : State) (tc tc' : Q) :
  priority2_loop g cost comm_cost l st tc = Ok (st', tc') →
  ∃ ext,
    advances_by ext st st' ∧ ext `sublist_of` l ∧
    Forall (λ n, is_kind g CommStart n = false) ext ∧
    tc' = foldl (λ acc n, (acc + runtime g cost n)%Q) tc ext.
Proof.
  revert st tc. induction l as [|n l IH]; intros st tc H; simpl in H.
  - simplify_eq. exists []. split; [apply advances_by_refl|].
    split; [constructor|]. split; [constructor|done].
  - destruct (Qle_bool comm_cost tc).
    { simplify_eq. exists []. split; [apply advances_by_refl|].
      split; [apply sublist_nil_l|]. split; [constructor|done]. }
    apply bind_Ok in H as (b & Hb%isinstance_Ok & H). destruct Hb as [_ ->].
    destruct (is_kind g CommStart n) eqn:Hk.
    { destruct (IH _ _ H) as (ext & ? & ? & ? & ?).
      exists ext. split; [done|]. split; [by apply sublist_cons|done]. }
    apply bind_Ok in H as (rc & Hrc & H).
    destruct (Qle_bool (comm_cost - tc) _).
    { destruct (IH _ _ H) as (ext & ? & ? & ? & ?).
      exists ext. split; [done|]. split; [by apply sublist_cons|done]. }
    apply bind_Ok in H as (st1 & H1 & H).
    apply bind_Ok in H as (c & Hc%get_runtime_fx_Ok & H). subst c.
    destruct (IH _ _ H) as (ext & Hadv & Hsub & Hnc & ->).
    exists ([n] ++ ext). split.
    { eapply advances_by_trans; [|exact Hadv].
      by eapply add_node_advances_by. }
    split; [by apply sublist_skip|]. split; [by constructor|done].
Qed.

Lemma priority2_step_spec (g : Graph) (cost : SchedulerNode → Q)
    (cs : Comms) (idx : nat) (st st' : State) (tc cc tc' : Q) :
  priority2_step g cost cs idx st tc cc = Ok (st', tc') →
  ∃ ext,
    advances_by ext st st' ∧
    tc' = foldl (λ acc n, (acc + runtime g cost n)%Q) tc ext ∧
    ∀ x, x ∈ ext →
      is_kind g CommStart x = false ∧ x ∈ free_nodes st ∧
      ∀ prev D, comm_nodes cs !! (idx - 1) = Some prev →
                comm_descendants cs !! prev = Some D → x ∉ D.
Proof.
  unfold priority2_step. intros H.
  destruct (Qle_bool cc tc).
  { simplify_eq. exists []. split; [apply advances_by_refl|].
    split; [done|]. by intros x ?%elem_of_nil. }
  apply bind_Ok in H as (prev & Hprev%comm_at_Ok & H).
  apply bind_Ok in H as (D & HD%getitem_Ok & H). cbv zeta in H.
  apply bind_Ok in H as (l & Hl%sorted_by_earliest_Permutation & H).
  apply priority2_loop_spec in H as (ext & Hadv & Hsub & Hnc & ->).
  exists ext. split; [done|]. split; [done|]. intros x Hx.
  split; [by eapply Forall_forall in Hnc|].
  assert (x ∈ free_nodes st ∖ D) as [Hf HnD]%elem_of_difference.
  { apply elem_of_elements, elem_of_tuple_sorted. rewrite <- Hl.
    by eapply elem_of_sublist. }
  split; [done|]. intros prev' D' Hprev' HD'. by simplify_eq.
Qed.

(** * Further properties: the dicts, the ordering pass and the cost model *)

(** ** [is_comm_blocking] *)

Lemma is_comm_blocking_spec (fuel : nat) (g : Graph) (comms : list Node)
    (anc desc : gmap Node (gset Node)) (idx : nat) (b : bool) :
  dict_of (get_ancestors fuel g) comms ∅ = Ok anc →
  dict_of (get_descendants fuel g) comms ∅ = Ok desc →
  is_comm_blocking {| comm_nodes := comms; comm_ancestors := anc;
                      comm_descendants := desc |} idx = Ok b →
  ∃ prev next,
    comms !! (idx - 1) = Some prev ∧ comms !! idx = Some next ∧
    (b = true ↔ ∃ x, reaches (users g) prev x ∧ reaches (args g) next x).
Proof.
  intros Hanc Hdesc H. unfold is_comm_blocking in H.
  apply bind_Ok in H as (prev & Hprev%comm_at_Ok & H).
  apply bind_Ok in H as (next & Hnext%comm_at_Ok & H).
  apply bind_Ok in H as (D & HD%getitem_Ok & H).
  apply bind_Ok in H as (A & HA%getitem_Ok & H).
  simpl in *. injection H as <-.
  destruct (dict_of_get _ _ _ _ _ Hanc HA) as [_ HgA].
  destruct (dict_of_get _ _ _ _ _ Hdesc HD) as [_ HgD].
  exists prev, next. split; [done|]. split; [done|].
  rewrite bool_decide_eq_true, <- gset_size_pos. split.
  - intros [x [HxD HxA]%elem_of_intersection]%set_choose_L.
    exists x. split.
    + by apply (traverse_reaches _ _ _ _ HgD).
    + by apply (traverse_reaches _ _ _ _ HgA).
  - intros (x & HxD & HxA) Hempty.
    apply (traverse_reaches _ _ _ _ HgD) in HxD.
    apply (traverse_reaches _ _ _ _ HgA) in HxA.
    set_solver.
Qed.

(** ** [tuple_sorted] does not depend on the order of iteration *)

Lemma tuple_sorted_order_independent (l l' : list Node) :
  l ≡ₚ l' → tuple_sorted l = tuple_sorted l'.
Proof.
  intros Hp. apply (StronglySorted_unique String.le).
  - apply tuple_sorted_StronglySorted.
  - apply tuple_sorted_StronglySorted.
  - by rewrite !tuple_sorted_Permutation.
Qed.

(** ** [decide_global_ordering_comms] *)

Lemma add_mutation_dep_other (n : SchedulerNode) (dep : Dep)
    (deps : gmap string (list Dep)) (k : string) :
  get_name n ≠ k → add_mutation_dep n dep deps !! k = deps !! k.
Proof.
  intros Hne. unfold add_mutation_dep. case_bool_decide; [done|].
  by rewrite lookup_insert_ne.
Qed.

Lemma add_mutation_dep_fresh (n : SchedulerNode) (dep : Dep)
    (deps : gmap string (list Dep)) :
  deps !! get_name n = None →
  add_mutation_dep n dep deps !! get_name n = Some [dep].
Proof.
  intros Hnone. unfold add_mutation_dep. rewrite Hnone.
  case_bool_decide as Hin; [by apply elem_of_nil in Hin|].
  by rewrite lookup_insert_eq.
Qed.

Section ordering.
Context (comm_nodes : list SchedulerNode).

Lemma ordering_untouched (deps : gmap string (list Dep)) (m : nat)
    (k : string) :
  (∀ i c, S i ≤ m → comm_nodes !! S i = Some c → get_name c ≠ k) →
  foldl (ordering_step comm_nodes) deps (seq 1 m) !! k = deps !! k.
Proof.
  induction m as [|m IH]; intros Hk; [done|].
  rewrite seq_S, foldl_snoc. simpl. unfold ordering_step at 1.
  destruct (comm_nodes !! S m) as [later|] eqn:Hl; [|apply IH; eauto].
  destruct (comm_nodes !! (S m - 1)) as [earlier|]; [|apply IH; eauto].
  rewrite add_mutation_dep_other by eauto. apply IH. eauto.
Qed.

Lemma ordering_fresh (m : nat) (i : nat) (earlier later : SchedulerNode) :
  NoDup (get_name <$> comm_nodes) →
  S i ≤ m →
  comm_nodes !! i = Some earlier → comm_nodes !! S i = Some later →
  foldl (ordering_step comm_nodes) ∅ (seq 1 m) !! get_name later
  = Some [WeakDep (get_name earlier)].
Proof.
  intros Hnd. induction m as [|m IH]; intros Hle Hi Hsi; [lia|].
  rewrite seq_S, foldl_snoc. simpl. unfold ordering_step at 1.
  destruct (decide (i = m)) as [->|Hne].
  - rewrite Hsi. simpl. rewrite Nat.sub_0_r, Hi.
    apply add_mutation_dep_fresh.
    rewrite ordering_untouched; [done|].
    intros j c Hj Hc Heq.
    assert (S j = S m); [|lia].
    eapply (NoDup_lookup (get_name <$> comm_nodes)); [done| |].
    + by rewrite list_lookup_fmap, Hc.
    + by rewrite list_lookup_fmap, Hsi, Heq.
  - destruct (comm_nodes !! S m) as [l'|] eqn:Hl; [|apply IH; [lia|done..]].
    destruct (comm_nodes !! (S m - 1)) as [e'|]; [|apply IH; [lia|done..]].
    rewrite add_mutation_dep_other; [apply IH; [lia|done..]|].
    intros Heq.
    assert (S m = S i); [|lia].
    eapply (NoDup_lookup (get_name <$> comm_nodes)); [done| |].
    + by rewrite list_lookup_fmap, Hl.
    + by rewrite list_lookup_fmap, Hsi, Heq.
Qed.
End ordering.

Lemma decide_global_ordering_comms_fold (nodes : list SchedulerNode)
    (deps : gmap string (list Dep)) :
  decide_global_ordering_comms nodes deps
  = foldl (ordering_step (filter (λ n, ir_node n = CommStart) nodes)) deps
      (seq 1 (length (filter (λ n, ir_node n = CommStart) nodes) - 1)).
Proof. done. Qed.

(** ** The cost model with one comm *)

Lemma schedule_comms_one_comm (fuel : nat) (g : Graph)
    (cost cost' : SchedulerNode → Q) (nodes comms : list Node) :
  (∀ c1 c2, c1 ∈ comms → c2 ∈ comms → c1 = c2) →
  schedule_comms fuel g cost nodes comms
  = schedule_comms fuel g cost' nodes comms.
Proof.
  intros Hone. unfold schedule_comms.
  destruct (dict_of (get_ancestors fuel g) comms ∅) as [anc| |] eqn:Hanc;
    [|done..].
  assert (size anc - 1 = 0) as Hsize.
  { apply dict_of_dom in Hanc. rewrite <- size_dom, Hanc.
    rewrite dom_empty_L, (left_id_L ∅ (∪)).
    destruct comms as [|c comms]; [done|].
    assert ((list_to_set (c :: comms) : gset Node) = {[c]}) as ->.
    { apply set_eq. intros x.
      rewrite elem_of_list_to_set, elem_of_singleton. split.
      - intros Hx. apply Hone; [done|by left].
      - intros ->. by left. }
    by rewrite size_singleton. }
  simpl. rewrite Hsize. done.
Qed.

Lemma smart_reordering_one_comm (fuel : nat) (g : Graph)
    (cost cost' : SchedulerNode → Q) (nodes : list Node) :
  (∀ c1 c2, c1 ∈ nodes → c2 ∈ nodes →
            is_kind g CommStart c1 = true → is_kind g CommStart c2 = true →
            c1 = c2) →
  smart_reordering fuel g cost nodes = smart_reordering fuel g cost' nodes.
Proof.
  intros Hone. rewrite !smart_reordering_unfold. cbv zeta.
  case_bool_decide; [done|]. unfold schedule.
  rewrite (schedule_comms_one_comm fuel g cost cost'); [done|].
  intros c1 c2 [Hk1 [_ H1]%list_elem_of_filter]%list_elem_of_filter
    [Hk2 [_ H2]%list_elem_of_filter]%list_elem_of_filter.
  by apply Hone.
Qed.

(** ** When [add_all_nodes] returns *)

Lemma add_all_nodes_not_closed (fuel : nat) (g : Graph) (nodes l : list Node)
    (st : State) (x y : Node) :
  well_formed g → NoDup nodes → Inv g nodes st →
  (∀ z, z ∈ l → z ∈ unused_nodes st) →
  x ∈ l → y ∈ nodes → y ∈ args g x → y ∉ result st → y ∉ l →
  add_all_nodes fuel g l st = OutOfFuel.
Proof.
  intros Hwf Hn HI Hl Hx Hy Hyx Hyr Hyl.
  destruct (add_all_nodes fuel g l st) as [st'|e|] eqn:H; [| |done].
  - exfalso.
    assert (Inv g nodes st') as HI'.
    { eapply add_all_nodes_preserved; [|exact HI|exact H].
      intros. by eapply add_node_Inv. }
    apply add_all_nodes_exact in H as (ext & Hr & _ & Hin & _).
    assert (x ∈ result st') as (l1 & l2 & Hsplit)%list_elem_of_split.
    { rewrite Hr. apply elem_of_app. right. by apply Hin. }
    assert (y ∈ l1) as Hy1.
    { by apply (Inv_args_first g nodes st' Hwf HI' l1 x l2 y). }
    assert (y ∈ result st') as Hyr'.
    { rewrite Hsplit. apply elem_of_app. by left. }
    rewrite Hr in Hyr'. apply elem_of_app in Hyr' as [?|Hye]; [done|].
    by apply Hin in Hye.
  - exfalso. apply add_all_nodes_Raise in H as (_ & a & Ha & Hnot).
    by apply Hnot, Hl.
Qed.

Lemma add_all_nodes_closed_returns (fuel : nat) (g : Graph)
    (nodes l : list Node) (st : State) :
  well_formed g → NoDup nodes → topological g nodes → Inv g nodes st →
  (∀ z, z ∈ l → z ∈ unused_nodes st) →
  (∀ x y, x ∈ l → y ∈ nodes → y ∈ args g x → y ∉ result st → y ∈ l) →
  length nodes ≤ fuel →
  ∃ st', add_all_nodes fuel g l st = Ok st'.
Proof.
  intros Hwf Hn Ht HI Hl Hcl Hfuel.
  assert (terminates (add_all_nodes fuel g l st)) as Hterm.
  { eapply add_all_nodes_terminates; try done.
    intros x y Hx Hy Hxy Hyr. rewrite elem_of_list_to_set in Hx |- *.
    apply (Hcl x y); [done|done| |done]. by apply (users_args g Hwf). }
  destruct (add_all_nodes fuel g l st) as [st'|e|] eqn:H; [by eauto| |done].
  apply add_all_nodes_Raise in H as (_ & a & Ha & Hnot).
  by destruct (Hnot (Hl a Ha)).
Qed.

(** * Further properties: the assertion of [raise_comms] *)

Lemma filter_eq_app {A : Type} (P : A → Prop) `{!∀ x, Decision (P x)}
    (l k1 k2 : list A) :
  filter P l = k1 ++ k2 →
  ∃ l1 l2, l = l1 ++ l2 ∧ filter P l1 = k1 ∧ filter P l2 = k2.
Proof.
  revert k1. induction l as [|x l IH]; intros k1 Heq.
  - symmetry in Heq. apply app_eq_nil in Heq as [-> ->]. by exists [], [].
  - rewrite filter_cons in Heq. case_decide as HP.
    + destruct k1 as [|y k1]; simpl in Heq.
      * exists [], (x :: l). by rewrite filter_cons, decide_True.
      * injection Heq as -> Heq.
        destruct (IH _ Heq) as (l1 & l2 & -> & <- & <-).
        exists (y :: l1), l2. by rewrite filter_cons, decide_True.
    + destruct (IH _ Heq) as (l1 & l2 & -> & <- & <-).
      exists (x :: l1), l2. by rewrite filter_cons, decide_False.
Qed.

(** The queue [raise_comms] is left with holds at least the comms of a
    prefix none of whose comms takes an earlier node of the prefix. *)
Lemma raised_queue_lower (g : Graph) (r q1 q2 : list Node) :
  (∀ r1 n r2 c, r = r1 ++ n :: r2 → is_kind g CommStart n = false →
                c ∈ q2 ++ filter (is_comm g) r1 → n ∉ args g c) →
  ∃ q1', (raised g r (q1 ++ q2)).2 = q1' ++ q2 ++ filter (is_comm g) r.
Proof.
  revert q1 q2. induction r as [|n r IH]; intros q1 q2 H.
  - exists q1. simpl. by rewrite app_nil_r.
  - cbn [raised]. destruct (is_kind g CommStart n) eqn:Hk.
    + rewrite filter_cons_True by done. rewrite <- app_assoc.
      destruct (IH q1 (q2 ++ [n])) as [q1' Hq].
      { intros r1 m r2 c -> Hm Hc.
        apply (H (n :: r1) m r2 c); [done|done|].
        rewrite filter_cons_True by done.
        by rewrite <- app_assoc in Hc. }
      exists q1'. rewrite Hq. by rewrite <- app_assoc.
    + rewrite filter_cons_False by (unfold is_comm; rewrite Hk; done).
      cbn [fst snd].
      destruct (raise_comms_pop_suffix g n q1 q2) as [q1'' Hp].
      { apply any_comm_uses_false. intros c Hc.
        apply (H [] n r c); [done|done|]. by rewrite app_nil_r. }
      rewrite Hp. apply IH. intros r1 m r2 c -> Hm Hc.
      apply (H (n :: r1) m r2 c); [done|done|].
      by rewrite filter_cons_False by (unfold is_comm; rewrite Hk; done).
Qed.

Lemma raised_singleton_queue (g : Graph) (x : Node) (q : list Node) :
  (raised g [x] q).2 =
  if is_kind g CommStart x then q ++ [x]
  else (raise_comms_pop g x q []).2.
Proof. cbn [raised]. by destruct (is_kind g CommStart x). Qed.

Lemma unanchored_prefix_app (g : Graph) (a b : list Node) :
  unanchored_prefix g (a ++ b) → unanchored_prefix g a.
Proof.
  intros H p1 c p2 n -> Hc Hn Hk.
  apply (H p1 c (p2 ++ b) n); [by rewrite <- app_assoc|done..].
Qed.

(** The queue is exactly the comms of such a prefix, the latest first. *)
Lemma raised_queue_prefix (g : Graph) (l : list Node) :
  ∃ pre rest,
    l = pre ++ rest ∧ unanchored_prefix g pre ∧
    (raised g (reverse l) []).2 = reverse (filter (is_comm g) pre).
Proof.
  induction l as [|x l (pre & rest & -> & Hun & HQ)].
  - exists [], []. split; [done|]. split; [|done].
    intros p1 c p2 n Heq. by destruct p1.
  - rewrite reverse_cons, raised_app_queue, HQ, raised_singleton_queue.
    destruct (is_kind g CommStart x) eqn:Hk.
    + exists (x :: pre), rest. split; [done|]. split.
      * intros p1 c p2 n Heq Hc Hn Hkn.
        destruct p1 as [|y p1]; [by apply elem_of_nil in Hn|].
        injection Heq as <- Heq.
        apply elem_of_cons in Hn as [->|Hn]; [congruence|].
        by apply (Hun p1 c p2 n).
      * by rewrite filter_cons_True, reverse_cons by done.
    + destruct (raise_comms_pop_split g x (reverse (filter (is_comm g) pre)))
        as (Hsplit & Hnone & _).
      set (p := raise_comms_pop g x (reverse (filter (is_comm g) pre)) [])
        in *.
      apply (f_equal reverse) in Hsplit.
      rewrite reverse_involutive, reverse_app in Hsplit.
      apply filter_eq_app in Hsplit as (a & b & -> & Ha & Hb).
      exists (x :: a), (b ++ rest). split; [by rewrite <- app_assoc|].
      split.
      * intros p1 c p2 n Heq Hc Hn Hkn.
        destruct p1 as [|y p1]; [by apply elem_of_nil in Hn|].
        injection Heq as <- Heq.
        apply elem_of_cons in Hn as [->|Hn].
        -- rewrite any_comm_uses_false in Hnone. apply Hnone.
           rewrite <- elem_of_reverse, <- Ha. apply list_elem_of_filter.
           split; [done|]. rewrite Heq. set_solver.
        -- apply unanchored_prefix_app in Hun. by apply (Hun p1 c p2 n).
      * rewrite filter_cons_False by (unfold is_comm; rewrite Hk; done).
        by rewrite Ha, reverse_involutive.
Qed.

Lemma raise_comms_unanchored_prefix_fails (g : Graph) (pre rest : list Node) :
  Forall (λ n, has_fusion_meta g n = true) (pre ++ rest) →
  unanchored_prefix g pre →
  2 ≤ length (filter (is_comm g) pre) →
  raise_comms g (pre ++ rest) = Raise AssertionError.
Proof.
  intros Hm Hun Hlen. rewrite raise_comms_cases by done.
  rewrite bool_decide_eq_false_2; [done|].
  rewrite reverse_app, raised_app_queue.
  destruct (raised_queue_lower g (reverse pre)
              (raised g (reverse rest) []).2 []) as [q1' Hq].
  { intros r1 n r2 c Heq Hk Hc. rewrite app_nil_l in Hc.
    apply list_elem_of_filter in Hc as [Hc Hc'].
    apply list_elem_of_split in Hc' as (s1 & s2 & ->).
    apply (f_equal reverse) in Heq. rewrite reverse_involutive in Heq.
    rewrite reverse_app, reverse_cons, reverse_app, reverse_cons in Heq.
    apply (Hun (reverse r2 ++ [n] ++ reverse s2) c (reverse s1) n);
      [|done| |done].
    - rewrite Heq, <- !app_assoc. done.
    - set_solver. }
  rewrite app_nil_r in Hq. rewrite Hq, app_nil_l, length_app.
  rewrite filter_reverse, length_reverse. lia.
Qed.

Lemma raise_comms_AssertionError (g : Graph) (l : list Node) :
  raise_comms g l = Raise AssertionError ↔
  Forall (λ n, has_fusion_meta g n = true) l ∧
  ∃ pre rest,
    l = pre ++ rest ∧ unanchored_prefix g pre ∧
    2 ≤ length (filter (is_comm g) pre).
Proof.
  split.
  - intros H.
    destruct (decide (Forall (λ n, has_fusion_meta g n = true) l))
      as [Hm|Hm]; [|by rewrite raise_comms_KeyError in H].
    split; [done|]. rewrite raise_comms_cases in H by done.
    case_bool_decide as Hlen; [done|].
    destruct (raised_queue_prefix g l) as (pre & rest & -> & Hun & HQ).
    exists pre, rest. split; [done|]. split; [done|].
    rewrite HQ, length_reverse in Hlen. lia.
  - intros (Hm & pre & rest & -> & Hun & Hlen).
    by apply raise_comms_unanchored_prefix_fails.
Qed.

(** When the first comm takes an earlier node that is not a comm, the
    queue ends empty. *)
Lemma raise_comms_first_comm_anchored (g : Graph) (l1 l2 : list Node)
    (c n : Node) :
  Forall (λ n, has_fusion_meta g n = true) (l1 ++ c :: l2) →
  Forall (λ x, is_kind g CommStart x = false) l1 →
  is_kind g CommStart c = true →
  n ∈ l1 → n ∈ args g c →
  ∃ out, raise_comms g (l1 ++ c :: l2) = Ok out.
Proof.
  intros Hm Hl1 Hc Hn Hnc.
  destruct (raise_comms g (l1 ++ c :: l2)) as [out|e|] eqn:H.
  - by exists out.
  - exfalso.
    assert (e = AssertionError) as -> by (by eapply roa_raise_comms).
    apply raise_comms_AssertionError
      in H as (_ & pre & rest & Heq & Hun & Hlen).
    assert (∃ c', c' ∈ filter (is_comm g) pre) as [c' Hc'].
    { destruct (filter (is_comm g) pre) as [|c' ?]; [simpl in Hlen; lia|].
      exists c'. by left. }
    apply list_elem_of_filter in Hc' as [Hkc' Hin].
    apply list_elem_of_split in Hin as (a & b & ->).
    rewrite <- app_assoc in Heq. simpl in Heq.
    rewrite Forall_forall in Hl1.
    apply app_cons_eq_app_cons in Heq
      as [(k & Hl1eq & _)|[(Hceq & Hl1eq & _)|(k & Haeq & _)]].
    + assert (is_kind g CommStart c' = false) as Hf.
      { apply Hl1. rewrite Hl1eq. apply elem_of_app. right. by left. }
      unfold is_comm in Hkc'. congruence.
    + subst c' a.
      apply (Hun l1 c b n); [done|done|done|by apply Hl1|done].
    + subst a. apply (Hun l1 c (k ++ c' :: b) n);
        [by rewrite <- app_assoc|done|done|by apply Hl1|done].
  - by destruct (raise_comms_terminates g (l1 ++ c :: l2)).
Qed.

(** * Further properties: the schedulers return *)

Lemma returns_bind {A B : Type} (m : outcome A) (k : A → outcome B) :
  returns m → (∀ a, m = Ok a → returns (k a)) → returns (m ≫= k).
Proof. intros [a ->] Hk. by apply Hk. Qed.

Lemma returns_Ok {A : Type} (a : A) : returns (Ok a).
Proof. by exists a. Qed.

Lemma mapM_returns {A B : Type} (f : A → outcome B) (l : list A) :
  (∀ x, x ∈ l → returns (f x)) → returns (mapM f l).
Proof.
  induction l as [|x l IH]; intros Hf; [apply returns_Ok|]. cbn [mapM].
  apply returns_bind; [apply Hf; by left|]. intros y _.
  apply returns_bind; [apply IH; intros z Hz; apply Hf; by right|].
  intros ys _. apply returns_Ok.
Qed.

Lemma get_runtime_fx_returns (g : Graph) (cost : SchedulerNode → Q)
    (n : Node) :
  has_fusion_meta g n = true → returns (get_runtime_fx g cost n).
Proof.
  intros [s Hs]%snode_has_meta. exists (cost s).
  unfold get_runtime_fx. by rewrite Hs.
Qed.

Lemma reaches_r (next : Node → list Node) (x y z : Node) :
  reaches next x y → z ∈ next y → reaches next x z.
Proof. intros H1 H2. by eapply tc_r. Qed.

Lemma reaches_trans (next : Node → list Node) (x y z : Node) :
  reaches next x y → reaches next y z → reaches next x z.
Proof. intros H1 H2. by eapply tc_transitive. Qed.

Lemma earliest_from_returns (cs : Comms) (node : Node) (idx : nat)
    (comms : list Node) :
  (∀ c, c ∈ comms → is_Some (comm_ancestors cs !! c)) →
  returns (earliest_from cs node idx comms).
Proof.
  revert idx. induction comms as [|c comms IH]; intros idx Hc; simpl;
    [apply returns_Ok|].
  destruct (Hc c) as [A HA]; [by left|].
  unfold getitem. rewrite HA. simpl.
  destruct (bool_decide (node ∈ A)); [apply returns_Ok|].
  apply IH. intros c' Hc'. apply Hc. by right.
Qed.

Section sane.
Context (fuel : nat) (g : Graph) (cost : SchedulerNode → Q)
        (nodes : list Node) (cs : Comms).
Context (Hwf : well_formed g) (Hn : NoDup nodes)
        (Ht : topological g nodes)
        (Hm : Forall (λ n, has_fusion_meta g n = true) nodes)
        (Hargs : ∀ x y, x ∈ nodes → y ∈ args g x → y ∈ nodes)
        (Hfuel : length nodes ≤ fuel)
        (Hcn : comm_nodes cs = filter (is_comm g) nodes)
        (Hanc : ∀ c A, comm_ancestors cs !! c = Some A →
                       ∀ x, x ∈ A ↔ reaches (args g) c x)
        (Hdesc : ∀ c D, comm_descendants cs !! c = Some D →
                        ∀ x, x ∈ D ↔ reaches (users g) c x)
        (Hix : comms_indexed cs).

Lemma sane_add_node_Inv (node : Node) (st st' : State) :
  Inv g nodes st → add_node g node st = Ok st' → Inv g nodes st'.
Proof. by apply add_node_Inv. Qed.

Lemma reaches_args_in_nodes (x y : Node) :
  x ∈ nodes → reaches (args g) x y → y ∈ nodes.
Proof.
  intros Hx H. induction H as [x y H|x y z H _ IH]; [by eapply Hargs|].
  apply IH. by eapply Hargs.
Qed.

Lemma ancestors_before (c a : Node) :
  c ∈ nodes → reaches (args g) c a → before nodes a c.
Proof.
  intros Hc H.
  pose proof (proj1 (topological_before g nodes Hn) Ht) as Hb.
  induction H as [c a H|c b a H Hba IH].
  - apply Hb; [by eapply Hargs|done|done].
  - assert (b ∈ nodes) as Hbn by (by eapply Hargs).
    apply (before_trans nodes a b c); [done|by apply IH|by apply Hb].
Qed.

Lemma comm_lookup_nodes (j : nat) (c : Node) :
  comm_nodes cs !! j = Some c → c ∈ nodes ∧ is_comm g c.
Proof.
  rewrite Hcn. intros H%list_elem_of_lookup_2.
  apply list_elem_of_filter in H. tauto.
Qed.

Lemma comm_nodes_NoDup : NoDup (comm_nodes cs).
Proof. rewrite Hcn. by apply NoDup_filter. Qed.

Lemma later_comm_not_ancestor (k j : nat) (ck cj : Node) :
  comm_nodes cs !! k = Some ck → comm_nodes cs !! j = Some cj → k ≤ j →
  ¬ reaches (args g) ck cj.
Proof.
  intros Hk Hj Hle Hr.
  destruct (comm_lookup_nodes _ _ Hk) as [Hck _].
  pose proof (ancestors_before _ _ Hck Hr) as Hb.
  destruct (decide (k = j)) as [->|Hne].
  - assert (ck = cj) as -> by congruence.
    by apply (before_NoDup_ne nodes cj cj).
  - assert (before (comm_nodes cs) ck cj) as Hbc.
    { apply before_lookup. exists k, j. split; [done|]. split; [done|lia]. }
    rewrite Hcn in Hbc. apply filter_before in Hbc.
    pose proof (before_trans _ _ _ _ Hn Hb Hbc) as Hcc.
    by apply (before_NoDup_ne nodes cj cj).
Qed.

Lemma Inv_unused_iff (st : State) (x : Node) :
  Inv g nodes st → x ∈ unused_nodes st ↔ x ∈ nodes ∧ x ∉ result st.
Proof. intros HI. apply (inv_unused _ _ _ HI). Qed.

(** ** The first comm and its ancestors *)

Lemma first_batch_returns (first : Node) (A : gset Node) :
  comm_nodes cs !! 0 = Some first →
  comm_ancestors cs !! first = Some A →
  ∃ st,
    add_all_nodes fuel g (elements A ++ [first]) (initial_state g nodes)
      = Ok st ∧
    Inv g nodes st ∧ comms_pending (comm_nodes cs) 1 st.
Proof.
  intros Hfirst HA.
  destruct (comm_lookup_nodes _ _ Hfirst) as [Hf _].
  pose proof (initial_state_Inv g nodes Hwf Hm) as HI0.
  assert (∀ z, z ∈ elements A ++ [first] → z = first ∨ reaches (args g) first z)
    as Hl.
  { intros z [Hz%elem_of_elements| ->%list_elem_of_singleton]%elem_of_app;
      [right; by apply (Hanc _ _ HA)|by left]. }
  destruct (add_all_nodes_closed_returns fuel g nodes
              (elements A ++ [first]) (initial_state g nodes))
    as [st Hst]; try done.
  - intros z Hz. apply (Inv_unused_iff _ _ HI0). split; [|by intros ?%elem_of_nil].
    destruct (Hl z Hz) as [->|Hr]; [done|by eapply reaches_args_in_nodes].
  - intros x y Hx Hy Hyx _. apply elem_of_app. left.
    apply elem_of_elements, (Hanc _ _ HA).
    destruct (Hl x Hx) as [->|Hr]; [by apply reaches_once|by eapply reaches_r].
  - exists st. split; [done|]. split.
    + eapply add_all_nodes_preserved; [apply sane_add_node_Inv|exact HI0|done].
    + apply add_all_nodes_exact in Hst as (ext & Hr & _ & Hin & _).
      simpl in Hr. intros j c Hj Hc Hres. rewrite Hr in Hres.
      apply Hin, Hl in Hres as [->|Hres].
      * assert (j = 0); [|lia].
        by eapply (NoDup_lookup (comm_nodes cs)); [apply comm_nodes_NoDup|..].
      * apply (later_comm_not_ancestor 0 j first c); [done|done|lia|done].
Qed.

(** ** One round *)

Lemma priority1_step_returns (idx : nat) (st : State) (rolled : Q) :
  1 ≤ idx < length (comm_nodes cs) →
  Inv g nodes st → comms_pending (comm_nodes cs) idx st →
  ∃ st1 tc cc,
    priority1_step fuel g cost cs idx st rolled = Ok (st1, tc, cc) ∧
    Inv g nodes st1 ∧ comms_pending (comm_nodes cs) idx st1.
Proof.
  intros Hidx HI Hpend. unfold priority1_step.
  destruct (lookup_lt_is_Some_2 (comm_nodes cs) (idx - 1)) as [prev Hprev];
    [lia|].
  destruct (lookup_lt_is_Some_2 (comm_nodes cs) idx) as [next Hnext]; [lia|].
  destruct (Hix prev) as [_ [D HD]]; [by eapply list_elem_of_lookup_2|].
  destruct (Hix next) as [[A HA] _]; [by eapply list_elem_of_lookup_2|].
  destruct (comm_lookup_nodes _ _ Hprev) as [Hprevn Hprevc].
  destruct (comm_lookup_nodes _ _ Hnext) as [Hnextn _].
  unfold comm_at, getitem. rewrite Hprev, Hnext. simpl. rewrite HA, HD. simpl.
  destruct (mapM_returns (get_runtime_fx g cost)
              (elements (unused_nodes st ∩ (A ∖ D)))) as [costs ->].
  { intros x Hx%elem_of_elements. apply get_runtime_fx_returns.
    eapply Forall_forall in Hm; [exact Hm|].
    apply (Inv_unused_iff _ _ HI). set_solver. }
  simpl.
  destruct (get_runtime_fx_returns g cost prev) as [cc ->];
    [by apply is_comm_has_meta|].
  simpl.
  destruct (add_all_nodes_closed_returns fuel g nodes
              (tuple_sorted (elements (unused_nodes st ∩ (A ∖ D)))) st)
    as [st1 Hst1]; try done.
  - intros z. rewrite elem_of_tuple_sorted, elem_of_elements. set_solver.
  - intros x y. rewrite !elem_of_tuple_sorted, !elem_of_elements,
      !elem_of_intersection, !elem_of_difference.
    intros (Hxu & HxA & HxD) Hy Hyx Hyr.
    split; [by apply (Inv_unused_iff _ _ HI)|]. split.
    + apply (Hanc _ _ HA). apply (Hanc _ _ HA) in HxA. by eapply reaches_r.
    + intros HyD. apply HxD. apply (Hdesc _ _ HD).
      apply (Hdesc _ _ HD) in HyD. eapply reaches_r; [exact HyD|].
      by apply (users_args g Hwf).
  - rewrite Hst1. simpl. eexists _, _, _. split; [done|]. split.
    + eapply add_all_nodes_preserved; [apply sane_add_node_Inv|exact HI|done].
    + apply add_all_nodes_exact in Hst1 as (ext & Hr & _ & Hin & _).
      intros j c Hj Hc Hres. rewrite Hr in Hres.
      apply elem_of_app in Hres as [Hres|Hres]; [by apply (Hpend j c)|].
      apply Hin in Hres.
      rewrite elem_of_tuple_sorted, elem_of_elements in Hres.
      apply elem_of_intersection in Hres as [_ [HcA _]%elem_of_difference].
      apply (Hanc _ _ HA) in HcA.
      by apply (later_comm_not_ancestor idx j next c).
Qed.

Lemma add_node_keeps_free (n x : Node) (st st' : State) :
  Inv g nodes st → add_node g n st = Ok st' →
  x ∈ free_nodes st → x ≠ n → x ∈ free_nodes st'.
Proof.
  intros HI H Hx Hne.
  pose proof (sane_add_node_Inv _ _ _ HI H) as HI'.
  apply add_node_advances_by in H as (Hr & _).
  apply (Inv_free_args g nodes st x Hwf HI) in Hx as (Hxn & Hxr & Hxa).
  apply (Inv_free_args g nodes st' x Hwf HI'). split; [done|]. split.
  - rewrite Hr. intros [?| ->%list_elem_of_singleton]%elem_of_app; done.
  - intros u Hu Hun. rewrite Hr. apply elem_of_app. left. by apply Hxa.
Qed.

Lemma priority2_loop_returns (comm_cost : Q) (l : list Node) (st : State)
    (tc : Q) :
  Inv g nodes st → NoDup l → (∀ x, x ∈ l → x ∈ free_nodes st) →
  returns (priority2_loop g cost comm_cost l st tc).
Proof.
  revert st tc. induction l as [|n l IH]; intros st tc HI Hnd Hl; simpl;
    [apply returns_Ok|].
  apply NoDup_cons in Hnd as [Hnl Hnd].
  destruct (Qle_bool comm_cost tc); [apply returns_Ok|].
  assert (n ∈ free_nodes st) as Hnf by (apply Hl; by left).
  pose proof Hnf as Hnf'.
  apply (inv_free _ _ _ HI) in Hnf' as (Hnn & Hnr & _).
  assert (has_fusion_meta g n = true) as Hmeta
    by (by eapply Forall_forall in Hm).
  rewrite (isinstance_has_meta _ _ _ Hmeta). simpl.
  assert (∀ st, Inv g nodes st → (∀ x, x ∈ l → x ∈ free_nodes st) →
            ∀ tc, returns (priority2_loop g cost comm_cost l st tc)) as IH'
    by (intros; by apply IH).
  destruct (is_kind g CommStart n).
  { apply IH'; [done|]. intros x Hx. apply Hl. by right. }
  destruct (get_runtime_fx_returns g cost n Hmeta) as [rc Hrc].
  rewrite Hrc. simpl.
  destruct (Qle_bool (comm_cost - tc) _).
  { apply IH'; [done|]. intros x Hx. apply Hl. by right. }
  destruct (add_node_total g n st) as [st1 H1]; [|done|].
  { by apply (Inv_unused_iff _ _ HI). }
  rewrite H1. simpl. apply IH'.
  - by eapply sane_add_node_Inv.
  - intros x Hx. eapply add_node_keeps_free; [done|done| |].
    + apply Hl. by right.
    + intros ->. done.
Qed.

Lemma priority2_step_returns (idx : nat) (st : State) (tc cc : Q) :
  1 ≤ idx < length (comm_nodes cs) →
  Inv g nodes st → comms_pending (comm_nodes cs) idx st →
  ∃ st2 tc2,
    priority2_step g cost cs idx st tc cc = Ok (st2, tc2) ∧
    Inv g nodes st2 ∧ comms_pending (comm_nodes cs) idx st2.
Proof.
  intros Hidx HI Hpend.
  assert (returns (priority2_step g cost cs idx st tc cc)) as [[st2 tc2] H].
  { unfold priority2_step.
    destruct (Qle_bool cc tc); [apply returns_Ok|].
    destruct (lookup_lt_is_Some_2 (comm_nodes cs) (idx - 1)) as [prev Hprev];
      [lia|].
    destruct (Hix prev) as [_ [D HD]]; [by eapply list_elem_of_lookup_2|].
    unfold comm_at, getitem. rewrite Hprev. simpl. rewrite HD. simpl.
    apply returns_bind.
    - unfold sorted_by_earliest.
      apply returns_bind; [|intros; apply returns_Ok].
      apply mapM_returns. intros x _.
      apply returns_bind; [|intros; apply returns_Ok].
      apply earliest_from_returns. intros c Hc. by apply Hix.
    - intros l Hl%sorted_by_earliest_Permutation.
      apply priority2_loop_returns; [done| |].
      + rewrite Hl. apply tuple_sorted_elements_NoDup.
      + intros x. rewrite Hl, elem_of_tuple_sorted, elem_of_elements.
        set_solver. }
  exists st2, tc2. split; [done|]. split.
  - eapply priority2_step_preserved; [apply sane_add_node_Inv|exact HI|done].
  - apply priority2_step_spec in H as (ext & (Hr & _) & _ & Hext).
    intros j c Hj Hc Hres. rewrite Hr in Hres.
    apply elem_of_app in Hres as [Hres|Hres]; [by apply (Hpend j c)|].
    destruct (Hext _ Hres) as [Hk _].
    destruct (comm_lookup_nodes _ _ Hc) as [_ Hcomm].
    unfold is_comm in Hcomm. congruence.
Qed.

Lemma priority3_step_returns (idx : nat) (st : State) :
  1 ≤ idx < length (comm_nodes cs) →
  Inv g nodes st → comms_pending (comm_nodes cs) idx st →
  ∃ st3,
    priority3_step fuel g cs idx st = Ok st3 ∧
    Inv g nodes st3 ∧ comms_pending (comm_nodes cs) (S idx) st3.
Proof.
  intros Hidx HI Hpend. unfold priority3_step.
  destruct (lookup_lt_is_Some_2 (comm_nodes cs) idx) as [next Hnext]; [lia|].
  destruct (Hix next) as [[A HA] _]; [by eapply list_elem_of_lookup_2|].
  destruct (comm_lookup_nodes _ _ Hnext) as [Hnextn _].
  unfold comm_at, getitem. rewrite Hnext. simpl. rewrite HA. simpl.
  assert (∀ z, z ∈ elements (unused_nodes st ∩ A) ++ [next] →
               z ∈ unused_nodes st ∧ (z = next ∨ reaches (args g) next z))
    as Hl.
  { intros z [Hz%elem_of_elements| ->%list_elem_of_singleton]%elem_of_app.
    - apply elem_of_intersection in Hz as [Hzu HzA].
      split; [done|]. right. by apply (Hanc _ _ HA).
    - split; [|by left]. apply (Inv_unused_iff _ _ HI). split; [done|].
      by apply (Hpend idx next). }
  destruct (add_all_nodes_closed_returns fuel g nodes
              (elements (unused_nodes st ∩ A) ++ [next]) st)
    as [st3 Hst3]; try done.
  - intros z Hz. by apply Hl.
  - intros x y Hx Hy Hyx Hyr. apply elem_of_app. left.
    apply elem_of_elements, elem_of_intersection.
    split; [by apply (Inv_unused_iff _ _ HI)|].
    apply (Hanc _ _ HA).
    destruct (Hl x Hx) as [_ [->|Hr]];
      [by apply reaches_once|by eapply reaches_r].
  - exists st3. split; [done|]. split.
    + eapply add_all_nodes_preserved; [apply sane_add_node_Inv|exact HI|done].
    + apply add_all_nodes_exact in Hst3 as (ext & Hr & _ & Hin & _).
      intros j c Hj Hc Hres. rewrite Hr in Hres.
      apply elem_of_app in Hres as [Hres|Hres];
        [apply (Hpend j c); [lia|done|done]|].
      apply Hin, Hl in Hres as [_ [->|Hres]].
      * assert (j = idx); [|lia].
        by eapply (NoDup_lookup (comm_nodes cs)); [apply comm_nodes_NoDup|..].
      * apply (later_comm_not_ancestor idx j next c); [done|done|lia|done].
Qed.

Lemma is_comm_blocking_returns (idx : nat) :
  1 ≤ idx < length (comm_nodes cs) → returns (is_comm_blocking cs idx).
Proof.
  intros Hidx. unfold is_comm_blocking.
  destruct (lookup_lt_is_Some_2 (comm_nodes cs) (idx - 1)) as [prev Hprev];
    [lia|].
  destruct (lookup_lt_is_Some_2 (comm_nodes cs) idx) as [next Hnext]; [lia|].
  destruct (Hix prev) as [_ [D HD]]; [by eapply list_elem_of_lookup_2|].
  destruct (Hix next) as [[A HA] _]; [by eapply list_elem_of_lookup_2|].
  unfold comm_at, getitem. rewrite Hprev, Hnext. simpl. rewrite HD. simpl.
  rewrite HA. simpl. apply returns_Ok.
Qed.

Lemma round_returns (idx : nat) (st : State) (rolled : Q) :
  1 ≤ idx < length (comm_nodes cs) →
  Inv g nodes st → comms_pending (comm_nodes cs) idx st →
  ∃ st' rolled',
    round fuel g cost cs idx st rolled = Ok (st', rolled') ∧
    Inv g nodes st' ∧ comms_pending (comm_nodes cs) (S idx) st'.
Proof.
  intros Hidx HI Hpend. unfold round.
  destruct (is_comm_blocking_returns idx Hidx) as [b ->]. simpl.
  destruct (priority1_step_returns idx st rolled Hidx HI Hpend)
    as (st1 & tc & cc & -> & HI1 & Hpend1). simpl.
  destruct (priority2_step_returns idx st1 tc cc Hidx HI1 Hpend1)
    as (st2 & tc2 & -> & HI2 & Hpend2). simpl.
  destruct (priority3_step_returns idx st2 Hidx HI2 Hpend2)
    as (st3 & -> & HI3 & Hpend3). simpl.
  eauto.
Qed.

Lemma rounds_returns (k m : nat) (st : State) (rolled : Q) :
  1 ≤ k → k + m ≤ length (comm_nodes cs) →
  Inv g nodes st → comms_pending (comm_nodes cs) k st →
  ∃ st' rolled',
    rounds fuel g cost cs (seq k m) st rolled = Ok (st', rolled') ∧
    Inv g nodes st'.
Proof.
  revert k st rolled. induction m as [|m IH]; intros k st rolled Hk Hkm HI Hp.
  - simpl. eauto.
  - simpl.
    destruct (round_returns k st rolled) as (st1 & r1 & -> & HI1 & Hp1);
      [lia|done|done|]. simpl.
    apply IH; [lia|lia|done|done].
Qed.
End sane.

(** ** The schedule *)

Lemma schedule_returns (fuel : nat) (g : Graph) (cost : SchedulerNode → Q)
    (nodes : list Node) :
  well_formed g → NoDup nodes → topological g nodes →
  Forall (λ n, has_fusion_meta g n = true) nodes →
  (∀ x y, x ∈ nodes → y ∈ args g x → y ∈ nodes) →
  (∀ x y, x ∈ nodes → y ∈ users g x → y ∈ nodes) →
  length nodes < fuel →
  filter (is_comm g) nodes ≠ [] →
  returns (schedule fuel g cost nodes (filter (is_comm g) nodes)).
Proof.
  intros Hwf Hn Ht Hm Hargs Husers Hfuel Hne.
  set (comms := filter (is_comm g) nodes) in *.
  set (U := list_to_set nodes : gset Node).
  assert (size U < fuel) as HsU by (unfold U; by rewrite size_list_to_set).
  assert (∀ c, c ∈ comms → c ∈ U) as HcU.
  { intros c [_ Hc]%list_elem_of_filter. by apply elem_of_list_to_set. }
  assert (NoDup comms) as Hnc by (by apply NoDup_filter).
  unfold schedule, schedule_comms.
  destruct (dict_of_total (get_ancestors fuel g) comms ∅) as [anc Hanc].
  { intros c Hc.
    destruct (traverse_total fuel (args g) c U) as (A & HA & _); auto.
    - intros x y Hx%elem_of_list_to_set Hy. apply elem_of_list_to_set. eauto.
    - by exists A. }
  destruct (dict_of_total (get_descendants fuel g) comms ∅) as [desc Hdesc].
  { intros c Hc.
    destruct (traverse_total fuel (users g) c U) as (D & HD & _); auto.
    - intros x y Hx%elem_of_list_to_set Hy. apply elem_of_list_to_set. eauto.
    - by exists D. }
  rewrite Hanc, Hdesc. simpl.
  set (cs := {| comm_nodes := comms; comm_ancestors := anc;
                comm_descendants := desc |}).
  assert (comms_indexed cs) as Hix.
  { intros c Hc. split; by eapply dict_of_is_Some. }
  assert (∀ c A, comm_ancestors cs !! c = Some A →
                 ∀ x, x ∈ A ↔ reaches (args g) c x) as Hanc'.
  { intros c A HA. destruct (dict_of_get _ _ _ _ _ Hanc HA) as [_ Hget].
    exact (traverse_reaches _ _ _ _ Hget). }
  assert (∀ c D, comm_descendants cs !! c = Some D →
                 ∀ x, x ∈ D ↔ reaches (users g) c x) as Hdesc'.
  { intros c D HD. destruct (dict_of_get _ _ _ _ _ Hdesc HD) as [_ Hget].
    exact (traverse_reaches _ _ _ _ Hget). }
  assert (length nodes ≤ fuel) as Hfuel' by lia.
  destruct comms as [|first comms'] eqn:Hcomms; [done|].
  destruct (Hix first) as [[A HA] _]; [by left|].
  pose proof HA as HA'. simpl in HA'.
  unfold comm_at, getitem. simpl. rewrite HA'. simpl.
  destruct (first_batch_returns fuel g nodes cs Hwf Hn Ht Hm Hargs Hfuel'
              (eq_sym Hcomms) Hanc' first A eq_refl HA)
    as (st1 & -> & HI1 & Hp1).
  simpl.
  destruct (rounds_returns fuel g cost nodes cs Hwf Hn Ht Hm Hargs Hfuel'
              (eq_sym Hcomms) Hanc' Hdesc' Hix 1 (size anc - 1) st1 0%Q)
    as (st2 & r2 & -> & HI2); [lia| |done|done|].
  { apply dict_of_size in Hanc; [|done]. rewrite Hanc. simpl. lia. }
  simpl.
  destruct (add_all_nodes_closed_returns fuel g nodes
              (elements (unused_nodes st2)) st2) as [st3 ->]; try done.
  - intros z Hz. by apply elem_of_elements in Hz.
  - intros x y Hx Hy Hyx Hyr. apply elem_of_elements.
    by apply (inv_unused _ _ _ HI2).
  - simpl. apply returns_Ok.
Qed.

(** ** The cleanup passes on a topological order *)

Lemma NoDup_split_unique {A : Type} (l1 l2 k1 k2 : list A) (c : A) :
  NoDup (l1 ++ c :: l2) → l1 ++ c :: l2 = k1 ++ c :: k2 → l1 = k1.
Proof.
  intros Hnd Heq.
  apply NoDup_app in Hnd as (_ & Hd & Hnd2).
  apply NoDup_cons in Hnd2 as [Hc2 _].
  apply app_cons_eq_app_cons in Heq as [(k & -> & _)|[(_ & -> & _)|(k & _ & ->)]].
  - exfalso. apply (Hd c); [apply elem_of_app; right; by left|by left].
  - done.
  - exfalso. apply Hc2. apply elem_of_app. right. by left.
Qed.

Lemma head_filter_preserved {A : Type} `{!EqDecision A} (P : A → Prop)
    `{!∀ x, Decision (P x)} (l l' : list A) (c : A) :
  NoDup l' → (∀ x, x ∈ l → x ∈ l') → (∀ x, x ∈ l' → x ∈ l) →
  (∀ a b, before (filter P l) a b → before l' a b) →
  head (filter P l) = Some c → head (filter P l') = Some c.
Proof.
  intros Hnd Hin Hin' Hord Hhead.
  destruct (filter P l) as [|c0 rest] eqn:Hf; [done|].
  injection Hhead as ->.
  assert (c ∈ filter P l) as Hc by (rewrite Hf; by left).
  apply list_elem_of_filter in Hc as [HPc Hcl].
  assert (c ∈ filter P l') as Hc'.
  { apply list_elem_of_filter. split; [done|by apply Hin]. }
  destruct (filter P l') as [|c' k] eqn:Hf'; [by apply elem_of_nil in Hc'|].
  simpl. f_equal. destruct (decide (c' = c)) as [|Hne]; [done|exfalso].
  apply elem_of_cons in Hc' as [->|Hck]; [done|].
  assert (c' ∈ filter P l') as Hc'' by (rewrite Hf'; by left).
  apply list_elem_of_filter in Hc'' as [HPc' Hc'l'].
  assert (c' ∈ filter P l) as Hc'f.
  { apply list_elem_of_filter. split; [done|by apply Hin']. }
  rewrite Hf in Hc'f. apply elem_of_cons in Hc'f as [->|Hc'r]; [done|].
  assert (before l' c c') as H1.
  { apply Hord. by apply before_cons_head. }
  assert (before l' c' c) as H2.
  { apply (filter_before P). rewrite Hf'. by apply before_cons_head. }
  pose proof (before_trans _ _ _ _ Hnd H1 H2) as H3.
  by apply (before_NoDup_ne l' c c).
Qed.

Lemma filter_nil_Forall {A : Type} (P : A → Prop) `{!∀ x, Decision (P x)}
    (l : list A) :
  filter P l = [] → Forall (λ x, ¬ P x) l.
Proof.
  intros Heq. apply Forall_forall. intros x Hx HP.
  assert (x ∈ filter P l) as Hin by (by apply list_elem_of_filter).
  rewrite Heq in Hin. by apply elem_of_nil in Hin.
Qed.

Lemma before_elem {A : Type} (l : list A) (a b : A) :
  before l a b → a ∈ l ∧ b ∈ l.
Proof. intros (l1 & l2 & l3 & ->). set_solver. Qed.

Lemma cleanup_returns (g : Graph) (l : list Node) (c0 n : Node) :
  well_formed g → NoDup l → topological g l → no_wait_on_wait g l →
  Forall (λ x, has_fusion_meta g x = true) l →
  head (filter (is_comm g) l) = Some c0 →
  n ∈ l → n ∈ args g c0 → is_kind g CommStart n = false →
  ∃ sunk out, sink_waits g l = Ok sunk ∧ raise_comms g sunk = Ok out.
Proof.
  intros Hwf Hn Ht Hww Hm Hhead Hnl Hnc Hk.
  assert (sink_waits g l = Ok (sunk g l ∅)) as Hs by (by apply sink_waits_Ok).
  destruct (sink_waits_topological g l _ Hwf Hn Hww Ht Hs)
    as (Hns & Hins & Hts).
  set (s := sunk g l ∅) in *.
  assert (head (filter (is_comm g) s) = Some c0) as Hhead'.
  { apply (head_filter_preserved _ l s); try done.
    - intros x. apply Hins.
    - intros x. apply Hins.
    - intros a b Hab.
      destruct (before_elem _ _ _ Hab)
        as [[Ha _]%list_elem_of_filter [Hb _]%list_elem_of_filter].
      apply filter_before in Hab.
      by apply (sink_waits_before g l s a b); [|apply is_comm_not_wait..|]. }
  destruct (filter (is_comm g) s) as [|c k] eqn:Hf; [done|].
  injection Hhead' as ->.
  pose proof Hf as Hf'. rewrite <- (app_nil_l (c0 :: k)) in Hf'.
  apply filter_eq_app_cons in Hf' as (l1 & l2 & Heq & Hl1 & _).
  assert (is_comm g c0) as Hc0.
  { assert (c0 ∈ filter (is_comm g) s) as Hin by (rewrite Hf; by left).
    by apply list_elem_of_filter in Hin as [? _]. }
  assert (c0 ∈ s) as Hc0s by (rewrite Heq; set_solver).
  assert (before s n c0) as (a & b & d & Hsplit).
  { apply (proj1 (topological_before g s Hns) Hts); [by apply Hins|done..]. }
  assert (l1 = a ++ n :: b) as Hl1eq.
  { apply (NoDup_split_unique l1 l2 (a ++ n :: b) d c0).
    - by rewrite <- Heq.
    - rewrite <- Heq, Hsplit, <- app_assoc. done. }
  exists s. rewrite Heq.
  destruct (raise_comms_first_comm_anchored g l1 l2 c0 n) as [out Hout].
  - rewrite <- Heq. by eapply sink_waits_has_meta.
  - apply filter_nil_Forall in Hl1. eapply Forall_impl; [exact Hl1|].
    intros x Hx. unfold is_comm in Hx. by destruct (is_kind g CommStart x).
  - done.
  - rewrite Hl1eq. set_solver.
  - done.
  - exists out. split; [by rewrite <- Heq|done].
Qed.

Lemma dumb_reordering_returns (g : Graph) (nodes : list Node) (c0 n : Node) :
  well_formed g → NoDup nodes → topological g nodes →
  no_wait_on_wait g nodes →
  Forall (λ x, has_fusion_meta g x = true) nodes →
  head (filter (is_comm g) nodes) = Some c0 →
  n ∈ nodes → n ∈ args g c0 → is_kind g CommStart n = false →
  returns (dumb_reordering g nodes).
Proof.
  intros Hwf Hn Ht Hww Hm Hhead Hnl Hnc Hk. unfold dumb_reordering. cbv zeta.
  rewrite (filter_all_true _ _ Hm).
  destruct (cleanup_returns g nodes c0 n) as (s & out & -> & Hout); try done.
  simpl. rewrite Hout. simpl.
  destruct (mapM_snode_has_meta g out) as [r ->]; [|apply returns_Ok].
  by eapply raise_comms_has_meta.
Qed.

Lemma smart_reordering_returns (fuel : nat) (g : Graph)
    (cost : SchedulerNode → Q) (nodes : list Node) (c0 n : Node) :
  well_formed g → NoDup nodes → topological g nodes →
  no_wait_on_wait g nodes →
  Forall (λ x, has_fusion_meta g x = true) nodes →
  (∀ x y, x ∈ nodes → y ∈ args g x → y ∈ nodes) →
  (∀ x y, x ∈ nodes → y ∈ users g x → y ∈ nodes) →
  length nodes < fuel →
  head (filter (is_comm g) nodes) = Some c0 →
  n ∈ args g c0 → is_kind g CommStart n = false →
  returns (smart_reordering fuel g cost nodes).
Proof.
  intros Hwf Hn Ht Hww Hm Hargs Husers Hfuel Hhead Hnc Hk.
  rewrite smart_reordering_unfold. cbv zeta.
  rewrite (filter_all_true _ _ Hm).
  assert (filter (is_comm g) nodes ≠ []) as Hne
    by (intros Heq; by rewrite Heq in Hhead).
  rewrite bool_decide_eq_false_2
    by (intros Hlen%length_zero_iff_nil; done).
  destruct (schedule_returns fuel g cost nodes) as [res Hres]; try done.
  rewrite Hres. simpl.
  pose proof (λ x y, schedule_comm_order fuel g cost nodes _ res x y
                       (NoDup_filter (is_comm g) _ Hn) Hres) as Hord.
  apply schedule_topological in Hres as (Hnr & Hinr & Htr); try done.
  assert (c0 ∈ nodes) as Hc0.
  { assert (c0 ∈ filter (is_comm g) nodes) as Hin.
    { destruct (filter (is_comm g) nodes); [done|].
      injection Hhead as ->. by left. }
    by apply list_elem_of_filter in Hin as [_ ?]. }
  destruct (cleanup_returns g res c0 n) as (s & out & -> & Hout); try done.
  - eapply no_wait_on_wait_subset; [|exact Hww]. intros x. apply Hinr.
  - apply Forall_forall. intros x Hx%Hinr.
    by eapply Forall_forall in Hm.
  - apply (head_filter_preserved _ nodes res);
      [done|intros x; apply Hinr|intros x; apply Hinr
      |intros a b; apply Hord|done].
  - apply Hinr. by eapply Hargs.
  - simpl. rewrite Hout. apply returns_Ok.
Qed.

Lemma closed_check_sound (next : Node → list Node) (l : list Node) :
  closed_check next l = true → ∀ x y, x ∈ l → y ∈ next x → y ∈ l.
Proof.
  unfold closed_check. rewrite forallb_forall. intros H x y Hx Hy.
  apply list_elem_of_In in Hx. specialize (H x Hx).
  rewrite forallb_forall in H. apply list_elem_of_In in Hy.
  eapply bool_decide_eq_true_1, H, Hy.
Qed.

(** * Further properties of the code *)

(** Case analysis on membership in a list that is written out. *)
Ltac elem_cases H :=
  repeat (apply elem_of_cons in H as [->|H]);
  try (by apply elem_of_nil in H).

Lemma closed_check_set (next : Node → list Node) (l : list Node) :
  closed_check next l = true →
  ∀ x y, x ∈ (list_to_set l : gset Node) → y ∈ next x →
         y ∈ (list_to_set l : gset Node).
Proof.
  intros H x y Hx%elem_of_list_to_set Hy. apply elem_of_list_to_set.
  by apply (closed_check_sound next l H x y).
Qed.

(** ** [tuple_sorted] *)

(** X1: [tuple_sorted] returns the elements it is given, each as often as
    it is given, in non-decreasing name order, and the result does not
    depend on the order in which they are given: iterating over a set
    through it is deterministic. *)
Theorem tuple_sorted_canonical (l l' : list Node) :
  tuple_sorted l ≡ₚ l ∧
  StronglySorted String.le (tuple_sorted l) ∧
  (l ≡ₚ l' → tuple_sorted l = tuple_sorted l').
Proof.
  split; [apply tuple_sorted_Permutation|].
  split; [apply tuple_sorted_StronglySorted|].
  apply tuple_sorted_order_independent.
Qed.

Lemma tuple_sorted_canonical_witness :
  tuple_sorted ["b"; "a"; "c"] = tuple_sorted ["a"; "b"; "c"] ∧
  tuple_sorted ["b"; "a"; "c"] = ["a"; "b"; "c"].
Proof.
  split; [|by vm_compute].
  apply (tuple_sorted_canonical ["b"; "a"; "c"] ["a"; "b"; "c"]).
  apply Permutation_swap.
Defined.

(** ** [get_ancestors] and [get_descendants] *)

(** X2: the set [get_ancestors] returns holds exactly the nodes reached
    from the node by one or more [args] steps, and the set
    [get_descendants] returns exactly those reached by one or more [users]
    steps; the node itself is in the set only when it lies on a cycle. *)
Theorem traversals_reach (fuel : nat) (g : Graph) (node : Node)
    (S : gset Node) :
  (get_ancestors fuel g node = Ok S →
   ∀ x, x ∈ S ↔ reaches (args g) node x) ∧
  (get_descendants fuel g node = Ok S →
   ∀ x, x ∈ S ↔ reaches (users g) node x).
Proof.
  unfold get_ancestors, get_descendants.
  split; intros H x; by apply (traverse_reaches _ _ _ _ H).
Qed.

Lemma traversals_reach_witness :
  get_ancestors 5 (scenario false false) "B"
    = Ok (list_to_set ["W1"; "C1"; "A"]) ∧
  reaches (args (scenario false false)) "B" "A" ∧
  ¬ reaches (args (scenario false false)) "B" "B".
Proof.
  assert (get_ancestors 5 (scenario false false) "B"
          = Ok (list_to_set ["W1"; "C1"; "A"])) as H by (by vm_compute).
  split; [done|].
  destruct (traversals_reach 5 (scenario false false) "B"
              (list_to_set ["W1"; "C1"; "A"])) as [Hanc _].
  split.
  - apply (Hanc H "A"). by apply (bool_decide_unpack _).
  - intros Hr. apply (Hanc H "B") in Hr. revert Hr.
    by apply (bool_decide_unpack _).
Defined.

(** X3: on a finite part of the graph that holds the node and is closed
    under [args] (under [users]), cyclic or not, [get_ancestors]
    ([get_descendants]) returns within as many rounds of its [while] loop
    as the part has nodes, plus one, and what it returns lies in that
    part. *)
Theorem traversals_terminate (fuel : nat) (g : Graph) (node : Node)
    (U : gset Node) :
  node ∈ U → size U < fuel →
  ((∀ x y, x ∈ U → y ∈ args g x → y ∈ U) →
   ∃ S, get_ancestors fuel g node = Ok S ∧ S ⊆ U) ∧
  ((∀ x y, x ∈ U → y ∈ users g x → y ∈ U) →
   ∃ S, get_descendants fuel g node = Ok S ∧ S ⊆ U).
Proof.
  intros Hnode Hfuel. unfold get_ancestors, get_descendants.
  split; intros Hclosed; by apply traverse_total.
Qed.

Lemma traversals_terminate_witness :
  ∃ S, get_ancestors 3 two_cycle "a" = Ok S ∧ S ⊆ list_to_set ["a"; "b"].
Proof.
  apply (traversals_terminate 3 two_cycle "a" (list_to_set ["a"; "b"])).
  - by apply (bool_decide_unpack _).
  - vm_compute. lia.
  - by apply closed_check_set.
Defined.

(** X4: when [users] is the inverse of [args], [b] is among the ancestors
    of [a] exactly when [a] is among the descendants of [b]. *)
Theorem ancestors_descendants_dual (fuel fuel' : nat) (g : Graph)
    (a b : Node) (A D : gset Node) :
  well_formed g →
  get_ancestors fuel g a = Ok A → get_descendants fuel' g b = Ok D →
  b ∈ A ↔ a ∈ D.
Proof.
  intros Hwf HA HD. unfold get_ancestors, get_descendants in *.
  rewrite (traverse_reaches _ _ _ _ HA b), (traverse_reaches _ _ _ _ HD a).
  split; apply reaches_flip; intros x y.
  - symmetry. apply (users_args g Hwf).
  - apply (users_args g Hwf).
Qed.

Lemma ancestors_descendants_dual_witness :
  "C1" ∈ value ∅ (get_ancestors 7 (scenario false false) "C2") ↔
  "C2" ∈ value ∅ (get_descendants 7 (scenario false false) "C1").
Proof.
  apply (ancestors_descendants_dual 7 7 (scenario false false) "C2" "C1").
  - apply scenario_well_formed.
  - by vm_compute.
  - by vm_compute.
Defined.

(** X5: with the two dicts as [smart_reordering] computes them,
    [is_comm_blocking] for the pair [(comm_nodes[idx - 1],
    comm_nodes[idx])] is true exactly when some node is both a descendant
    of the first comm and an ancestor of the second: an edge from the one
    comm to the other does not count. *)
Theorem is_comm_blocking_path (fuel : nat) (g : Graph) (comms : list Node)
    (anc desc : gmap Node (gset Node)) (idx : nat) (b : bool) :
  dict_of (get_ancestors fuel g) comms ∅ = Ok anc →
  dict_of (get_descendants fuel g) comms ∅ = Ok desc →
  is_comm_blocking {| comm_nodes := comms; comm_ancestors := anc;
                      comm_descendants := desc |} idx = Ok b →
  ∃ prev next,
    comms !! (idx - 1) = Some prev ∧ comms !! idx = Some next ∧
    (b = true ↔ ∃ x, reaches (users g) prev x ∧ reaches (args g) next x).
Proof.
  intros Hanc Hdesc H.
  destruct (is_comm_blocking_spec fuel g comms anc desc idx b Hanc Hdesc H)
    as (prev & next & Hprev & Hnext & Hb).
  exists prev, next. split; [done|]. split; [done|]. exact Hb.
Qed.

Lemma is_comm_blocking_path_witness :
  ∃ prev next,
    ["C1"; "C2"] !! (1 - 1) = Some prev ∧ ["C1"; "C2"] !! 1 = Some next ∧
    (false = true ↔
     ∃ x, reaches (users two_comms) prev x ∧ reaches (args two_comms) next x).
Proof.
  apply (is_comm_blocking_path 4 two_comms ["C1"; "C2"]
           (value ∅ (dict_of (get_ancestors 4 two_comms) ["C1"; "C2"] ∅))
           (value ∅ (dict_of (get_descendants 4 two_comms) ["C1"; "C2"] ∅))
           1 false).
  - by vm_compute.
  - by vm_compute.
  - by vm_compute.
Defined.

(** ** [sink_waits] and [raise_comms] *)

(** X6: [sink_waits] returns exactly when every node of the list carries
    ["fusion_meta"] and raises [KeyError] otherwise; [raise_comms] raises
    [KeyError] under the same condition, whatever its assertion would say,
    and with ["fusion_meta"] everywhere it returns or fails its
    assertion. *)
Theorem cleanup_passes_key_error (g : Graph) (l : list Node) :
  (Forall (λ n, has_fusion_meta g n = true) l ↔
   ∃ out, sink_waits g l = Ok out) ∧
  (¬ Forall (λ n, has_fusion_meta g n = true) l ↔
   sink_waits g l = Raise KeyError) ∧
  (¬ Forall (λ n, has_fusion_meta g n = true) l ↔
   raise_comms g l = Raise KeyError) ∧
  (Forall (λ n, has_fusion_meta g n = true) l →
   raise_comms g l = Raise AssertionError ∨ ∃ out, raise_comms g l = Ok out).
Proof.
  split; [|split; [|split]].
  - split.
    + intros Hm. exists (sunk g l ∅). by apply sink_waits_Ok.
    + intros [out H]. by apply sink_waits_Ok in H as [Hm _].
  - split; [apply sink_waits_KeyError|].
    intros H Hm. assert (sink_waits g l = Ok (sunk g l ∅)) as H'
      by (by apply sink_waits_Ok).
    congruence.
  - split; [apply raise_comms_KeyError|].
    intros H Hm. rewrite raise_comms_cases in H by done.
    by case_bool_decide.
  - intros Hm. rewrite raise_comms_cases by done.
    case_bool_decide; [right; eauto|by left].
Qed.

Lemma cleanup_passes_key_error_witness :
  sink_waits no_meta ["x"] = Raise KeyError ∧
  raise_comms no_meta ["x"] = Raise KeyError.
Proof.
  destruct (cleanup_passes_key_error no_meta ["x"]) as (_ & Hs & Hr & _).
  assert (¬ Forall (λ n, has_fusion_meta no_meta n = true) ["x"]) as Hno.
  { intros H. apply Forall_cons in H as [H _]. by vm_compute in H. }
  split; [by apply Hs|by apply Hr].
Defined.

Lemma comms_unanchored_prefix (g : Graph) (l : list Node) :
  comms_unanchored g l → unanchored_prefix g l.
Proof.
  intros H p1 c p2 n -> Hc Hn Hk. apply H; try done.
  - apply elem_of_app. right. by left.
  - apply elem_of_app. by left.
Qed.

(** X7: with ["fusion_meta"] everywhere, [raise_comms] fails its
    assertion exactly when the list starts with a stretch that holds two
    comms or more and in which no comm takes a node that is not a comm and
    stands before it: the comms that stand before the first comm with such
    an argument are the ones left in the queue. *)
Theorem raise_comms_assertion_exact (g : Graph) (l : list Node) :
  raise_comms g l = Raise AssertionError ↔
  Forall (λ n, has_fusion_meta g n = true) l ∧
  ∃ pre rest,
    l = pre ++ rest ∧ unanchored_prefix g pre ∧
    2 ≤ length (filter (λ n, is_kind g CommStart n = true) pre).
Proof.
  split.
  - intros H. apply raise_comms_AssertionError in H
      as (Hm & pre & rest & Heq & Hun & Hlen).
    split; [done|]. by exists pre, rest.
  - intros (Hm & pre & rest & Heq & Hun & Hlen).
    apply raise_comms_AssertionError. split; [done|]. by exists pre, rest.
Qed.

Lemma raise_comms_assertion_exact_witness :
  raise_comms two_comms ["C1"; "C2"; "A"] = Raise AssertionError.
Proof.
  apply (raise_comms_assertion_exact two_comms ["C1"; "C2"; "A"]).
  split.
  - apply Forall_forall. intros x Hx. elem_cases Hx; by vm_compute.
  - exists ["C1"; "C2"], ["A"]. split; [done|]. split.
    + by apply comms_unanchored_prefix, comms_unanchored_check_sound.
    + vm_compute. lia.
Defined.

(** X8: when no comm of the list takes a node of the list that is not a
    comm and the list holds at most one comm, [raise_comms] moves that
    comm to the front and keeps the other nodes in their order. *)
Theorem raise_comms_lone_comm (g : Graph) (l : list Node) :
  Forall (λ n, has_fusion_meta g n = true) l →
  comms_unanchored g l →
  length (filter (λ n, is_kind g CommStart n = true) l) ≤ 1 →
  raise_comms g l =
  Ok (filter (λ n, is_kind g CommStart n = true) l ++
      filter (λ n, is_kind g CommStart n = false) l).
Proof.
  intros Hm Hun Hlen. by apply raise_comms_unanchored_front.
Qed.

Lemma raise_comms_lone_comm_witness :
  raise_comms lone_comm ["x"; "c"; "y"] = Ok ["c"; "x"; "y"].
Proof.
  apply (raise_comms_lone_comm lone_comm ["x"; "c"; "y"]).
  - apply Forall_forall. intros x Hx. elem_cases Hx; by vm_compute.
  - by apply comms_unanchored_check_sound.
  - vm_compute. lia.
Defined.

(** X12: the two passes only reorder.  What [sink_waits] returns has the
    nodes of its input, is no longer than it, and is a permutation of it
    when no node is repeated (a wait that is repeated while it is pending
    is emitted once); what [raise_comms] returns is a permutation of its
    input. *)
Theorem cleanup_passes_permute (g : Graph) (l out : list Node) :
  (sink_waits g l = Ok out →
   (∀ x, x ∈ out ↔ x ∈ l) ∧ length out ≤ length l ∧
   (NoDup l → out ≡ₚ l)) ∧
  (raise_comms g l = Ok out → out ≡ₚ l).
Proof.
  split.
  - intros H. split; [by apply (sink_waits_elements g)|]. split.
    + apply sink_waits_Ok in H as [_ ->].
      pose proof (sunk_length g l ∅) as Hlen.
      rewrite size_empty in Hlen. lia.
    + intros Hn. by apply (sink_waits_Permutation g).
  - apply raise_comms_Permutation.
Qed.

Lemma cleanup_passes_permute_witness :
  sink_waits two_waits ["W2"; "C"; "W1"; "N"] = Ok ["C"; "W1"; "W2"; "N"] ∧
  ["C"; "W1"; "W2"; "N"] ≡ₚ ["W2"; "C"; "W1"; "N"] ∧
  sink_waits two_waits ["W1"; "W1"; "N"] = Ok ["W1"; "N"].
Proof.
  assert (sink_waits two_waits ["W2"; "C"; "W1"; "N"]
          = Ok ["C"; "W1"; "W2"; "N"]) as H by (by vm_compute).
  split; [done|]. split; [|by vm_compute].
  destruct (cleanup_passes_permute two_waits ["W2"; "C"; "W1"; "N"]
              ["C"; "W1"; "W2"; "N"]) as [Hs _].
  destruct (Hs H) as (_ & _ & Hp). apply Hp.
  by apply (bool_decide_unpack _).
Defined.

(** X13: the lists [sink_waits] returns unchanged are exactly those in
    sunk form (runs of waits in name order, each run closed by a node that
    uses every wait of the run, a last run closing the list), and the
    lists [raise_comms] returns unchanged are exactly those whose reversal
    is in raised form (runs of comms, each closed by a node that the last
    comm of the run takes, at most one comm closing the list). *)
Theorem cleanup_passes_fixed_points (g : Graph) (l : list Node) :
  (sink_waits g l = Ok l ↔
   Forall (λ n, has_fusion_meta g n = true) l ∧ sunk_form g l) ∧
  (raise_comms g l = Ok l ↔
   Forall (λ n, has_fusion_meta g n = true) l ∧ raised_form g (reverse l)).
Proof.
  split; [apply sink_waits_fixed|apply raise_comms_fixed].
Qed.

Lemma cleanup_passes_fixed_points_witness :
  sunk_form two_waits ["C"; "W1"; "W2"; "N"] ∧
  raised_form two_comms (reverse ["A"; "C1"; "C2"]).
Proof.
  split.
  - apply (cleanup_passes_fixed_points two_waits ["C"; "W1"; "W2"; "N"]).
    by vm_compute.
  - apply (cleanup_passes_fixed_points two_comms ["A"; "C1"; "C2"]).
    by vm_compute.
Defined.

(** X14: [sink_waits] leaves a list without waits as it is and
    [raise_comms] a list without comms; on a list with neither
    [dumb_reordering] returns the scheduler nodes in input order. *)
Theorem cleanup_passes_identity (g : Graph) (l : list Node) :
  Forall (λ n, has_fusion_meta g n = true) l →
  (Forall (λ n, is_kind g Wait n = false) l → sink_waits g l = Ok l) ∧
  (Forall (λ n, is_kind g CommStart n = false) l → raise_comms g l = Ok l) ∧
  (Forall (λ n, is_kind g Wait n = false) l →
   Forall (λ n, is_kind g CommStart n = false) l →
   dumb_reordering g l = mapM (snode g) l).
Proof.
  intros Hm.
  assert (Forall (λ n, is_kind g Wait n = false) l → sink_waits g l = Ok l)
    as Hs.
  { intros Hw. apply sink_waits_fixed. split; [done|].
    by apply sunk_form_no_waits. }
  assert (Forall (λ n, is_kind g CommStart n = false) l →
          raise_comms g l = Ok l) as Hr.
  { intros Hc. apply raise_comms_fixed. split; [done|].
    apply raised_form_no_comms. by rewrite Forall_reverse. }
  split; [done|]. split; [done|]. intros Hw Hc.
  unfold dumb_reordering. cbv zeta.
  rewrite (filter_all_true _ _ Hm), (Hs Hw). simpl. by rewrite (Hr Hc).
Qed.

Lemma cleanup_passes_identity_witness :
  dumb_reordering two_cycle ["b"; "a"]
  = Ok [{| get_name := "b"; ir_node := Compute |};
        {| get_name := "a"; ir_node := Compute |}].
Proof.
  destruct (cleanup_passes_identity two_cycle ["b"; "a"]) as (_ & _ & H).
  - apply Forall_forall. intros x Hx. elem_cases Hx; by vm_compute.
  - rewrite H; [by vm_compute| |];
      apply Forall_forall; intros x Hx; elem_cases Hx; by vm_compute.
Defined.

(** ** The schedulers *)

(** X10: on a graph whose [args] and [users] hold nodes,
    [smart_reordering] and [dumb_reordering] raise neither [KeyError] nor
    [IndexError]: every lookup of ["fusion_meta"] is behind the filter
    of the first line, every dict is read at a key it holds and every list
    at an index in range, so the only exception raised in them is
    [AssertionError]. *)
Theorem schedulers_raise_only_assertion (fuel : nat) (g : Graph)
    (cost : SchedulerNode → Q) (nodes : list Node) (e : exn) :
  (smart_reordering fuel g cost nodes = Raise e → e = AssertionError) ∧
  (dumb_reordering g nodes = Raise e → e = AssertionError).
Proof.
  split.
  - apply (roa_smart_reordering fuel g cost nodes).
  - apply (roa_dumb_reordering g nodes).
Qed.

Lemma schedulers_raise_only_assertion_witness :
  smart_reordering 5 comm_on_input scenario_cost ["p"; "c"; "w"]
    ≠ Raise KeyError ∧
  dumb_reordering no_meta ["x"] ≠ Raise KeyError.
Proof.
  split; intros H.
  - by apply (schedulers_raise_only_assertion 5 comm_on_input scenario_cost
                ["p"; "c"; "w"] KeyError) in H.
  - by apply (schedulers_raise_only_assertion 0 no_meta scenario_cost
                ["x"] KeyError) in H.
Defined.

(** X9: when the list holds two different comms and no comm of the list
    takes a node of the list that is not a comm (comms fed by graph inputs
    only, for instance), [dumb_reordering] raises [AssertionError] and
    [smart_reordering] never returns a sequence: it raises
    [AssertionError] whenever it does not run out of fuel. *)
Theorem schedulers_reject_unanchored_comms (g : Graph)
    (cost : SchedulerNode → Q) (nodes : list Node) (c1 c2 : Node) :
  comms_unanchored g nodes →
  c1 ∈ nodes → c2 ∈ nodes → c1 ≠ c2 →
  is_kind g CommStart c1 = true → is_kind g CommStart c2 = true →
  dumb_reordering g nodes = Raise AssertionError ∧
  (∀ fuel out, smart_reordering fuel g cost nodes ≠ Ok out) ∧
  (∀ fuel, smart_reordering fuel g cost nodes ≠ OutOfFuel →
           smart_reordering fuel g cost nodes = Raise AssertionError).
Proof.
  intros Hun H1 H2 Hne Hk1 Hk2.
  assert (∀ fuel out, smart_reordering fuel g cost nodes ≠ Ok out) as Hno.
  { intros fuel out. by apply (smart_reordering_two_unanchored _ _ _ _ _ c1 c2). }
  split; [by apply (dumb_reordering_two_unanchored g nodes c1 c2)|].
  split; [done|]. intros fuel Hterm.
  apply roa_Raise; [apply roa_smart_reordering|done|apply Hno].
Qed.

Lemma schedulers_reject_unanchored_comms_witness :
  dumb_reordering free_comms ["c1"; "c2"; "x"] = Raise AssertionError ∧
  smart_reordering 5 free_comms scenario_cost ["c1"; "c2"; "x"]
    = Raise AssertionError.
Proof.
  destruct (schedulers_reject_unanchored_comms free_comms scenario_cost
              ["c1"; "c2"; "x"] "c1" "c2") as (Hd & _ & Hs).
  - by apply comms_unanchored_check_sound.
  - by apply (bool_decide_unpack _).
  - by apply (bool_decide_unpack _).
  - done.
  - by vm_compute.
  - by vm_compute.
  - split; [done|]. apply Hs. by vm_compute.
Defined.

(** X11: [smart_reordering] asserts that every ancestor of the first comm
    is a node of the list that carries ["fusion_meta"].  When one is not
    (a graph input, say), it never returns a sequence, and it raises
    [AssertionError] as soon as the fuel lets [get_ancestors] and
    [get_descendants] finish. *)
Theorem smart_reordering_first_comm_ancestors (g : Graph)
    (cost : SchedulerNode → Q) (nodes : list Node) (c0 a : Node) :
  head (filter (λ n, is_kind g CommStart n = true)
          (filter (λ node, has_fusion_meta g node = true) nodes)) = Some c0 →
  reaches (args g) c0 a →
  a ∉ filter (λ node, has_fusion_meta g node = true) nodes →
  (∀ fuel out, smart_reordering fuel g cost nodes ≠ Ok out) ∧
  (∀ fuel (U : gset Node),
     (∀ x, x ∈ nodes → x ∈ U) →
     (∀ x y, x ∈ U → y ∈ args g x → y ∈ U) →
     (∀ x y, x ∈ U → y ∈ users g x → y ∈ U) →
     size U < fuel →
     smart_reordering fuel g cost nodes = Raise AssertionError).
Proof.
  intros Hhead Hreach Hnot. split.
  - intros fuel out.
    by apply (smart_reordering_missing_ancestor fuel g cost nodes c0 a).
  - intros fuel U HU Hargs Husers Hfuel.
    by apply (smart_reordering_missing_ancestor_raises fuel g cost nodes
                c0 a U).
Qed.

Lemma smart_reordering_first_comm_ancestors_witness :
  smart_reordering 4 comm_on_input scenario_cost ["p"; "c"; "w"]
    = Raise AssertionError ∧
  dumb_reordering comm_on_input ["p"; "c"; "w"]
    = Ok [{| get_name := "c"; ir_node := CommStart |};
          {| get_name := "w"; ir_node := Wait |}].
Proof.
  split; [|by vm_compute].
  destruct (smart_reordering_first_comm_ancestors comm_on_input scenario_cost
              ["p"; "c"; "w"] "c" "p") as [_ H].
  - by vm_compute.
  - apply reaches_once. by apply (bool_decide_unpack _).
  - by apply (bool_decide_unpack _).
  - apply (H 4 (list_to_set ["p"; "c"; "w"])).
    + intros x Hx. by apply elem_of_list_to_set.
    + by apply closed_check_set.
    + by apply closed_check_set.
    + vm_compute. lia.
Defined.

(** X15: a sequence [smart_reordering] returns holds exactly the nodes of
    the list that carry ["fusion_meta"], whatever the edges are; when the
    list holds a comm, no node is repeated in it, also when the list
    repeats one. *)
Theorem smart_reordering_output_nodes (fuel : nat) (g : Graph)
    (cost : SchedulerNode → Q) (nodes out : list Node) :
  smart_reordering fuel g cost nodes = Ok out →
  (∀ x, x ∈ out ↔ x ∈ nodes ∧ has_fusion_meta g x = true) ∧
  ((∃ c, c ∈ nodes ∧ is_kind g CommStart c = true) → NoDup out).
Proof.
  intros H. split.
  - by apply (smart_reordering_elements fuel g cost).
  - intros (c & Hc & Hk).
    by apply (smart_reordering_NoDup fuel g cost nodes out c).
Qed.

Lemma smart_reordering_output_nodes_witness :
  smart_reordering 9 (scenario false false) scenario_cost
    (scenario_nodes ++ ["D"])
    = Ok ["A"; "C1"; "W1"; "B"; "C2"; "W2"; "D"] ∧
  NoDup ["A"; "C1"; "W1"; "B"; "C2"; "W2"; "D"].
Proof.
  assert (smart_reordering 9 (scenario false false) scenario_cost
            (scenario_nodes ++ ["D"])
          = Ok ["A"; "C1"; "W1"; "B"; "C2"; "W2"; "D"]) as H
    by (by vm_compute).
  split; [done|].
  destruct (smart_reordering_output_nodes _ _ _ _ _ H) as [_ Hn].
  apply Hn. exists "C1". split; [by apply (bool_decide_unpack _)|].
  by vm_compute.
Defined.

(** X26: both schedulers return on a well-formed acyclic input in which
    the first comm takes a node that is not a comm.  For a list without
    repetition that is a topological order, with ["fusion_meta"] on every
    node and no wait taking a wait, [dumb_reordering] returns; and when the
    list is the whole graph (closed under [args] and [users])
    [smart_reordering] returns for every fuel above the length of the
    list: no assertion fails and no loop runs on. *)
Theorem schedulers_return (g : Graph) (cost : SchedulerNode → Q)
    (nodes : list Node) (c0 n : Node) :
  well_formed g → NoDup nodes → topological g nodes →
  no_wait_on_wait g nodes →
  Forall (λ x, has_fusion_meta g x = true) nodes →
  head (filter (λ x, is_kind g CommStart x = true) nodes) = Some c0 →
  n ∈ nodes → n ∈ args g c0 → is_kind g CommStart n = false →
  (∃ out, dumb_reordering g nodes = Ok out) ∧
  ((∀ x y, x ∈ nodes → y ∈ args g x → y ∈ nodes) →
   (∀ x y, x ∈ nodes → y ∈ users g x → y ∈ nodes) →
   ∀ fuel, length nodes < fuel →
           ∃ out, smart_reordering fuel g cost nodes = Ok out).
Proof.
  intros Hwf Hn Ht Hww Hm Hhead Hnl Hnc Hk. split.
  - by apply (dumb_reordering_returns g nodes c0 n).
  - intros Hargs Husers fuel Hfuel.
    by apply (smart_reordering_returns fuel g cost nodes c0 n).
Qed.

Lemma schedulers_return_witness :
  (∃ out, dumb_reordering (scenario false false) scenario_nodes = Ok out) ∧
  (∃ out, smart_reordering 8 (scenario false false) scenario_cost
            scenario_nodes = Ok out).
Proof.
  destruct (schedulers_return (scenario false false) scenario_cost
              scenario_nodes "C1" "A") as [Hd Hs].
  - apply scenario_well_formed.
  - by apply (bool_decide_unpack _).
  - by apply args_not_later_topological.
  - by apply no_wait_on_wait_check_sound.
  - apply Forall_forall. intros x Hx. unfold scenario_nodes in Hx.
    elem_cases Hx; by vm_compute.
  - by vm_compute.
  - by apply (bool_decide_unpack _).
  - by apply (bool_decide_unpack _).
  - by vm_compute.
  - split; [done|]. apply Hs.
    + by apply closed_check_sound.
    + by apply closed_check_sound.
    + vm_compute. lia.
Defined.

(** X27: on such an input the scheduling phase of [smart_reordering]
    always succeeds, whatever the comms take: the outcome of
    [smart_reordering] is the outcome of [raise_comms] on the sunk
    schedule, so the assertion of [raise_comms] is the only thing that can
    fail. *)
Theorem smart_reordering_fails_in_raise_comms_only (fuel : nat) (g : Graph)
    (cost : SchedulerNode → Q) (nodes : list Node) :
  well_formed g → NoDup nodes → topological g nodes →
  Forall (λ x, has_fusion_meta g x = true) nodes →
  (∀ x y, x ∈ nodes → y ∈ args g x → y ∈ nodes) →
  (∀ x y, x ∈ nodes → y ∈ users g x → y ∈ nodes) →
  length nodes < fuel →
  filter (λ x, is_kind g CommStart x = true) nodes ≠ [] →
  ∃ res sunk,
    schedule fuel g cost nodes
      (filter (λ x, is_kind g CommStart x = true) nodes) = Ok res ∧
    res ≡ₚ nodes ∧ topological g res ∧
    sink_waits g res = Ok sunk ∧
    smart_reordering fuel g cost nodes = raise_comms g sunk.
Proof.
  intros Hwf Hn Ht Hm Hargs Husers Hfuel Hne.
  destruct (schedule_returns fuel g cost nodes) as [res Hres]; try done.
  pose proof Hres as Hres'.
  apply schedule_topological in Hres' as (Hnr & Hinr & Htr); try done.
  assert (Forall (λ x, has_fusion_meta g x = true) res) as Hmr.
  { apply Forall_forall. intros x Hx%Hinr. by eapply Forall_forall in Hm. }
  exists res, (sunk g res ∅). split; [done|].
  split; [by apply NoDup_Permutation|]. split; [done|].
  assert (sink_waits g res = Ok (sunk g res ∅)) as Hs
    by (by apply sink_waits_Ok).
  split; [done|].
  rewrite smart_reordering_unfold. cbv zeta.
  rewrite (filter_all_true _ _ Hm).
  rewrite bool_decide_eq_false_2 by (by intros Hlen%length_zero_iff_nil).
  rewrite Hres. simpl. by rewrite Hs.
Qed.

Lemma smart_reordering_fails_in_raise_comms_only_witness :
  ∃ res sunk,
    schedule 5 free_comms scenario_cost ["c1"; "c2"; "x"]
      (filter (λ x, is_kind free_comms CommStart x = true)
         ["c1"; "c2"; "x"]) = Ok res ∧
    res ≡ₚ ["c1"; "c2"; "x"] ∧ topological free_comms res ∧
    sink_waits free_comms res = Ok sunk ∧
    smart_reordering 5 free_comms scenario_cost ["c1"; "c2"; "x"]
    = raise_comms free_comms sunk.
Proof.
  apply (smart_reordering_fails_in_raise_comms_only 5 free_comms
           scenario_cost ["c1"; "c2"; "x"]).
  - by apply graph_of_well_formed, (bool_decide_unpack _).
  - by apply (bool_decide_unpack _).
  - by apply args_not_later_topological.
  - apply Forall_forall. intros x Hx. elem_cases Hx; by vm_compute.
  - by apply closed_check_sound.
  - by apply closed_check_sound.
  - vm_compute. lia.
  - by vm_compute.
Defined.

(** ** Priority 2 *)

(** X16: the nodes Priority 2 schedules are not comms, were free when
    Priority 2 started (a node that becomes free during the loop is not
    considered), and are no descendants of the current comm; none is
    scheduled twice, and [total_cost] grows by their runtimes. *)
Theorem priority2_schedules (g : Graph) (cost : SchedulerNode → Q)
    (cs : Comms) (idx : nat) (st st' : State)
    (total_cost comm_cost total_cost' : Q) :
  priority2_step g cost cs idx st total_cost comm_cost
    = Ok (st', total_cost') →
  ∃ ext,
    result st' = result st ++ ext ∧ NoDup ext ∧
    unused_nodes st' = unused_nodes st ∖ list_to_set ext ∧
    total_cost' = foldl (λ acc n, (acc + runtime g cost n)%Q) total_cost ext ∧
    ∀ x, x ∈ ext →
      is_kind g CommStart x = false ∧ x ∈ free_nodes st ∧
      x ∈ unused_nodes st ∧
      ∀ prev D, comm_nodes cs !! (idx - 1) = Some prev →
                comm_descendants cs !! prev = Some D → x ∉ D.
Proof.
  intros H.
  apply priority2_step_spec in H as (ext & (Hr & Hu & Hn & Hin) & Htc & Hext).
  exists ext. split; [done|]. split; [done|]. split; [done|].
  split; [done|]. intros x Hx. destruct (Hext x Hx) as (Hk & Hf & HD).
  split; [done|]. split; [done|]. split; [by apply Hin|done].
Qed.

Lemma priority2_schedules_witness :
  ∃ ext,
    result (value (overlap_state, 0%Q)
              (priority2_step overlap overlap_cost overlap_comms 1
                 overlap_state 0 5)).1
    = ["A"; "C1"] ++ ext ∧ "E" ∈ ext.
Proof.
  destruct (priority2_schedules overlap overlap_cost overlap_comms 1
              overlap_state
              (value (overlap_state, 0%Q)
                 (priority2_step overlap overlap_cost overlap_comms 1
                    overlap_state 0 5)).1
              0 5
              (value (overlap_state, 0%Q)
                 (priority2_step overlap overlap_cost overlap_comms 1
                    overlap_state 0 5)).2)
    as (ext & Hr & _).
  - by vm_compute.
  - exists ext. split; [exact Hr|].
    assert (result (value (overlap_state, 0%Q)
                      (priority2_step overlap overlap_cost overlap_comms 1
                         overlap_state 0 5)).1 = ["A"; "C1"; "E"]) as Hres
      by (by vm_compute).
    rewrite Hres in Hr. change (result overlap_state) with ["A"; "C1"] in Hr.
    injection Hr as <-. by left.
Defined.


(** X18: [earliest_comm_descendant] returns the least index of a comm that
    has the node among its ancestors, and [len(comm_nodes)] when there is
    none. *)
Theorem earliest_comm_descendant_least (cs : Comms) (node : Node) (k : nat) :
  earliest_comm_descendant cs node = Ok k →
  k ≤ length (comm_nodes cs) ∧
  (k < length (comm_nodes cs) →
   ∃ c A, comm_nodes cs !! k = Some c ∧
          comm_ancestors cs !! c = Some A ∧ node ∈ A) ∧
  (∀ j c, j < k → comm_nodes cs !! j = Some c →
          ∃ A, comm_ancestors cs !! c = Some A ∧ node ∉ A).
Proof.
  intros H. unfold earliest_comm_descendant in H.
  apply earliest_from_spec in H
    as [[-> Hall]|(j & c & A & -> & Hj & HA & Hin & Hmin)].
  - split; [done|]. split; [lia|]. intros j c _ Hc. by apply (Hall j c).
  - simpl. pose proof (lookup_lt_Some _ _ _ Hj) as Hlt.
    split; [lia|]. split; [by eauto|]. intros j' c' Hlt' Hc'.
    by apply (Hmin j' c').
Qed.

Lemma earliest_comm_descendant_least_witness :
  1 ≤ length (comm_nodes filled_comms) ∧
  (1 < length (comm_nodes filled_comms) →
   ∃ c A, comm_nodes filled_comms !! 1 = Some c ∧
          comm_ancestors filled_comms !! c = Some A ∧ "B" ∈ A) ∧
  (∀ j c, j < 1 → comm_nodes filled_comms !! j = Some c →
          ∃ A, comm_ancestors filled_comms !! c = Some A ∧ "B" ∉ A).
Proof.
  apply (earliest_comm_descendant_least filled_comms "B" 1).
  by vm_compute.
Defined.

(** X19: [overlappable_nodes] after the second [sorted] is the list before
    it, rearranged so that a node needed by an earlier comm stands before
    a node needed by a later one or by none; nodes with the same key keep
    their order, which is name order. *)
Theorem overlappable_order (cs : Comms) (l out : list Node) :
  sorted_by_earliest cs l = Ok out →
  out ≡ₚ l ∧
  (∀ a b ka kb,
     before out a b →
     earliest_comm_descendant cs a = Ok ka →
     earliest_comm_descendant cs b = Ok kb → ka ≤ kb) ∧
  (∀ k, filter (λ n, earliest_comm_descendant cs n = Ok k) out
        = filter (λ n, earliest_comm_descendant cs n = Ok k) l).
Proof.
  intros H. split; [by apply (sorted_by_earliest_Permutation cs)|].
  split.
  - intros a b ka kb. by apply (sorted_by_earliest_ordered cs l out).
  - intros k. by apply sorted_by_earliest_stable.
Qed.

Lemma overlappable_order_witness :
  sorted_by_earliest filled_comms ["X"; "B"; "A"; "Y"]
    = Ok ["A"; "B"; "X"; "Y"] ∧
  ["A"; "B"; "X"; "Y"] ≡ₚ ["X"; "B"; "A"; "Y"].
Proof.
  assert (sorted_by_earliest filled_comms ["X"; "B"; "A"; "Y"]
          = Ok ["A"; "B"; "X"; "Y"]) as H by (by vm_compute).
  split; [done|].
  by destruct (overlappable_order filled_comms _ _ H) as [Hp _].
Defined.

(** ** [add_node] and [add_all_nodes] *)

(** X20: when [add_all_nodes] returns it has appended to [result] the
    nodes it was given, each once, and removed them from [unused_nodes];
    the only exception it raises is the [AssertionError] of its own first
    line, for a node that is not unused (the assertions of [add_node]
    cannot fail inside it); given no node it changes nothing. *)
Theorem add_all_nodes_schedules (fuel : nat) (g : Graph) (nodes : list Node)
    (st : State) :
  (∀ st', add_all_nodes fuel g nodes st = Ok st' →
     ∃ ext,
       result st' = result st ++ ext ∧ NoDup ext ∧
       (∀ x, x ∈ ext ↔ x ∈ nodes) ∧
       unused_nodes st' = unused_nodes st ∖ list_to_set nodes) ∧
  (∀ e, add_all_nodes fuel g nodes st = Raise e ↔
        e = AssertionError ∧ ∃ a, a ∈ nodes ∧ a ∉ unused_nodes st) ∧
  (nodes = [] → add_all_nodes fuel g nodes st = Ok st).
Proof.
  split; [|split].
  - intros st' H. by apply (add_all_nodes_exact fuel g).
  - intros e. apply add_all_nodes_Raise.
  - intros ->. apply add_all_nodes_nil.
Qed.

Lemma add_all_nodes_schedules_witness :
  ∃ ext,
    result filled_state = [] ++ ext ∧ NoDup ext ∧
    (∀ x, x ∈ ext ↔ x ∈ ["A"; "C1"]) ∧
    unused_nodes filled_state
    = unused_nodes (initial_state filled filled_nodes)
      ∖ list_to_set ["A"; "C1"].
Proof.
  destruct (add_all_nodes_schedules 5 filled ["A"; "C1"]
              (initial_state filled filled_nodes)) as [H _].
  apply (H filled_state). by vm_compute.
Defined.

(** X21: from a state reached by calls of [add_node] on a well-formed
    acyclic list, [add_all_nodes] returns when the nodes it is given hold
    every unscheduled argument of theirs that is a node of the list, and
    it never returns, for any fuel, when one of them has such an argument
    outside: the [while] loop has no check that a round scheduled
    anything. *)
Theorem add_all_nodes_returns_iff (g : Graph) (nodes pre l : list Node)
    (st : State) :
  well_formed g → NoDup nodes → topological g nodes →
  Forall (λ n, has_fusion_meta g n = true) nodes →
  add_nodes g pre (initial_state g nodes) = Ok st →
  (∀ z, z ∈ l → z ∈ nodes ∧ z ∉ pre) →
  ((∀ x y, x ∈ l → y ∈ nodes → y ∈ args g x → y ∉ pre → y ∈ l) →
   ∀ fuel, length nodes ≤ fuel →
           ∃ st', add_all_nodes fuel g l st = Ok st') ∧
  (∀ x y, x ∈ l → y ∈ nodes → y ∈ args g x → y ∉ pre → y ∉ l →
          ∀ fuel, add_all_nodes fuel g l st = OutOfFuel).
Proof.
  intros Hwf Hn Ht Hm Hpre Hl.
  destruct (add_nodes_Inv g nodes pre _ st Hwf Hn
              (initial_state_Inv g nodes Hwf Hm) Hpre) as [HI Hr].
  simpl in Hr.
  assert (∀ z, z ∈ l → z ∈ unused_nodes st) as Hlu.
  { intros z Hz. apply (inv_unused _ _ _ HI). rewrite Hr. by apply Hl. }
  split.
  - intros Hclosed fuel Hfuel.
    apply (add_all_nodes_closed_returns fuel g nodes l st); try done.
    rewrite Hr. exact Hclosed.
  - intros x y Hx Hy Hyx Hyp Hyl fuel.
    apply (add_all_nodes_not_closed fuel g nodes l st x y); try done.
    by rewrite Hr.
Qed.

Lemma add_all_nodes_returns_iff_witness :
  (∃ st', add_all_nodes 4 filled ["A"; "C1"]
            (initial_state filled filled_nodes) = Ok st') ∧
  (∀ fuel, add_all_nodes fuel filled ["C1"]
             (initial_state filled filled_nodes) = OutOfFuel).
Proof.
  assert (well_formed filled) as Hwf
    by (by apply graph_of_well_formed, (bool_decide_unpack _)).
  assert (NoDup filled_nodes) as Hn by (by apply (bool_decide_unpack _)).
  assert (topological filled filled_nodes) as Ht
    by (by apply args_not_later_topological).
  assert (Forall (λ n, has_fusion_meta filled n = true) filled_nodes) as Hm.
  { apply Forall_forall. intros x Hx. unfold filled_nodes in Hx.
    elem_cases Hx; by vm_compute. }
  split.
  - destruct (add_all_nodes_returns_iff filled filled_nodes [] ["A"; "C1"]
                (initial_state filled filled_nodes) Hwf Hn Ht Hm eq_refl)
      as [H _].
    + intros z Hz. split; [|by intros ?%elem_of_nil].
      elem_cases Hz; by apply (bool_decide_unpack _).
    + apply H; [|vm_compute; lia].
      intros x y Hx Hy Hyx _. elem_cases Hx.
      * change (y ∈ ([] : list Node)) in Hyx. by apply elem_of_nil in Hyx.
      * change (y ∈ ["A"]) in Hyx. elem_cases Hyx. by left.
  - destruct (add_all_nodes_returns_iff filled filled_nodes [] ["C1"]
                (initial_state filled filled_nodes) Hwf Hn Ht Hm eq_refl)
      as [_ H].
    + intros z Hz. split; [|by intros ?%elem_of_nil].
      elem_cases Hz; by apply (bool_decide_unpack _).
    + apply (H "C1" "A").
      * by left.
      * by apply (bool_decide_unpack _).
      * by apply (bool_decide_unpack _).
      * by intros ?%elem_of_nil.
      * by apply (bool_decide_unpack _).
Defined.

(** X22: on a well-formed graph and a list without repetition, the calls
    of [add_node] pass their assertions exactly for the sequences without
    repetition of nodes of the list in which every node stands after its
    arguments that are nodes of the list; after such a sequence [result]
    is the sequence, and [free_nodes] holds exactly the nodes of the list
    not yet scheduled whose arguments in the list are all scheduled. *)
Theorem add_node_accepts (g : Graph) (nodes l : list Node) :
  well_formed g → NoDup nodes →
  Forall (λ n, has_fusion_meta g n = true) nodes →
  ((∃ st, add_nodes g l (initial_state g nodes) = Ok st) ↔
   NoDup l ∧ (∀ x, x ∈ l → x ∈ nodes) ∧ args_first g nodes l) ∧
  (∀ st, add_nodes g l (initial_state g nodes) = Ok st →
     result st = l ∧
     ∀ v, v ∈ free_nodes st ↔
          v ∈ nodes ∧ (v ∉ l) ∧
          ∀ u, u ∈ args g v → u ∈ nodes → u ∈ l).
Proof.
  intros Hwf Hn Hm.
  pose proof (initial_state_Inv g nodes Hwf Hm) as HI0.
  assert (∀ st, add_nodes g l (initial_state g nodes) = Ok st →
                Inv g nodes st ∧ result st = l) as Hinv.
  { intros st H. by destruct (add_nodes_Inv g nodes l _ st Hwf Hn HI0 H). }
  split.
  - split.
    + intros [st H]. destruct (Hinv st H) as [HI Hr].
      split; [rewrite <- Hr; apply (inv_NoDup _ _ _ HI)|].
      split; [rewrite <- Hr; apply (inv_result _ _ _ HI)|].
      rewrite <- Hr. by apply Inv_args_first.
    + intros (Hnd & Hin & Hargs).
      by apply (add_nodes_accepts g nodes l (initial_state g nodes)).
  - intros st H. destruct (Hinv st H) as [HI Hr]. split; [done|].
    intros v. rewrite <- Hr. by apply Inv_free_args.
Qed.

Lemma add_node_accepts_witness :
  args_first filled filled_nodes ["A"; "B"; "C1"] ∧
  ¬ ∃ st, add_nodes filled ["C1"; "A"] (initial_state filled filled_nodes)
          = Ok st.
Proof.
  assert (well_formed filled) as Hwf
    by (by apply graph_of_well_formed, (bool_decide_unpack _)).
  assert (NoDup filled_nodes) as Hn by (by apply (bool_decide_unpack _)).
  assert (Forall (λ n, has_fusion_meta filled n = true) filled_nodes) as Hm.
  { apply Forall_forall. intros x Hx. unfold filled_nodes in Hx.
    elem_cases Hx; by vm_compute. }
  split.
  - destruct (add_node_accepts filled filled_nodes ["A"; "B"; "C1"]
                Hwf Hn Hm) as [[H _] _].
    apply H.
    exists (value (initial_state filled filled_nodes)
              (add_nodes filled ["A"; "B"; "C1"]
                 (initial_state filled filled_nodes))).
    by vm_compute.
  - intros [st H]. revert H. by vm_compute.
Defined.

(** X23: in the state [smart_reordering] starts from, [indeg] is defined
    exactly on the nodes of the list and counts, for each of them, the
    places of the list that hold an argument of it, and [free_nodes] holds
    exactly the nodes of the list none of whose arguments is in the list:
    arguments outside the list do not count. *)
Theorem initial_state_free (g : Graph) (nodes : list Node) (v : Node) :
  well_formed g →
  Forall (λ n, has_fusion_meta g n = true) nodes →
  (v ∈ free_nodes (initial_state g nodes) ↔
   v ∈ nodes ∧ ∀ u, u ∈ args g v → u ∉ nodes) ∧
  (v ∈ nodes →
   indeg (initial_state g nodes) !! v
   = Some (Z.of_nat (length (filter (λ u, u ∈ args g v) nodes)))) ∧
  (v ∉ nodes → indeg (initial_state g nodes) !! v = None).
Proof.
  intros Hwf Hm. pose proof (initial_state_Inv g nodes Hwf Hm) as HI.
  split; [|split].
  - rewrite (Inv_free_args g nodes _ v Hwf HI). simpl. split.
    + intros (Hv & _ & Hargs). split; [done|]. intros u Hu Hn.
      by apply (elem_of_nil u), Hargs.
    + intros [Hv Hargs]. split; [done|].
      split; [by intros ?%elem_of_nil|]. intros u Hu Hn.
      by destruct (Hargs u Hu).
  - intros Hv. rewrite (inv_indeg _ _ _ HI v Hv). simpl.
    rewrite pending_start. do 3 f_equal.
    apply filter_ext_in. intros u _. apply (users_args g Hwf).
  - apply (inv_indeg_dom _ _ _ HI).
Qed.

Lemma initial_state_free_witness :
  ("c" ∈ free_nodes (initial_state comm_on_input ["c"; "w"]) ↔
   "c" ∈ ["c"; "w"] ∧ ∀ u, u ∈ args comm_on_input "c" → u ∉ ["c"; "w"]) ∧
  "c" ∈ free_nodes (initial_state comm_on_input ["c"; "w"]).
Proof.
  split; [|by apply (bool_decide_unpack _)].
  apply (initial_state_free comm_on_input ["c"; "w"] "c").
  - by apply graph_of_well_formed, (bool_decide_unpack _).
  - apply Forall_forall. intros x Hx. elem_cases Hx; by vm_compute.
Defined.

(** ** The cost model and the ordering pass *)

(** X24: when the list holds one comm only, [smart_reordering] never
    consults the cost model: its outcome is the same for every cost
    function. *)
Theorem one_comm_cost_irrelevant (fuel : nat) (g : Graph)
    (cost cost' : SchedulerNode → Q) (nodes : list Node) :
  (∀ c1 c2, c1 ∈ nodes → c2 ∈ nodes →
            is_kind g CommStart c1 = true → is_kind g CommStart c2 = true →
            c1 = c2) →
  smart_reordering fuel g cost nodes = smart_reordering fuel g cost' nodes.
Proof.
  intros Hone. by apply smart_reordering_one_comm.
Qed.

Lemma one_comm_cost_irrelevant_witness :
  smart_reordering 6 two_waits scenario_cost ["C"; "W1"; "W2"; "N"]
  = smart_reordering 6 two_waits filled_cost ["C"; "W1"; "W2"; "N"].
Proof.
  apply (one_comm_cost_irrelevant 6 two_waits scenario_cost filled_cost).
  intros c1 c2 H1 H2 Hk1 Hk2.
  elem_cases H1; elem_cases H2; try done;
    (by vm_compute in Hk1) || (by vm_compute in Hk2).
Defined.

(** X25: [decide_global_ordering_comms] changes nothing when the list
    holds fewer than two comms; it leaves alone every node that is not a
    comm after the first one; it gives every later comm a [WeakDep] on the
    comm before it; and, run on scheduler nodes with distinct names and no
    dependencies yet, it leaves every later comm with that one dependency
    only. *)
Theorem ordering_deps (nodes : list SchedulerNode)
    (deps : gmap string (list Dep)) :
  let comm_nodes := filter (λ n, ir_node n = CommStart) nodes in
  (length comm_nodes ≤ 1 → decide_global_ordering_comms nodes deps = deps) ∧
  (∀ k, (∀ i c, comm_nodes !! S i = Some c → get_name c ≠ k) →
        decide_global_ordering_comms nodes deps !! k = deps !! k) ∧
  (∀ i earlier later,
     comm_nodes !! i = Some earlier → comm_nodes !! S i = Some later →
     WeakDep (get_name earlier)
     ∈ default [] (decide_global_ordering_comms nodes deps
                     !! get_name later)) ∧
  (NoDup (get_name <$> comm_nodes) →
   ∀ i earlier later,
     comm_nodes !! i = Some earlier → comm_nodes !! S i = Some later →
     decide_global_ordering_comms nodes ∅ !! get_name later
     = Some [WeakDep (get_name earlier)]).
Proof.
  intros comm_nodes. split; [|split; [|split]].
  - intros Hlen. rewrite decide_global_ordering_comms_fold.
    fold comm_nodes. by replace (length comm_nodes - 1) with 0 by lia.
  - intros k Hk. rewrite decide_global_ordering_comms_fold.
    apply ordering_untouched. intros i c _. apply Hk.
  - intros i earlier later. apply decide_global_ordering_comms_adds.
  - intros Hnd i earlier later Hi Hsi.
    rewrite decide_global_ordering_comms_fold.
    apply (ordering_fresh comm_nodes _ i earlier later); [done| |done|done].
    apply lookup_lt_Some in Hsi. fold comm_nodes. lia.
Qed.

Lemma ordering_deps_witness :
  decide_global_ordering_comms
    [{| get_name := "A"; ir_node := Compute |};
     {| get_name := "C1"; ir_node := CommStart |};
     {| get_name := "W1"; ir_node := Wait |};
     {| get_name := "C2"; ir_node := CommStart |}] ∅ !! "C2"
  = Some [WeakDep "C1"].
Proof.
  destruct (ordering_deps
              [{| get_name := "A"; ir_node := Compute |};
               {| get_name := "C1"; ir_node := CommStart |};
               {| get_name := "W1"; ir_node := Wait |};
               {| get_name := "C2"; ir_node := CommStart |}] ∅)
    as (_ & _ & _ & H).
  refine (H _ 0 {| get_name := "C1"; ir_node := CommStart |}
            {| get_name := "C2"; ir_node := CommStart |} _ _);
    [by apply (bool_decide_unpack _)|reflexivity|reflexivity].
Defined.

(** ** Topological validity *)

(** X28: let the node list be without repetition and a topological order
    of a graph whose [users] are the inverse of its [args], and let no
    wait of the list be an argument of another wait of the list.  Then
    every sequence [smart_reordering] returns is a topological order of
    the graph and a permutation of the nodes that carry ["fusion_meta"],
    and so is the sequence of nodes behind what [dumb_reordering]
    returns.  [smart_reordering] does return or fail an assertion: with
    more fuel than a finite set of nodes, closed under [args] and
    [users], that holds the list, it does not run out of fuel. *)
Theorem schedulers_topological (g : Graph) (cost : SchedulerNode → Q)
    (nodes : list Node) :
  well_formed g → NoDup nodes → topological g nodes →
  no_wait_on_wait g nodes →
  (∀ fuel out,
     smart_reordering fuel g cost nodes = Ok out →
     topological g out ∧
     out ≡ₚ filter (λ node, has_fusion_meta g node = true) nodes) ∧
  (∀ out,
     dumb_reordering g nodes = Ok out →
     ∃ order,
       Forall2 (λ n s, meta g n = Some s) order out ∧
       topological g order ∧
       order ≡ₚ filter (λ node, has_fusion_meta g node = true) nodes) ∧
  (∀ (U : gset Node) fuel,
     (∀ x, x ∈ nodes → x ∈ U) →
     (∀ x y, x ∈ U → y ∈ args g x → y ∈ U) →
     (∀ x y, x ∈ U → y ∈ users g x → y ∈ U) →
     size U < fuel →
     smart_reordering fuel g cost nodes ≠ OutOfFuel).
Proof.
  intros Hwf Hn Ht Hww. split; [|split].
  - intros fuel out H.
    destruct (smart_reordering_topological _ _ _ _ _ Hwf Hn Hww Ht H)
      as (Hn' & Hin & Ht').
    split; [done|]. apply NoDup_Permutation; [done|by apply NoDup_filter|].
    intros x. rewrite Hin, list_elem_of_filter. tauto.
  - intros out H.
    destruct (dumb_reordering_topological _ _ _ Hwf Hn Hww Ht H)
      as (order & HF & Hn' & Hin & Ht').
    exists order. split; [done|]. split; [done|].
    apply NoDup_Permutation; [done|by apply NoDup_filter|].
    intros x. rewrite Hin, list_elem_of_filter. tauto.
  - intros U fuel HU Hargs Husers Hfuel.
    by apply (smart_reordering_terminates fuel g cost nodes U).
Qed.

Lemma schedulers_topological_witness :
  NoDup scenario_nodes ∧
  topological (scenario false false) scenario_nodes ∧
  no_wait_on_wait (scenario false false) scenario_nodes ∧
  smart_reordering 8 (scenario false false) scenario_cost scenario_nodes
    = Ok ["A"; "C1"; "W1"; "B"; "C2"; "W2"; "D"] ∧
  topological (scenario false false) ["A"; "C1"; "W1"; "B"; "C2"; "W2"; "D"].
Proof.
  assert (NoDup scenario_nodes) as Hn by by apply (bool_decide_unpack _).
  assert (topological (scenario false false) scenario_nodes) as Ht
    by by apply args_not_later_topological.
  assert (no_wait_on_wait (scenario false false) scenario_nodes) as Hww
    by by apply no_wait_on_wait_check_sound.
  assert (smart_reordering 8 (scenario false false) scenario_cost scenario_nodes
          = Ok ["A"; "C1"; "W1"; "B"; "C2"; "W2"; "D"]) as Hout
    by by vm_compute.
  split; [done|]. split; [done|]. split; [done|]. split; [done|].
  destruct (schedulers_topological (scenario false false) scenario_cost
              scenario_nodes (scenario_well_formed false false) Hn Ht Hww)
    as (Hsmart & _ & _).
  by destruct (Hsmart 8 _ Hout).
Defined.
